(** * Linkding Sync: the two-way reconciliation core

    A shallow embedding of [src/sync.js] (path codec, initial sync
    strategies, incremental reconciler) and of the [SyncManager] of the
    background service worker, with the properties of the specification
    stated and settled against it.

    Conventions.
    - JavaScript strings are [string], one character per code unit;
      [s.length] is [String.length].
    - Identifiers of the two stores are opaque and modelled as [Z].
    - A JavaScript object or [Map] keyed by URL is an insertion-ordered
      association list ([JsMap]): [Object.entries] and [Map.keys] enumerate
      in insertion order and the order fixes the order of the API calls.
      The keys are URLs, never the name of a property every object has nor
      an array index, for which an object behaves differently.
    - [async] code that talks to the two stores is written in a state and
      exception monad over a [World]; an exception keeps the effects that
      happened before it, as in JavaScript. *)

From Stdlib Require Import String Ascii List ZArith Bool Lia Arith.
Import ListNotations.
Local Open Scope list_scope.
Local Open Scope string_scope.

Set Implicit Arguments.

(* ================================================================== *)
(** ** JavaScript string helpers *)
(* ================================================================== *)

Module JsString.

(** [t.startsWith(p)] *)
Definition startsWith (t p : string) : bool := String.prefix p t.

(** [s.slice(n)] for [0 <= n]: the suffix from index [n]. *)
Fixpoint slice (n : nat) (s : string) : string :=
  match n, s with
  | O, _ => s
  | S _, EmptyString => EmptyString
  | S n', String _ s' => slice n' s'
  end.

(** Truthiness of a string: only the empty string is falsy. *)
Definition truthy (s : string) : bool :=
  match s with EmptyString => false | String _ _ => true end.

(** [a || b] on strings. *)
Definition or_else (a b : string) : string := if truthy a then a else b.

(** [parts.join(sep)] *)
Fixpoint join (sep : string) (parts : list string) : string :=
  match parts with
  | [] => ""
  | [p] => p
  | p :: rest => p ++ sep ++ join sep rest
  end.

(** [s.includes(c)] for a one-character needle. *)
Fixpoint includes_char (c : ascii) (s : string) : bool :=
  match s with
  | EmptyString => false
  | String d s' => Ascii.eqb c d || includes_char c s'
  end.

(** [list.includes(x)] on a list of strings. *)
Definition includes (l : list string) (x : string) : bool :=
  existsb (String.eqb x) l.

Lemma prefix_app (p s : string) : String.prefix p (p ++ s) = true.
Proof.
  induction p as [|c p IH]; simpl.
  - destruct s; reflexivity.
  - destruct (ascii_dec c c) as [_|ne]; [exact IH | contradiction].
Qed.

Lemma prefix_length (p t : string) :
  String.prefix p t = true -> String.length p <= String.length t.
Proof.
  revert t; induction p as [|c p IH]; intros [|d t]; simpl; intros H;
    try lia; try discriminate.
  destruct (ascii_dec c d); [apply IH in H; lia | discriminate].
Qed.

Lemma append_assoc (a b c : string) : a ++ b ++ c = (a ++ b) ++ c.
Proof. induction a as [|x a IH]; simpl; [reflexivity | now rewrite IH]. Qed.

Lemma slice_app (p s : string) : slice (String.length p) (p ++ s) = s.
Proof. induction p as [|c p IH]; simpl; [reflexivity | exact IH]. Qed.

Lemma length_append (a b : string) :
  String.length (a ++ b) = String.length a + String.length b.
Proof. induction a as [|c a IH]; simpl; [reflexivity | now rewrite IH]. Qed.

Lemma truthy_false (s : string) : truthy s = false <-> s = "".
Proof. destruct s; simpl; split; congruence. Qed.

Lemma truthy_length (s : string) : truthy s = true <-> 0 < String.length s.
Proof. destruct s; simpl; split; intros; try lia; congruence. Qed.

Lemma includes_In (l : list string) (x : string) :
  includes l x = true <-> In x l.
Proof.
  unfold includes. rewrite existsb_exists. split.
  - intros [y [Hy He]]. apply String.eqb_eq in He. now subst.
  - intros H. exists x. split; [assumption | apply String.eqb_refl].
Qed.

End JsString.

Import JsString.

(* ================================================================== *)
(** ** Path codec  (sync.js, [buildTagsForPath] and [extractFolderPath]) *)
(* ================================================================== *)

(** [function buildTagsForPath(syncTag, folderPath)]:
    root-level bookmarks get [[syncTag]], nested ones
    [[syncTag, syncTag + "/" + folderPath]]. *)
Definition buildTagsForPath (syncTag folderPath : string) : list string :=
  if negb (truthy folderPath) then [syncTag]
  else [syncTag; syncTag ++ "/" ++ folderPath].

(** One turn of the [for (const t of tagNames)] loop of [extractFolderPath]. *)
Definition extract_step (prefix best t : string) : string :=
  if startsWith t prefix && (String.length best <? String.length t)%nat
  then t else best.

(** [function extractFolderPath(syncTag, tagNames)]: the longest tag of the
    form [syncTag/...], the first one on ties, with the prefix stripped. *)
Definition extractFolderPath (syncTag : string) (tagNames : list string) : string :=
  let prefix := syncTag ++ "/" in
  let best := fold_left (extract_step prefix) tagNames "" in
  if truthy best then slice (String.length prefix) best else "".

(** A path segment as the local store produces it: a folder title that is
    not empty and holds no path delimiter. *)
Definition segment_ok (seg : string) : Prop :=
  seg <> "" /\ includes_char "/"%char seg = false.

Section Codec.

Variable T : string.

Lemma syncTag_not_prefixed : startsWith T (T ++ "/") = false.
Proof.
  unfold startsWith.
  destruct (String.prefix (T ++ "/") T) eqn:E; [|reflexivity].
  apply prefix_length in E. rewrite length_append in E. simpl in E. lia.
Qed.

Lemma path_tag_prefixed (p : string) :
  startsWith (T ++ "/" ++ p) (T ++ "/") = true.
Proof. unfold startsWith. rewrite append_assoc. apply prefix_app. Qed.

(** The codec round trip holds for every string, well-formed or not. *)
Lemma extract_step_syncTag (best : string) :
  extract_step (T ++ "/") best T = best.
Proof. unfold extract_step. now rewrite syncTag_not_prefixed. Qed.

Lemma extract_step_path_tag (p : string) :
  extract_step (T ++ "/") "" (T ++ "/" ++ p) = T ++ "/" ++ p.
Proof.
  unfold extract_step. rewrite path_tag_prefixed. cbn [andb String.length].
  destruct (0 <? String.length (T ++ "/" ++ p))%nat eqn:L; [reflexivity|].
  apply Nat.ltb_ge in L. rewrite !length_append in L. simpl in L. lia.
Qed.

(** The codec round trip holds for every string, well-formed or not. *)
Lemma extract_build_any (p : string) :
  extractFolderPath T (buildTagsForPath T p) = p.
Proof.
  unfold buildTagsForPath, extractFolderPath.
  destruct (truthy p) eqn:Tp; cbn [negb fold_left];
    rewrite extract_step_syncTag.
  - rewrite extract_step_path_tag.
    assert (Tr : truthy (T ++ "/" ++ p) = true).
    { apply truthy_length. rewrite !length_append. simpl. lia. }
    rewrite Tr, append_assoc. apply slice_app.
  - cbn. symmetry. now apply truthy_false.
Qed.

End Codec.

(** C1. For every sync tag [T] and every path given as the ['/']-join of
    non-empty, delimiter-free segments, decoding the encoding gives the path
    back; the empty path encodes to [[T]] and decodes to the empty path. *)
Theorem codec_roundtrip (T : string) (segs : list string)
    (Hsegs : Forall segment_ok segs) :
  extractFolderPath T (buildTagsForPath T (join "/" segs)) = join "/" segs
  /\ buildTagsForPath T "" = [T]
  /\ extractFolderPath T [T] = "".
Proof.
  split; [apply extract_build_any|].
  split; [reflexivity|].
  exact (extract_build_any T "").
Qed.

Lemma codec_roundtrip_witness :
  Forall segment_ok ["Work"; "Projects"] /\
  extractFolderPath "bookmark-sync"
    (buildTagsForPath "bookmark-sync" (join "/" ["Work"; "Projects"]))
  = "Work/Projects".
Proof.
  assert (H : Forall segment_ok ["Work"; "Projects"]).
  { repeat constructor; try discriminate. }
  split; [exact H|].
  exact (proj1 (codec_roundtrip "bookmark-sync" H)).
Defined.

(* ================================================================== *)
(** ** Insertion-ordered maps keyed by strings *)
(* ================================================================== *)

(** A JavaScript object used as a dictionary ([mapping[url] = entry]) or a
    [Map] ([ldByUrl.set(url, bm)]): writing an existing key replaces the
    value in place, writing a new key appends it, and enumeration follows
    insertion order. *)
Module JsMap.

Definition t (V : Type) : Type := list (string * V).

Definition empty {V : Type} : t V := [].

Fixpoint get {V : Type} (m : t V) (k : string) : option V :=
  match m with
  | [] => None
  | (k', v) :: rest => if String.eqb k k' then Some v else get rest k
  end.

Definition has {V : Type} (m : t V) (k : string) : bool :=
  match get m k with Some _ => true | None => false end.

Fixpoint set {V : Type} (m : t V) (k : string) (v : V) : t V :=
  match m with
  | [] => [(k, v)]
  | (k', v') :: rest =>
      if String.eqb k k' then (k', v) :: rest else (k', v') :: set rest k v
  end.

Definition keys {V : Type} (m : t V) : list string := map fst m.

Definition entries {V : Type} (m : t V) : list (string * V) := m.

Definition size {V : Type} (m : t V) : Z := Z.of_nat (List.length m).

(** [for (const x of xs) m.set(key(x), x)] starting from an empty map. *)
Definition index_by {V : Type} (key : V -> string) (xs : list V) : t V :=
  fold_left (fun m x => set m (key x) x) xs empty.

Section Facts.
Context {V : Type}.
Implicit Types (m : t V) (k : string) (v : V).

Lemma get_set_same m k v : get (set m k v) k = Some v.
Proof.
  induction m as [|[k' v'] m IH]; simpl.
  - now rewrite String.eqb_refl.
  - destruct (String.eqb k k') eqn:E; simpl; rewrite E; [reflexivity | exact IH].
Qed.

Lemma get_set_other m k k' v : k' <> k -> get (set m k v) k' = get m k'.
Proof.
  intros Hne. induction m as [|[k0 v0] m IH]; simpl.
  - apply String.eqb_neq in Hne. now rewrite Hne.
  - destruct (String.eqb k k0) eqn:E; simpl.
    + apply String.eqb_eq in E. subst k0.
      apply String.eqb_neq in Hne. now rewrite Hne.
    + destruct (String.eqb k' k0); [reflexivity | exact IH].
Qed.

Lemma has_get m k : has m k = true <-> exists v, get m k = Some v.
Proof.
  unfold has. destruct (get m k) as [v|]; split; intros H;
    try discriminate; eauto.
  now destruct H.
Qed.

Lemma has_false_get m k : has m k = false <-> get m k = None.
Proof. unfold has. destruct (get m k); split; congruence. Qed.

Lemma get_In_keys m k v : get m k = Some v -> In k (keys m).
Proof.
  induction m as [|[k' v'] m IH]; simpl; [discriminate|].
  destruct (String.eqb k k') eqn:E.
  - apply String.eqb_eq in E. now left.
  - intros H. right. now apply IH.
Qed.

Lemma In_keys_get m k : In k (keys m) -> exists v, get m k = Some v.
Proof.
  induction m as [|[k' v'] m IH]; simpl; [tauto|].
  intros [->|H].
  - rewrite String.eqb_refl. eauto.
  - destruct (String.eqb k k'); eauto.
Qed.

Lemma keys_set_in m k v : In k (keys m) -> keys (set m k v) = keys m.
Proof.
  induction m as [|[k' v'] m IH]; simpl; [tauto|].
  destruct (String.eqb k k') eqn:E; simpl; [reflexivity|].
  intros [->|H]; [now rewrite String.eqb_refl in E | now rewrite IH].
Qed.

Lemma keys_set_new m k v : ~ In k (keys m) -> keys (set m k v) = (keys m ++ [k])%list.
Proof.
  induction m as [|[k' v'] m IH]; simpl; [reflexivity|].
  intros H. destruct (String.eqb k k') eqn:E; simpl.
  - apply String.eqb_eq in E. subst k'. tauto.
  - rewrite IH; [reflexivity | tauto].
Qed.

Lemma keys_set_NoDup m k v : NoDup (keys m) -> NoDup (keys (set m k v)).
Proof.
  intros ND. destruct (in_dec string_dec k (keys m)) as [i|n].
  - now rewrite keys_set_in.
  - rewrite keys_set_new by assumption.
    apply NoDup_app; [assumption | |].
    + constructor; [intros [] | constructor].
    + intros x Hx [<-|[]]. contradiction.
Qed.



Lemma has_In_keys m k : has m k = true <-> In k (keys m).
Proof.
  rewrite has_get. split.
  - intros [v H]. eapply get_In_keys. exact H.
  - apply In_keys_get.
Qed.

Lemma get_entries_In m k v : get m k = Some v -> In (k, v) (entries m).
Proof.
  unfold entries. induction m as [|[k' v'] m IH]; simpl; [discriminate|].
  destruct (String.eqb k k') eqn:E.
  - apply String.eqb_eq in E. intros [= ->]. left. now subst.
  - intros H. right. now apply IH.
Qed.

End Facts.

Lemma index_by_key {V : Type} (key : V -> string) (xs : list V) k v :
  get (index_by key xs) k = Some v -> key v = k /\ In v xs.
Proof.
  unfold index_by.
  assert (G : forall (m : t V),
            (forall k v, get m k = Some v -> key v = k /\ In v xs) ->
            forall xs', (forall x, In x xs' -> In x xs) ->
            forall k v, get (fold_left (fun m x => set m (key x) x) xs' m) k = Some v ->
                        key v = k /\ In v xs).
  { intros m Hm xs'. revert m Hm.
    induction xs' as [|x xs' IH]; intros m Hm Hsub k0 v0; simpl; [apply Hm|].
    apply IH.
    - intros k1 v1. destruct (string_dec k1 (key x)) as [->|ne].
      + rewrite get_set_same. intros [= <-]. split; [reflexivity|].
        apply Hsub. now left.
      + rewrite get_set_other by assumption. apply Hm.
    - intros y Hy. apply Hsub. now right. }
  apply (G empty); [discriminate | auto].
Qed.

End JsMap.

(* ================================================================== *)
(** ** Data model *)
(* ================================================================== *)

Local Open Scope Z_scope.

(** A bookmark as the Linkding API returns it.  [ld_date_modified] is the
    millisecond reading of [new Date(bm.date_modified).getTime()], [None]
    when the field is missing or empty. *)
Record LdBookmark := mkLd {
  ld_id : Z;
  ld_url : string;
  ld_title : string;
  ld_tag_names : list string;
  ld_date_modified : option Z
}.

(** An element of the array built by [getChromeBookmarksRecursive];
    [c_dateAdded] is [cbm.dateAdded || 0]. *)
Record ChromeBookmark := mkCbm {
  c_id : Z;
  c_url : string;
  c_title : string;
  c_dateAdded : Z;
  c_folderPath : string
}.

(** A value of the persisted object [twoWayMapping], keyed by URL.  The
    code reads [entry.folderPath || ""] and [entry.lastSynced || 0]: an
    entry that lacks one of the two fields is modelled with [""] or [0]
    there. *)
Record MappingEntry := mkEntry {
  e_linkdingId : Z;
  e_chromeId : Z;
  e_title : string;
  e_url : string;
  e_folderPath : string;
  e_lastSynced : Z
}.

Definition Mapping := JsMap.t MappingEntry.

(** A node of the browser's bookmark tree: a bookmark has a url, a folder
    has children ([if (child.url)] tells them apart). *)
#[warnings="-register-all"]
Inductive BNode : Type :=
| Bookmark (id : Z) (title url : string) (dateAdded : Z)
| Folder (id : Z) (title : string) (children : list BNode).

(** The subset of [chrome.storage.sync] settings the two-way sync reads. *)
Record Settings := mkSettings {
  s_url : string;
  s_token : string;
  s_twoWayEnabled : bool;
  s_twoWaySyncTag : string;
  s_twoWaySyncFolderId : option Z;
  s_twoWayInitialSyncDone : bool;
  s_twoWayLastSyncTime : option Z
}.

(** The JSON body [updateLinkdingBookmark] sends: a field is present only
    when the corresponding argument passes its guard.  The only description
    the sync ever sends is [JSON.stringify({ order })] for the config
    bookmark; it is kept as the array [order] it encodes. *)
Record UpdateBody := mkBody {
  b_url : option string;
  b_title : option string;
  b_description : option (list string);
  b_tag_names : option (list string)
}.

(** Calls that reach one of the two stores. *)
Inductive Call : Type :=
| LdFetch (tag : string)
| LdCreate (url title : string) (description : option (list string))
           (tag_names : list string)
| LdUpdate (id : Z) (body : UpdateBody)
| LdDelete (id : Z)
| ChCreate (parentId : Z) (title : string) (url : option string)
| ChUpdate (id : Z) (title : string)
| ChMove (id parentId : Z)
| ChRemove (id : Z)
| ChRemoveTree (id : Z).

(** The bookmark titled [CONFIG_TITLE] as [fetchConfig] reads it: its id
    and [JSON.parse(description).order], [None] when the description does
    not parse or holds no array [order]. *)
Record ConfigBookmark := mkConfig {
  cfg_id : Z;
  cfg_order : option (list string)
}.

(** What the server answers to the search for the config bookmark
    ([/api/bookmarks/?q=Linkding%20Sync%20Config&limit=1]): the request
    fails, the response is not [ok], or the response holds the results, among
    which [results.find(bm => bm.title === CONFIG_TITLE)] picks at most one.
    The query is evaluated by the server, so the answer is an input of the
    run, like [w_fails]. *)
Inductive SearchAnswer : Type :=
| SearchRejected
| SearchNotOk
| SearchResults (hit : option ConfigBookmark).

(** Everything a run reads or writes.  [w_fails] says which calls the
    environment rejects (an HTTP error, a browser API error); [w_config] is
    its answer to the search for the config bookmark; [w_log] keeps the
    writes issued to the two stores, oldest first; [w_console] keeps the
    [console.error] lines.  One run is modelled at a single clock reading
    [w_now]: every [Date.now()] of the run returns it. *)
Record World := mkWorld {
  w_settings : Settings;
  w_remote : list LdBookmark;
  w_next_ld : Z;
  w_chrome : BNode;
  w_next_chrome : Z;
  w_mapping : Mapping;
  w_config : SearchAnswer;
  w_now : Z;
  w_fails : Call -> bool;
  w_log : list Call;
  w_console : list string
}.

Definition set_settings (s : Settings) (w : World) : World :=
  mkWorld s (w_remote w) (w_next_ld w) (w_chrome w) (w_next_chrome w)
          (w_mapping w) (w_config w) (w_now w) (w_fails w) (w_log w)
          (w_console w).

Definition set_remote (r : list LdBookmark) (next : Z) (w : World) : World :=
  mkWorld (w_settings w) r next (w_chrome w) (w_next_chrome w)
          (w_mapping w) (w_config w) (w_now w) (w_fails w) (w_log w)
          (w_console w).

Definition set_chrome (c : BNode) (next : Z) (w : World) : World :=
  mkWorld (w_settings w) (w_remote w) (w_next_ld w) c next
          (w_mapping w) (w_config w) (w_now w) (w_fails w) (w_log w)
          (w_console w).

Definition set_mapping (m : Mapping) (w : World) : World :=
  mkWorld (w_settings w) (w_remote w) (w_next_ld w) (w_chrome w)
          (w_next_chrome w) m (w_config w) (w_now w) (w_fails w)
          (w_log w) (w_console w).

Definition add_log (c : Call) (w : World) : World :=
  mkWorld (w_settings w) (w_remote w) (w_next_ld w) (w_chrome w)
          (w_next_chrome w) (w_mapping w) (w_config w) (w_now w)
          (w_fails w) (w_log w ++ [c])%list (w_console w).

Definition add_console (line : string) (w : World) : World :=
  mkWorld (w_settings w) (w_remote w) (w_next_ld w) (w_chrome w)
          (w_next_chrome w) (w_mapping w) (w_config w) (w_now w)
          (w_fails w) (w_log w) (w_console w ++ [line])%list.

(* ================================================================== *)
(** ** The monad of [async] store code *)
(* ================================================================== *)

(** A computation either returns or throws an [Error(msg)]; in both cases
    the effects already performed stay in the world. *)
Inductive Res (A : Type) : Type :=
| Ok (a : A)
| Throw (msg : string).

Arguments Ok {A} a.
Arguments Throw {A} msg.

Definition M (A : Type) : Type := World -> Res A * World.

Definition ret {A : Type} (a : A) : M A := fun w => (Ok a, w).

Definition bind {A B : Type} (m : M A) (k : A -> M B) : M B :=
  fun w => match m w with
           | (Ok a, w') => k a w'
           | (Throw msg, w') => (Throw msg, w')
           end.

Definition throw {A : Type} (msg : string) : M A := fun w => (Throw msg, w).

(** [try { m } catch (e) { handler(e) }] *)
Definition try_catch {A : Type} (m : M A) (handler : string -> M A) : M A :=
  fun w => match m w with
           | (Ok a, w') => (Ok a, w')
           | (Throw msg, w') => handler msg w'
           end.

Definition gets {A : Type} (f : World -> A) : M A := fun w => (Ok (f w), w).

Definition modify (f : World -> World) : M unit := fun w => (Ok tt, f w).

Declare Scope sync_scope.
Delimit Scope sync_scope with sync.

Notation "x <- m ;; k" := (bind m (fun x => k))
  (at level 61, m at next level, right associativity) : sync_scope.
Notation "m ;;; k" := (bind m (fun _ => k))
  (at level 61, right associativity) : sync_scope.

Local Open Scope sync_scope.

(** [for (const x of xs) acc = await body(acc, x)]: the loop stops at the
    first exception. *)
Fixpoint forM {A S : Type} (xs : list A) (body : S -> A -> M S) (s : S) : M S :=
  match xs with
  | [] => ret s
  | x :: rest => s' <- body s x ;; forM rest body s'
  end.

(** [if (c) await m] *)
Definition when (c : bool) (m : M unit) : M unit := if c then m else ret tt.

(* ================================================================== *)
(** ** The browser's bookmark tree ([chrome.bookmarks]) *)
(* ================================================================== *)

Module Chrome.

Definition node_id (n : BNode) : Z :=
  match n with Bookmark i _ _ _ => i | Folder i _ _ => i end.

(** The node with the given id, searched from [n] downwards. *)
Fixpoint find_node (id : Z) (n : BNode) {struct n} : option BNode :=
  if Z.eqb (node_id n) id then Some n
  else match n with
       | Bookmark _ _ _ _ => None
       | Folder _ _ ch =>
           (fix first (l : list BNode) : option BNode :=
              match l with
              | [] => None
              | c :: r => match find_node id c with
                          | Some x => Some x
                          | None => first r
                          end
              end) ch
       end.

(** Replace the children [ch] of folder [id] by [f ch]. *)
Fixpoint modify_folder (id : Z) (f : list BNode -> list BNode) (n : BNode)
  {struct n} : BNode :=
  match n with
  | Bookmark _ _ _ _ => n
  | Folder i t ch =>
      let ch' := map (modify_folder id f) ch in
      Folder i t (if Z.eqb i id then f ch' else ch')
  end.

(** Detach the node [id] from wherever it hangs. *)
Fixpoint delete_node (id : Z) (n : BNode) {struct n} : BNode :=
  match n with
  | Bookmark _ _ _ _ => n
  | Folder i t ch =>
      Folder i t (filter (fun c => negb (Z.eqb (node_id c) id))
                         (map (delete_node id) ch))
  end.

(** Give node [id] the title [title]. *)
Fixpoint retitle (id : Z) (title : string) (n : BNode) {struct n} : BNode :=
  match n with
  | Bookmark i t u d => if Z.eqb i id then Bookmark i title u d else n
  | Folder i t ch =>
      Folder i (if Z.eqb i id then title else t) (map (retitle id title) ch)
  end.

Definition not_found : string := "Can't find bookmark for id.".

(** Every write is logged and may be rejected by the environment. *)
Definition issue (c : Call) : M unit :=
  modify (add_log c) ;;;
  rejected <- gets (fun w => w_fails w c) ;;
  if rejected then throw "Browser API call failed." else ret tt.

(** [chrome.bookmarks.get(id)] *)
Definition get (id : Z) : M BNode :=
  tree <- gets w_chrome ;;
  match find_node id tree with
  | Some n => ret n
  | None => throw not_found
  end.

(** [chrome.bookmarks.getChildren(id)] *)
Definition getChildren (id : Z) : M (list BNode) :=
  n <- get id ;;
  match n with
  | Folder _ _ ch => ret ch
  | Bookmark _ _ _ _ => ret []
  end.

(** [chrome.bookmarks.create({ parentId, title, url })]: the new node gets
    a fresh id and goes last among the children of the parent. *)
Definition create (parentId : Z) (title : string) (url : option string)
  : M BNode :=
  issue (ChCreate parentId title url) ;;;
  parent <- get parentId ;;
  match parent with
  | Bookmark _ _ _ _ => throw "Can't find parent bookmark for id."
  | Folder _ _ _ =>
      id <- gets w_next_chrome ;;
      now <- gets w_now ;;
      let node := match url with
                  | Some u => Bookmark id title u now
                  | None => Folder id title []
                  end in
      modify (fun w => set_chrome
                (modify_folder parentId (fun ch => ch ++ [node])%list (w_chrome w))
                (id + 1) w) ;;;
      ret node
  end.

(** [chrome.bookmarks.update(id, { title })] *)
Definition update (id : Z) (title : string) : M unit :=
  issue (ChUpdate id title) ;;;
  _ <- get id ;;
  modify (fun w => set_chrome (retitle id title (w_chrome w)) (w_next_chrome w) w).

(** [chrome.bookmarks.move(id, { parentId })]: the node goes last among
    the children of its new parent. *)
Definition move (id parentId : Z) : M unit :=
  issue (ChMove id parentId) ;;;
  node <- get id ;;
  parent <- get parentId ;;
  match parent with
  | Bookmark _ _ _ _ => throw "Can't find parent bookmark for id."
  | Folder _ _ _ =>
      modify (fun w => set_chrome
                (modify_folder parentId (fun ch => ch ++ [node])%list
                               (delete_node id (w_chrome w)))
                (w_next_chrome w) w)
  end.

(** [chrome.bookmarks.remove(id)]: a bookmark or an empty folder. *)
Definition remove (id : Z) : M unit :=
  issue (ChRemove id) ;;;
  node <- get id ;;
  match node with
  | Folder _ _ (_ :: _) => throw "Can't remove non-empty folder (use recursive)."
  | _ => modify (fun w => set_chrome (delete_node id (w_chrome w)) (w_next_chrome w) w)
  end.

(** [chrome.bookmarks.removeTree(id)] *)
Definition removeTree (id : Z) : M unit :=
  issue (ChRemoveTree id) ;;;
  _ <- get id ;;
  modify (fun w => set_chrome (delete_node id (w_chrome w)) (w_next_chrome w) w).

End Chrome.

(* ================================================================== *)
(** ** The Linkding REST client *)
(* ================================================================== *)

(** The server is modelled as the list of its bookmarks.  A [PUT] replaces
    the fields present in the body and leaves the others; every write stamps
    [date_modified] with the clock.  The description of a bookmark is not
    kept in [LdBookmark]: the sync reads it only through the search for the
    config bookmark. *)

Definition has_tag (tag : string) (bm : LdBookmark) : bool :=
  includes (ld_tag_names bm) tag.

(** [fetchBookmarksWithTag(baseUrl, token, tag)]: all pages, then the
    filter on the exact tag.  The text of the error is the server's
    ([`API ${resp.status}: ${resp.statusText} ${body}`]); "API error"
    stands for it. *)
Definition fetchBookmarksWithTag (tag : string) : M (list LdBookmark) :=
  rejected <- gets (fun w => w_fails w (LdFetch tag)) ;;
  if rejected then throw "API error"
  else all <- gets w_remote ;; ret (filter (has_tag tag) all).

(** [createLinkdingBookmark(baseUrl, token, { url, title, description,
    tagNames })]: the body carries [title || url]; [description] is [None]
    where the caller passes none ([JSON.stringify] drops the field). *)
Definition createLinkdingBookmark (url title : string)
    (description : option (list string)) (tagNames : list string)
  : M LdBookmark :=
  let call := LdCreate url (or_else title url) description tagNames in
  modify (add_log call) ;;;
  rejected <- gets (fun w => w_fails w call) ;;
  if rejected then throw "Create failed"
  else
    id <- gets w_next_ld ;;
    now <- gets w_now ;;
    let bm := mkLd id url (or_else title url) tagNames (Some now) in
    modify (fun w => set_remote (w_remote w ++ [bm])%list (id + 1) w) ;;;
    ret bm.

(** The [bodyData] object of [updateLinkdingBookmark]:
    [if (url) bodyData.url = url; if (title) bodyData.title = title;
     if (description !== undefined) bodyData.description = description;
     if (tag_names) bodyData.tag_names = tag_names;].
    A [url] or [title] the caller leaves out is the empty string here (both
    are falsy); a [description] or [tag_names] it leaves out is [None] (an
    array, even empty, is truthy). *)
Definition updateBody (url title : string) (description : option (list string))
    (tag_names : option (list string)) : UpdateBody :=
  mkBody (if truthy url then Some url else None)
         (if truthy title then Some title else None)
         description
         tag_names.

(** What the server does with the body of an update.  The server is not
    part of the repository: it is taken here to keep every field the body
    leaves out, as the caller counts on ("Safest to just send what we
    have").  The comments of [updateLinkdingBookmark] leave open that the
    server replaces the whole resource and wipes such a field instead. *)
Definition apply_body (body : UpdateBody) (now : Z) (bm : LdBookmark) : LdBookmark :=
  mkLd (ld_id bm)
       (match b_url body with Some u => u | None => ld_url bm end)
       (match b_title body with Some t => t | None => ld_title bm end)
       (match b_tag_names body with Some ts => ts | None => ld_tag_names bm end)
       (Some now).

(** [updateLinkdingBookmark(baseUrl, token, id, { url, title, description,
    tag_names })]: an unknown id is a 404 and throws like any other
    failure. *)
Definition updateLinkdingBookmark (id : Z) (url title : string)
    (description : option (list string)) (tag_names : option (list string))
  : M unit :=
  let body := updateBody url title description tag_names in
  modify (add_log (LdUpdate id body)) ;;;
  rejected <- gets (fun w => w_fails w (LdUpdate id body)) ;;
  if rejected then throw "Update failed"
  else
    all <- gets w_remote ;;
    if existsb (fun bm => Z.eqb (ld_id bm) id) all then
      now <- gets w_now ;;
      modify (fun w => set_remote
                (map (fun bm => if Z.eqb (ld_id bm) id then apply_body body now bm else bm)
                     (w_remote w))
                (w_next_ld w) w)
    else throw "Update failed 404".

(** [deleteLinkdingBookmark(baseUrl, token, id)]: a 404 is not an error. *)
Definition deleteLinkdingBookmark (id : Z) : M unit :=
  modify (add_log (LdDelete id)) ;;;
  rejected <- gets (fun w => w_fails w (LdDelete id)) ;;
  if rejected then throw "Delete failed"
  else modify (fun w => set_remote
                 (filter (fun bm => negb (Z.eqb (ld_id bm) id)) (w_remote w))
                 (w_next_ld w) w).

(** [getSettings()], [getMapping()], [setMapping(mapping)] *)
Definition getSettings : M Settings := gets w_settings.
Definition getMapping : M Mapping := gets w_mapping.
Definition setMapping (m : Mapping) : M unit := modify (set_mapping m).

(** [chrome.storage.sync.set({ twoWayLastSyncTime: Date.now() })] *)
Definition storeLastSyncTime : M unit :=
  modify (fun w =>
    let s := w_settings w in
    set_settings (mkSettings (s_url s) (s_token s) (s_twoWayEnabled s)
                             (s_twoWaySyncTag s) (s_twoWaySyncFolderId s)
                             (s_twoWayInitialSyncDone s) (Some (w_now w))) w).

(** [chrome.storage.sync.set({ twoWayInitialSyncDone: true,
                               twoWayLastSyncTime: Date.now() })] *)
Definition storeInitialSyncDone : M unit :=
  modify (fun w =>
    let s := w_settings w in
    set_settings (mkSettings (s_url s) (s_token s) (s_twoWayEnabled s)
                             (s_twoWaySyncTag s) (s_twoWaySyncFolderId s)
                             true (Some (w_now w))) w).

(** [const CONFIG_TITLE = "Linkding Sync Config"] *)
Definition CONFIG_TITLE : string := "Linkding Sync Config".

(** [fetchConfig(baseUrl, token)] followed by the test of its callers,
    [config && Array.isArray(config.order)]: the array [config.order], or
    [None].  A failed request is caught and reported on the console. *)
Definition fetchConfigOrder : M (option (list string)) :=
  answer <- gets w_config ;;
  match answer with
  | SearchRejected =>
      modify (add_console "Failed to fetch config") ;;; ret None
  | SearchNotOk => ret None
  | SearchResults None => ret None
  | SearchResults (Some configBm) => ret (cfg_order configBm)
  end.

(** [saveConfig(baseUrl, token, orderData, existingId)] for
    [orderData = { order }].  [if (existingId)] fails for [null] and for
    the id 0.  A failed update is only reported; a failed creation is
    reported and thrown again. *)
Definition saveConfig (order : list string) (existingId : option Z) : M unit :=
  let create :=
    try_catch
      (_ <- createLinkdingBookmark "http://example.com/?linkding-sync-config"
              CONFIG_TITLE (Some order) ["bookmark-sync-config"] ;;
       ret tt)
      (fun e => modify (add_console ("Failed to create config bookmark " ++ e)) ;;;
                throw e) in
  match existingId with
  | Some id =>
      if Z.eqb id 0 then create
      else try_catch
             (updateLinkdingBookmark id "" "" (Some order) None)
             (fun e => modify (add_console ("Failed to update config bookmark " ++ e)))
  | None => create
  end.

(* ================================================================== *)
(** ** Helpers of sync.js *)
(* ================================================================== *)

(** [s.split("/")] *)
Fixpoint split_slash (s : string) : list string :=
  match s with
  | EmptyString => [""]
  | String c s' =>
      if Ascii.eqb c "/"%char then "" :: split_slash s'
      else match split_slash s' with
           | [] => [String c ""]
           | h :: t => String c h :: t
           end
  end.

(** [[...new Set(xs)]]: first occurrences, in order. *)
Definition dedupe (xs : list string) : list string :=
  fold_left (fun seen x => if includes seen x then seen else (seen ++ [x])%list) xs [].

(** [a !== b] on strings. *)
Definition str_neq (a b : string) : bool := negb (String.eqb a b).

(** [merged.length !== old.length || !merged.every(t => old.includes(t))] *)
Definition tags_changed (merged old : list string) : bool :=
  negb (Nat.eqb (List.length merged) (List.length old))
  || negb (forallb (fun t => includes old t) merged).

(** [async function getOrCreateFolder(name, parentId)] *)
Definition getOrCreateFolder (name : string) (parentId : Z) : M Z :=
  children <- Chrome.getChildren parentId ;;
  match find (fun n => match n with
                       | Folder _ t _ => String.eqb t name
                       | Bookmark _ _ _ _ => false
                       end) children with
  | Some existing => ret (Chrome.node_id existing)
  | None =>
      created <- Chrome.create parentId name None ;;
      ret (Chrome.node_id created)
  end.

(** [async function removeChildrenOf(folderId)] *)
Definition removeChildrenOf (folderId : Z) : M unit :=
  children <- Chrome.getChildren folderId ;;
  forM children
       (fun _ child => match child with
                       | Bookmark i _ _ _ => Chrome.remove i
                       | Folder i _ _ => Chrome.removeTree i
                       end) tt.

(** The body of [getChromeBookmarksRecursive] for one child and everything
    below it.  The source reads the children of a subfolder with another
    [getChildren(child.id)]; ids are unique in the browser's tree, so that
    call returns the children held by the node itself. *)
Fixpoint collectBookmarks (prefix : string) (child : BNode) {struct child}
  : list ChromeBookmark :=
  match child with
  | Bookmark i t u d => [mkCbm i u t d prefix]
  | Folder _ t ch =>
      let subPath := if truthy prefix then prefix ++ "/" ++ t else t in
      flat_map (collectBookmarks subPath) ch
  end.

(** [async function getChromeBookmarksRecursive(folderId, prefix)] *)
Definition getChromeBookmarksRecursive (folderId : Z) (prefix : string)
  : M (list ChromeBookmark) :=
  children <- Chrome.getChildren folderId ;;
  ret (flat_map (collectBookmarks prefix) children).

(** [async function ensureFolderPath(rootFolderId, folderPath)] *)
Definition ensureFolderPath (rootFolderId : Z) (folderPath : string) : M Z :=
  if negb (truthy folderPath) then ret rootFolderId
  else forM (split_slash folderPath)
            (fun currentId part => getOrCreateFolder part currentId)
            rootFolderId.

(** [async function processBatch(items, limit, fn)] at [limit = 1], the only
    value the callers pass: the items are handled one after the other, and
    an exception of [fn(item)] is caught, reported on the console and
    replaced by [null].  The callbacks of the callers write their closure
    variables only after their last [await], so a caught exception leaves
    the accumulator [s] as it was before the item. *)
Definition processBatch {A S : Type} (items : list A) (fn : S -> A -> M S) (s : S)
  : M S :=
  forM items
       (fun s item =>
          try_catch (fn s item)
                    (fun e => modify (add_console ("Batch item failed: " ++ e)) ;;;
                              ret s))
       s.

(** [Number.MAX_SAFE_INTEGER] *)
Definition MAX_SAFE_INTEGER : Z := 9007199254740991.

(** [orderMap.has(u) ? orderMap.get(u) : Number.MAX_SAFE_INTEGER] where
    [order.forEach((u, i) => orderMap.set(u, i))]: the last index of [u]. *)
Fixpoint order_rank_from (i : Z) (order : list string) (u : string) (found : Z) : Z :=
  match order with
  | [] => found
  | v :: rest =>
      order_rank_from (i + 1) rest u (if String.eqb u v then i else found)
  end.

Definition order_rank (order : list string) (u : string) : Z :=
  order_rank_from 0 order u MAX_SAFE_INTEGER.

(** [xs.sort((a, b) => rank(a) - rank(b))]; the sort of the engine is
    stable. *)
Fixpoint insert_by {A : Type} (rank : A -> Z) (x : A) (sorted : list A) : list A :=
  match sorted with
  | [] => [x]
  | y :: rest =>
      if Z.leb (rank y) (rank x) then y :: insert_by rank x rest
      else x :: y :: rest
  end.

Definition sort_by {A : Type} (rank : A -> Z) (xs : list A) : list A :=
  fold_left (fun sorted x => insert_by rank x sorted) xs [].

(** [[...new Set([...ld.tag_names, ...tags])]] *)
Definition mergeTags (ldTags tags : list string) : list string :=
  dedupe (ldTags ++ tags)%list.

(** The guards every entry point starts with: settings, then
    [chrome.bookmarks.get(twoWaySyncFolderId)]. *)
Definition verifyFolder (folderId : Z) : M unit :=
  try_catch (_ <- Chrome.get folderId ;; ret tt)
            (fun _ => throw "Selected two-way sync folder no longer exists.").

(* ================================================================== *)
(** ** Initial sync strategies  ([runInitialTwoWaySync]) *)
(* ================================================================== *)

(** The closure variables [mapping], [added], [updated], [downloaded]. *)
Record InitAcc := mkInitAcc {
  i_mapping : Mapping;
  i_added : Z;
  i_updated : Z;
  i_downloaded : Z
}.

Record InitResult := mkInitResult {
  ir_added : Z;
  ir_updated : Z;
  ir_downloaded : Z;
  ir_total : Z;
  ir_configError : option string
}.

Section Initial.

Variable twoWaySyncTag : string.
Variable twoWaySyncFolderId : Z.
Variable ldByUrl : JsMap.t LdBookmark.
Variable chromeByUrl : JsMap.t ChromeBookmark.

(** The callback of the "push" batch. *)
Definition pushItem (acc : InitAcc) (cbm : ChromeBookmark) : M InitAcc :=
  let tags := buildTagsForPath twoWaySyncTag (c_folderPath cbm) in
  match JsMap.get ldByUrl (c_url cbm) with
  | Some ld =>
      let mergedTags := mergeTags (ld_tag_names ld) tags in
      when (tags_changed mergedTags (ld_tag_names ld))
           (updateLinkdingBookmark (ld_id ld) (ld_url ld) (ld_title ld) None
                                   (Some mergedTags)) ;;;
      now <- gets w_now ;;
      ret (mkInitAcc
             (JsMap.set (i_mapping acc) (c_url cbm)
                (mkEntry (ld_id ld) (c_id cbm) (c_title cbm) (c_url cbm)
                         (c_folderPath cbm) now))
             (i_added acc) (i_updated acc + 1) (i_downloaded acc))
  | None =>
      created <- createLinkdingBookmark (c_url cbm) (c_title cbm) None tags ;;
      now <- gets w_now ;;
      ret (mkInitAcc
             (JsMap.set (i_mapping acc) (c_url cbm)
                (mkEntry (ld_id created) (c_id cbm) (c_title cbm) (c_url cbm)
                         (c_folderPath cbm) now))
             (i_added acc + 1) (i_updated acc) (i_downloaded acc))
  end.

(** The callback of the "pull" batch. *)
Definition pullItem (acc : InitAcc) (ld : LdBookmark) : M InitAcc :=
  let folderPath := extractFolderPath twoWaySyncTag (ld_tag_names ld) in
  parentId <- ensureFolderPath twoWaySyncFolderId folderPath ;;
  let title := or_else (ld_title ld) (ld_url ld) in
  created <- Chrome.create parentId title (Some (ld_url ld)) ;;
  now <- gets w_now ;;
  ret (mkInitAcc
         (JsMap.set (i_mapping acc) (ld_url ld)
            (mkEntry (ld_id ld) (Chrome.node_id created) title (ld_url ld)
                     folderPath now))
         (i_added acc) (i_updated acc) (i_downloaded acc + 1)).

(** The body of [for (const url of sortedUrls)] in "merge". *)
Definition mergeItem (acc : InitAcc) (url : string) : M InitAcc :=
  match JsMap.get ldByUrl url, JsMap.get chromeByUrl url with
  | Some ld, Some cbm =>
      let ldDate := match ld_date_modified ld with Some d => d | None => 0 end in
      let chromeDate := c_dateAdded cbm in
      let title := if Z.ltb chromeDate ldDate
                   then or_else (ld_title ld) (ld_url ld) else c_title cbm in
      when (str_neq title (c_title cbm)) (Chrome.update (c_id cbm) title) ;;;
      let tags := buildTagsForPath twoWaySyncTag (c_folderPath cbm) in
      let mergedTags := mergeTags (ld_tag_names ld) tags in
      when (tags_changed mergedTags (ld_tag_names ld))
           (updateLinkdingBookmark (ld_id ld) (ld_url ld) title None (Some mergedTags)) ;;;
      now <- gets w_now ;;
      ret (mkInitAcc
             (JsMap.set (i_mapping acc) url
                (mkEntry (ld_id ld) (c_id cbm) title url (c_folderPath cbm) now))
             (i_added acc) (i_updated acc + 1) (i_downloaded acc))
  | None, Some cbm =>
      let tags := buildTagsForPath twoWaySyncTag (c_folderPath cbm) in
      created <- createLinkdingBookmark (c_url cbm) (c_title cbm) None tags ;;
      now <- gets w_now ;;
      ret (mkInitAcc
             (JsMap.set (i_mapping acc) url
                (mkEntry (ld_id created) (c_id cbm) (c_title cbm) url
                         (c_folderPath cbm) now))
             (i_added acc + 1) (i_updated acc) (i_downloaded acc))
  | Some ld, None =>
      let folderPath := extractFolderPath twoWaySyncTag (ld_tag_names ld) in
      parentId <- ensureFolderPath twoWaySyncFolderId folderPath ;;
      created <- Chrome.create parentId (or_else (ld_title ld) (ld_url ld))
                               (Some (ld_url ld)) ;;
      now <- gets w_now ;;
      ret (mkInitAcc
             (JsMap.set (i_mapping acc) url
                (mkEntry (ld_id ld) (Chrome.node_id created)
                         (or_else (ld_title ld) (ld_url ld)) url folderPath now))
             (i_added acc) (i_updated acc) (i_downloaded acc + 1))
  | None, None => ret acc
  end.

End Initial.

Definition initAcc0 : InitAcc := mkInitAcc JsMap.empty 0 0 0.

(** The three branches of [if (mode === "push") ... else if (mode === "pull")
    ... else if (mode === "merge") ...]; any other mode does nothing. *)
Definition runStrategy (mode : string) (tag : string) (root : Z)
    (ldBookmarks : list LdBookmark) (chromeBookmarks : list ChromeBookmark)
  : M InitAcc :=
  let ldByUrl := JsMap.index_by ld_url ldBookmarks in
  let chromeByUrl := JsMap.index_by c_url chromeBookmarks in
  if String.eqb mode "push" then
    processBatch chromeBookmarks (pushItem tag ldByUrl) initAcc0
  else if String.eqb mode "pull" then
    config <- fetchConfigOrder ;;
    let sorted := match config with
                  | Some order => sort_by (fun bm => order_rank order (ld_url bm)) ldBookmarks
                  | None => ldBookmarks
                  end in
    removeChildrenOf root ;;;
    processBatch sorted (pullItem tag root) initAcc0
  else if String.eqb mode "merge" then
    let urls := dedupe (JsMap.keys ldByUrl ++ JsMap.keys chromeByUrl)%list in
    config <- fetchConfigOrder ;;
    let existingOrder := match config with Some order => order | None => [] end in
    let sortedUrls := match existingOrder with
                      | [] => urls
                      | _ :: _ => sort_by (order_rank existingOrder) urls
                      end in
    forM sortedUrls (mergeItem tag root ldByUrl chromeByUrl) initAcc0
  else ret initAcc0.

(** The block "Force-create config bookmark so it exists immediately" that
    ends [runInitialTwoWaySync]: the order of the local bookmarks is saved
    in the config bookmark, updated when the search finds it and created
    otherwise.  Whatever the block throws is caught and becomes the
    [configError] of the result. *)
Definition refreshConfig (root : Z) : M (option string) :=
  try_catch
    (finalChromeBookmarks <- getChromeBookmarksRecursive root "" ;;
     let newOrder := map c_url finalChromeBookmarks in
     answer <- gets w_config ;;
     match answer with
     | SearchRejected => throw "Failed to fetch"
     | SearchNotOk =>
         modify (add_console "Failed to search for config bookmark") ;;;
         saveConfig newOrder None ;;;
         ret None
     | SearchResults existing =>
         saveConfig newOrder (option_map cfg_id existing) ;;;
         ret None
     end)
    (fun e =>
       modify (add_console ("Failed to create/update initial config " ++ e)) ;;;
       ret (Some e)).

(** [async function runInitialTwoWaySync(mode, onProgress)], without the
    progress callbacks. *)
Definition runInitialTwoWaySync (mode : string) : M InitResult :=
  settings <- getSettings ;;
  if negb (truthy (s_url settings)) || negb (truthy (s_token settings))
  then throw "Missing URL or API token."
  else match s_twoWaySyncFolderId settings with
       | None => throw "No two-way sync folder selected."
       | Some root =>
           verifyFolder root ;;;
           ldBookmarks <- fetchBookmarksWithTag (s_twoWaySyncTag settings) ;;
           chromeBookmarks <- getChromeBookmarksRecursive root "" ;;
           acc <- runStrategy mode (s_twoWaySyncTag settings) root
                              ldBookmarks chromeBookmarks ;;
           setMapping (i_mapping acc) ;;;
           storeInitialSyncDone ;;;
           configError <- refreshConfig root ;;
           ret (mkInitResult (i_added acc) (i_updated acc) (i_downloaded acc)
                             (JsMap.size (i_mapping acc)) configError)
       end.

(* ================================================================== *)
(** ** Incremental reconciler  ([runTwoWaySync]) *)
(* ================================================================== *)

(** The closure variables [newMapping], [added], [removed], [updated]. *)
Record Acc := mkAcc {
  newMapping : Mapping;
  added : Z;
  removed : Z;
  updated : Z
}.

Record SyncResult := mkSyncResult {
  r_added : Z;
  r_removed : Z;
  r_updated : Z;
  r_total : Z
}.

(** The four [let] variables the conflict rules assign. *)
Record Resolution := mkResolution {
  needsLdUpdate : bool;
  needsChromeUpdate : bool;
  finalTitle : string;
  finalFolderPath : string
}.

(** [ld.date_modified ? new Date(ld.date_modified).getTime() : 0] *)
Definition ldDateOf (ld : LdBookmark) : Z :=
  match ld_date_modified ld with Some d => d | None => 0 end.

(** "Title changes": the three-way [if] on the titles. *)
Definition resolveTitle (entry : MappingEntry) (chromeTitle ldTitle : string)
    (ldDate : Z) (r : Resolution) : Resolution :=
  if str_neq chromeTitle (e_title entry) && String.eqb ldTitle (e_title entry) then
    mkResolution true (needsChromeUpdate r) chromeTitle (finalFolderPath r)
  else if str_neq ldTitle (e_title entry) && String.eqb chromeTitle (e_title entry) then
    mkResolution (needsLdUpdate r) true ldTitle (finalFolderPath r)
  else if str_neq ldTitle (e_title entry) && str_neq chromeTitle (e_title entry) then
    let mappedTime := e_lastSynced entry in   (* entry.lastSynced || 0 *)
    if Z.ltb mappedTime ldDate then
      mkResolution (needsLdUpdate r) true ldTitle (finalFolderPath r)
    else
      mkResolution true (needsChromeUpdate r) chromeTitle (finalFolderPath r)
  else r.

(** "Folder path changes": the three-way [if] on the paths. *)
Definition resolvePath (mappedFolderPath chromeFolderPath ldFolderPath : string)
    (r : Resolution) : Resolution :=
  if str_neq chromeFolderPath mappedFolderPath
     && String.eqb ldFolderPath mappedFolderPath then
    mkResolution true (needsChromeUpdate r) (finalTitle r) chromeFolderPath
  else if str_neq ldFolderPath mappedFolderPath
          && String.eqb chromeFolderPath mappedFolderPath then
    mkResolution (needsLdUpdate r) true (finalTitle r) ldFolderPath
  else if str_neq ldFolderPath mappedFolderPath
          && str_neq chromeFolderPath mappedFolderPath then
    mkResolution true (needsChromeUpdate r) (finalTitle r) chromeFolderPath
  else r.

(** The decisions taken for an entry present on both sides. *)
Definition resolve (tag : string) (entry : MappingEntry) (cbm : ChromeBookmark)
    (ld : LdBookmark) : Resolution :=
  let chromeTitle := c_title cbm in
  let ldTitle := or_else (ld_title ld) (ld_url ld) in
  let chromeFolderPath := c_folderPath cbm in
  let ldFolderPath := extractFolderPath tag (ld_tag_names ld) in
  let mappedFolderPath := or_else (e_folderPath entry) "" in
  let r0 := mkResolution false false (e_title entry) mappedFolderPath in
  let r1 := resolveTitle entry chromeTitle ldTitle (ldDateOf ld) r0 in
  resolvePath mappedFolderPath chromeFolderPath ldFolderPath r1.

(** [ld.tag_names.filter(t => t !== twoWaySyncTag && !t.startsWith(pathPrefix))] *)
Definition otherTags (tag : string) (tag_names : list string) : list string :=
  filter (fun t => str_neq t tag && negb (startsWith t (tag ++ "/"))) tag_names.

(** [[...buildTagsForPath(twoWaySyncTag, finalFolderPath), ...otherTags]] *)
Definition newTags (tag : string) (path : string) (tag_names : list string)
  : list string :=
  (buildTagsForPath tag path ++ otherTags tag tag_names)%list.

Section Incremental.

Variable twoWaySyncTag : string.
Variable twoWaySyncFolderId : Z.
Variable mapping : Mapping.
Variable ldByUrl : JsMap.t LdBookmark.
Variable chromeByUrl : JsMap.t ChromeBookmark.

(** 1. URLs in Chrome but not in the mapping. *)
Definition syncNewChrome (acc : Acc) (cbm : ChromeBookmark) : M Acc :=
  if negb (JsMap.has mapping (c_url cbm)) then
    let tags := buildTagsForPath twoWaySyncTag (c_folderPath cbm) in
    match JsMap.get ldByUrl (c_url cbm) with
    | None =>
        created <- createLinkdingBookmark (c_url cbm) (c_title cbm) None tags ;;
        now <- gets w_now ;;
        ret (mkAcc
               (JsMap.set (newMapping acc) (c_url cbm)
                  (mkEntry (ld_id created) (c_id cbm) (c_title cbm) (c_url cbm)
                           (c_folderPath cbm) now))
               (added acc + 1) (removed acc) (updated acc))
    | Some ld =>
        let mergedTags := mergeTags (ld_tag_names ld) tags in
        when (tags_changed mergedTags (ld_tag_names ld))
             (updateLinkdingBookmark (ld_id ld) (ld_url ld) (ld_title ld) None
                                   (Some mergedTags)) ;;;
        now <- gets w_now ;;
        ret (mkAcc
               (JsMap.set (newMapping acc) (c_url cbm)
                  (mkEntry (ld_id ld) (c_id cbm) (c_title cbm) (c_url cbm)
                           (c_folderPath cbm) now))
               (added acc) (removed acc) (updated acc))
    end
  else ret acc.

(** 2. URLs in Linkding but not in the mapping. *)
Definition syncNewLinkding (acc : Acc) (ld : LdBookmark) : M Acc :=
  if negb (JsMap.has mapping (ld_url ld)) && negb (JsMap.has chromeByUrl (ld_url ld))
  then
    let folderPath := extractFolderPath twoWaySyncTag (ld_tag_names ld) in
    parentId <- ensureFolderPath twoWaySyncFolderId folderPath ;;
    created <- Chrome.create parentId (or_else (ld_title ld) (ld_url ld))
                             (Some (ld_url ld)) ;;
    now <- gets w_now ;;
    ret (mkAcc
           (JsMap.set (newMapping acc) (ld_url ld)
              (mkEntry (ld_id ld) (Chrome.node_id created)
                       (or_else (ld_title ld) (ld_url ld)) (ld_url ld)
                       folderPath now))
           (added acc + 1) (removed acc) (updated acc))
  else ret acc.

(** The remote write under [if (needsLdUpdate)]: the path tags are
    replaced, the other tags kept. *)
Definition correctLinkding (r : Resolution) (ld : LdBookmark) : M unit :=
  updateLinkdingBookmark (ld_id ld) (ld_url ld) (finalTitle r) None
    (Some (newTags twoWaySyncTag (finalFolderPath r) (ld_tag_names ld))).

(** The local writes under [if (needsChromeUpdate)]: retitle, then move. *)
Definition correctChrome (r : Resolution) (cbm : ChromeBookmark) : M unit :=
  when (str_neq (finalTitle r) (c_title cbm))
       (Chrome.update (c_id cbm) (finalTitle r)) ;;;
  when (str_neq (finalFolderPath r) (c_folderPath cbm))
       (newParentId <- ensureFolderPath twoWaySyncFolderId (finalFolderPath r) ;;
        Chrome.move (c_id cbm) newParentId).

(** The entry written for a key present on both sides: the first
    assignment to [newMapping[url]], overwritten by the second one when
    neither side needs an update. *)
Definition mergedEntry (url : string) (entry : MappingEntry)
    (cbm : ChromeBookmark) (ld : LdBookmark) (now : Z) : MappingEntry :=
  let r := resolve twoWaySyncTag entry cbm ld in
  if negb (needsLdUpdate r) && negb (needsChromeUpdate r)
  then mkEntry (ld_id ld) (c_id cbm) (e_title entry) (e_url entry)
               (c_folderPath cbm) (e_lastSynced entry)
  else mkEntry (ld_id ld) (c_id cbm) (finalTitle r) url (finalFolderPath r) now.

(** The corrective writes and the mapping writes for an entry present on
    both sides. *)
Definition syncBoth (acc : Acc) (url : string) (entry : MappingEntry)
    (cbm : ChromeBookmark) (ld : LdBookmark) : M Acc :=
  let r := resolve twoWaySyncTag entry cbm ld in
  when (needsLdUpdate r) (correctLinkding r ld) ;;;
  let updated1 := if needsLdUpdate r then updated acc + 1 else updated acc in
  when (needsChromeUpdate r) (correctChrome r cbm) ;;;
  let updated2 := if needsChromeUpdate r then updated1 + 1 else updated1 in
  now <- gets w_now ;;
  let m1 := JsMap.set (newMapping acc) url
              (mkEntry (ld_id ld) (c_id cbm) (finalTitle r) url
                       (finalFolderPath r) now) in
  let m2 := if negb (needsLdUpdate r) && negb (needsChromeUpdate r)
            then JsMap.set m1 url
                   (mkEntry (ld_id ld) (c_id cbm) (e_title entry) (e_url entry)
                            (c_folderPath cbm) (e_lastSynced entry))
            else m1 in
  ret (mkAcc m2 (added acc) (removed acc) updated2).

(** 3. The body of [for (const [url, entry] of Object.entries(mapping))]. *)
Definition syncMapped (acc : Acc) (ue : string * MappingEntry) : M Acc :=
  let (url, entry) := ue in
  match JsMap.get chromeByUrl url, JsMap.get ldByUrl url with
  | None, None =>
      ret (mkAcc (newMapping acc) (added acc) (removed acc + 1) (updated acc))
  | None, Some ld =>
      deleteLinkdingBookmark (ld_id ld) ;;;
      ret (mkAcc (newMapping acc) (added acc) (removed acc + 1) (updated acc))
  | Some _, None =>
      try_catch (Chrome.remove (e_chromeId entry)) (fun _ => ret tt) ;;;
      ret (mkAcc (newMapping acc) (added acc) (removed acc + 1) (updated acc))
  | Some cbm, Some ld => syncBoth acc url entry cbm ld
  end.

End Incremental.

Definition acc0 : Acc := mkAcc JsMap.empty 0 0 0.

(** The three passes of [runTwoWaySync] over the fetched snapshot. *)
Definition reconcile (tag : string) (root : Z) (mapping : Mapping)
    (ldBookmarks : list LdBookmark) (chromeBookmarks : list ChromeBookmark)
  : M Acc :=
  let ldByUrl := JsMap.index_by ld_url ldBookmarks in
  let chromeByUrl := JsMap.index_by c_url chromeBookmarks in
  a1 <- forM chromeBookmarks (syncNewChrome tag mapping ldByUrl) acc0 ;;
  a2 <- forM ldBookmarks (syncNewLinkding tag root mapping chromeByUrl) a1 ;;
  forM (JsMap.entries mapping) (syncMapped tag root ldByUrl chromeByUrl) a2.

(** [async function runTwoWaySync(onProgress)] (progress callbacks left
    out). *)
Definition runTwoWaySync : M SyncResult :=
  settings <- getSettings ;;
  if negb (s_twoWayEnabled settings) then throw "Two-way sync is not enabled."
  else if negb (truthy (s_url settings)) || negb (truthy (s_token settings))
  then throw "Missing URL or API token."
  else match s_twoWaySyncFolderId settings with
       | None => throw "No two-way sync folder selected."
       | Some root =>
           if negb (s_twoWayInitialSyncDone settings)
           then throw "Initial sync has not been completed yet."
           else
             verifyFolder root ;;;
             ldBookmarks <- fetchBookmarksWithTag (s_twoWaySyncTag settings) ;;
             chromeBookmarks <- getChromeBookmarksRecursive root "" ;;
             mapping <- getMapping ;;
             acc <- reconcile (s_twoWaySyncTag settings) root mapping
                              ldBookmarks chromeBookmarks ;;
             setMapping (newMapping acc) ;;;
             storeLastSyncTime ;;;
             ret (mkSyncResult (added acc) (removed acc) (updated acc)
                               (JsMap.size (newMapping acc)))
       end.


(* ================================================================== *)
(** ** The [SyncManager] of the background service worker *)
(* ================================================================== *)

Module SyncManager.

(** The function handed to [SyncManager.run]. *)
Inductive Job : Type :=
| JobRunSync
| JobRunInitialTwoWaySync (mode : string)
| JobRunTwoWaySync.

(** The fields [isSyncing] and [queuedTwoWay]; [debounceArmed] stands for
    a pending [debounceTimer]. *)
Record State := mkState {
  isSyncing : bool;
  queuedTwoWay : bool;
  debounceArmed : bool
}.

(** What a call [SyncManager.run(type, func)] does at once: it starts
    [func], or returns [undefined] after setting the flag, or throws. *)
Inductive Outcome : Type :=
| Started (job : Job)
| Queued
| Busy (msg : string).

(** [async run(type, func, ...args)] up to the first [await]. *)
Definition run (type : string) (func : Job) (s : State) : State * Outcome :=
  if isSyncing s then
    if String.eqb type "twoWay"
    then (mkState (isSyncing s) true (debounceArmed s), Queued)
    else (s, Busy "Sync is already in progress.")
  else (mkState true (queuedTwoWay s) (debounceArmed s), Started func).

(** [checkQueue()] *)
Definition checkQueue (s : State) : State * list Outcome :=
  if queuedTwoWay s then
    let (s', o) := run "twoWay" JobRunTwoWaySync
                       (mkState (isSyncing s) false (debounceArmed s)) in
    (s', [o])
  else (s, []).

(** The [finally] block of [run], entered when the promise of the running
    function settles. *)
Definition settle (s : State) : State * list Outcome :=
  checkQueue (mkState false (queuedTwoWay s) (debounceArmed s)).

(** [requestDebouncedTwoWaySync()]: (re)arm the two-second timer. *)
Definition requestDebouncedTwoWaySync (s : State) : State :=
  mkState (isSyncing s) (queuedTwoWay s) true.

(** The timer callback; [settingsOk] is
    [settings.twoWayEnabled && settings.twoWayInitialSyncDone]. *)
Definition debounceElapsed (settingsOk : bool) (s : State) : State * list Outcome :=
  let s0 := mkState (isSyncing s) (queuedTwoWay s) false in
  if negb settingsOk then (s0, [])
  else if isSyncing s0
       then (mkState (isSyncing s0) true (debounceArmed s0), [])
       else let (s', o) := run "twoWay" JobRunTwoWaySync s0 in (s', [o]).

(** Who asks for a run.  The first three are the messages of the popup
    ([msg.action] = "sync", "twoWayInitialSync", "twoWaySync"), the next two
    the two calls of the alarm listener. *)
Inductive Trigger : Type :=
| PopupSync
| PopupTwoWayInitialSync (mode : string)
| PopupTwoWaySync
| AlarmOneWay
| AlarmTwoWay.

Definition manual (t : Trigger) : bool :=
  match t with
  | PopupSync | PopupTwoWayInitialSync _ | PopupTwoWaySync => true
  | AlarmOneWay | AlarmTwoWay => false
  end.

(** The arguments each listener passes to [SyncManager.run]. *)
Definition request (t : Trigger) : string * Job :=
  match t with
  | PopupSync => ("oneWay", JobRunSync)
  | PopupTwoWayInitialSync mode => ("twoWay", JobRunInitialTwoWaySync mode)
  | PopupTwoWaySync => ("twoWay", JobRunTwoWaySync)
  | AlarmOneWay => ("oneWay", JobRunSync)
  | AlarmTwoWay => ("twoWay", JobRunTwoWaySync)
  end.

Inductive Event : Type :=
| Request (t : Trigger)
| BookmarkChanged
| DebounceElapsed (settingsOk : bool)
| Settled.

Definition step (s : State) (e : Event) : State * list Outcome :=
  match e with
  | Request t => let (s', o) := run (fst (request t)) (snd (request t)) s in (s', [o])
  | BookmarkChanged => (requestDebouncedTwoWaySync s, [])
  | DebounceElapsed ok => debounceElapsed ok s
  | Settled => if isSyncing s then settle s else (s, [])
  end.

(** Run a sequence of events, collecting what each of them did. *)
Fixpoint exec (s : State) (es : list Event) : State * list Outcome :=
  match es with
  | [] => (s, [])
  | e :: rest =>
      let (s1, o1) := step s e in
      let (s2, o2) := exec s1 rest in
      (s2, (o1 ++ o2)%list)
  end.

Definition is_started (o : Outcome) : bool :=
  match o with Started _ => true | _ => false end.

(** The number of runs a sequence of outcomes started. *)
Definition starts (os : list Outcome) : nat := List.length (filter is_started os).

(** A change-driven request that reaches the manager while it is busy:
    the debounce timer fires with the two-way sync enabled. *)
Definition changeDriven : Event := DebounceElapsed true.

Definition running (queued armed : bool) : State := mkState true queued armed.

End SyncManager.

(* ================================================================== *)
(** ** Properties of the [SyncManager] *)
(* ================================================================== *)

Module SyncManagerFacts.
Import SyncManager.

(** Events that can reach the manager while a run is in progress: every
    event but the completion of that run. *)
Definition not_settled (e : Event) : bool :=
  match e with Settled => false | _ => true end.

(** Events that set the flag [queuedTwoWay] when the manager is busy. *)
Definition queues (e : Event) : bool :=
  match e with
  | Request t => String.eqb (fst (request t)) "twoWay"
  | DebounceElapsed ok => ok
  | BookmarkChanged | Settled => false
  end.

Lemma step_running (q a : bool) (e : Event) :
  not_settled e = true ->
  exists a', fst (step (running q a) e) = running (q || queues e) a'
             /\ starts (snd (step (running q a) e)) = 0%nat.
Proof.
  destruct e as [t| |ok|]; simpl; intros H; try discriminate.
  - exists a. destruct t; simpl; destruct q; simpl; auto.
  - exists true. destruct q; simpl; auto.
  - exists false. destruct ok, q; simpl; auto.
Qed.

Lemma exec_running (es : list Event) :
  forallb not_settled es = true ->
  forall q a, exists a',
    fst (exec (running q a) es) = running (q || existsb queues es) a'
    /\ starts (snd (exec (running q a) es)) = 0%nat.
Proof.
  induction es as [|e es IH]; intros H q a; simpl.
  - exists a. now rewrite orb_false_r.
  - simpl in H. apply andb_true_iff in H as [He Hes].
    destruct (step_running q a e He) as [a1 [E1 S1]].
    destruct (step (running q a) e) as [s1 o1] eqn:Es. simpl in *.
    subst s1.
    destruct (IH Hes (q || queues e) a1) as [a2 [E2 S2]].
    destruct (exec (running (q || queues e) a1) es) as [s2 o2]. simpl in *.
    exists a2. split.
    + now rewrite E2, orb_assoc.
    + unfold starts in *. rewrite filter_app, length_app. lia.
Qed.

(** A manual two-way request made while a run is in progress is not
    rejected; it sets the flag and returns. *)
Lemma manual_twoWay_request_is_queued :
  manual PopupTwoWaySync = true /\
  step (running false false) (Request PopupTwoWaySync)
  = (running true false, [Queued]).
Proof. split; reflexivity. Qed.

(** What [run] does with its [type] argument while a run is in progress:
    a request of type "oneWay" (the popup's download, the alarm's download)
    is rejected at once with the busy error and leaves the state alone; a
    request of type "twoWay" and a change-driven request are accepted
    silently into the one flag; whatever arrives before the run completes
    starts nothing; and when the run completes, one queued two-way run
    starts if and only if the flag was set, the flag being cleared as that
    run starts, and nothing more starts when that run completes in turn. *)
Theorem scheduler_while_running (q a : bool) (es : list Event)
    (Hes : forallb not_settled es = true) :
  (forall t, fst (request t) = "oneWay" ->
     step (running q a) (Request t)
     = (running q a, [Busy "Sync is already in progress."]))
  /\ (forall t, fst (request t) = "twoWay" ->
        step (running q a) (Request t) = (running true a, [Queued]))
  /\ step (running q a) changeDriven = (running true false, [])
  /\ starts (snd (exec (running q a) es)) = 0%nat
  /\ (q || existsb queues es = true ->
      exists a',
        exec (running q a) (es ++ [Settled])%list
        = (running false a',
           (snd (exec (running q a) es) ++ [Started JobRunTwoWaySync])%list)
        /\ step (running false a') Settled = (mkState false false a', []))
  /\ (q || existsb queues es = false ->
      exists a',
        exec (running q a) (es ++ [Settled])%list
        = (mkState false false a', snd (exec (running q a) es))).
Proof.
  assert (Happ : forall es1 es2 s,
            exec s (es1 ++ es2)%list
            = (fst (exec (fst (exec s es1)) es2),
               (snd (exec s es1) ++ snd (exec (fst (exec s es1)) es2))%list)).
  { induction es1 as [|e es1 IH]; intros es2 s; simpl.
    - now destruct (exec s es2).
    - destruct (step s e) as [s1 o1]. rewrite IH.
      destruct (exec s1 es1) as [s2 o2]. simpl.
      destruct (exec s2 es2) as [s3 o3]. simpl. now rewrite app_assoc. }
  destruct (exec_running es Hes q a) as [a' [E S]].
  split; [|split; [|split; [|split; [|split]]]].
  - intros t Ht. destruct t; simpl in *; try discriminate; reflexivity.
  - intros t Ht. destruct t; simpl in *; try discriminate; destruct q; reflexivity.
  - destruct q; reflexivity.
  - exact S.
  - intros Hq. exists a'. rewrite Happ, E, Hq. simpl. split; reflexivity.
  - intros Hq. exists a'. rewrite Happ, E, Hq. simpl. now rewrite app_nil_r.
Qed.

Lemma scheduler_while_running_witness :
  forallb not_settled [changeDriven; Request PopupSync; changeDriven] = true
  /\ exists a',
       exec (running false true)
            ([changeDriven; Request PopupSync; changeDriven] ++ [Settled])%list
       = (running false a',
          (snd (exec (running false true)
                     [changeDriven; Request PopupSync; changeDriven])
           ++ [Started JobRunTwoWaySync])%list)
       /\ step (running false a') Settled = (mkState false false a', []).
Proof.
  split; [reflexivity|].
  apply (scheduler_while_running false true
           [changeDriven; Request PopupSync; changeDriven] eq_refl).
  reflexivity.
Defined.

(** C5.  The manual requests of the popup for a two-way sync and for an
    initial sync, made while a run is in progress, are not rejected with
    the busy error: [run] tests its [type] argument, which is "twoWay" for
    both, sets [queuedTwoWay] and returns [undefined].  When the run in
    progress completes, [checkQueue] starts [runTwoWaySync], also where the
    initial sync with its mode was asked for.  The manual request for the
    one-way download is rejected as the claim says. *)
Theorem manual_requests_are_queued :
  manual PopupTwoWaySync = true
  /\ manual (PopupTwoWayInitialSync "merge") = true
  /\ step (running false false) (Request PopupTwoWaySync)
     = (running true false, [Queued])
  /\ exec (running false false)
          [Request (PopupTwoWayInitialSync "merge"); Settled]
     = (running false false, [Queued; Started JobRunTwoWaySync])
  /\ step (running false false) (Request PopupSync)
     = (running false false, [Busy "Sync is already in progress."]).
Proof. repeat split. Qed.

End SyncManagerFacts.

(* ================================================================== *)
(** ** Reasoning about [M]: inversion and frame rules *)
(* ================================================================== *)

Lemma bind_Ok {A B : Type} (m : M A) (k : A -> M B) w b w' :
  bind m k w = (Ok b, w') ->
  exists a w1, m w = (Ok a, w1) /\ k a w1 = (Ok b, w').
Proof.
  unfold bind. destruct (m w) as [[a|msg] w1]; intros H; [eauto | discriminate].
Qed.

Lemma forM_cons_Ok {A S : Type} (x : A) xs (body : S -> A -> M S) s w s' w' :
  forM (x :: xs) body s w = (Ok s', w') ->
  exists s1 w1, body s x w = (Ok s1, w1) /\ forM xs body s1 w1 = (Ok s', w').
Proof. simpl. apply bind_Ok. Qed.

Lemma forM_app_Ok {A S : Type} (xs1 xs2 : list A) (body : S -> A -> M S) s w s' w' :
  forM (xs1 ++ xs2)%list body s w = (Ok s', w') ->
  exists s1 w1, forM xs1 body s w = (Ok s1, w1)
                /\ forM xs2 body s1 w1 = (Ok s', w').
Proof.
  revert s w. induction xs1 as [|x xs1 IH]; intros s w H.
  - exists s, w. split; [reflexivity | exact H].
  - rewrite <- app_comm_cons in H.
    apply forM_cons_Ok in H as (s1 & w1 & H1 & H2).
    apply IH in H2 as (s2 & w2 & H2 & H3).
    exists s2, w2. split; [|exact H3].
    simpl. unfold bind. now rewrite H1.
Qed.

(** An invariant of the loop state and the world that every completed turn
    keeps is kept by the completed loop. *)
Lemma forM_inv {A S : Type} (I : S -> World -> Prop) (xs : list A)
    (body : S -> A -> M S) :
  (forall s x w s' w', In x xs -> I s w -> body s x w = (Ok s', w') -> I s' w') ->
  forall s w s' w', I s w -> forM xs body s w = (Ok s', w') -> I s' w'.
Proof.
  induction xs as [|x xs IH]; intros Hstep s w s' w' HI H.
  - simpl in H. unfold ret in H. inversion H. now subst.
  - apply forM_cons_Ok in H as (s1 & w1 & H1 & H2).
    apply (IH (fun s x w s' w' Hin => Hstep s x w s' w' (or_intror Hin)) s1 w1);
      [|assumption].
    apply (Hstep s x w); [now left | assumption | assumption].
Qed.

(** A preorder on worlds that the reads and the store writes respect;
    [rel_call] says which logged calls it admits. *)
Record WorldRel := mkWorldRel {
  rel :> World -> World -> Prop;
  rel_call : Call -> Prop;
  rel_refl : forall w, rel w w;
  rel_trans : forall a b c, rel a b -> rel b c -> rel a c;
  rel_chrome : forall c n w, rel w (set_chrome c n w);
  rel_remote : forall r n w, rel w (set_remote r n w);
  rel_console : forall l w, rel w (add_console l w);
  rel_mapping : forall m w, rel w (set_mapping m w);
  rel_settings : forall s w, rel w (set_settings s w);
  rel_log : forall c w, rel_call c -> rel w (add_log c w)
}.

(** [m] moves every world to a related one, whether it returns or throws. *)
Definition preserves (R : WorldRel) {A : Type} (m : M A) : Prop :=
  forall w, R w (snd (m w)).

Section Preserves.

Variable R : WorldRel.

Lemma preserves_ret {A : Type} (a : A) : preserves R (ret a).
Proof. intros w. apply rel_refl. Qed.

Lemma preserves_throw {A : Type} (msg : string) : preserves R (@throw A msg).
Proof. intros w. apply rel_refl. Qed.

Lemma preserves_gets {A : Type} (f : World -> A) : preserves R (gets f).
Proof. intros w. apply rel_refl. Qed.

Lemma preserves_bind {A B : Type} (m : M A) (k : A -> M B) :
  preserves R m -> (forall a, preserves R (k a)) -> preserves R (bind m k).
Proof.
  intros Hm Hk w. unfold bind. specialize (Hm w).
  destruct (m w) as [[a|msg] w1]; simpl in *; [|assumption].
  eapply rel_trans; [exact Hm | apply Hk].
Qed.

Lemma preserves_try_catch {A : Type} (m : M A) (h : string -> M A) :
  preserves R m -> (forall e, preserves R (h e)) -> preserves R (try_catch m h).
Proof.
  intros Hm Hh w. unfold try_catch. specialize (Hm w).
  destruct (m w) as [[a|msg] w1]; simpl in *; [assumption|].
  eapply rel_trans; [exact Hm | apply Hh].
Qed.

Lemma preserves_when (c : bool) (m : M unit) :
  (c = true -> preserves R m) -> preserves R (when c m).
Proof. destruct c; simpl; intros H; [now apply H | apply preserves_ret]. Qed.

Lemma preserves_forM {A S : Type} (xs : list A) (body : S -> A -> M S) :
  (forall s x, In x xs -> preserves R (body s x)) ->
  forall s, preserves R (forM xs body s).
Proof.
  induction xs as [|x xs IH]; intros H s; simpl.
  - apply preserves_ret.
  - apply preserves_bind; [apply H; now left|].
    intros s'. apply IH. intros s0 y Hy. apply H. now right.
Qed.

Lemma preserves_log (c : Call) : rel_call R c -> preserves R (modify (add_log c)).
Proof. intros H w. now apply rel_log. Qed.

Lemma preserves_console (l : string) : preserves R (modify (add_console l)).
Proof. intros w. apply rel_console. Qed.

Lemma preserves_issue (c : Call) : rel_call R c -> preserves R (Chrome.issue c).
Proof.
  intros H. unfold Chrome.issue.
  apply preserves_bind; [now apply preserves_log|]. intros _.
  apply preserves_bind; [apply preserves_gets|]. intros [|];
    [apply preserves_throw | apply preserves_ret].
Qed.

Lemma preserves_get (id : Z) : preserves R (Chrome.get id).
Proof.
  unfold Chrome.get. apply preserves_bind; [apply preserves_gets|].
  intros t. destruct (Chrome.find_node id t);
    [apply preserves_ret | apply preserves_throw].
Qed.

Lemma preserves_getChildren (id : Z) : preserves R (Chrome.getChildren id).
Proof.
  unfold Chrome.getChildren. apply preserves_bind; [apply preserves_get|].
  intros [? ? ? ?|? ? ?]; apply preserves_ret.
Qed.

Lemma preserves_create (p : Z) (t : string) (u : option string) :
  rel_call R (ChCreate p t u) -> preserves R (Chrome.create p t u).
Proof.
  intros H. unfold Chrome.create.
  apply preserves_bind; [now apply preserves_issue|]. intros _.
  apply preserves_bind; [apply preserves_get|].
  intros [? ? ? ?|? ? ?]; [apply preserves_throw|].
  apply preserves_bind; [apply preserves_gets|]. intros i.
  apply preserves_bind; [apply preserves_gets|]. intros now.
  apply preserves_bind; [|intros _; apply preserves_ret].
  intros w. apply rel_chrome.
Qed.

Lemma preserves_update (id : Z) (t : string) :
  rel_call R (ChUpdate id t) -> preserves R (Chrome.update id t).
Proof.
  intros H. unfold Chrome.update.
  apply preserves_bind; [now apply preserves_issue|]. intros _.
  apply preserves_bind; [apply preserves_get|]. intros _.
  intros w. apply rel_chrome.
Qed.

Lemma preserves_move (id p : Z) :
  rel_call R (ChMove id p) -> preserves R (Chrome.move id p).
Proof.
  intros H. unfold Chrome.move.
  apply preserves_bind; [now apply preserves_issue|]. intros _.
  apply preserves_bind; [apply preserves_get|]. intros n.
  apply preserves_bind; [apply preserves_get|].
  intros [? ? ? ?|? ? ?]; [apply preserves_throw|].
  intros w. apply rel_chrome.
Qed.

Lemma preserves_remove (id : Z) :
  rel_call R (ChRemove id) -> preserves R (Chrome.remove id).
Proof.
  intros H. unfold Chrome.remove.
  apply preserves_bind; [now apply preserves_issue|]. intros _.
  apply preserves_bind; [apply preserves_get|].
  intros [? ? ? ?|? ? [|? ?]]; try apply preserves_throw;
    intros w; apply rel_chrome.
Qed.

Lemma preserves_removeTree (id : Z) :
  rel_call R (ChRemoveTree id) -> preserves R (Chrome.removeTree id).
Proof.
  intros H. unfold Chrome.removeTree.
  apply preserves_bind; [now apply preserves_issue|]. intros _.
  apply preserves_bind; [apply preserves_get|]. intros _.
  intros w. apply rel_chrome.
Qed.

Lemma preserves_createLinkding (url title : string)
    (description : option (list string)) (tags : list string) :
  rel_call R (LdCreate url (or_else title url) description tags) ->
  preserves R (createLinkdingBookmark url title description tags).
Proof.
  intros H. unfold createLinkdingBookmark.
  apply preserves_bind; [now apply preserves_log|]. intros _.
  apply preserves_bind; [apply preserves_gets|].
  intros [|]; [apply preserves_throw|].
  apply preserves_bind; [apply preserves_gets|]. intros i.
  apply preserves_bind; [apply preserves_gets|]. intros now.
  apply preserves_bind; [|intros _; apply preserves_ret].
  intros w. apply rel_remote.
Qed.

Lemma preserves_updateLinkding (id : Z) (url title : string)
    (description : option (list string)) (tags : option (list string)) :
  rel_call R (LdUpdate id (updateBody url title description tags)) ->
  preserves R (updateLinkdingBookmark id url title description tags).
Proof.
  intros H. unfold updateLinkdingBookmark.
  apply preserves_bind; [now apply preserves_log|]. intros _.
  apply preserves_bind; [apply preserves_gets|].
  intros [|]; [apply preserves_throw|].
  apply preserves_bind; [apply preserves_gets|]. intros all.
  destruct (existsb _ all); [|apply preserves_throw].
  apply preserves_bind; [apply preserves_gets|]. intros now.
  intros w. apply rel_remote.
Qed.

Lemma preserves_deleteLinkding (id : Z) :
  rel_call R (LdDelete id) -> preserves R (deleteLinkdingBookmark id).
Proof.
  intros H. unfold deleteLinkdingBookmark.
  apply preserves_bind; [now apply preserves_log|]. intros _.
  apply preserves_bind; [apply preserves_gets|].
  intros [|]; [apply preserves_throw|].
  intros w. apply rel_remote.
Qed.

(** Folder creation is the only write of [ensureFolderPath]. *)
Hypothesis folders_ok : forall p t, rel_call R (ChCreate p t None).

Lemma preserves_getOrCreateFolder (name : string) (p : Z) :
  preserves R (getOrCreateFolder name p).
Proof.
  unfold getOrCreateFolder.
  apply preserves_bind; [apply preserves_getChildren|]. intros ch.
  destruct (find _ ch); [apply preserves_ret|].
  apply preserves_bind; [apply preserves_create, folders_ok|].
  intros; apply preserves_ret.
Qed.

Lemma preserves_ensureFolderPath (root : Z) (path : string) :
  preserves R (ensureFolderPath root path).
Proof.
  unfold ensureFolderPath. destruct (negb (truthy path)); [apply preserves_ret|].
  apply preserves_forM. intros s x _. apply preserves_getOrCreateFolder.
Qed.

End Preserves.

(* ================================================================== *)
(** ** What a run may write *)
(* ================================================================== *)

(** [w'] is [w] some writes later: the clock reading of the run is the
    same and the log grew by calls that all satisfy [P]. *)
Definition steady (P : Call -> Prop) (w w' : World) : Prop :=
  w_now w' = w_now w
  /\ exists l, w_log w' = (w_log w ++ l)%list /\ Forall P l.

Lemma steady_refl (P : Call -> Prop) w : steady P w w.
Proof. split; [reflexivity|]. exists []. split; [now rewrite app_nil_r | constructor]. Qed.

Lemma steady_trans (P : Call -> Prop) a b c :
  steady P a b -> steady P b c -> steady P a c.
Proof.
  intros [N1 [l1 [L1 F1]]] [N2 [l2 [L2 F2]]]. split; [congruence|].
  exists (l1 ++ l2)%list. split.
  - now rewrite L2, L1, app_assoc.
  - apply Forall_app. now split.
Qed.

Lemma steady_log (P : Call -> Prop) c w : P c -> steady P w (add_log c w).
Proof.
  intros H. split; [reflexivity|]. exists [c]. split; [reflexivity|].
  now constructor.
Qed.

Lemma steady_same_log (P : Call -> Prop) w w' :
  w_now w' = w_now w -> w_log w' = w_log w -> steady P w w'.
Proof.
  intros N L. split; [assumption|]. exists [].
  split; [now rewrite app_nil_r | constructor].
Qed.

Definition steadyRel (P : Call -> Prop) : WorldRel :=
  mkWorldRel (steady P) P (steady_refl P) (@steady_trans P)
    (fun c n w => steady_same_log P w (set_chrome c n w) eq_refl eq_refl)
    (fun r n w => steady_same_log P w (set_remote r n w) eq_refl eq_refl)
    (fun l w => steady_same_log P w (add_console l w) eq_refl eq_refl)
    (fun m w => steady_same_log P w (set_mapping m w) eq_refl eq_refl)
    (fun s w => steady_same_log P w (set_settings s w) eq_refl eq_refl)
    (@steady_log P).

Lemma steady_weaken (P Q : Call -> Prop) w w' :
  (forall c, P c -> Q c) -> steady P w w' -> steady Q w w'.
Proof.
  intros H [N [l [L F]]]. split; [assumption|]. exists l. split; [assumption|].
  eapply Forall_impl; eauto.
Qed.

(** A tag outside the namespace of the sync tag: neither the sync tag nor a
    path tag. *)
Definition outside (tag t : string) : Prop :=
  t <> tag /\ startsWith t (tag ++ "/") = false.

(** The tag list [new] keeps every tag of [old] that lies outside the
    namespace of the sync tag. *)
Definition tags_kept (tag : string) (old new : list string) : Prop :=
  forall t, In t old -> outside tag t -> In t new.

(** The two ways a run rewrites the tags of a remote item: the linking
    updates send a list that includes every old tag; the corrective update
    sends the tags of the final path followed by the old tags outside the
    namespace of the sync tag. *)
Definition tag_update (tag : string) (old new : list string) : Prop :=
  incl old new \/ exists path, new = newTags tag path old.

Lemma tag_update_kept (tag : string) (old new : list string) :
  tag_update tag old new -> tags_kept tag old new.
Proof.
  intros [H|[path ->]] t Hin [Hn Hp].
  - now apply H.
  - unfold newTags, otherTags, str_neq.
    apply in_app_iff. right. apply filter_In. split; [assumption|].
    apply andb_true_iff. split; apply negb_true_iff;
      [now apply String.eqb_neq | assumption].
Qed.

(** The writes a two-way run may issue, given the two URL indexes it built:
    a remote item is created only for a URL the remote index lacks, a
    bookmark is created locally only for a URL the local index lacks, and
    an update goes to an indexed remote item and keeps its foreign tags. *)
Definition sync_call (tag : string) (ldByUrl : JsMap.t LdBookmark)
    (chromeByUrl : JsMap.t ChromeBookmark) (c : Call) : Prop :=
  match c with
  | LdCreate url _ _ _ => JsMap.get ldByUrl url = None
  | LdUpdate id body =>
      exists ld tags,
        JsMap.get ldByUrl (ld_url ld) = Some ld /\ id = ld_id ld
        /\ b_tag_names body = Some tags
        /\ tag_update tag (ld_tag_names ld) tags
  | ChCreate _ _ (Some url) => JsMap.get chromeByUrl url = None
  | _ => True
  end.

Lemma dedupe_In (xs : list string) (x : string) : In x (dedupe xs) <-> In x xs.
Proof.
  unfold dedupe.
  assert (G : forall seen,
            In x (fold_left (fun seen x => if includes seen x then seen
                                          else (seen ++ [x])%list) xs seen)
            <-> In x seen \/ In x xs).
  { induction xs as [|y ys IH]; intros seen; simpl; [tauto|].
    rewrite IH. destruct (includes seen y) eqn:E.
    - apply includes_In in E. split; [tauto|].
      intros [H|[<-|H]]; tauto.
    - rewrite in_app_iff. simpl. tauto. }
  rewrite G. simpl. tauto.
Qed.

(** The union sent by the linking updates keeps every tag of the item. *)
Lemma mergeTags_keeps_all (ldTags tags : list string) (t : string) :
  In t ldTags -> In t (mergeTags ldTags tags).
Proof. intros H. unfold mergeTags. apply dedupe_In, in_app_iff. now left. Qed.

Lemma otherTags_In (tag : string) (tag_names : list string) (t : string) :
  In t (otherTags tag tag_names) <-> In t tag_names /\ outside tag t.
Proof.
  unfold otherTags, outside, str_neq. rewrite filter_In.
  split; intros [H1 H2]; split; try assumption.
  - apply andb_true_iff in H2 as [Hn Hp]. split.
    + apply negb_true_iff, String.eqb_neq in Hn. exact Hn.
    + now apply negb_true_iff in Hp.
  - destruct H2 as [Hn Hp]. apply andb_true_iff. split.
    + now apply negb_true_iff, String.eqb_neq.
    + now apply negb_true_iff.
Qed.

(** Walk through a computation with the frame rules, leaving the
    conditions on the calls it issues. *)
Ltac pres :=
  repeat (cbv beta zeta;
    lazymatch goal with
    | |- preserves _ (ret _) => apply preserves_ret
    | |- preserves _ (throw _) => apply preserves_throw
    | |- preserves _ (gets _) => apply preserves_gets
    | |- preserves _ (bind _ _) => apply preserves_bind; [|intros ?]
    | |- preserves _ (when _ _) => apply preserves_when; intros ?
    | |- preserves _ (try_catch _ _) => apply preserves_try_catch; [|intros ?]
    | |- preserves _ (forM _ _ _) => apply preserves_forM; intros ? ? ?
    | |- preserves _ (Chrome.create _ _ _) => apply preserves_create
    | |- preserves _ (Chrome.update _ _) => apply preserves_update
    | |- preserves _ (Chrome.move _ _) => apply preserves_move
    | |- preserves _ (Chrome.remove _) => apply preserves_remove
    | |- preserves _ (Chrome.removeTree _) => apply preserves_removeTree
    | |- preserves _ (Chrome.getChildren _) => apply preserves_getChildren
    | |- preserves _ (Chrome.get _) => apply preserves_get
    | |- preserves _ (ensureFolderPath _ _) => apply preserves_ensureFolderPath
    | |- preserves _ (createLinkdingBookmark _ _ _ _) => apply preserves_createLinkding
    | |- preserves _ (updateLinkdingBookmark _ _ _ _ _) => apply preserves_updateLinkding
    | |- preserves _ (deleteLinkdingBookmark _) => apply preserves_deleteLinkding
    | |- preserves _ (modify (add_console _)) => apply preserves_console
    | |- preserves _ (modify _) =>
        unfold preserves; intros ?; unfold modify; cbn [snd];
        first [apply rel_chrome | apply rel_remote | apply rel_mapping
              | apply rel_settings]
    | |- preserves _ (match ?x with _ => _ end) => destruct x eqn:?
    end).

Section ReconcileWrites.

Variable tag : string.
Variable root : Z.
Variable mapping : Mapping.
Variable ldByUrl : JsMap.t LdBookmark.
Variable chromeByUrl : JsMap.t ChromeBookmark.

Hypothesis ld_keyed : forall k ld, JsMap.get ldByUrl k = Some ld -> ld_url ld = k.

Let R : WorldRel := steadyRel (sync_call tag ldByUrl chromeByUrl).

Lemma link_update_ok (k : string) (ld : LdBookmark) (title : string)
    (tags : list string) :
  JsMap.get ldByUrl k = Some ld ->
  tag_update tag (ld_tag_names ld) tags ->
  sync_call tag ldByUrl chromeByUrl
            (LdUpdate (ld_id ld) (updateBody (ld_url ld) title None (Some tags))).
Proof.
  intros Hget Hkept. exists ld, tags. repeat split; try assumption.
  now rewrite (ld_keyed _ Hget).
Qed.

Lemma syncNewChrome_writes acc cbm :
  preserves R (syncNewChrome tag mapping ldByUrl acc cbm).
Proof.
  unfold syncNewChrome. pres.
  - apply (link_update_ok (c_url cbm)); [assumption|].
    left. intros t Ht. now apply mergeTags_keeps_all.
  - assumption.
Qed.

Lemma syncNewLinkding_writes acc ld :
  preserves R (syncNewLinkding tag root mapping chromeByUrl acc ld).
Proof.
  unfold syncNewLinkding. pres; try (intros; exact I).
  apply andb_true_iff in Heqb as [_ H].
  now apply negb_true_iff, JsMap.has_false_get in H.
Qed.

Lemma syncBoth_writes acc url entry cbm ld :
  JsMap.get ldByUrl url = Some ld ->
  preserves R (syncBoth tag root acc url entry cbm ld).
Proof.
  intros Hld. unfold syncBoth, correctLinkding, correctChrome.
  pres; try (intros; exact I).
  apply (link_update_ok url); [assumption|].
  right. eexists. reflexivity.
Qed.

Lemma syncMapped_writes acc ue :
  preserves R (syncMapped tag root ldByUrl chromeByUrl acc ue).
Proof.
  unfold syncMapped. destruct ue as [url entry].
  destruct (JsMap.get chromeByUrl url) as [cbm|] eqn:Ec;
    destruct (JsMap.get ldByUrl url) as [ld|] eqn:El.
  - now apply syncBoth_writes.
  - pres; exact I.
  - pres; exact I.
  - pres.
Qed.

End ReconcileWrites.

(** Every write of [reconcile] is one that [sync_call] allows, and the
    clock reading stays. *)
Lemma reconcile_writes tag root mapping lds cbms :
  preserves (steadyRel (sync_call tag (JsMap.index_by ld_url lds)
                                  (JsMap.index_by c_url cbms)))
            (reconcile tag root mapping lds cbms).
Proof.
  assert (K : forall k ld, JsMap.get (JsMap.index_by ld_url lds) k = Some ld ->
                           ld_url ld = k).
  { intros k ld H. now apply JsMap.index_by_key in H. }
  unfold reconcile. pres.
  - now apply syncNewChrome_writes.
  - now apply syncNewLinkding_writes.
  - now apply syncMapped_writes.
Qed.

(* ================================================================== *)
(** ** What a completed write did *)
(* ================================================================== *)

Lemma gets_Ok {A : Type} (f : World -> A) w a w' :
  gets f w = (Ok a, w') -> a = f w /\ w' = w.
Proof. unfold gets. intros H. now inversion H. Qed.

Lemma modify_Ok (f : World -> World) w u w' :
  modify f w = (Ok u, w') -> w' = f w.
Proof. unfold modify. intros H. now inversion H. Qed.

Lemma ret_Ok {A : Type} (a : A) w a' w' :
  ret a w = (Ok a', w') -> a' = a /\ w' = w.
Proof. unfold ret. intros H. now inversion H. Qed.

(** Peel the next [bind] off a completed computation. *)
Ltac peel H :=
  let a := fresh "a" in
  let w := fresh "w" in
  let H1 := fresh "H" in
  apply bind_Ok in H as (a & w & H1 & H);
  first [ apply gets_Ok in H1 as [-> ->]
        | apply modify_Ok in H1 as ->
        | apply ret_Ok in H1 as [-> ->]
        | idtac ].

Lemma issue_Ok c w u w' : Chrome.issue c w = (Ok u, w') -> w' = add_log c w.
Proof.
  unfold Chrome.issue. intros H. peel H. peel H.
  destruct (w_fails _ _); [discriminate|]. now apply ret_Ok in H as [_ ->].
Qed.

Lemma chrome_get_Ok id w n w' :
  Chrome.get id w = (Ok n, w') ->
  w' = w /\ Chrome.find_node id (w_chrome w) = Some n.
Proof.
  unfold Chrome.get. intros H. peel H.
  destruct (Chrome.find_node id (w_chrome w)); [|discriminate].
  apply ret_Ok in H as [-> ->]. auto.
Qed.

Lemma updateLinkding_Ok id url title description tags w u w' :
  updateLinkdingBookmark id url title description tags w = (Ok u, w') ->
  w_log w' = (w_log w ++ [LdUpdate id (updateBody url title description tags)])%list
  /\ w_now w' = w_now w
  /\ w_chrome w' = w_chrome w
  /\ w_remote w'
     = map (fun bm => if Z.eqb (ld_id bm) id
                      then apply_body (updateBody url title description tags)
                                      (w_now w) bm
                      else bm) (w_remote w).
Proof.
  unfold updateLinkdingBookmark. cbv zeta. intros H. peel H. peel H.
  destruct (w_fails _ _); [discriminate|]. peel H.
  destruct (existsb _ _); [|discriminate]. peel H.
  apply modify_Ok in H as ->. simpl. auto.
Qed.

Lemma chrome_update_Ok id title w u w' :
  Chrome.update id title w = (Ok u, w') ->
  w_log w' = (w_log w ++ [ChUpdate id title])%list
  /\ w_chrome w' = Chrome.retitle id title (w_chrome w)
  /\ w_remote w' = w_remote w.
Proof.
  unfold Chrome.update. intros H. peel H. apply issue_Ok in H0 as ->.
  peel H. apply chrome_get_Ok in H0 as [-> _].
  apply modify_Ok in H as ->. simpl. auto.
Qed.

Lemma chrome_move_Ok id p w u w' :
  Chrome.move id p w = (Ok u, w') ->
  w_log w' = (w_log w ++ [ChMove id p])%list
  /\ (exists node,
        Chrome.find_node id (w_chrome w) = Some node
        /\ w_chrome w'
           = Chrome.modify_folder p (fun ch => ch ++ [node])%list
                                  (Chrome.delete_node id (w_chrome w)))
  /\ w_remote w' = w_remote w.
Proof.
  unfold Chrome.move. intros H. peel H. apply issue_Ok in H0 as ->.
  peel H. apply chrome_get_Ok in H0 as [-> Hn].
  peel H. apply chrome_get_Ok in H0 as [-> Hp].
  destruct a1; [discriminate|].
  apply modify_Ok in H as ->. simpl. eauto.
Qed.

Lemma deleteLinkding_Ok id w u w' :
  deleteLinkdingBookmark id w = (Ok u, w') ->
  w_log w' = (w_log w ++ [LdDelete id])%list
  /\ w_remote w' = filter (fun bm => negb (Z.eqb (ld_id bm) id)) (w_remote w)
  /\ w_chrome w' = w_chrome w.
Proof.
  unfold deleteLinkdingBookmark. intros H. peel H. peel H.
  destruct (w_fails _ _); [discriminate|].
  apply modify_Ok in H as ->. simpl. auto.
Qed.

(** The completed block [if (needsChromeUpdate) { ... }]: the retitle is
    issued when the title differs, and the move goes to the folder that
    [ensureFolderPath] returned for the final path. *)
Lemma correctChrome_Ok root r cbm w u w' :
  correctChrome root r cbm w = (Ok u, w') ->
  exists w1,
    (if str_neq (finalTitle r) (c_title cbm)
     then Chrome.update (c_id cbm) (finalTitle r) w = (Ok tt, w1)
     else w1 = w)
    /\ (if str_neq (finalFolderPath r) (c_folderPath cbm)
        then exists p w2,
               ensureFolderPath root (finalFolderPath r) w1 = (Ok p, w2)
               /\ Chrome.move (c_id cbm) p w2 = (Ok tt, w')
        else w' = w1).
Proof.
  unfold correctChrome. intros H.
  apply bind_Ok in H as ([] & w1 & H1 & H2). exists w1. split.
  - destruct (str_neq (finalTitle r) (c_title cbm)); simpl in H1;
      [assumption | now inversion H1].
  - destruct (str_neq (finalFolderPath r) (c_folderPath cbm)); simpl in H2.
    + apply bind_Ok in H2 as (p & w2 & H3 & H4). exists p, w2.
      destruct u. now split.
    + now inversion H2.
Qed.

(** A completed turn for a key present on both sides. *)
Lemma syncBoth_Ok tag root acc url entry cbm ld w acc' w' :
  syncBoth tag root acc url entry cbm ld w = (Ok acc', w') ->
  let r := resolve tag entry cbm ld in
  exists w1,
    (if needsLdUpdate r then correctLinkding tag r ld w = (Ok tt, w1) else w1 = w)
    /\ (if needsChromeUpdate r then correctChrome root r cbm w1 = (Ok tt, w')
        else w' = w1)
    /\ JsMap.get (newMapping acc') url
       = Some (mergedEntry tag url entry cbm ld (w_now w'))
    /\ (forall k, k <> url ->
          JsMap.get (newMapping acc') k = JsMap.get (newMapping acc) k)
    /\ added acc' = added acc /\ removed acc' = removed acc
    /\ updated acc' = updated acc
                      + (if needsLdUpdate r then 1 else 0)
                      + (if needsChromeUpdate r then 1 else 0).
Proof.
  unfold syncBoth. cbv zeta. intros H.
  apply bind_Ok in H as ([] & w1 & H1 & H).
  apply bind_Ok in H as ([] & w2 & H2 & H).
  apply bind_Ok in H as (now & w3 & H3 & H).
  unfold gets in H3. inversion H3. subst now w3. clear H3.
  unfold ret in H. inversion H. subst w'. clear H. simpl.
  exists w1. split; [|split; [|split; [|split]]].
  - destruct (needsLdUpdate _); simpl in H1; [assumption | now inversion H1].
  - destruct (needsChromeUpdate _); simpl in H2; [assumption | now inversion H2].
  - unfold mergedEntry.
    destruct (negb (needsLdUpdate _) && negb (needsChromeUpdate _));
      apply JsMap.get_set_same.
  - intros k Hk.
    destruct (negb (needsLdUpdate _) && negb (needsChromeUpdate _));
      now rewrite ?JsMap.get_set_other by assumption.
  - repeat split.
    destruct (needsLdUpdate _), (needsChromeUpdate _); lia.
Qed.

(* ================================================================== *)
(** ** The three passes of the reconciler, turn by turn *)
(* ================================================================== *)

Section ReconcileTurns.

Variable tag : string.
Variable root : Z.
Variable mapping : Mapping.
Variable ldByUrl : JsMap.t LdBookmark.
Variable chromeByUrl : JsMap.t ChromeBookmark.

(** A completed turn of pass 1 either skips a mapped URL or writes the
    entry of an unmapped one, linked to the remote item of that URL when
    there is one. *)
Lemma syncNewChrome_Ok acc cbm w acc' w' :
  syncNewChrome tag mapping ldByUrl acc cbm w = (Ok acc', w') ->
  (JsMap.has mapping (c_url cbm) = true /\ acc' = acc /\ w' = w)
  \/ (JsMap.has mapping (c_url cbm) = false
      /\ exists lid,
           newMapping acc'
           = JsMap.set (newMapping acc) (c_url cbm)
               (mkEntry lid (c_id cbm) (c_title cbm) (c_url cbm)
                        (c_folderPath cbm) (w_now w'))
           /\ (forall ld, JsMap.get ldByUrl (c_url cbm) = Some ld ->
                 lid = ld_id ld /\ added acc' = added acc)
           /\ (JsMap.get ldByUrl (c_url cbm) = None -> added acc' = added acc + 1)
           /\ removed acc' = removed acc /\ updated acc' = updated acc).
Proof.
  unfold syncNewChrome. intros H.
  destruct (JsMap.has mapping (c_url cbm)) eqn:Hm; simpl in H.
  - left. apply ret_Ok in H as [-> ->]. auto.
  - right. split; [reflexivity|]. cbv zeta in H.
    destruct (JsMap.get ldByUrl (c_url cbm)) as [ld|] eqn:Hld.
    + peel H. peel H. apply ret_Ok in H as [-> ->]. simpl.
      exists (ld_id ld). split; [reflexivity|].
      split; [intros ld' [= <-]; auto|]. split; [discriminate | auto].
    + peel H. peel H. apply ret_Ok in H as [-> ->]. simpl.
      exists (ld_id a). split; [reflexivity|].
      split; [discriminate|]. auto.
Qed.

(** A completed turn of pass 2 writes only keys that neither the mapping
    nor the local index holds. *)
Lemma syncNewLinkding_Ok acc ld w acc' w' :
  syncNewLinkding tag root mapping chromeByUrl acc ld w = (Ok acc', w') ->
  (acc' = acc /\ w' = w)
  \/ (JsMap.has mapping (ld_url ld) = false
      /\ JsMap.has chromeByUrl (ld_url ld) = false
      /\ exists e, newMapping acc' = JsMap.set (newMapping acc) (ld_url ld) e
                   /\ added acc' = added acc + 1
                   /\ removed acc' = removed acc /\ updated acc' = updated acc).
Proof.
  unfold syncNewLinkding. intros H.
  destruct (negb (JsMap.has mapping (ld_url ld))
            && negb (JsMap.has chromeByUrl (ld_url ld))) eqn:C.
  - right. apply andb_true_iff in C as [C1 C2].
    apply negb_true_iff in C1, C2. split; [assumption|]. split; [assumption|].
    cbv zeta in H. peel H. peel H. peel H. apply ret_Ok in H as [-> ->]. simpl.
    eexists. repeat split.
  - left. apply ret_Ok in H as [-> ->]. auto.
Qed.

(** A completed turn of pass 3. *)
Lemma syncMapped_Ok acc url entry w acc' w' :
  syncMapped tag root ldByUrl chromeByUrl acc (url, entry) w = (Ok acc', w') ->
  match JsMap.get chromeByUrl url, JsMap.get ldByUrl url with
  | Some cbm, Some ld => syncBoth tag root acc url entry cbm ld w = (Ok acc', w')
  | _, _ =>
      newMapping acc' = newMapping acc /\ added acc' = added acc
      /\ removed acc' = removed acc + 1 /\ updated acc' = updated acc
  end.
Proof.
  unfold syncMapped. intros H.
  destruct (JsMap.get chromeByUrl url) as [cbm|];
    destruct (JsMap.get ldByUrl url) as [ld|]; try assumption.
  - peel H. apply ret_Ok in H as [-> ->]. simpl. auto.
  - peel H. apply ret_Ok in H as [-> ->]. simpl. auto.
  - apply ret_Ok in H as [-> ->]. simpl. auto.
Qed.

Lemma syncMapped_other acc url entry w acc' w' k :
  syncMapped tag root ldByUrl chromeByUrl acc (url, entry) w = (Ok acc', w') ->
  k <> url ->
  JsMap.get (newMapping acc') k = JsMap.get (newMapping acc) k.
Proof.
  intros H Hk. apply syncMapped_Ok in H.
  destruct (JsMap.get chromeByUrl url) as [cbm|];
    destruct (JsMap.get ldByUrl url) as [ld|];
    try (rewrite (proj1 H); reflexivity).
  apply syncBoth_Ok in H. cbv zeta in H.
  destruct H as (w1 & _ & _ & _ & Hother & _). now apply Hother.
Qed.

End ReconcileTurns.

(** The writes allowed to a run that has no further constraint. *)
Definition any_call (c : Call) : Prop := True.

Lemma reconcile_steady tag root mapping lds cbms w :
  steady any_call w (snd (reconcile tag root mapping lds cbms w)).
Proof.
  eapply steady_weaken; [|apply (reconcile_writes tag root mapping lds cbms w)].
  intros; exact I.
Qed.

(** The turn of pass 3 that handles a given key of the mapping: the world
    before it and the world after it are linked to the two ends of the run,
    and no later turn rewrites the entry it stored. *)
Lemma reconcile_mapped_turn tag root mapping lds cbms w acc w' url entry :
  reconcile tag root mapping lds cbms w = (Ok acc, w') ->
  NoDup (JsMap.keys mapping) ->
  JsMap.get mapping url = Some entry ->
  let P := sync_call tag (JsMap.index_by ld_url lds) (JsMap.index_by c_url cbms) in
  exists s1 w1 s2 w2,
    steady P w w1
    /\ syncMapped tag root (JsMap.index_by ld_url lds) (JsMap.index_by c_url cbms)
                  s1 (url, entry) w1 = (Ok s2, w2)
    /\ steady P w2 w'
    /\ JsMap.get (newMapping acc) url = JsMap.get (newMapping s2) url.
Proof.
  intros H ND Hget P. unfold reconcile in H. cbv zeta in H.
  set (ldByUrl := JsMap.index_by ld_url lds) in *.
  set (chromeByUrl := JsMap.index_by c_url cbms) in *.
  assert (K : forall k ld, JsMap.get ldByUrl k = Some ld -> ld_url ld = k).
  { intros k ld Hk. now apply JsMap.index_by_key in Hk. }
  apply bind_Ok in H as (a1 & wa & H1 & H).
  apply bind_Ok in H as (a2 & wb & H2 & H).
  assert (W1 : forall s x, preserves (steadyRel P) (syncNewChrome tag mapping ldByUrl s x)).
  { intros s x. now apply syncNewChrome_writes. }
  assert (W2 : forall s x, preserves (steadyRel P)
                 (syncNewLinkding tag root mapping chromeByUrl s x)).
  { intros s x. apply syncNewLinkding_writes. }
  assert (S1 : steady P w wa).
  { pose proof (preserves_forM (R := steadyRel P) cbms _
                  (fun s x _ => W1 s x) acc0 w) as G.
    now rewrite H1 in G. }
  assert (S2 : steady P wa wb).
  { pose proof (preserves_forM (R := steadyRel P) lds _
                  (fun s x _ => W2 s x) a1 wa) as G.
    now rewrite H2 in G. }
  apply JsMap.get_entries_In in Hget. unfold JsMap.entries in *.
  destruct (in_split _ _ Hget) as (xs1 & xs2 & Hsplit).
  rewrite Hsplit in H.
  apply forM_app_Ok in H as (s1 & w1 & H3 & H).
  apply forM_cons_Ok in H as (s2 & w2 & H4 & H5).
  exists s1, w1, s2, w2.
  assert (W : forall xs s, preserves (steadyRel P)
                (forM xs (syncMapped tag root ldByUrl chromeByUrl) s)).
  { intros xs s. apply preserves_forM. intros s0 x _.
    now apply syncMapped_writes. }
  split; [|split; [exact H4 | split]].
  - pose proof (W xs1 a2 wb) as G. rewrite H3 in G.
    eapply steady_trans; [exact S1|]. eapply steady_trans; [exact S2 | exact G].
  - pose proof (W xs2 s2 w2) as G. now rewrite H5 in G.
  - assert (Hnot : forall x, In x xs2 -> fst x <> url).
    { intros [k e] Hx Hk. simpl in Hk. subst k.
      unfold JsMap.keys in ND. rewrite Hsplit, map_app in ND. simpl in ND.
      apply NoDup_remove_2 in ND. apply ND, in_app_iff. right.
      now apply (in_map fst) in Hx. }
    pose proof (@forM_inv _ _
                  (fun s _ => JsMap.get (newMapping s) url
                              = JsMap.get (newMapping s2) url)
                  xs2 (syncMapped tag root ldByUrl chromeByUrl)) as G.
    apply (fun st => G st s2 w2 acc w' eq_refl H5).
    intros s [k e] wx s' wx' Hin HI Hstep.
    rewrite <- HI. eapply syncMapped_other; [exact Hstep|].
    intros E. apply (Hnot (k, e) Hin). now simpl.
Qed.

(** The items a run reads from the two stores. *)
Definition ldSnapshot (w : World) : list LdBookmark :=
  filter (has_tag (s_twoWaySyncTag (w_settings w))) (w_remote w).

Definition chromeSnapshot (root : Z) (w : World) : list ChromeBookmark :=
  match Chrome.find_node root (w_chrome w) with
  | Some (Folder _ _ ch) => flat_map (collectBookmarks "") ch
  | _ => []
  end.

Definition ldIndex (w : World) : JsMap.t LdBookmark :=
  JsMap.index_by ld_url (ldSnapshot w).

Definition chromeIndex (root : Z) (w : World) : JsMap.t ChromeBookmark :=
  JsMap.index_by c_url (chromeSnapshot root w).

Lemma fetch_Ok tag w lds w' :
  fetchBookmarksWithTag tag w = (Ok lds, w') ->
  w' = w /\ lds = filter (has_tag tag) (w_remote w).
Proof.
  unfold fetchBookmarksWithTag. intros H. peel H.
  destruct (w_fails _ _); [discriminate|]. peel H.
  apply ret_Ok in H as [-> ->]. auto.
Qed.

Lemma getChildren_Ok id w ch w' :
  Chrome.getChildren id w = (Ok ch, w') ->
  w' = w
  /\ exists n, Chrome.find_node id (w_chrome w) = Some n
               /\ ch = match n with Folder _ _ c => c | Bookmark _ _ _ _ => [] end.
Proof.
  unfold Chrome.getChildren. intros H. peel H.
  apply chrome_get_Ok in H0 as [-> Hf].
  destruct a; apply ret_Ok in H as [-> ->]; eauto.
Qed.

Lemma getChromeBookmarksRecursive_Ok root w cbms w' :
  getChromeBookmarksRecursive root "" w = (Ok cbms, w') ->
  w' = w /\ cbms = chromeSnapshot root w.
Proof.
  unfold getChromeBookmarksRecursive, chromeSnapshot.
  intros H. peel H. apply getChildren_Ok in H0 as [-> [n [Hf ->]]].
  apply ret_Ok in H as [-> ->]. rewrite Hf. destruct n; auto.
Qed.

Lemma verifyFolder_Ok root w u w' : verifyFolder root w = (Ok u, w') -> w' = w.
Proof.
  unfold verifyFolder, try_catch. intros H.
  destruct (bind (Chrome.get root) _ w) as [[[]|msg] w1] eqn:E; [|discriminate].
  inversion H. subst. peel E. apply chrome_get_Ok in H0 as [-> _].
  now apply ret_Ok in E as [_ ->].
Qed.

(** A completed run is its three passes over the snapshot, followed by the
    two writes to [chrome.storage]. *)
Lemma runTwoWaySync_Ok w r w' :
  runTwoWaySync w = (Ok r, w') ->
  exists root acc w1,
    s_twoWaySyncFolderId (w_settings w) = Some root
    /\ reconcile (s_twoWaySyncTag (w_settings w)) root (w_mapping w)
                 (ldSnapshot w) (chromeSnapshot root w) w = (Ok acc, w1)
    /\ w_mapping w' = newMapping acc
    /\ w_remote w' = w_remote w1 /\ w_chrome w' = w_chrome w1
    /\ w_log w' = w_log w1 /\ w_now w' = w_now w1
    /\ r = mkSyncResult (added acc) (removed acc) (updated acc)
                        (JsMap.size (newMapping acc)).
Proof.
  unfold runTwoWaySync, getSettings, getMapping. intros H. peel H.
  destruct (negb (s_twoWayEnabled _)); [discriminate|].
  destruct (negb (truthy _) || negb (truthy _)); [discriminate|].
  destruct (s_twoWaySyncFolderId (w_settings w)) as [root|]; [|discriminate].
  destruct (negb (s_twoWayInitialSyncDone _)); [discriminate|].
  peel H. apply verifyFolder_Ok in H0 as ->.
  peel H. apply fetch_Ok in H0 as [-> ->].
  peel H. apply getChromeBookmarksRecursive_Ok in H0 as [-> ->].
  peel H. peel H. rename H0 into Hrec.
  unfold setMapping, storeLastSyncTime in H. peel H. peel H.
  apply ret_Ok in H as [-> ->].
  eexists root, _, _. split; [reflexivity|]. split; [exact Hrec|].
  simpl. repeat split; auto.
Qed.

(* ================================================================== *)
(** ** Mapped entries present on both sides *)
(* ================================================================== *)

(** The run issued the call [c]: it stands in the part of the log the run
    appended. *)
Definition issued (w w' : World) (c : Call) : Prop :=
  exists l0 l1, w_log w' = (w_log w ++ l0 ++ c :: l1)%list.

Lemma issued_between (P Q : Call -> Prop) w w1 w2 w' c :
  steady P w w1 -> w_log w2 = (w_log w1 ++ [c])%list -> steady Q w2 w' ->
  issued w w' c.
Proof.
  intros [_ [l0 [L0 _]]] L [_ [l1 [L1 _]]]. exists l0, l1.
  rewrite L1, L, L0, <- !app_assoc. reflexivity.
Qed.

(** Everything the run did for a key of the mapping that both sides hold:
    the two corrective blocks ran, in this order, between two worlds of the
    run, and the entry stored for the key is [mergedEntry] at the clock
    reading of the run. *)
Lemma run_mapped_both w r w' root url entry cbm ld :
  runTwoWaySync w = (Ok r, w') ->
  NoDup (JsMap.keys (w_mapping w)) ->
  s_twoWaySyncFolderId (w_settings w) = Some root ->
  JsMap.get (w_mapping w) url = Some entry ->
  JsMap.get (chromeIndex root w) url = Some cbm ->
  JsMap.get (ldIndex w) url = Some ld ->
  let tag := s_twoWaySyncTag (w_settings w) in
  let res := resolve tag entry cbm ld in
  exists w1 wm w2,
    steady any_call w w1
    /\ (if needsLdUpdate res then correctLinkding tag res ld w1 = (Ok tt, wm)
        else wm = w1)
    /\ (if needsChromeUpdate res then correctChrome root res cbm wm = (Ok tt, w2)
        else w2 = wm)
    /\ steady any_call w2 w'
    /\ JsMap.get (w_mapping w') url
       = Some (mergedEntry tag url entry cbm ld (w_now w)).
Proof.
  intros Hrun ND Hroot Hm Hc Hl tag res.
  apply runTwoWaySync_Ok in Hrun
    as (root' & acc & wr & Hroot' & Hrec & Emap & _ & _ & Elog & Enow & _).
  rewrite Hroot in Hroot'. injection Hroot' as <-.
  destruct (@reconcile_mapped_turn _ _ _ _ _ _ _ _ url entry Hrec ND Hm)
    as (s1 & w1 & s2 & w2 & S1 & Hturn & S2 & Eget).
  apply syncMapped_Ok in Hturn.
  unfold chromeIndex in Hc. unfold ldIndex in Hl.
  rewrite Hc, Hl in Hturn.
  apply syncBoth_Ok in Hturn. cbv zeta in Hturn.
  destruct Hturn as (wm & HL & HC & Hentry & _).
  assert (A1 : steady any_call w w1).
  { eapply steady_weaken; [|exact S1]. intros; exact I. }
  assert (A2 : steady any_call w2 w').
  { eapply steady_weaken with (P := sync_call _ _ _); [intros; exact I|].
    destruct S2 as [N [l [L F]]]. split; [congruence|].
    exists l. split; [congruence | exact F]. }
  exists w1, wm, w2.
  split; [exact A1|]. split; [exact HL|]. split; [exact HC|].
  split; [exact A2|].
  rewrite Emap, Eget, Hentry. do 2 f_equal.
  destruct (reconcile_steady tag root (w_mapping w)
              (ldSnapshot w) (chromeSnapshot root w) w) as [N _].
  unfold tag in N. rewrite Hrec in N. simpl in N.
  destruct S2 as [N3 _]. congruence.
Qed.

(** *** The conflict rules, read off [resolve] *)

Lemma str_neq_true (a b : string) : str_neq a b = true <-> a <> b.
Proof. unfold str_neq. rewrite negb_true_iff. apply String.eqb_neq. Qed.

Lemma str_neq_false (a b : string) : str_neq a b = false <-> a = b.
Proof. unfold str_neq. rewrite negb_false_iff. apply String.eqb_eq. Qed.

(** Decide the comparisons of a rule from the facts at hand. *)
Ltac decide_strings :=
  repeat match goal with
         | H : ?a <> ?b |- context [str_neq ?a ?b] =>
             rewrite (proj2 (str_neq_true a b) H)
         | H : ?a = ?b |- context [str_neq ?a ?b] =>
             rewrite (proj2 (str_neq_false a b) H)
         | H : ?a <> ?b |- context [String.eqb ?a ?b] =>
             rewrite (proj2 (String.eqb_neq a b) H)
         | H : ?a = ?b |- context [String.eqb ?a ?b] =>
             rewrite (proj2 (String.eqb_eq a b) H)
         end.

Lemma resolvePath_title m c l r : finalTitle (resolvePath m c l r) = finalTitle r.
Proof.
  unfold resolvePath.
  repeat match goal with |- context [if ?b then _ else _] => destruct b end;
    reflexivity.
Qed.

Lemma resolvePath_needsLd m c l r :
  needsLdUpdate r = true -> needsLdUpdate (resolvePath m c l r) = true.
Proof.
  unfold resolvePath. intros H.
  repeat match goal with |- context [if ?b then _ else _] => destruct b end;
    simpl; auto.
Qed.

Lemma resolvePath_needsChrome m c l r :
  needsChromeUpdate r = true -> needsChromeUpdate (resolvePath m c l r) = true.
Proof.
  unfold resolvePath. intros H.
  repeat match goal with |- context [if ?b then _ else _] => destruct b end;
    simpl; auto.
Qed.

Section Rules.

Variable tag : string.
Variable entry : MappingEntry.
Variable cbm : ChromeBookmark.
Variable ld : LdBookmark.

Let res := resolve tag entry cbm ld.
Let chromeTitle := c_title cbm.
Let ldTitle := or_else (ld_title ld) (ld_url ld).
Let mapped := or_else (e_folderPath entry) "".
Let chromePath := c_folderPath cbm.
Let ldPath := extractFolderPath tag (ld_tag_names ld).

Lemma title_chrome_only :
  chromeTitle <> e_title entry -> ldTitle = e_title entry ->
  finalTitle res = chromeTitle /\ needsLdUpdate res = true.
Proof.
  intros H1 H2. unfold res, resolve. fold chromeTitle ldTitle.
  rewrite resolvePath_title. split; [|apply resolvePath_needsLd];
    unfold resolveTitle; decide_strings; reflexivity.
Qed.

Lemma title_ld_only :
  ldTitle <> e_title entry -> chromeTitle = e_title entry ->
  finalTitle res = ldTitle /\ needsChromeUpdate res = true.
Proof.
  intros H1 H2. unfold res, resolve. fold chromeTitle ldTitle.
  rewrite resolvePath_title. split; [|apply resolvePath_needsChrome];
    unfold resolveTitle; decide_strings; reflexivity.
Qed.

Lemma title_both_ld_newer :
  ldTitle <> e_title entry -> chromeTitle <> e_title entry ->
  e_lastSynced entry < ldDateOf ld ->
  finalTitle res = ldTitle /\ needsChromeUpdate res = true.
Proof.
  intros H1 H2 H3. apply Z.ltb_lt in H3. unfold res, resolve.
  fold chromeTitle ldTitle.
  rewrite resolvePath_title. split; [|apply resolvePath_needsChrome];
    unfold resolveTitle; decide_strings; simpl; rewrite H3; reflexivity.
Qed.

Lemma title_both_ld_not_newer :
  ldTitle <> e_title entry -> chromeTitle <> e_title entry ->
  ldDateOf ld <= e_lastSynced entry ->
  finalTitle res = chromeTitle /\ needsLdUpdate res = true.
Proof.
  intros H1 H2 H3. apply Z.ltb_ge in H3. unfold res, resolve.
  fold chromeTitle ldTitle.
  rewrite resolvePath_title. split; [|apply resolvePath_needsLd];
    unfold resolveTitle; decide_strings; simpl; rewrite H3; reflexivity.
Qed.



(** When no flag is raised, both sides agree with the remembered entry. *)
Lemma nothing_to_do :
  needsLdUpdate res = false -> needsChromeUpdate res = false ->
  chromeTitle = e_title entry /\ ldTitle = e_title entry
  /\ chromePath = mapped /\ ldPath = mapped.
Proof.
  unfold res, resolve. fold chromeTitle ldTitle chromePath ldPath mapped.
  unfold resolvePath, resolveTitle, str_neq.
  destruct (String.eqb chromeTitle (e_title entry)) eqn:E1;
    destruct (String.eqb ldTitle (e_title entry)) eqn:E2;
    destruct (String.eqb chromePath mapped) eqn:E3;
    destruct (String.eqb ldPath mapped) eqn:E4; simpl;
    try destruct (e_lastSynced entry <? ldDateOf ld); simpl;
    intros; try discriminate.
  all: apply String.eqb_eq in E1; apply String.eqb_eq in E2;
    apply String.eqb_eq in E3; apply String.eqb_eq in E4;
    repeat split; assumption.
Qed.

(** The converse: an entry both sides agree with raises no flag. *)
Lemma agreed_nothing_to_do :
  chromeTitle = e_title entry -> ldTitle = e_title entry ->
  chromePath = mapped -> ldPath = mapped ->
  needsLdUpdate res = false /\ needsChromeUpdate res = false.
Proof.
  intros H1 H2 H3 H4. unfold res, resolve.
  fold chromeTitle ldTitle chromePath ldPath mapped.
  unfold resolvePath, resolveTitle. decide_strings. simpl. auto.
Qed.

End Rules.



(* ================================================================== *)
(** ** Concrete worlds *)
(* ================================================================== *)

Module Scenario.

Definition settings : Settings :=
  mkSettings "https://ld.example" "token" true "sync" (Some 1) true (Some 500).

Definition no_faults (c : Call) : bool := false.

Definition urlA : string := "https://a.test".
Definition urlB : string := "https://b.test".

(** The browser tree: the synced folder has id 1. *)
Definition tree (children : list BNode) : BNode :=
  Folder 0 "" [Folder 1 "Synced" children].

(** A world without faults, in which the search finds no config bookmark. *)
Definition world (remote : list LdBookmark) (children : list BNode)
    (mapping : Mapping) (now : Z) : World :=
  mkWorld settings remote 200 (tree children) 50 mapping (SearchResults None)
          now no_faults [] [].

(** One entry, identical on both sides and in the mapping. *)
Definition settledWorld : World :=
  world [mkLd 100 urlA "A" ["sync"; "news"] (Some 400)]
        [Bookmark 10 "A" urlA 300]
        [(urlA, mkEntry 100 10 "A" urlA "" 500)]
        2000.

(** One entry, renamed and moved on both sides since the last sync; the
    remote change is older than the last sync. *)
Definition conflictWorld : World :=
  world [mkLd 100 urlA "A remote" ["sync"; "sync/Archive"; "news"] (Some 400)]
        [Folder 2 "Home" [Bookmark 10 "A local" urlA 300]]
        [(urlA, mkEntry 100 10 "A" urlA "Work" 500)]
        2000.

(** One entry whose title was blanked in the browser. *)
Definition blankTitleWorld : World :=
  world [mkLd 100 urlA "A" ["sync"] (Some 400)]
        [Bookmark 10 "" urlA 300]
        [(urlA, mkEntry 100 10 "A" urlA "" 500)]
        2000.


(** The entry remembers the browser id 10, the bookmark was re-created in
    the browser under id 11, and the remote item is gone. *)
Definition staleIdWorld : World :=
  world []
        [Bookmark 11 "A" urlA 900]
        [(urlA, mkEntry 100 10 "A" urlA "" 500)]
        2000.

(** Two local bookmarks, nothing remote, and a server that rejects the
    creation of the first. *)
Definition rejectA (c : Call) : bool :=
  match c with
  | LdCreate url _ _ _ => String.eqb url urlA
  | _ => false
  end.

Definition faultyWorld : World :=
  mkWorld settings [] 200
          (tree [Bookmark 10 "A" urlA 300; Bookmark 11 "B" urlB 301])
          50 [] (SearchResults None) 2000 rejectA [] [].

(** Two remote items, nothing local, and a browser that rejects the
    creation of the bookmark titled "A". *)
Definition rejectBookmarkA (c : Call) : bool :=
  match c with
  | ChCreate _ title (Some _) => String.eqb title "A"
  | _ => false
  end.

Definition faultyPullWorld : World :=
  mkWorld settings
          [mkLd 100 urlA "A" ["sync"] (Some 400);
           mkLd 101 urlB "B" ["sync"] (Some 400)]
          200 (tree []) 50 [] (SearchResults None) 2000 rejectBookmarkA [] [].


(** The creation of the config bookmark that ends an initial run when the
    search finds none, and the item the server then holds. *)
Definition configCreate (order : list string) : Call :=
  LdCreate "http://example.com/?linkding-sync-config" "Linkding Sync Config"
           (Some order) ["bookmark-sync-config"].

Definition configItem (id now : Z) : LdBookmark :=
  mkLd id "http://example.com/?linkding-sync-config" "Linkding Sync Config"
       ["bookmark-sync-config"] (Some now).

(** One linked pair, and a server that already holds the config bookmark
    under id 150, with a description that is not an order. *)
Definition configuredWorld : World :=
  mkWorld settings
          [mkLd 100 urlA "A" ["sync"] (Some 400); configItem 150 100]
          200 (tree [Bookmark 10 "A" urlA 300]) 50 []
          (SearchResults (Some (mkConfig 150 None))) 2000 no_faults [] [].

(** What a test looks at after a run. *)
Definition observe {A : Type} (out : Res A * World)
  : Res A * (list LdBookmark * BNode * Mapping * list Call * list string) :=
  (fst out,
   (w_remote (snd out), w_chrome (snd out), w_mapping (snd out),
    w_log (snd out), w_console (snd out))).

End Scenario.

(* ================================================================== *)
(** ** C9: the entry written for a key present on both sides *)
(* ================================================================== *)

(** C9 as stated fails: an entry neither side diverged from keeps the
    [lastSynced] it had (500) although the run happens at 2000. *)
Lemma unchanged_entry_keeps_old_lastSynced :
  fst (runTwoWaySync Scenario.settledWorld) = Ok (mkSyncResult 0 0 0 1)
  /\ w_now Scenario.settledWorld = 2000
  /\ JsMap.get (w_mapping (snd (runTwoWaySync Scenario.settledWorld)))
               Scenario.urlA
     = Some (mkEntry 100 10 "A" Scenario.urlA "" 500).
Proof. vm_compute. repeat split. Qed.

(** C9, amended.  For every key of the mapping present on both sides, a
    completed run stores an entry with the two fresh ids.  When a corrective
    write was needed on either side, the entry holds the resolved title and
    path and [lastSynced] is the clock reading of the run; when no write was
    needed, which is exactly when both sides agree with the remembered title
    and path, the entry keeps its title, url and [lastSynced] and takes the
    local folder path. *)
Theorem mapped_entry_written w r w' root url entry cbm ld
    (Hrun : runTwoWaySync w = (Ok r, w'))
    (Hkeys : NoDup (JsMap.keys (w_mapping w)))
    (Hroot : s_twoWaySyncFolderId (w_settings w) = Some root)
    (Hentry : JsMap.get (w_mapping w) url = Some entry)
    (Hlocal : JsMap.get (chromeIndex root w) url = Some cbm)
    (Hremote : JsMap.get (ldIndex w) url = Some ld) :
  let tag := s_twoWaySyncTag (w_settings w) in
  let res := resolve tag entry cbm ld in
  let write := needsLdUpdate res || needsChromeUpdate res in
  exists e,
    JsMap.get (w_mapping w') url = Some e
    /\ e_linkdingId e = ld_id ld /\ e_chromeId e = c_id cbm
    /\ (write = true ->
        e_lastSynced e = w_now w /\ e_title e = finalTitle res
        /\ e_folderPath e = finalFolderPath res /\ e_url e = url)
    /\ (write = false ->
        e_lastSynced e = e_lastSynced entry /\ e_title e = e_title entry
        /\ e_folderPath e = c_folderPath cbm /\ e_url e = e_url entry)
    /\ (write = false <->
        c_title cbm = e_title entry
        /\ or_else (ld_title ld) (ld_url ld) = e_title entry
        /\ c_folderPath cbm = or_else (e_folderPath entry) ""
        /\ extractFolderPath tag (ld_tag_names ld)
           = or_else (e_folderPath entry) "").
Proof.
  intros tag res write.
  destruct (@run_mapped_both w r w' root url entry cbm ld
              Hrun Hkeys Hroot Hentry Hlocal Hremote)
    as (w1 & wm & w2 & _ & _ & _ & _ & Hget).
  exists (mergedEntry tag url entry cbm ld (w_now w)).
  split; [exact Hget|]. unfold mergedEntry. fold res.
  assert (E : negb (needsLdUpdate res) && negb (needsChromeUpdate res)
              = negb write).
  { unfold write. now rewrite negb_orb. }
  rewrite E.
  split; [destruct write; reflexivity|].
  split; [destruct write; reflexivity|].
  split; [intros ->; simpl; auto|].
  split; [intros ->; simpl; auto|].
  unfold write. rewrite orb_false_iff. split.
  - intros [H1 H2]. now apply nothing_to_do.
  - intros (H1 & H2 & H3 & H4). now apply agreed_nothing_to_do.
Qed.

Lemma mapped_entry_written_witness :
  exists e,
    JsMap.get (w_mapping (snd (runTwoWaySync Scenario.conflictWorld)))
              Scenario.urlA = Some e
    /\ e_lastSynced e = 2000.
Proof.
  assert (Hrun : runTwoWaySync Scenario.conflictWorld
                 = (Ok (mkSyncResult 0 0 1 1),
                    snd (runTwoWaySync Scenario.conflictWorld))).
  { vm_compute. reflexivity. }
  assert (Hkeys : NoDup (JsMap.keys (w_mapping Scenario.conflictWorld))).
  { repeat constructor. intros []. }
  destruct (@mapped_entry_written Scenario.conflictWorld _ _ 1 Scenario.urlA
              (mkEntry 100 10 "A" Scenario.urlA "Work" 500)
              (mkCbm 10 Scenario.urlA "A local" 300 "Home")
              (mkLd 100 Scenario.urlA "A remote"
                    ["sync"; "sync/Archive"; "news"] (Some 400))
              Hrun Hkeys eq_refl eq_refl eq_refl eq_refl)
    as (e & He & _ & _ & Hw & _).
  exists e. split; [exact He|]. now apply Hw.
Defined.

(* ================================================================== *)
(** ** C4 and C7: path and title of an entry present on both sides *)
(* ================================================================== *)

Unset Implicit Arguments.

Lemma correctLinkding_steady tag res ld :
  preserves (steadyRel any_call) (correctLinkding tag res ld).
Proof. unfold correctLinkding. pres. exact I. Qed.

Lemma chrome_update_steady id title :
  preserves (steadyRel any_call) (Chrome.update id title).
Proof. pres. exact I. Qed.

Lemma correctChrome_steady root res cbm :
  preserves (steadyRel any_call) (correctChrome root res cbm).
Proof. unfold correctChrome. pres; try (intros; exact I). Qed.

(** From a completed optional block to the relation between its ends. *)
Lemma block_steady (c : bool) (m : M unit) w w' :
  preserves (steadyRel any_call) m ->
  (if c then m w = (Ok tt, w') else w' = w) ->
  steady any_call w w'.
Proof.
  intros Hm H. destruct c.
  - specialize (Hm w). now rewrite H in Hm.
  - subst. apply steady_refl.
Qed.


(** The run moved the local item [cbm] into the folder of [path]: at some
    point of the run [ensureFolderPath] returned the folder for [path] and
    the item was moved into it. *)
Definition local_item_moved (w w' : World) (root : Z) (cbm : ChromeBookmark)
    (path : string) : Prop :=
  exists folderId wa wb wc,
    steady any_call w wa
    /\ ensureFolderPath root path wa = (Ok folderId, wb)
    /\ Chrome.move (c_id cbm) folderId wb = (Ok tt, wc)
    /\ steady any_call wc w'
    /\ issued w w' (ChMove (c_id cbm) folderId).

Section BothSides.

Variables (w : World) (r : SyncResult) (w' : World) (root : Z) (url : string).
Variables (entry : MappingEntry) (cbm : ChromeBookmark) (ld : LdBookmark).

Hypothesis Hrun : runTwoWaySync w = (Ok r, w').
Hypothesis Hkeys : NoDup (JsMap.keys (w_mapping w)).
Hypothesis Hroot : s_twoWaySyncFolderId (w_settings w) = Some root.
Hypothesis Hentry : JsMap.get (w_mapping w) url = Some entry.
Hypothesis Hlocal : JsMap.get (chromeIndex root w) url = Some cbm.
Hypothesis Hremote : JsMap.get (ldIndex w) url = Some ld.

Let tag := s_twoWaySyncTag (w_settings w).
Let res := resolve tag entry cbm ld.

(** With the flag [needsLdUpdate] raised, the run sent the final title and
    the final path to the remote item. *)
Lemma remote_corrected :
  needsLdUpdate res = true ->
  issued w w' (LdUpdate (ld_id ld)
                 (updateBody (ld_url ld) (finalTitle res) None
                    (Some (newTags tag (finalFolderPath res) (ld_tag_names ld))))).
Proof.
  intros Hn.
  destruct (@run_mapped_both w r w' root url entry cbm ld
              Hrun Hkeys Hroot Hentry Hlocal Hremote)
    as (w1 & wm & w2 & S1 & HL & HC & S2 & _).
  fold tag in HL, HC. fold res in HL, HC. rewrite Hn in HL.
  pose proof (block_steady _ _ _ _ (correctChrome_steady root res cbm) HC) as SC.
  unfold correctLinkding in HL. apply updateLinkding_Ok in HL as (L & _).
  eapply issued_between; [exact S1 | exact L |].
  eapply steady_trans; [exact SC | exact S2].
Qed.

(** With the flag [needsChromeUpdate] raised, the run retitled the local
    item when its title is not the final one, and moved it when its folder
    is not the final one. *)
Lemma local_corrected :
  needsChromeUpdate res = true ->
  (finalTitle res <> c_title cbm ->
   issued w w' (ChUpdate (c_id cbm) (finalTitle res)))
  /\ (finalFolderPath res <> c_folderPath cbm ->
      local_item_moved w w' root cbm (finalFolderPath res)).
Proof.
  intros Hn.
  destruct (@run_mapped_both w r w' root url entry cbm ld
              Hrun Hkeys Hroot Hentry Hlocal Hremote)
    as (w1 & wm & w2 & S1 & HL & HC & S2 & _).
  fold tag in HL, HC. fold res in HL, HC. rewrite Hn in HC.
  pose proof (block_steady _ _ _ _ (correctLinkding_steady tag res ld) HL) as SL.
  apply correctChrome_Ok in HC as (wt & HT & HP).
  assert (ST : steady any_call wm wt).
  { destruct (str_neq (finalTitle res) (c_title cbm)).
    - pose proof (chrome_update_steady (c_id cbm) (finalTitle res) wm) as G.
      now rewrite HT in G.
    - subst. apply steady_refl. }
  assert (SP : steady any_call wt w2).
  { pose proof (@preserves_when (steadyRel any_call)
                  (str_neq (finalFolderPath res) (c_folderPath cbm))
                  (newParentId <- ensureFolderPath root (finalFolderPath res) ;;
                   Chrome.move (c_id cbm) newParentId)) as G.
    destruct (str_neq (finalFolderPath res) (c_folderPath cbm)).
    - destruct HP as (p & wq & E1 & E2).
      assert (G' : preserves (steadyRel any_call)
                     (newParentId <- ensureFolderPath root (finalFolderPath res) ;;
                      Chrome.move (c_id cbm) newParentId)).
      { pres; intros; exact I. }
      specialize (G' wt). unfold bind in G'. rewrite E1, E2 in G'. exact G'.
    - subst. apply steady_refl. }
  split.
  - intros Ht. apply str_neq_true in Ht. rewrite Ht in HT.
    apply chrome_update_Ok in HT as (L & _).
    eapply issued_between;
      [eapply steady_trans; [exact S1 | exact SL] | exact L |].
    eapply steady_trans; [exact SP | exact S2].
  - intros Hp. apply str_neq_true in Hp. rewrite Hp in HP.
    destruct HP as (p & wq & E1 & E2).
    exists p, wt, wq, w2.
    assert (Sa : steady any_call w wt).
    { eapply steady_trans; [exact S1|]. eapply steady_trans; [exact SL | exact ST]. }
    split; [exact Sa|]. split; [exact E1|]. split; [exact E2|].
    split; [exact S2|].
    pose proof (@preserves_ensureFolderPath (steadyRel any_call)
                  (fun _ _ => I) root (finalFolderPath res) wt) as Se.
    rewrite E1 in Se. simpl in Se.
    apply chrome_move_Ok in E2 as (L & _).
    eapply issued_between;
      [eapply steady_trans; [exact Sa | exact Se] | exact L | exact S2].
Qed.

(** The entry stored when a flag is raised. *)
Lemma stored_when_corrected :
  needsLdUpdate res = true \/ needsChromeUpdate res = true ->
  JsMap.get (w_mapping w') url
  = Some (mkEntry (ld_id ld) (c_id cbm) (finalTitle res) url
                  (finalFolderPath res) (w_now w)).
Proof.
  intros Hn.
  destruct (@run_mapped_both w r w' root url entry cbm ld
              Hrun Hkeys Hroot Hentry Hlocal Hremote)
    as (w1 & wm & w2 & _ & _ & _ & _ & Hget).
  rewrite Hget. unfold mergedEntry. fold tag. fold res.
  destruct Hn as [-> | ->]; [|rewrite andb_false_r]; reflexivity.
Qed.

End BothSides.



(* ------------------------------------------------------------------ *)

(** C7.  A local title that wins is not written to the remote item when
    it is empty.  The mapping remembers "A" for a bookmark whose title was
    blanked in the browser and is still "A" on the server: the local title
    wins and is recorded in the entry, and the one update the run sends
    carries the URL and the tags but no title, because [if (title)] in
    [updateLinkdingBookmark] drops the empty string. *)
Theorem blank_title_is_not_sent :
  JsMap.get (chromeIndex 1 Scenario.blankTitleWorld) Scenario.urlA
  = Some (mkCbm 10 Scenario.urlA "" 300 "")
  /\ fst (runTwoWaySync Scenario.blankTitleWorld) = Ok (mkSyncResult 0 0 1 1)
  /\ JsMap.get (w_mapping (snd (runTwoWaySync Scenario.blankTitleWorld)))
               Scenario.urlA
     = Some (mkEntry 100 10 "" Scenario.urlA "" 2000)
  /\ w_log (snd (runTwoWaySync Scenario.blankTitleWorld))
     = [LdUpdate 100 (mkBody (Some Scenario.urlA) None None (Some ["sync"]))].
Proof. vm_compute. repeat split. Qed.

(** The run wrote the title [t] to the remote item: it issued an update
    of that item built from [t]; the body carries [t] unless [t] is empty,
    in which case it carries no title. *)
Definition title_sent_to_remote (w w' : World) (ld : LdBookmark) (t : string)
  : Prop :=
  exists body tags,
    issued w w' (LdUpdate (ld_id ld) body)
    /\ body = updateBody (ld_url ld) t None (Some tags)
    /\ b_title body = if truthy t then Some t else None.

(** The title rule.  For every mapped entry present on both sides, in a
    completed run: if exactly one side's title differs from the remembered
    title, that side's title wins; if both differ, the remote title wins
    exactly when the remote modification time is later than the entry's
    [lastSynced], and the local title wins otherwise.  The winning title is
    recorded in the stored entry.  A winning remote title is written to the
    local item (unless the local title already equals it); a winning local
    title is written to the remote item by an update that carries it when it
    is not empty and carries no title when it is empty. *)
Theorem title_conflict_resolution w r w' root url entry cbm ld
    (Hrun : runTwoWaySync w = (Ok r, w'))
    (Hkeys : NoDup (JsMap.keys (w_mapping w)))
    (Hroot : s_twoWaySyncFolderId (w_settings w) = Some root)
    (Hentry : JsMap.get (w_mapping w) url = Some entry)
    (Hlocal : JsMap.get (chromeIndex root w) url = Some cbm)
    (Hremote : JsMap.get (ldIndex w) url = Some ld) :
  let remembered := e_title entry in
  let localTitle := c_title cbm in
  let remoteTitle := or_else (ld_title ld) (ld_url ld) in
  let recorded t :=
    exists e, JsMap.get (w_mapping w') url = Some e /\ e_title e = t in
  let local_wins :=
    recorded localTitle /\ title_sent_to_remote w w' ld localTitle in
  let remote_wins :=
    recorded remoteTitle
    /\ (remoteTitle <> localTitle ->
        issued w w' (ChUpdate (c_id cbm) remoteTitle)) in
  (localTitle <> remembered -> remoteTitle = remembered -> local_wins)
  /\ (remoteTitle <> remembered -> localTitle = remembered -> remote_wins)
  /\ (remoteTitle <> remembered -> localTitle <> remembered ->
      (e_lastSynced entry < ldDateOf ld -> remote_wins)
      /\ (ldDateOf ld <= e_lastSynced entry -> local_wins)).
Proof.
  intros remembered localTitle remoteTitle recorded local_wins remote_wins.
  set (tag := s_twoWaySyncTag (w_settings w)).
  set (res := resolve tag entry cbm ld).
  assert (Local : finalTitle res = localTitle -> needsLdUpdate res = true ->
                  local_wins).
  { intros Hf Hn. split.
    - eexists. split.
      + apply (stored_when_corrected w r w' root url entry cbm ld
                 Hrun Hkeys Hroot Hentry Hlocal Hremote). now left.
      + exact Hf.
    - pose proof (remote_corrected w r w' root url entry cbm ld
                    Hrun Hkeys Hroot Hentry Hlocal Hremote Hn) as Hi.
      fold tag in Hi. fold res in Hi. rewrite Hf in Hi.
      eexists _, _. split; [exact Hi|]. split; reflexivity. }
  assert (Remote : finalTitle res = remoteTitle -> needsChromeUpdate res = true ->
                   remote_wins).
  { intros Hf Hn. split.
    - eexists. split.
      + apply (stored_when_corrected w r w' root url entry cbm ld
                 Hrun Hkeys Hroot Hentry Hlocal Hremote). now right.
      + exact Hf.
    - destruct (local_corrected w r w' root url entry cbm ld
                  Hrun Hkeys Hroot Hentry Hlocal Hremote Hn) as [Hup _].
      fold tag in Hup. fold res in Hup. rewrite Hf in Hup. exact Hup. }
  split; [|split].
  - intros H1 H2.
    destruct (title_chrome_only tag entry cbm ld H1 H2); now apply Local.
  - intros H1 H2.
    destruct (title_ld_only tag entry cbm ld H1 H2); now apply Remote.
  - intros H1 H2. split; intros H3.
    + destruct (title_both_ld_newer tag entry cbm ld H1 H2 H3); now apply Remote.
    + destruct (title_both_ld_not_newer tag entry cbm ld H1 H2 H3);
        now apply Local.
Qed.

Lemma title_conflict_resolution_witness :
  title_sent_to_remote Scenario.conflictWorld
    (snd (runTwoWaySync Scenario.conflictWorld))
    (mkLd 100 Scenario.urlA "A remote" ["sync"; "sync/Archive"; "news"] (Some 400))
    "A local".
Proof.
  assert (Hrun : runTwoWaySync Scenario.conflictWorld
                 = (Ok (mkSyncResult 0 0 1 1),
                    snd (runTwoWaySync Scenario.conflictWorld))).
  { vm_compute. reflexivity. }
  assert (Hkeys : NoDup (JsMap.keys (w_mapping Scenario.conflictWorld))).
  { repeat constructor. intros []. }
  destruct (title_conflict_resolution Scenario.conflictWorld _ _ 1 Scenario.urlA
              (mkEntry 100 10 "A" Scenario.urlA "Work" 500)
              (mkCbm 10 Scenario.urlA "A local" 300 "Home")
              (mkLd 100 Scenario.urlA "A remote"
                    ["sync"; "sync/Archive"; "news"] (Some 400))
              Hrun Hkeys eq_refl eq_refl eq_refl eq_refl)
    as (_ & _ & Hboth).
  apply Hboth; discriminate.
Defined.

(* ================================================================== *)
(** ** C2: running the reconciler again *)
(* ================================================================== *)


(** The guards of [runTwoWaySync] pass and the fetch is answered: the
    synced folder the run will read. *)
Definition ready (w : World) : option Z :=
  let s := w_settings w in
  if s_twoWayEnabled s && truthy (s_url s) && truthy (s_token s)
     && s_twoWayInitialSyncDone s
     && negb (w_fails w (LdFetch (s_twoWaySyncTag s)))
  then match s_twoWaySyncFolderId s with
       | Some root => match Chrome.find_node root (w_chrome w) with
                      | Some _ => Some root
                      | None => None
                      end
       | None => None
       end
  else None.










Lemma bind_eq {A B : Type} (m : M A) (k : A -> M B) w a w1 :
  m w = (Ok a, w1) -> bind m k w = k a w1.
Proof. intros H. unfold bind. now rewrite H. Qed.

Lemma verifyFolder_found root w node :
  Chrome.find_node root (w_chrome w) = Some node ->
  verifyFolder root w = (Ok tt, w).
Proof.
  intros H. unfold verifyFolder, try_catch, Chrome.get, bind, gets, ret.
  now rewrite H.
Qed.

Lemma fetch_answered tag w :
  w_fails w (LdFetch tag) = false ->
  fetchBookmarksWithTag tag w = (Ok (filter (has_tag tag) (w_remote w)), w).
Proof.
  intros H. unfold fetchBookmarksWithTag, bind, gets, ret. now rewrite H.
Qed.

Lemma snapshot_read root w node :
  Chrome.find_node root (w_chrome w) = Some node ->
  getChromeBookmarksRecursive root "" w = (Ok (chromeSnapshot root w), w).
Proof.
  intros H.
  unfold getChromeBookmarksRecursive, Chrome.getChildren, Chrome.get,
    chromeSnapshot, bind, gets, ret.
  rewrite H. now destruct node.
Qed.



(* ================================================================== *)
(** ** C3: deletions *)
(* ================================================================== *)

Lemma issue_world c w : snd (Chrome.issue c w) = add_log c w.
Proof.
  unfold Chrome.issue, bind, modify, gets. simpl.
  destruct (w_fails w c); reflexivity.
Qed.

(** A computation that issues no call leaves the log as it is. *)
Lemma silent_log {A : Type} (m : M A) w :
  preserves (steadyRel (fun _ => False)) m -> w_log (snd (m w)) = w_log w.
Proof.
  intros H. destruct (H w) as [_ [l [L F]]]. destruct l as [|c l].
  - now rewrite app_nil_r in L.
  - inversion F. contradiction.
Qed.

Lemma chrome_remove_log id w :
  w_log (snd (Chrome.remove id w)) = (w_log w ++ [ChRemove id])%list.
Proof.
  unfold Chrome.remove. unfold bind at 1.
  pose proof (issue_world (ChRemove id) w) as Hw.
  destruct (Chrome.issue (ChRemove id) w) as [[[]|msg] w1]; simpl in Hw; subst w1.
  - rewrite silent_log; [reflexivity|]. pres.
  - reflexivity.
Qed.

(** What pass 3 does for a key that one side or both sides lack: the entry
    is not written to the new mapping and [removed] goes up by one; when
    only the local item is missing, the remote item found by the fetch is
    deleted; when only the remote item is missing, the browser is asked to
    remove the id remembered in the entry, and a failure of that call is
    ignored. *)
Lemma deletion_turn tag root ldByUrl chromeByUrl acc url entry w acc' w' :
  syncMapped tag root ldByUrl chromeByUrl acc (url, entry) w = (Ok acc', w') ->
  match JsMap.get chromeByUrl url, JsMap.get ldByUrl url with
  | Some _, Some _ => True
  | None, None =>
      acc' = mkAcc (newMapping acc) (added acc) (removed acc + 1) (updated acc)
      /\ w' = w
  | None, Some ld =>
      acc' = mkAcc (newMapping acc) (added acc) (removed acc + 1) (updated acc)
      /\ w_log w' = (w_log w ++ [LdDelete (ld_id ld)])%list
      /\ w_remote w'
         = filter (fun bm => negb (Z.eqb (ld_id bm) (ld_id ld))) (w_remote w)
  | Some _, None =>
      acc' = mkAcc (newMapping acc) (added acc) (removed acc + 1) (updated acc)
      /\ w_log w' = (w_log w ++ [ChRemove (e_chromeId entry)])%list
  end.
Proof.
  unfold syncMapped. intros H.
  destruct (JsMap.get chromeByUrl url) as [cbm|];
    destruct (JsMap.get ldByUrl url) as [ld|]; [exact I | | |].
  - peel H. apply ret_Ok in H as [-> ->]. split; [reflexivity|].
    pose proof (chrome_remove_log (e_chromeId entry) w) as L.
    unfold try_catch in H0.
    destruct (Chrome.remove (e_chromeId entry) w) as [[[]|msg] w1];
      simpl in L.
    + inversion H0. now subst.
    + apply ret_Ok in H0 as [_ ->]. exact L.
  - peel H. apply ret_Ok in H as [-> ->].
    apply deleteLinkding_Ok in H0 as (L & Rm & _). auto.
  - apply ret_Ok in H as [-> ->]. auto.
Qed.

(** C3 fails on the code for a key absent remotely and present locally
    when the browser id remembered in the entry (10) is no longer the id of
    the local item (11): the run asks the browser to remove id 10, ignores
    the failure, drops the entry and counts it as removed, and the local
    item stays.  The next run then uploads it again. *)
Theorem stale_id_leaves_local_item :
  fst (runTwoWaySync Scenario.staleIdWorld) = Ok (mkSyncResult 0 1 0 0)
  /\ w_log (snd (runTwoWaySync Scenario.staleIdWorld)) = [ChRemove 10]
  /\ w_chrome (snd (runTwoWaySync Scenario.staleIdWorld))
     = Scenario.tree [Bookmark 11 "A" Scenario.urlA 900]
  /\ w_mapping (snd (runTwoWaySync Scenario.staleIdWorld)) = []
  /\ fst (runTwoWaySync (snd (runTwoWaySync Scenario.staleIdWorld)))
     = Ok (mkSyncResult 1 0 0 1)
  /\ map ld_url
         (w_remote (snd (runTwoWaySync (snd (runTwoWaySync Scenario.staleIdWorld)))))
     = [Scenario.urlA].
Proof. vm_compute. repeat split. Qed.

(* ================================================================== *)
(** ** C8: a failing item in the initial strategies *)
(* ================================================================== *)

(** A batch never throws: whatever its callback throws is caught. *)
Lemma processBatch_completes {A S : Type} (items : list A) (fn : S -> A -> M S) :
  forall s w, exists s' w', processBatch items fn s w = (Ok s', w').
Proof.
  unfold processBatch. induction items as [|x xs IH]; intros s w; simpl.
  - eexists _, _. reflexivity.
  - unfold bind. unfold try_catch at 1.
    destruct (fn s x w) as [[s1|msg] w1].
    + apply IH.
    + unfold bind, modify, ret. apply IH.
Qed.

(** C8 fails on the code for "merge".  With two local bookmarks and a
    server that rejects the creation of the first, "push" reports the
    failure on the console, skips the item, uploads the second and goes on
    to save the mapping and the config bookmark, and "pull" does the same
    for a rejected local creation; "merge" has no [try]/[catch] around its
    items: the run throws at the first one, the second is never processed,
    no mapping is saved and the flag of the initial sync stays unset. *)
Theorem merge_aborts_on_item_error :
  Scenario.observe (runInitialTwoWaySync "push" Scenario.faultyWorld)
  = (Ok (mkInitResult 1 0 0 1 None),
     ([mkLd 200 Scenario.urlB "B" ["sync"] (Some 2000);
       Scenario.configItem 201 2000],
      Scenario.tree [Bookmark 10 "A" Scenario.urlA 300;
                     Bookmark 11 "B" Scenario.urlB 301],
      [(Scenario.urlB, mkEntry 200 11 "B" Scenario.urlB "" 2000)],
      [LdCreate Scenario.urlA "A" None ["sync"];
       LdCreate Scenario.urlB "B" None ["sync"];
       Scenario.configCreate [Scenario.urlA; Scenario.urlB]],
      ["Batch item failed: Create failed"]))
  /\ Scenario.observe (runInitialTwoWaySync "pull" Scenario.faultyPullWorld)
     = (Ok (mkInitResult 0 0 1 1 None),
        ([mkLd 100 Scenario.urlA "A" ["sync"] (Some 400);
          mkLd 101 Scenario.urlB "B" ["sync"] (Some 400);
          Scenario.configItem 200 2000],
         Scenario.tree [Bookmark 50 "B" Scenario.urlB 2000],
         [(Scenario.urlB, mkEntry 101 50 "B" Scenario.urlB "" 2000)],
         [ChCreate 1 "A" (Some Scenario.urlA); ChCreate 1 "B" (Some Scenario.urlB);
          Scenario.configCreate [Scenario.urlB]],
         ["Batch item failed: Browser API call failed."]))
  /\ Scenario.observe (runInitialTwoWaySync "merge" Scenario.faultyWorld)
     = (Throw "Create failed",
        ([],
         Scenario.tree [Bookmark 10 "A" Scenario.urlA 300;
                        Bookmark 11 "B" Scenario.urlB 301],
         [],
         [LdCreate Scenario.urlA "A" None ["sync"]],
         []))
  /\ s_twoWayInitialSyncDone
       (w_settings (snd (runInitialTwoWaySync "merge"
          (set_settings (mkSettings "https://ld.example" "token" true "sync"
                                    (Some 1) false None)
                        Scenario.faultyWorld))))
     = false.
Proof. vm_compute. repeat split. Qed.

(* ================================================================== *)
(** ** What the initial strategies write *)
(* ================================================================== *)

(** The writes an initial strategy may issue: an update goes to an indexed
    remote item and its tag list includes every tag the item had; a remote
    item is created only for a URL the remote index lacks; with
    [guard_local] (push and merge, which do not wipe the folder) a bookmark
    is created locally only for a URL the local index lacks. *)
Definition link_call (guard_local : bool) (ldByUrl : JsMap.t LdBookmark)
    (chromeByUrl : JsMap.t ChromeBookmark) (c : Call) : Prop :=
  match c with
  | LdCreate url _ _ _ => JsMap.get ldByUrl url = None
  | LdUpdate id body =>
      exists ld tags,
        JsMap.get ldByUrl (ld_url ld) = Some ld /\ id = ld_id ld
        /\ b_tag_names body = Some tags
        /\ incl (ld_tag_names ld) tags
  | ChCreate _ _ (Some url) =>
      guard_local = true -> JsMap.get chromeByUrl url = None
  | _ => True
  end.

Section InitialWrites.

Variable tag : string.
Variable root : Z.
Variable ldByUrl : JsMap.t LdBookmark.
Variable chromeByUrl : JsMap.t ChromeBookmark.

Hypothesis ld_keyed : forall k ld, JsMap.get ldByUrl k = Some ld -> ld_url ld = k.
Hypothesis chrome_keyed :
  forall k cbm, JsMap.get chromeByUrl k = Some cbm -> c_url cbm = k.

Lemma link_update_all (g : bool) (k : string) (ld : LdBookmark) (title : string)
    (tags : list string) :
  JsMap.get ldByUrl k = Some ld ->
  link_call g ldByUrl chromeByUrl
            (LdUpdate (ld_id ld)
               (updateBody (ld_url ld) title None
                           (Some (mergeTags (ld_tag_names ld) tags)))).
Proof.
  intros Hget. exists ld, (mergeTags (ld_tag_names ld) tags).
  split; [now rewrite (ld_keyed _ _ Hget)|]. split; [reflexivity|].
  split; [reflexivity|]. intros t Ht. now apply mergeTags_keeps_all.
Qed.

Lemma pushItem_writes g acc cbm :
  preserves (steadyRel (link_call g ldByUrl chromeByUrl))
            (pushItem tag ldByUrl acc cbm).
Proof.
  unfold pushItem. pres.
  - now apply (link_update_all g (c_url cbm)).
  - assumption.
Qed.

Lemma pullItem_writes acc ld :
  preserves (steadyRel (link_call false ldByUrl chromeByUrl))
            (pullItem tag root acc ld).
Proof.
  unfold pullItem. pres; try (intros; exact I).
  simpl. discriminate.
Qed.

Lemma mergeItem_writes acc url :
  preserves (steadyRel (link_call true ldByUrl chromeByUrl))
            (mergeItem tag root ldByUrl chromeByUrl acc url).
Proof.
  unfold mergeItem.
  destruct (JsMap.get ldByUrl url) as [ld|] eqn:El;
    destruct (JsMap.get chromeByUrl url) as [cbm|] eqn:Ec.
  - pres; try exact I. now apply (link_update_all true url).
  - pres; try (intros; exact I). simpl. intros _.
    now rewrite (ld_keyed _ _ El).
  - pres. simpl. now rewrite (chrome_keyed _ _ Ec).
  - pres.
Qed.

Lemma removeChildrenOf_writes g id :
  preserves (steadyRel (link_call g ldByUrl chromeByUrl)) (removeChildrenOf id).
Proof. unfold removeChildrenOf. pres; exact I. Qed.

Lemma processBatch_writes {A S : Type} (R : WorldRel) (items : list A)
    (fn : S -> A -> M S) s :
  (forall s x, preserves R (fn s x)) -> preserves R (processBatch items fn s).
Proof. intros H. unfold processBatch. pres. apply H. Qed.

End InitialWrites.

(** Every write of an initial strategy is one that [link_call] allows;
    the local guard holds for every mode but "pull". *)
Lemma runStrategy_writes mode tag root lds cbms :
  preserves (steadyRel (link_call (negb (String.eqb mode "pull"))
                                  (JsMap.index_by ld_url lds)
                                  (JsMap.index_by c_url cbms)))
            (runStrategy mode tag root lds cbms).
Proof.
  assert (K1 : forall k ld, JsMap.get (JsMap.index_by ld_url lds) k = Some ld ->
                            ld_url ld = k).
  { intros k ld H. now apply JsMap.index_by_key in H. }
  assert (K2 : forall k cbm, JsMap.get (JsMap.index_by c_url cbms) k = Some cbm ->
                             c_url cbm = k).
  { intros k cbm H. now apply JsMap.index_by_key in H. }
  unfold runStrategy, fetchConfigOrder. cbv zeta.
  destruct (String.eqb mode "push") eqn:E1.
  - apply processBatch_writes. intros s x. now apply pushItem_writes.
  - destruct (String.eqb mode "pull") eqn:E2; simpl negb.
    + pres.
      * now apply removeChildrenOf_writes.
      * apply processBatch_writes. intros s x. now apply pullItem_writes.
    + destruct (String.eqb mode "merge") eqn:E3.
      * pres; now apply mergeItem_writes.
      * pres.
Qed.

(* ================================================================== *)
(** ** What a whole run writes *)
(* ================================================================== *)

Lemma verifyFolder_world root w : snd (verifyFolder root w) = w.
Proof.
  unfold verifyFolder, try_catch, Chrome.get, bind, gets, ret, throw.
  destruct (Chrome.find_node root (w_chrome w)); reflexivity.
Qed.

Lemma fetch_world tag w : snd (fetchBookmarksWithTag tag w) = w.
Proof.
  unfold fetchBookmarksWithTag, bind, gets, ret, throw.
  destruct (w_fails w (LdFetch tag)); reflexivity.
Qed.

Lemma snapshot_world root prefix w :
  snd (getChromeBookmarksRecursive root prefix w) = w.
Proof.
  unfold getChromeBookmarksRecursive, Chrome.getChildren, Chrome.get,
    bind, gets, ret, throw.
  destruct (Chrome.find_node root (w_chrome w)) as [[? ? ? ?|? ? ?]|];
    reflexivity.
Qed.

(** After a read that leaves the world alone, what matters is the rest. *)
Lemma after_read {A B : Type} (R : World -> World -> Prop) (m : M A)
    (k : A -> M B) w :
  snd (m w) = w -> R w w ->
  (forall a, m w = (Ok a, w) -> R w (snd (k a w))) ->
  R w (snd (bind m k w)).
Proof.
  intros Hw Hrefl Hk. unfold bind.
  destruct (m w) as [[a|msg] w1] eqn:E; simpl in Hw; subst w1; simpl; auto.
Qed.

(** State a goal about the world after [m] as a frame property of [m]. *)
Ltac as_preserves :=
  match goal with
  | |- steady ?P ?w (snd (?m ?w)) =>
      apply (fun H : preserves (steadyRel P) m => H w)
  end.

(** The writes allowed to an incremental run started in [w]. *)
Definition run_call (w : World) (c : Call) : Prop :=
  match s_twoWaySyncFolderId (w_settings w) with
  | Some root =>
      sync_call (s_twoWaySyncTag (w_settings w)) (ldIndex w) (chromeIndex root w) c
  | None => False
  end.

(** The write that ends an initial run: the config bookmark is created
    under its fixed URL, title and tag, or updated with a body that holds
    the description and nothing else. *)
Definition config_call (c : Call) : Prop :=
  match c with
  | LdCreate url title (Some _) tag_names =>
      url = "http://example.com/?linkding-sync-config"
      /\ title = CONFIG_TITLE
      /\ tag_names = ["bookmark-sync-config"]
  | LdUpdate _ body =>
      b_url body = None /\ b_title body = None
      /\ b_description body <> None /\ b_tag_names body = None
  | _ => False
  end.

Lemma saveConfig_writes (P : Call -> Prop) order existingId :
  (forall c, config_call c -> P c) ->
  preserves (steadyRel P) (saveConfig order existingId).
Proof.
  intros H. unfold saveConfig.
  destruct existingId as [id|]; [destruct (Z.eqb id 0)|]; pres;
    apply H; simpl; repeat split; discriminate.
Qed.

Lemma refreshConfig_writes (P : Call -> Prop) root :
  (forall c, config_call c -> P c) ->
  preserves (steadyRel P) (refreshConfig root).
Proof.
  intros H. unfold refreshConfig, getChromeBookmarksRecursive.
  pres; now apply saveConfig_writes.
Qed.

(** The two calls on a concrete run: with a config bookmark on the server,
    a "merge" that has nothing to write ends with the update of its
    description; without one, the run ends with its creation. *)
Lemma config_write_examples :
  w_log (snd (runInitialTwoWaySync "merge" Scenario.configuredWorld))
  = [LdUpdate 150 (mkBody None None (Some [Scenario.urlA]) None)]
  /\ w_log (snd (runInitialTwoWaySync "merge" Scenario.settledWorld))
     = [Scenario.configCreate [Scenario.urlA]]
  /\ config_call (LdUpdate 150 (mkBody None None (Some [Scenario.urlA]) None))
  /\ config_call (Scenario.configCreate [Scenario.urlA]).
Proof.
  split; [vm_compute; reflexivity|]. split; [vm_compute; reflexivity|].
  split; simpl; repeat split; discriminate.
Qed.

(** The writes allowed to an initial run started in [w]: those of its
    strategy, then the one to the config bookmark. *)
Definition init_call (mode : string) (w : World) (c : Call) : Prop :=
  match s_twoWaySyncFolderId (w_settings w) with
  | Some root =>
      link_call (negb (String.eqb mode "pull")) (ldIndex w) (chromeIndex root w) c
      \/ config_call c
  | None => False
  end.

Lemma runTwoWaySync_writes w : steady (run_call w) w (snd (runTwoWaySync w)).
Proof.
  unfold runTwoWaySync, getSettings, getMapping.
  apply after_read; [reflexivity | apply steady_refl |].
  intros s Hs. apply gets_Ok in Hs as [-> _].
  destruct (negb (s_twoWayEnabled _)); [apply steady_refl|].
  destruct (negb (truthy _) || negb (truthy _)); [apply steady_refl|].
  unfold run_call.
  destruct (s_twoWaySyncFolderId (w_settings w)) as [root|]; [|apply steady_refl].
  destruct (negb (s_twoWayInitialSyncDone _)); [apply steady_refl|].
  apply after_read; [apply verifyFolder_world | apply steady_refl |].
  intros _ _.
  apply after_read; [apply fetch_world | apply steady_refl |].
  intros lds Hl. apply fetch_Ok in Hl as [_ ->].
  apply after_read; [apply snapshot_world | apply steady_refl |].
  intros cbms Hc. apply getChromeBookmarksRecursive_Ok in Hc as [_ ->].
  apply after_read; [reflexivity | apply steady_refl |].
  intros m Hm. apply gets_Ok in Hm as [-> _].
  unfold setMapping, storeLastSyncTime.
  as_preserves. apply preserves_bind; [apply reconcile_writes|].
  intros acc. pres.
Qed.

Lemma runInitialTwoWaySync_writes mode w :
  steady (init_call mode w) w (snd (runInitialTwoWaySync mode w)).
Proof.
  unfold runInitialTwoWaySync, getSettings.
  apply after_read; [reflexivity | apply steady_refl |].
  intros s Hs. apply gets_Ok in Hs as [-> _].
  destruct (negb (truthy _) || negb (truthy _)); [apply steady_refl|].
  unfold init_call.
  destruct (s_twoWaySyncFolderId (w_settings w)) as [root|]; [|apply steady_refl].
  apply after_read; [apply verifyFolder_world | apply steady_refl |].
  intros _ _.
  apply after_read; [apply fetch_world | apply steady_refl |].
  intros lds Hl. apply fetch_Ok in Hl as [_ ->].
  apply after_read; [apply snapshot_world | apply steady_refl |].
  intros cbms Hc. apply getChromeBookmarksRecursive_Ok in Hc as [_ ->].
  unfold setMapping, storeInitialSyncDone.
  as_preserves. apply preserves_bind.
  - intros w0. eapply steady_weaken; [|apply runStrategy_writes].
    intros c Hc. now left.
  - intros acc. pres. apply refreshConfig_writes. intros c Hc. now right.
Qed.

(* ================================================================== *)
(** ** C10: remote updates keep the foreign tags *)
(* ================================================================== *)

(** The call, if it is an update, goes to a remote item of the snapshot
    and sends a tag list in relation [keep] with the tags of that item. *)
Definition update_keeps (keep : list string -> list string -> Prop)
    (w : World) (c : Call) : Prop :=
  match c with
  | LdUpdate id body =>
      exists ld tags,
        In ld (ldSnapshot w) /\ ld_id ld = id
        /\ b_tag_names body = Some tags
        /\ keep (ld_tag_names ld) tags
  | _ => True
  end.

(** C10.  Every update that an incremental run issues goes to a remote
    item it fetched and either sends a list including all the tags of the
    item (the linking update) or sends the tags of the final path followed
    by the item's tags outside the namespace of the sync tag (the corrective
    update); in both cases every tag of the item other than the sync tag and
    the tags prefixed by the sync tag and "/" is kept.  Every update that
    an initial run issues, in any mode, sends a list including all the tags
    of the item, but for the update of the config bookmark that may end the
    run, whose body holds the description only and no tag list.  The
    corrective list holds exactly the new path tags and the foreign tags of
    the item, and the union holds exactly the tags of the item and the new
    path tags. *)
Theorem remote_updates_keep_foreign_tags (w : World) (mode : string) :
  let tag := s_twoWaySyncTag (w_settings w) in
  (exists l,
     w_log (snd (runTwoWaySync w)) = (w_log w ++ l)%list
     /\ Forall (update_keeps (tag_update tag) w) l
     /\ Forall (update_keeps (tags_kept tag) w) l)
  /\ (exists l,
        w_log (snd (runInitialTwoWaySync mode w)) = (w_log w ++ l)%list
        /\ Forall (fun c => update_keeps (@incl string) w c \/ config_call c) l)
  /\ (forall path old t,
        In t (newTags tag path old)
        <-> In t (buildTagsForPath tag path) \/ (In t old /\ outside tag t))
  /\ (forall old tags t,
        In t (mergeTags old tags) <-> In t old \/ In t tags).
Proof.
  intros tag. split; [|split; [|split]].
  - destruct (runTwoWaySync_writes w) as [_ [l [L F]]].
    assert (G : Forall (update_keeps (tag_update tag) w) l).
    { eapply Forall_impl; [|exact F]. intros c Hc. unfold run_call in Hc.
      destruct (s_twoWaySyncFolderId (w_settings w)) as [root|]; [|contradiction].
      destruct c; simpl; try exact I.
      destruct Hc as (ld & tags & Hget & Hid & Hb & Hk).
      apply JsMap.index_by_key in Hget as [_ Hin].
      exists ld, tags. auto. }
    exists l. split; [exact L|]. split; [exact G|].
    eapply Forall_impl; [|exact G]. intros c Hc.
    destruct c; simpl in *; try exact I.
    destruct Hc as (ld & tags & Hin & Hid & Hb & Hk).
    exists ld, tags. repeat split; try assumption. now apply tag_update_kept.
  - destruct (runInitialTwoWaySync_writes mode w) as [_ [l [L F]]].
    exists l. split; [exact L|].
    eapply Forall_impl; [|exact F]. intros c Hc. unfold init_call in Hc.
    destruct (s_twoWaySyncFolderId (w_settings w)) as [root|]; [|contradiction].
    destruct Hc as [Hc|Hc]; [left | now right].
    destruct c; simpl; try exact I.
    destruct Hc as (ld & tags & Hget & Hid & Hb & Hk).
    apply JsMap.index_by_key in Hget as [_ Hin].
    exists ld, tags. auto.
  - intros path old t. unfold newTags. rewrite in_app_iff, otherTags_In. tauto.
  - intros old tags t. unfold mergeTags. rewrite dedupe_In, in_app_iff. tauto.
Qed.

(* ================================================================== *)
(** ** C6: linking without duplicates *)
(* ================================================================== *)







Lemma sort_by_In {A : Type} (rank : A -> Z) (xs : list A) (x : A) :
  In x (sort_by rank xs) <-> In x xs.
Proof.
  unfold sort_by.
  assert (I1 : forall y sorted, In x (insert_by rank y sorted) <-> x = y \/ In x sorted).
  { intros y sorted. induction sorted as [|z zs IH]; simpl.
    - split; intros [H|H]; auto; contradiction.
    - destruct (Z.leb (rank z) (rank y)); simpl; rewrite ?IH;
        split; intros H; intuition auto. }
  assert (G : forall xs sorted,
            In x (fold_left (fun s y => insert_by rank y s) xs sorted)
            <-> In x sorted \/ In x xs).
  { clear xs. induction xs as [|y ys IH]; intros sorted; simpl; [tauto|].
    rewrite IH, I1. intuition auto. }
  rewrite G. simpl. tauto.
Qed.

Section MergeTurns.

Variable tag : string.
Variable root : Z.
Variable ldByUrl : JsMap.t LdBookmark.
Variable chromeByUrl : JsMap.t ChromeBookmark.




End MergeTurns.

Section LinkTurns.

Variable tag : string.
Variable root : Z.
Variable mapping : Mapping.
Variable lds : list LdBookmark.
Variable cbms : list ChromeBookmark.

Let ldByUrl := JsMap.index_by ld_url lds.
Let chromeByUrl := JsMap.index_by c_url cbms.
Let P := sync_call tag ldByUrl chromeByUrl.






(** Every completed turn keeps the keys of the new mapping distinct. *)
Lemma syncNewChrome_keys acc cbm w acc' w' :
  syncNewChrome tag mapping ldByUrl acc cbm w = (Ok acc', w') ->
  NoDup (JsMap.keys (newMapping acc)) -> NoDup (JsMap.keys (newMapping acc')).
Proof.
  intros H ND.
  apply syncNewChrome_Ok in H as [(_ & -> & _)|(_ & lid & -> & _)];
    [assumption | now apply JsMap.keys_set_NoDup].
Qed.

Lemma syncNewLinkding_keys acc ld w acc' w' :
  syncNewLinkding tag root mapping chromeByUrl acc ld w = (Ok acc', w') ->
  NoDup (JsMap.keys (newMapping acc)) -> NoDup (JsMap.keys (newMapping acc')).
Proof.
  intros H ND.
  apply syncNewLinkding_Ok in H as [(-> & _)|(_ & _ & e & -> & _)];
    [assumption | now apply JsMap.keys_set_NoDup].
Qed.

Lemma syncMapped_keys acc ue w acc' w' :
  syncMapped tag root ldByUrl chromeByUrl acc ue w = (Ok acc', w') ->
  NoDup (JsMap.keys (newMapping acc)) -> NoDup (JsMap.keys (newMapping acc')).
Proof.
  destruct ue as [url entry]. intros H ND.
  pose proof H as H'. apply syncMapped_Ok in H'.
  destruct (JsMap.get chromeByUrl url) as [cbm|];
    destruct (JsMap.get ldByUrl url) as [ld|];
    try (rewrite (proj1 H'); assumption).
  unfold syncBoth in H'. cbv zeta in H'.
  peel H'. peel H'. peel H'. apply ret_Ok in H' as [-> _]. simpl.
  destruct (negb _ && negb _); repeat apply JsMap.keys_set_NoDup; assumption.
Qed.


End LinkTurns.

(** The block that ends an initial run leaves the saved mapping alone. *)
Lemma createLinkding_mapping url title description tags w :
  w_mapping (snd (createLinkdingBookmark url title description tags w))
  = w_mapping w.
Proof.
  unfold createLinkdingBookmark, bind, modify, gets, ret, throw. cbn.
  destruct (w_fails _ _); reflexivity.
Qed.

Lemma updateLinkding_mapping id url title description tags w :
  w_mapping (snd (updateLinkdingBookmark id url title description tags w))
  = w_mapping w.
Proof.
  unfold updateLinkdingBookmark, bind, modify, gets, ret, throw. cbn.
  destruct (w_fails _ _); [reflexivity|]. cbn.
  destruct (existsb _ _); reflexivity.
Qed.

Lemma saveConfig_mapping order existingId w :
  w_mapping (snd (saveConfig order existingId w)) = w_mapping w.
Proof.
  assert (C : forall url title tags,
            w_mapping
              (snd (try_catch
                      (_ <- createLinkdingBookmark url title (Some order) tags ;;
                       ret tt)
                      (fun e =>
                         modify (add_console ("Failed to create config bookmark " ++ e)) ;;;
                         throw e) w))
            = w_mapping w).
  { intros url title tags. unfold try_catch, bind.
    pose proof (createLinkding_mapping url title (Some order) tags w) as H.
    destruct (createLinkdingBookmark url title (Some order) tags w) as [[a|e] w1];
      exact H. }
  unfold saveConfig. cbv zeta.
  destruct existingId as [id|]; [destruct (Z.eqb id 0)|]; try apply C.
  unfold try_catch.
  pose proof (updateLinkding_mapping id "" "" (Some order) None w) as H.
  destruct (updateLinkdingBookmark id "" "" (Some order) None w) as [[a|e] w1];
    exact H.
Qed.

Lemma refreshConfig_mapping root w :
  w_mapping (snd (refreshConfig root w)) = w_mapping w.
Proof.
  unfold refreshConfig. unfold try_catch, bind at 1.
  pose proof (snapshot_world root "" w) as H.
  destruct (getChromeBookmarksRecursive root "" w) as [[cbms|e] w1];
    simpl in H; subst w1; [|reflexivity].
  unfold bind at 1, gets.
  destruct (w_config w) as [| |existing].
  - reflexivity.
  - unfold bind, modify, ret.
    pose proof (saveConfig_mapping (map c_url cbms) None
                  (add_console "Failed to search for config bookmark" w)) as H.
    destruct (saveConfig _ _ _) as [[a|e] w1]; exact H.
  - unfold bind, ret.
    pose proof (saveConfig_mapping (map c_url cbms) (option_map cfg_id existing) w)
      as H.
    destruct (saveConfig _ _ _) as [[a|e] w1]; exact H.
Qed.




(* ================================================================== *)
(** * Further properties of the code *)
(* ================================================================== *)

From Stdlib Require Import Permutation Sorted.

(* ================================================================== *)
(** ** The decoder picks the most specific path tag *)
(* ================================================================== *)

Lemma prefix_slice (p t : string) :
  String.prefix p t = true -> p ++ slice (String.length p) t = t.
Proof.
  revert t. induction p as [|c p IH]; intros t H; simpl.
  - reflexivity.
  - destruct t as [|d t]; simpl in H; [discriminate|].
    destruct (ascii_dec c d) as [->|]; [|discriminate].
    simpl. now rewrite IH.
Qed.

(** The loop of [extractFolderPath] started from [best]: its result is
    [best] or a prefixed tag of the list, and no prefixed tag of the list is
    longer. *)
Lemma extract_loop (prefix : string) (tags : list string) (best : string) :
  let r := fold_left (extract_step prefix) tags best in
  (r = best \/ (In r tags /\ startsWith r prefix = true))
  /\ (String.length best <= String.length r)%nat
  /\ (forall t, In t tags -> startsWith t prefix = true ->
        (String.length t <= String.length r)%nat).
Proof.
  revert best. induction tags as [|t tags IH]; intros best; simpl.
  - split; [now left|]. split; [lia | intros t []].
  - destruct (IH (extract_step prefix best t)) as (A & B & C).
    assert (S : (String.length best
                 <= String.length (extract_step prefix best t))%nat
                /\ (startsWith t prefix = true ->
                    (String.length t
                     <= String.length (extract_step prefix best t))%nat)
                /\ (extract_step prefix best t = best
                    \/ (extract_step prefix best t = t
                        /\ startsWith t prefix = true))).
    { unfold extract_step. destruct (startsWith t prefix) eqn:P; simpl.
      - destruct (String.length best <? String.length t)%nat eqn:L.
        + apply Nat.ltb_lt in L. repeat split; auto; lia.
        + apply Nat.ltb_ge in L. repeat split; auto; lia.
      - split; [lia|]. split; [discriminate | now left]. }
    destruct S as (S1 & S2 & S3).
    split; [|split].
    + destruct A as [A|[A1 A2]].
      * rewrite A. destruct S3 as [->|[-> P]]; [now left|]. right. auto.
      * right. auto.
    + lia.
    + intros u [<-|Hu] Pu; [specialize (S2 Pu); lia | now apply C].
Qed.

(** X1.  [extractFolderPath] returns the empty path when no tag has the
    form [syncTag/...] (in particular for an empty tag list); otherwise the
    tag [syncTag/result] is one of the tags and no tag of that form is
    longer: the most specific path tag decides. *)
Theorem extract_most_specific (T : string) (tags : list string) :
  ((forall t, In t tags -> startsWith t (T ++ "/") = false) ->
   extractFolderPath T tags = "")
  /\ ((exists t, In t tags /\ startsWith t (T ++ "/") = true) ->
      In ((T ++ "/") ++ extractFolderPath T tags) tags
      /\ forall t, In t tags -> startsWith t (T ++ "/") = true ->
           (String.length t
            <= String.length ((T ++ "/") ++ extractFolderPath T tags))%nat).
Proof.
  unfold extractFolderPath. cbv zeta.
  destruct (extract_loop (T ++ "/") tags "") as (A & _ & C).
  set (r := fold_left (extract_step (T ++ "/")) tags "") in *.
  split.
  - intros Hnone. destruct A as [->|[A1 A2]]; [reflexivity|].
    rewrite (Hnone r A1) in A2. discriminate.
  - intros (t & Ht & Pt).
    assert (Lt : (0 < String.length t)%nat).
    { apply prefix_length in Pt. rewrite length_append in Pt. simpl in Pt. lia. }
    pose proof (C t Ht Pt) as Lr.
    assert (Tr : truthy r = true) by (apply truthy_length; lia).
    rewrite Tr.
    destruct A as [A|[A1 A2]].
    + rewrite A in Lr. simpl in Lr. lia.
    + rewrite (prefix_slice _ _ A2). split; [exact A1 | exact C].
Qed.

Lemma extract_most_specific_witness :
  In ("sync/" ++ extractFolderPath "sync" ["news"; "sync/A"; "sync"; "sync/A/B"])
     ["news"; "sync/A"; "sync"; "sync/A/B"]
  /\ extractFolderPath "sync" ["news"; "sync/A"; "sync"; "sync/A/B"] = "A/B".
Proof.
  split; [|reflexivity].
  apply (proj2 (extract_most_specific "sync"
                  ["news"; "sync/A"; "sync"; "sync/A/B"])).
  exists "sync/A". split; [simpl; auto | reflexivity].
Defined.

(* ================================================================== *)
(** ** The union of tags sent when two items are linked *)
(* ================================================================== *)

Lemma dedupe_from (xs seen : list string) :
  NoDup seen ->
  NoDup (fold_left (fun seen x => if includes seen x then seen
                                  else (seen ++ [x])%list) xs seen)
  /\ exists rest,
       fold_left (fun seen x => if includes seen x then seen
                                else (seen ++ [x])%list) xs seen
       = (seen ++ rest)%list
       /\ (NoDup (seen ++ xs) -> rest = xs)
       /\ (incl xs seen -> rest = []).
Proof.
  revert seen. induction xs as [|x xs IH]; intros seen ND; simpl.
  - split; [assumption|]. exists []. rewrite app_nil_r. auto.
  - destruct (includes seen x) eqn:E.
    + apply includes_In in E.
      destruct (IH seen ND) as (N & rest & R & R1 & R2).
      split; [assumption|]. exists rest. split; [assumption|]. split.
      * intros H. apply NoDup_remove_2 in H. exfalso. apply H.
        apply in_app_iff. now left.
      * intros H. apply R2. intros y Hy. apply H. now right.
    + assert (Hx : ~ In x seen).
      { intros H. apply includes_In in H. congruence. }
      assert (ND' : NoDup (seen ++ [x])).
      { apply NoDup_app; [assumption | repeat constructor; intros [] |].
        intros y Hy [<-|[]]. contradiction. }
      destruct (IH (seen ++ [x])%list ND') as (N & rest & R & R1 & R2).
      split; [assumption|]. exists (x :: rest). split; [|split].
      * rewrite R, <- app_assoc. reflexivity.
      * intros H. f_equal. apply R1. now rewrite <- app_assoc.
      * intros H. exfalso. apply Hx, H. now left.
Qed.

Lemma mergeTags_NoDup (old tags : list string) : NoDup (mergeTags old tags).
Proof. unfold mergeTags, dedupe. apply dedupe_from. constructor. Qed.

Lemma mergeTags_In (old tags : list string) (t : string) :
  In t (mergeTags old tags) <-> In t old \/ In t tags.
Proof. unfold mergeTags. now rewrite dedupe_In, in_app_iff. Qed.

Lemma mergeTags_same (old tags : list string) :
  NoDup old -> incl tags old -> mergeTags old tags = old.
Proof.
  intros ND Hin. unfold mergeTags, dedupe. rewrite fold_left_app.
  destruct (dedupe_from old [] (NoDup_nil _)) as (_ & r1 & R1 & R1' & _).
  simpl in R1. rewrite R1, (R1' ND).
  destruct (dedupe_from tags old ND) as (_ & r2 & R2 & _ & R2').
  rewrite R2, (R2' Hin). apply app_nil_r.
Qed.

(** X2.  The tag list sent when a local bookmark is linked to an existing
    remote item ([[...new Set([...ld.tag_names, ...tags])]]) has no
    duplicates, and the update is skipped exactly when the tag list of the
    remote item has no duplicates itself and already holds every path tag of
    the local folder; in that case the union is the remote list as it
    stands. *)
Theorem linking_update_skipped (old tags : list string) :
  NoDup (mergeTags old tags)
  /\ (tags_changed (mergeTags old tags) old = false
      <-> NoDup old /\ incl tags old)
  /\ (tags_changed (mergeTags old tags) old = false ->
      mergeTags old tags = old).
Proof.
  assert (E : tags_changed (mergeTags old tags) old = false
              <-> NoDup old /\ incl tags old).
  { unfold tags_changed. rewrite orb_false_iff, !negb_false_iff.
    rewrite Nat.eqb_eq, forallb_forall. split.
    - intros [L A]. split.
      + apply NoDup_incl_NoDup with (l := mergeTags old tags).
        * apply mergeTags_NoDup.
        * lia.
        * intros t Ht. apply includes_In. now apply A.
      + intros t Ht. apply includes_In, A, mergeTags_In. now right.
    - intros [ND Hin]. rewrite (mergeTags_same old tags ND Hin).
      split; [reflexivity|]. intros t Ht. now apply includes_In. }
  split; [apply mergeTags_NoDup|]. split; [exact E|].
  intros H. apply E in H as [ND Hin]. now apply mergeTags_same.
Qed.

Lemma linking_update_skipped_witness :
  tags_changed (mergeTags ["sync"; "sync/Work"; "news"] ["sync"; "sync/Work"])
               ["sync"; "sync/Work"; "news"] = false
  /\ mergeTags ["sync"; "sync/Work"; "news"] ["sync"; "sync/Work"]
     = ["sync"; "sync/Work"; "news"].
Proof.
  destruct (linking_update_skipped ["sync"; "sync/Work"; "news"]
                                   ["sync"; "sync/Work"]) as (_ & E & S).
  assert (H : tags_changed
                (mergeTags ["sync"; "sync/Work"; "news"] ["sync"; "sync/Work"])
                ["sync"; "sync/Work"; "news"] = false).
  { apply E. split.
    - repeat constructor; simpl; intuition discriminate.
    - intros t Ht. simpl in *. intuition. }
  split; [exact H | exact (S H)].
Defined.

(* ================================================================== *)
(** ** Processing order: the stable sort by the saved order *)
(* ================================================================== *)

Section StableSort.

Variable A : Type.
Variable rank : A -> Z.

Lemma insert_by_perm (x : A) (sorted : list A) :
  Permutation (x :: sorted) (insert_by rank x sorted).
Proof.
  induction sorted as [|y ys IH]; simpl; [reflexivity|].
  destruct (Z.leb (rank y) (rank x)); [|reflexivity].
  rewrite perm_swap. now constructor.
Qed.

Lemma insert_by_sorted (x : A) (sorted : list A) :
  StronglySorted (fun a b => rank a <= rank b) sorted ->
  StronglySorted (fun a b => rank a <= rank b) (insert_by rank x sorted).
Proof.
  induction 1 as [|y ys Hs IH Hy]; simpl.
  - repeat constructor.
  - destruct (Z.leb (rank y) (rank x)) eqn:E.
    + apply Z.leb_le in E. constructor; [exact IH|].
      apply Forall_forall. intros z Hz.
      apply (Permutation_in _ (Permutation_sym (insert_by_perm x ys))) in Hz.
      destruct Hz as [<-|Hz]; [exact E|].
      rewrite Forall_forall in Hy. now apply Hy.
    + apply Z.leb_gt in E. constructor; [now constructor|].
      constructor; [lia|]. apply Forall_forall. intros z Hz.
      rewrite Forall_forall in Hy. specialize (Hy z Hz). lia.
Qed.

(** Among the items of one rank, the inserted item comes last. *)
Lemma insert_by_stable (x : A) (sorted : list A) (r : Z) :
  StronglySorted (fun a b => rank a <= rank b) sorted ->
  filter (fun a => Z.eqb (rank a) r) (insert_by rank x sorted)
  = (filter (fun a => Z.eqb (rank a) r) sorted
     ++ filter (fun a => Z.eqb (rank a) r) [x])%list.
Proof.
  induction 1 as [|y ys Hs IH Hy]; simpl.
  - reflexivity.
  - destruct (Z.leb (rank y) (rank x)) eqn:E; simpl.
    + rewrite IH. simpl. destruct (Z.eqb (rank y) r); reflexivity.
    + apply Z.leb_gt in E.
      destruct (Z.eqb (rank x) r) eqn:Ex; simpl.
      * apply Z.eqb_eq in Ex.
        assert (Ey : Z.eqb (rank y) r = false) by (apply Z.eqb_neq; lia).
        rewrite Ey.
        assert (F : filter (fun a => Z.eqb (rank a) r) ys = []).
        { clear IH Hs. induction ys as [|z zs IHz]; simpl; [reflexivity|].
          pose proof (Forall_inv Hy) as Hz. pose proof (Forall_inv_tail Hy) as Hzs.
          simpl in Hz.
          assert (Ez : Z.eqb (rank z) r = false) by (apply Z.eqb_neq; lia).
          rewrite Ez. now apply IHz. }
        now rewrite F.
      * now rewrite app_nil_r.
Qed.

End StableSort.

Lemma sort_from (A : Type) (rank : A -> Z) (xs acc : list A) :
  StronglySorted (fun a b => rank a <= rank b) acc ->
  let r := fold_left (fun sorted x => insert_by rank x sorted) xs acc in
  Permutation (acc ++ xs) r
  /\ StronglySorted (fun a b => rank a <= rank b) r
  /\ forall k, filter (fun a => Z.eqb (rank a) k) r
               = (filter (fun a => Z.eqb (rank a) k) acc
                  ++ filter (fun a => Z.eqb (rank a) k) xs)%list.
Proof.
  revert acc. induction xs as [|x xs IH]; intros acc Hs; simpl.
  - rewrite app_nil_r. split; [reflexivity|]. split; [assumption|].
    intros k. now rewrite app_nil_r.
  - destruct (IH (insert_by rank x acc) (insert_by_sorted A rank x acc Hs))
      as (P & S & F).
    split; [|split; [exact S|]].
    + rewrite <- P. rewrite <- (insert_by_perm A rank x acc).
      symmetry. apply Permutation_middle.
    + intros k. rewrite F, (insert_by_stable A rank x acc k Hs).
      rewrite <- app_assoc. simpl. now destruct (Z.eqb (rank x) k).
Qed.

Lemma order_rank_from_spec (order : list string) (u : string) :
  forall i found,
    (~ In u order -> order_rank_from i order u found = found)
    /\ (In u order ->
        i <= order_rank_from i order u found < i + Z.of_nat (List.length order)).
Proof.
  induction order as [|v rest IH]; intros i found; simpl.
  - split; [reflexivity | intros []].
  - destruct (IH (i + 1) (if String.eqb u v then i else found)) as [N Y].
    destruct (String.eqb u v) eqn:E.
    + apply String.eqb_eq in E. subst v. split; [intros H; exfalso; auto|].
      intros _. destruct (in_dec string_dec u rest) as [Hin|Hout].
      * specialize (Y Hin). lia.
      * rewrite (N Hout). lia.
    + apply String.eqb_neq in E. split.
      * intros H. apply N. intros Hin. apply H. now right.
      * intros [->|Hin]; [contradiction|]. specialize (Y Hin). lia.
Qed.

(** The rank of a listed URL is the index of its last occurrence. *)
Lemma order_rank_from_last (order : list string) (u : string) :
  forall i found,
    In u order ->
    exists l1 l2,
      order = (l1 ++ u :: l2)%list /\ ~ In u l2
      /\ order_rank_from i order u found = i + Z.of_nat (List.length l1).
Proof.
  induction order as [|v rest IH]; intros i found Hin; [contradiction|].
  simpl. destruct (in_dec string_dec u rest) as [Hrest|Hrest].
  - destruct (IH (i + 1) (if String.eqb u v then i else found) Hrest)
      as (l1 & l2 & E & Hno & R).
    exists (v :: l1), l2. split; [now rewrite E|]. split; [exact Hno|].
    rewrite R. simpl List.length. lia.
  - destruct Hin as [->|Hin]; [|contradiction].
    exists [], rest. split; [reflexivity|]. split; [exact Hrest|].
    rewrite String.eqb_refl.
    rewrite (proj1 (order_rank_from_spec rest u (i + 1) i) Hrest).
    simpl. lia.
Qed.

(** X3.  The items of a "pull" and the URLs of a "merge" are processed in
    the order their URLs have in the saved [order]: the sorted list is a
    rearrangement of the input, ascending in the rank of the URLs, and
    items of equal rank keep their relative order (the sort is stable).  A
    URL of [order] has the index of its last occurrence as rank (it stands
    at that index and nowhere after it), below the length of [order];
    every other URL has the rank [Number.MAX_SAFE_INTEGER], so the unlisted
    items keep their order among themselves. *)
Theorem saved_order_sort (A : Type) (key : A -> string) (order : list string)
    (xs : list A) :
  let rank := fun a => order_rank order (key a) in
  let sorted := sort_by rank xs in
  Permutation xs sorted
  /\ StronglySorted (fun a b => rank a <= rank b) sorted
  /\ (forall k, filter (fun a => Z.eqb (rank a) k) sorted
                = filter (fun a => Z.eqb (rank a) k) xs)
  /\ (forall u, In u order ->
        0 <= order_rank order u < Z.of_nat (List.length order)
        /\ exists before after,
             order = (before ++ u :: after)%list /\ ~ In u after
             /\ order_rank order u = Z.of_nat (List.length before))
  /\ (forall u, ~ In u order -> order_rank order u = MAX_SAFE_INTEGER).
Proof.
  intros rank sorted.
  destruct (sort_from A rank xs [] (SSorted_nil _)) as (P & S & F).
  split; [exact P|]. split; [exact S|]. split; [exact F|]. split.
  - intros u Hu. unfold order_rank. split.
    + destruct (order_rank_from_spec order u 0 MAX_SAFE_INTEGER) as [_ Y].
      specialize (Y Hu). lia.
    + destruct (order_rank_from_last order u 0 MAX_SAFE_INTEGER Hu)
        as (l1 & l2 & E & Hno & R).
      exists l1, l2. split; [exact E|]. split; [exact Hno|]. rewrite R. lia.
  - intros u Hu. unfold order_rank.
    now apply (order_rank_from_spec order u 0 MAX_SAFE_INTEGER).
Qed.

Lemma saved_order_sort_witness :
  sort_by (order_rank ["a"; "b"; "a"]) ["x"; "a"; "y"; "b"]
  = ["b"; "a"; "x"; "y"]
  /\ 0 <= order_rank ["a"; "b"; "a"] "a" < 3
  /\ exists before after,
       ["a"; "b"; "a"] = (before ++ "a" :: after)%list /\ ~ In "a" after
       /\ order_rank ["a"; "b"; "a"] "a" = Z.of_nat (List.length before).
Proof.
  split; [reflexivity|].
  apply (saved_order_sort string (fun u => u) ["a"; "b"; "a"]
           ["x"; "a"; "y"; "b"]).
  simpl. auto.
Defined.

(* ================================================================== *)
(** ** What a computation leaves alone *)
(* ================================================================== *)

(** [m] never changes the reading [f] of the world, whether it returns or
    throws. *)
Definition keeps {X A : Type} (f : World -> X) (m : M A) : Prop :=
  forall w, f (snd (m w)) = f w.

Section Keeps.

Variable X : Type.
Variable f : World -> X.

Lemma keeps_ret {A : Type} (a : A) : keeps f (ret a).
Proof. intros w. reflexivity. Qed.

Lemma keeps_throw {A : Type} (msg : string) : keeps f (@throw A msg).
Proof. intros w. reflexivity. Qed.

Lemma keeps_gets {A : Type} (g : World -> A) : keeps f (gets g).
Proof. intros w. reflexivity. Qed.

Lemma keeps_modify (g : World -> World) :
  (forall w, f (g w) = f w) -> keeps f (modify g).
Proof. intros H w. apply H. Qed.

Lemma keeps_bind {A B : Type} (m : M A) (k : A -> M B) :
  keeps f m -> (forall a, keeps f (k a)) -> keeps f (bind m k).
Proof.
  intros Hm Hk w. unfold bind. specialize (Hm w).
  destruct (m w) as [[a|msg] w1]; simpl in *; [|assumption].
  now rewrite Hk.
Qed.

Lemma keeps_try_catch {A : Type} (m : M A) (h : string -> M A) :
  keeps f m -> (forall e, keeps f (h e)) -> keeps f (try_catch m h).
Proof.
  intros Hm Hh w. unfold try_catch. specialize (Hm w).
  destruct (m w) as [[a|msg] w1]; simpl in *; [assumption|].
  now rewrite Hh.
Qed.

Lemma keeps_when (c : bool) (m : M unit) : keeps f m -> keeps f (when c m).
Proof. intros H. destruct c; [exact H | apply keeps_ret]. Qed.

Lemma keeps_forM {A S : Type} (xs : list A) (body : S -> A -> M S) :
  (forall s x, keeps f (body s x)) -> forall s, keeps f (forM xs body s).
Proof.
  intros H. induction xs as [|x xs IH]; intros s; simpl.
  - apply keeps_ret.
  - apply keeps_bind; [apply H | exact IH].
Qed.

End Keeps.

(** Walk through a computation, leaving the writes that are not seen to
    keep the reading. *)
Ltac kept :=
  repeat (cbv beta zeta;
    lazymatch goal with
    | |- keeps _ (ret _) => apply keeps_ret
    | |- keeps _ (throw _) => apply keeps_throw
    | |- keeps _ (gets _) => apply keeps_gets
    | |- keeps _ (bind _ _) => apply keeps_bind; [|intros ?]
    | |- keeps _ (when _ _) => apply keeps_when
    | |- keeps _ (try_catch _ _) => apply keeps_try_catch; [|intros ?]
    | |- keeps _ (forM _ _ _) => apply keeps_forM; intros ? ?
    | |- keeps _ (modify _) => apply keeps_modify; intros ?; reflexivity
    | |- keeps _ (match ?x with _ => _ end) => destruct x
    | |- keeps _ (Chrome.issue _) => unfold Chrome.issue
    | |- keeps _ (Chrome.get _) => unfold Chrome.get
    | |- keeps _ (Chrome.getChildren _) => unfold Chrome.getChildren
    | |- keeps _ (Chrome.create _ _ _) => unfold Chrome.create
    | |- keeps _ (Chrome.update _ _) => unfold Chrome.update
    | |- keeps _ (Chrome.move _ _) => unfold Chrome.move
    | |- keeps _ (Chrome.remove _) => unfold Chrome.remove
    | |- keeps _ (Chrome.removeTree _) => unfold Chrome.removeTree
    | |- keeps _ (createLinkdingBookmark _ _ _ _) => unfold createLinkdingBookmark
    | |- keeps _ (updateLinkdingBookmark _ _ _ _ _) => unfold updateLinkdingBookmark
    | |- keeps _ (deleteLinkdingBookmark _) => unfold deleteLinkdingBookmark
    | |- keeps _ (fetchBookmarksWithTag _) => unfold fetchBookmarksWithTag
    | |- keeps _ (fetchConfigOrder) => unfold fetchConfigOrder
    | |- keeps _ (getOrCreateFolder _ _) => unfold getOrCreateFolder
    | |- keeps _ (ensureFolderPath _ _) => unfold ensureFolderPath
    | |- keeps _ (removeChildrenOf _) => unfold removeChildrenOf
    | |- keeps _ (getChromeBookmarksRecursive _ _) =>
        unfold getChromeBookmarksRecursive
    | |- keeps _ (verifyFolder _) => unfold verifyFolder
    | |- keeps _ (processBatch _ _ _) => unfold processBatch
    | |- keeps _ (saveConfig _ _) => unfold saveConfig
    | |- keeps _ (refreshConfig _) => unfold refreshConfig
    | |- keeps _ (correctLinkding _ _ _) => unfold correctLinkding
    | |- keeps _ (correctChrome _ _ _) => unfold correctChrome
    end).

(** What the extension keeps in [chrome.storage] for the two-way sync: the
    settings (with the flag of the initial sync and the time of the last
    sync) and the mapping. *)
Definition persisted (w : World) : Settings * Mapping :=
  (w_settings w, w_mapping w).

Lemma reconcile_keeps_persisted tag root mapping lds cbms :
  keeps persisted (reconcile tag root mapping lds cbms).
Proof.
  unfold reconcile. kept.
  - unfold syncNewChrome. kept.
  - unfold syncNewLinkding. kept.
  - unfold syncMapped. kept; unfold syncBoth; kept.
Qed.

Lemma runStrategy_keeps_persisted mode tag root lds cbms :
  keeps persisted (runStrategy mode tag root lds cbms).
Proof.
  unfold runStrategy. kept; unfold pushItem, pullItem, mergeItem; kept.
Qed.

Lemma bind_Throw {A B : Type} (m : M A) (k : A -> M B) w e w' :
  bind m k w = (Throw e, w') ->
  m w = (Throw e, w')
  \/ exists a w1, m w = (Ok a, w1) /\ k a w1 = (Throw e, w').
Proof.
  unfold bind. destruct (m w) as [[a|msg] w1]; intros H.
  - right. eauto.
  - left. inversion H. reflexivity.
Qed.

(* ================================================================== *)
(** ** Refused and aborted runs *)
(* ================================================================== *)

(** A computation that changes the reading [f] only when it returns. *)
Definition aborts_keep {X A : Type} (f : World -> X) (m : M A) : Prop :=
  forall w e w', m w = (Throw e, w') -> f w' = f w.

Lemma aborts_bind {X A B : Type} (f : World -> X) (m : M A) (k : A -> M B) :
  keeps f m -> (forall a, aborts_keep f (k a)) -> aborts_keep f (bind m k).
Proof.
  intros Hm Hk w e w' H. apply bind_Throw in H as [H|(a & w1 & H1 & H2)].
  - specialize (Hm w). now rewrite H in Hm.
  - specialize (Hm w). rewrite H1 in Hm. simpl in Hm.
    rewrite <- Hm. eapply Hk. exact H2.
Qed.

Lemma aborts_throw {X A : Type} (f : World -> X) (msg : string) :
  aborts_keep f (@throw A msg).
Proof. intros w e w' H. unfold throw in H. now inversion H. Qed.

(** The guards of [runInitialTwoWaySync] pass and the fetch is answered:
    the synced folder the run will read.  Neither [twoWayEnabled] nor
    [twoWayInitialSyncDone] is consulted. *)
Definition initReady (w : World) : option Z :=
  let s := w_settings w in
  if truthy (s_url s) && truthy (s_token s)
     && negb (w_fails w (LdFetch (s_twoWaySyncTag s)))
  then match s_twoWaySyncFolderId s with
       | Some root => match Chrome.find_node root (w_chrome w) with
                      | Some _ => Some root
                      | None => None
                      end
       | None => None
       end
  else None.

(** The errors of the guards with which the two runs refuse to start. *)
Definition refusals : list string :=
  ["Two-way sync is not enabled."; "Missing URL or API token.";
   "No two-way sync folder selected.";
   "Initial sync has not been completed yet.";
   "Selected two-way sync folder no longer exists."].

(** The run threw [msg] without starting: [msg] is the error of a guard, or
    the guards passed and [msg] is the error with which the fetch of the
    remote bookmarks was rejected. *)
Definition refused (w : World) (msg : string) : Prop :=
  In msg refusals
  \/ fetchBookmarksWithTag (s_twoWaySyncTag (w_settings w)) w = (Throw msg, w).

Lemma verifyFolder_missing root w :
  Chrome.find_node root (w_chrome w) = None ->
  verifyFolder root w
  = (Throw "Selected two-way sync folder no longer exists.", w).
Proof.
  intros H. unfold verifyFolder, try_catch, Chrome.get, bind, gets, throw.
  now rewrite H.
Qed.

Lemma fetch_rejected tag w :
  w_fails w (LdFetch tag) = true ->
  fetchBookmarksWithTag tag w = (Throw "API error", w).
Proof.
  intros H. unfold fetchBookmarksWithTag, bind, gets, throw. now rewrite H.
Qed.

(** Past the guards, an incremental run is its three passes over the two
    snapshots followed by the two writes to the storage. *)
Lemma run_unfolds (w : World) (root : Z) :
  ready w = Some root ->
  runTwoWaySync w
  = (acc <- reconcile (s_twoWaySyncTag (w_settings w)) root (w_mapping w)
                      (ldSnapshot w) (chromeSnapshot root w) ;;
     setMapping (newMapping acc) ;;;
     storeLastSyncTime ;;;
     ret (mkSyncResult (added acc) (removed acc) (updated acc)
                       (JsMap.size (newMapping acc)))) w.
Proof.
  unfold ready, runTwoWaySync, getSettings, getMapping. cbv zeta.
  erewrite bind_eq by (unfold gets; reflexivity).
  destruct (s_twoWayEnabled (w_settings w)); [|discriminate].
  destruct (truthy (s_url (w_settings w))); [|discriminate].
  destruct (truthy (s_token (w_settings w))); [|discriminate].
  destruct (s_twoWayInitialSyncDone (w_settings w)); [|discriminate].
  destruct (w_fails w (LdFetch (s_twoWaySyncTag (w_settings w)))) eqn:R;
    [discriminate|].
  cbn [negb andb orb].
  destruct (s_twoWaySyncFolderId (w_settings w)) as [root'|]; [|discriminate].
  destruct (Chrome.find_node root' (w_chrome w)) as [node|] eqn:F;
    [|discriminate].
  intros [= ->].
  erewrite bind_eq by (eapply verifyFolder_found; exact F).
  erewrite bind_eq by (apply fetch_answered; exact R).
  erewrite bind_eq by (eapply snapshot_read; exact F).
  erewrite bind_eq by (unfold gets; reflexivity).
  reflexivity.
Qed.

(** Past the guards, an initial run is its strategy over the two snapshots
    followed by the two writes and the config block. *)
Lemma initial_run_unfolds (w : World) (mode : string) (root : Z) :
  initReady w = Some root ->
  runInitialTwoWaySync mode w
  = (acc <- runStrategy mode (s_twoWaySyncTag (w_settings w)) root
                        (ldSnapshot w) (chromeSnapshot root w) ;;
     setMapping (i_mapping acc) ;;;
     storeInitialSyncDone ;;;
     configError <- refreshConfig root ;;
     ret (mkInitResult (i_added acc) (i_updated acc) (i_downloaded acc)
                       (JsMap.size (i_mapping acc)) configError)) w.
Proof.
  unfold initReady, runInitialTwoWaySync, getSettings. cbv zeta.
  erewrite bind_eq by (unfold gets; reflexivity).
  destruct (truthy (s_url (w_settings w))); [|discriminate].
  destruct (truthy (s_token (w_settings w))); [|discriminate].
  destruct (w_fails w (LdFetch (s_twoWaySyncTag (w_settings w)))) eqn:R;
    [discriminate|].
  cbn [negb andb orb].
  destruct (s_twoWaySyncFolderId (w_settings w)) as [root'|]; [|discriminate].
  destruct (Chrome.find_node root' (w_chrome w)) as [node|] eqn:F;
    [|discriminate].
  intros [= ->].
  erewrite bind_eq by (eapply verifyFolder_found; exact F).
  erewrite bind_eq by (apply fetch_answered; exact R).
  erewrite bind_eq by (eapply snapshot_read; exact F).
  reflexivity.
Qed.

(** A world whose server rejects the fetch of the tagged bookmarks. *)
Module Cases0.

Definition rejectFetch (c : Call) : bool :=
  match c with LdFetch _ => true | _ => false end.

Definition fetchRejected : World :=
  mkWorld Scenario.settings [] 200 (Scenario.tree []) 50 []
          (SearchResults None) 2000 rejectFetch [] [].

End Cases0.

Lemma run_refused (w : World) :
  ready w = None ->
  exists msg, runTwoWaySync w = (Throw msg, w) /\ refused w msg.
Proof.
  unfold ready, runTwoWaySync, getSettings, refused, refusals. cbv zeta.
  erewrite bind_eq by (unfold gets; reflexivity).
  destruct (s_twoWayEnabled (w_settings w)); cbn [negb andb];
    [|intros _; eexists; split; [reflexivity | left; simpl; auto]].
  destruct (truthy (s_url (w_settings w))); cbn [negb andb orb];
    [|intros _; eexists; split; [reflexivity | left; simpl; auto]].
  destruct (truthy (s_token (w_settings w))); cbn [negb andb orb];
    [|intros _; eexists; split; [reflexivity | left; simpl; auto]].
  destruct (s_twoWaySyncFolderId (w_settings w)) as [root|].
  2:{ intros _. eexists. split; [reflexivity | left; simpl; auto]. }
  destruct (s_twoWayInitialSyncDone (w_settings w)); cbn [negb andb];
    [|intros _; eexists; split; [reflexivity | left; simpl; auto]].
  destruct (Chrome.find_node root (w_chrome w)) as [node|] eqn:F.
  + erewrite bind_eq by (eapply verifyFolder_found; exact F).
    destruct (w_fails w (LdFetch (s_twoWaySyncTag (w_settings w)))) eqn:R;
      cbn [negb]; [|discriminate].
    intros _. unfold bind at 1.
    destruct (fetchBookmarksWithTag (s_twoWaySyncTag (w_settings w)) w)
      as [[lds|msg] w0] eqn:E.
    * rewrite (fetch_rejected _ _ R) in E. discriminate.
    * assert (w0 = w) by (rewrite (fetch_rejected _ _ R) in E; congruence).
      subst w0. exists msg. split; [reflexivity | now right].
  + intros _. unfold bind at 1. rewrite (verifyFolder_missing _ _ F).
    eexists. split; [reflexivity | left; simpl; auto 10].
Qed.

Lemma initial_run_refused (w : World) (mode : string) :
  initReady w = None ->
  exists msg, runInitialTwoWaySync mode w = (Throw msg, w) /\ refused w msg.
Proof.
  unfold initReady, runInitialTwoWaySync, getSettings, refused, refusals.
  cbv zeta.
  erewrite bind_eq by (unfold gets; reflexivity).
  destruct (truthy (s_url (w_settings w))); cbn [negb andb orb];
    [|intros _; eexists; split; [reflexivity | left; simpl; auto]].
  destruct (truthy (s_token (w_settings w))); cbn [negb andb orb];
    [|intros _; eexists; split; [reflexivity | left; simpl; auto]].
  destruct (s_twoWaySyncFolderId (w_settings w)) as [root|].
  2:{ intros _. eexists. split; [reflexivity | left; simpl; auto]. }
  destruct (Chrome.find_node root (w_chrome w)) as [node|] eqn:F.
  + erewrite bind_eq by (eapply verifyFolder_found; exact F).
    destruct (w_fails w (LdFetch (s_twoWaySyncTag (w_settings w)))) eqn:R;
      cbn [negb]; [|discriminate].
    intros _. unfold bind at 1.
    destruct (fetchBookmarksWithTag (s_twoWaySyncTag (w_settings w)) w)
      as [[lds|msg] w0] eqn:E.
    * rewrite (fetch_rejected _ _ R) in E. discriminate.
    * assert (w0 = w) by (rewrite (fetch_rejected _ _ R) in E; congruence).
      subst w0. exists msg. split; [reflexivity | now right].
  + intros _. unfold bind at 1. rewrite (verifyFolder_missing _ _ F).
    eexists. split; [reflexivity | left; simpl; auto 10].
Qed.

(** X4.  A run that cannot start writes nothing.  When a guard of
    [runTwoWaySync] fails (two-way sync disabled, URL or token missing, no
    folder selected, initial sync not done, folder gone) or the fetch of the
    remote bookmarks is rejected, the run throws and leaves the world
    exactly as it was; the error is the fixed text of one of the five guards
    or the error of the rejected fetch.  The same holds for
    [runInitialTwoWaySync], which consults neither [twoWayEnabled] nor
    [twoWayInitialSyncDone]. *)
Theorem refused_run_writes_nothing (w : World) (mode : string) :
  (ready w = None ->
   exists msg, runTwoWaySync w = (Throw msg, w) /\ refused w msg)
  /\ (initReady w = None ->
      exists msg, runInitialTwoWaySync mode w = (Throw msg, w)
                  /\ refused w msg).
Proof.
  split; intros Hnot.
  - destruct (run_refused w Hnot) as (msg & Hthrow & Hwhy).
    exists msg. split; [exact Hthrow | exact Hwhy].
  - destruct (initial_run_refused w mode Hnot) as (msg & Hthrow & Hwhy).
    exists msg. split; [exact Hthrow | exact Hwhy].
Qed.

Lemma refused_run_writes_nothing_witness :
  (exists msg,
     runTwoWaySync (set_chrome (Folder 0 "" []) 50 Scenario.settledWorld)
     = (Throw msg, set_chrome (Folder 0 "" []) 50 Scenario.settledWorld)
     /\ refused (set_chrome (Folder 0 "" []) 50 Scenario.settledWorld) msg)
  /\ (exists msg,
        runInitialTwoWaySync "merge" Cases0.fetchRejected
        = (Throw msg, Cases0.fetchRejected)
        /\ refused Cases0.fetchRejected msg).
Proof.
  split.
  - exact (proj1 (refused_run_writes_nothing
                    (set_chrome (Folder 0 "" []) 50 Scenario.settledWorld)
                    "merge") eq_refl).
  - exact (proj2 (refused_run_writes_nothing Cases0.fetchRejected "merge")
                 eq_refl).
Defined.

(* ================================================================== *)
(** ** The config block of the initial sync *)
(* ================================================================== *)

Definition configUpdating (id : Z) (order : list string) : Call :=
  LdUpdate id (mkBody None None (Some order) None).

Definition configCreation (order : list string) : Call :=
  LdCreate "http://example.com/?linkding-sync-config" CONFIG_TITLE
           (Some order) ["bookmark-sync-config"].

(** What [saveConfig] does: with an id to update it logs the update and
    returns, whether the update went through or not; without one it logs
    the creation and throws when the creation is rejected. *)
Lemma saveConfig_cases (order : list string) (existingId : option Z) (w : World) :
  let updating := match existingId with
                  | Some id => negb (Z.eqb id 0)
                  | None => false
                  end in
  let call := match existingId with
              | Some id => if Z.eqb id 0 then configCreation order
                           else configUpdating id order
              | None => configCreation order
              end in
  exists w',
    w_log w' = (w_log w ++ [call])%list
    /\ persisted w' = persisted w /\ w_chrome w' = w_chrome w
    /\ saveConfig order existingId w
       = (if negb updating && w_fails w call
          then Throw "Create failed" else Ok tt, w').
Proof.
  assert (C : exists w',
            w_log w' = (w_log w ++ [configCreation order])%list
            /\ persisted w' = persisted w /\ w_chrome w' = w_chrome w
            /\ try_catch
                 (_ <- createLinkdingBookmark
                         "http://example.com/?linkding-sync-config"
                         CONFIG_TITLE (Some order) ["bookmark-sync-config"] ;;
                  ret tt)
                 (fun e =>
                    modify (add_console ("Failed to create config bookmark " ++ e)) ;;;
                    throw e) w
               = (if w_fails w (configCreation order)
                  then Throw "Create failed" else Ok tt, w')).
  { unfold try_catch, createLinkdingBookmark, bind, modify, gets, ret, throw,
      configCreation.
    unfold add_log at 1 2. cbn [w_fails]. unfold CONFIG_TITLE. cbn [or_else truthy].
    destruct (w_fails _ _); cbn; eexists;
      refine (conj _ (conj _ (conj _ eq_refl))); reflexivity. }
  unfold saveConfig. cbv zeta.
  destruct existingId as [id|]; [destruct (Z.eqb id 0)|]; cbn [negb andb];
    try exact C.
  clear C.
  unfold try_catch, updateLinkdingBookmark, bind, modify, gets, ret, throw,
    configUpdating, updateBody.
  unfold add_log at 1 2. cbn [w_fails truthy].
  destruct (w_fails _ _); cbn;
    [eexists; refine (conj _ (conj _ (conj _ eq_refl))); reflexivity|].
  destruct (existsb _ _); cbn; eexists;
    refine (conj _ (conj _ (conj _ eq_refl))); reflexivity.
Qed.

(** X5.  The block that saves the order of the local bookmarks in the
    config bookmark at the end of an initial sync never throws, so it cannot
    fail the run: its error, if any, becomes [configError].  It issues at
    most one call, leaves the browser tree, the settings and the mapping
    alone, and reports errors unevenly: when the search finds the config
    bookmark, the update is sent and [configError] stays empty even if the
    server rejects the update; when the search finds none, a rejected
    creation is reported as [configError]. *)
Theorem config_block_never_fails (root : Z) (w : World) :
  exists configError w',
    refreshConfig root w = (Ok configError, w')
    /\ persisted w' = persisted w
    /\ w_chrome w' = w_chrome w
    /\ (exists l, w_log w' = (w_log w ++ l)%list
                  /\ (List.length l <= 1)%nat /\ Forall config_call l)
    /\ (forall node c,
          Chrome.find_node root (w_chrome w) = Some node ->
          w_config w = SearchResults (Some c) -> cfg_id c <> 0 ->
          configError = None
          /\ w_log w'
             = (w_log w
                ++ [configUpdating (cfg_id c)
                                   (map c_url (chromeSnapshot root w))])%list)
    /\ (forall node,
          Chrome.find_node root (w_chrome w) = Some node ->
          w_config w = SearchResults None ->
          w_log w'
          = (w_log w ++ [configCreation (map c_url (chromeSnapshot root w))])%list
          /\ configError
             = if w_fails w (configCreation (map c_url (chromeSnapshot root w)))
               then Some "Create failed" else None).
Proof.
  assert (Nil : forall w0 : World, w_log w0 = w_log w ->
            exists l : list Call,
              w_log w0 = (w_log w ++ l)%list
              /\ (List.length l <= 1)%nat /\ Forall config_call l).
  { intros w0 E. exists []. rewrite app_nil_r. repeat split; auto. }
  assert (One : forall order existingId,
            config_call (match existingId with
                         | Some id => if Z.eqb id 0 then configCreation order
                                      else configUpdating id order
                         | None => configCreation order
                         end)).
  { intros order [id|]; [destruct (Z.eqb id 0)|]; simpl; repeat split;
      discriminate. }
  unfold refreshConfig, try_catch. unfold bind at 1.
  destruct (Chrome.find_node root (w_chrome w)) as [node|] eqn:F.
  - rewrite (snapshot_read root w node F).
    unfold bind at 1, gets.
    destruct (w_config w) as [| |existing] eqn:Cfg.
    + unfold throw, bind, modify, ret. cbn.
      eexists _, _. split; [reflexivity|]. split; [reflexivity|].
      split; [reflexivity|]. split; [now apply Nil|].
      split; intros; discriminate.
    + unfold bind at 1, modify. unfold bind at 1.
      destruct (saveConfig_cases (map c_url (chromeSnapshot root w)) None
                  (add_console "Failed to search for config bookmark" w))
        as (w1 & L & P & Ch & E).
      cbv zeta in E. cbn [negb andb] in E. rewrite E.
      destruct (w_fails _ _); unfold bind, modify, ret; cbn;
        (eexists _, _; split; [reflexivity|]; split; [exact P|];
         split; [exact Ch|]; split;
         [exists [configCreation (map c_url (chromeSnapshot root w))];
          split; [exact L|]; split; [simpl; lia|];
          constructor; [apply (One _ None) | constructor]|];
         split; intros; discriminate).
    + unfold bind at 1.
      destruct (saveConfig_cases (map c_url (chromeSnapshot root w))
                  (option_map cfg_id existing) w) as (w1 & L & P & Ch & E).
      cbv zeta in E. rewrite E.
      assert (Hlog : exists l, w_log w1 = (w_log w ++ l)%list
                               /\ (List.length l <= 1)%nat
                               /\ Forall config_call l).
      { eexists [_]. split; [exact L|]. split; [simpl; lia|].
        constructor; [apply One | constructor]. }
      destruct existing as [c|]; cbn [option_map negb andb] in *.
      * destruct (Z.eqb (cfg_id c) 0) eqn:Z0; cbn [negb andb] in *.
        -- apply Z.eqb_eq in Z0.
           destruct (w_fails _ _); unfold bind, modify, ret; cbn;
             (eexists _, _; split; [reflexivity|]; split; [exact P|];
              split; [exact Ch|]; split; [exact Hlog|]; split;
              [intros node0 c0 _ [= <-] Hz; contradiction
              |intros; discriminate]).
        -- unfold ret. eexists _, _. split; [reflexivity|].
           split; [exact P|]. split; [exact Ch|]. split; [exact Hlog|].
           split; [|intros; discriminate].
           intros node0 c0 _ [= <-] _. split; [reflexivity | exact L].
      * destruct (w_fails _ _) eqn:Rj; unfold bind, modify, ret; cbn;
          (eexists _, _; split; [reflexivity|]; split; [exact P|];
           split; [exact Ch|]; split; [exact Hlog|]; split;
           [intros; discriminate|]; intros node0 _ _; split;
           [exact L | reflexivity]).
  - assert (E : getChromeBookmarksRecursive root "" w
                = (Throw Chrome.not_found, w)).
    { unfold getChromeBookmarksRecursive, Chrome.getChildren, Chrome.get,
        bind, gets, throw. now rewrite F. }
    rewrite E. unfold bind, modify, ret. cbn.
    eexists _, _. split; [reflexivity|]. split; [reflexivity|].
    split; [reflexivity|]. split; [now apply Nil|].
    split; intros; discriminate.
Qed.

Lemma config_block_never_fails_witness :
  exists configError w',
    refreshConfig 1 Scenario.configuredWorld = (Ok configError, w')
    /\ configError = None
    /\ w_log w'
       = (w_log Scenario.configuredWorld
          ++ [configUpdating 150 [Scenario.urlA]])%list.
Proof.
  destruct (config_block_never_fails 1 Scenario.configuredWorld)
    as (configError & w' & Hrun & _ & _ & _ & Hfound & _).
  destruct (Hfound (Folder 1 "Synced" [Bookmark 10 "A" Scenario.urlA 300])
                   (mkConfig 150 None) eq_refl eq_refl
                   ltac:(simpl; discriminate)) as [E L].
  exists configError, w'. split; [exact Hrun|]. split; [exact E | exact L].
Defined.

(* ================================================================== *)
(** ** What a run persists *)
(* ================================================================== *)

Lemma reconcile_keeps_now tag root mapping lds cbms :
  keeps w_now (reconcile tag root mapping lds cbms).
Proof.
  unfold reconcile. kept.
  - unfold syncNewChrome. kept.
  - unfold syncNewLinkding. kept.
  - unfold syncMapped. kept; unfold syncBoth; kept.
Qed.

Lemma runStrategy_keeps_now mode tag root lds cbms :
  keeps w_now (runStrategy mode tag root lds cbms).
Proof.
  unfold runStrategy. kept; unfold pushItem, pullItem, mergeItem; kept.
Qed.

Lemma refreshConfig_keeps_now root : keeps w_now (refreshConfig root).
Proof. kept. Qed.

Lemma refreshConfig_keeps_persisted root : keeps persisted (refreshConfig root).
Proof. kept. Qed.

Lemma refreshConfig_keeps_chrome root : keeps w_chrome (refreshConfig root).
Proof. kept. Qed.

Lemma refreshConfig_returns root w :
  exists configError w', refreshConfig root w = (Ok configError, w').
Proof.
  unfold refreshConfig, try_catch.
  match goal with |- context [match ?m with _ => _ end] => destruct m as [[a|e] w1] end.
  - eauto.
  - unfold bind, modify, ret. eauto.
Qed.

(** The world a completed incremental run leaves: the world after the three
    passes, with the mapping and the time of the sync saved. *)
Lemma runTwoWaySync_saved w r w' :
  runTwoWaySync w = (Ok r, w') ->
  exists root acc w1,
    s_twoWaySyncFolderId (w_settings w) = Some root
    /\ reconcile (s_twoWaySyncTag (w_settings w)) root (w_mapping w)
                 (ldSnapshot w) (chromeSnapshot root w) w = (Ok acc, w1)
    /\ w' = snd (storeLastSyncTime (set_mapping (newMapping acc) w1))
    /\ r = mkSyncResult (added acc) (removed acc) (updated acc)
                        (JsMap.size (newMapping acc)).
Proof.
  unfold runTwoWaySync, getSettings, getMapping. intros H. peel H.
  destruct (negb (s_twoWayEnabled _)); [discriminate|].
  destruct (negb (truthy _) || negb (truthy _)); [discriminate|].
  destruct (s_twoWaySyncFolderId (w_settings w)) as [root|]; [|discriminate].
  destruct (negb (s_twoWayInitialSyncDone _)); [discriminate|].
  peel H. apply verifyFolder_Ok in H0 as ->.
  peel H. apply fetch_Ok in H0 as [-> ->].
  peel H. apply getChromeBookmarksRecursive_Ok in H0 as [-> ->].
  peel H. peel H. rename H0 into Hrec.
  unfold setMapping, storeLastSyncTime in H. peel H. peel H.
  apply ret_Ok in H as [-> ->].
  eexists root, _, _. split; [reflexivity|]. split; [exact Hrec|].
  split; reflexivity.
Qed.

(** The world a completed initial run leaves. *)
Lemma runInitialTwoWaySync_saved mode w r w' :
  runInitialTwoWaySync mode w = (Ok r, w') ->
  exists root acc w1 configError,
    s_twoWaySyncFolderId (w_settings w) = Some root
    /\ runStrategy mode (s_twoWaySyncTag (w_settings w)) root
                   (ldSnapshot w) (chromeSnapshot root w) w = (Ok acc, w1)
    /\ refreshConfig root
         (snd (storeInitialSyncDone (set_mapping (i_mapping acc) w1)))
       = (Ok configError, w')
    /\ r = mkInitResult (i_added acc) (i_updated acc) (i_downloaded acc)
                        (JsMap.size (i_mapping acc)) configError.
Proof.
  unfold runInitialTwoWaySync, getSettings. intros H. peel H.
  destruct (negb (truthy _) || negb (truthy _)); [discriminate|].
  destruct (s_twoWaySyncFolderId (w_settings w)) as [root|]; [|discriminate].
  peel H. apply verifyFolder_Ok in H0 as ->.
  peel H. apply fetch_Ok in H0 as [-> ->].
  peel H. apply getChromeBookmarksRecursive_Ok in H0 as [-> ->].
  peel H. rename H0 into Hstrat.
  unfold setMapping, storeInitialSyncDone in H. peel H. peel H.
  peel H. rename H0 into Hcfg.
  apply ret_Ok in H as [-> ->].
  eexists root, _, _, _. split; [reflexivity|]. split; [exact Hstrat|].
  split; [exact Hcfg | reflexivity].
Qed.

(** X6.  The storage is written at the very end of a run, so a run saves
    all or nothing.  When [runTwoWaySync] or [runInitialTwoWaySync] throws,
    at a guard or in the middle of its writes to the two stores, the
    mapping and the settings in the storage are exactly what they were:
    neither a partial mapping nor the time of the sync is saved, and an
    aborted initial sync does not set [twoWayInitialSyncDone].  When the run
    returns, the mapping it built is saved, the time of the last sync is
    the clock reading of the run, [total] is the number of keys of the
    saved mapping, and an initial sync has set [twoWayInitialSyncDone]. *)
Theorem run_saves_all_or_nothing (w : World) (mode : string) :
  (forall msg w', runTwoWaySync w = (Throw msg, w') ->
     w_mapping w' = w_mapping w /\ w_settings w' = w_settings w)
  /\ (forall r w', runTwoWaySync w = (Ok r, w') ->
        s_twoWayLastSyncTime (w_settings w') = Some (w_now w)
        /\ r_total r = JsMap.size (w_mapping w'))
  /\ (forall msg w', runInitialTwoWaySync mode w = (Throw msg, w') ->
        w_mapping w' = w_mapping w /\ w_settings w' = w_settings w)
  /\ (forall r w', runInitialTwoWaySync mode w = (Ok r, w') ->
        s_twoWayInitialSyncDone (w_settings w') = true
        /\ s_twoWayLastSyncTime (w_settings w') = Some (w_now w)
        /\ ir_total r = JsMap.size (w_mapping w')).
Proof.
  assert (P : forall w1 w2 : World, persisted w1 = persisted w2 ->
            w_mapping w1 = w_mapping w2 /\ w_settings w1 = w_settings w2).
  { unfold persisted. intros w1 w2 [= -> ->]. auto. }
  split; [|split; [|split]].
  - intros msg w' H. apply P. revert w msg w' H.
    change (aborts_keep persisted runTwoWaySync).
    unfold runTwoWaySync, getSettings, getMapping.
    apply aborts_bind; [kept|]. intros s.
    destruct (negb (s_twoWayEnabled s)); [apply aborts_throw|].
    destruct (negb (truthy (s_url s)) || negb (truthy (s_token s)));
      [apply aborts_throw|].
    destruct (s_twoWaySyncFolderId s) as [root|]; [|apply aborts_throw].
    destruct (negb (s_twoWayInitialSyncDone s)); [apply aborts_throw|].
    apply aborts_bind; [kept|]. intros _.
    apply aborts_bind; [kept|]. intros lds.
    apply aborts_bind; [kept|]. intros cbms.
    apply aborts_bind; [kept|]. intros mapping.
    apply aborts_bind; [apply reconcile_keeps_persisted|]. intros acc.
    intros w0 e w0' H. unfold setMapping, storeLastSyncTime, bind, modify, ret in H.
    discriminate.
  - intros r w' H.
    pose proof (fun root => reconcile_keeps_now (s_twoWaySyncTag (w_settings w))
                  root (w_mapping w) (ldSnapshot w) (chromeSnapshot root w) w)
      as N.
    apply runTwoWaySync_saved in H as (root & acc & w1 & _ & Hrec & -> & ->).
    specialize (N root). rewrite Hrec in N. simpl in N.
    split; [simpl; now rewrite N | reflexivity].
  - intros msg w' H. apply P. revert w msg w' H.
    change (aborts_keep persisted (runInitialTwoWaySync mode)).
    unfold runInitialTwoWaySync, getSettings.
    apply aborts_bind; [kept|]. intros s.
    destruct (negb (truthy (s_url s)) || negb (truthy (s_token s)));
      [apply aborts_throw|].
    destruct (s_twoWaySyncFolderId s) as [root|]; [|apply aborts_throw].
    apply aborts_bind; [kept|]. intros _.
    apply aborts_bind; [kept|]. intros lds.
    apply aborts_bind; [kept|]. intros cbms.
    apply aborts_bind; [apply runStrategy_keeps_persisted|]. intros acc.
    intros w0 e w0' H.
    unfold setMapping, storeInitialSyncDone in H.
    unfold bind at 1, modify in H. unfold bind at 1 in H.
    unfold bind at 1 in H.
    match type of H with
    | context [refreshConfig root ?w1] =>
        destruct (refreshConfig_returns root w1) as (ce & w2 & E)
    end.
    rewrite E in H. discriminate.
  - intros r w' H.
    pose proof (fun root => runStrategy_keeps_now mode
                  (s_twoWaySyncTag (w_settings w)) root
                  (ldSnapshot w) (chromeSnapshot root w) w) as N.
    apply runInitialTwoWaySync_saved in H
      as (root & acc & w1 & ce & _ & Hstrat & Hcfg & ->).
    specialize (N root). rewrite Hstrat in N. simpl in N.
    match type of Hcfg with
    | refreshConfig _ ?w0 = _ =>
        pose proof (refreshConfig_mapping root w0) as M1;
        assert (M3 : w_settings w' = w_settings w0)
    end.
    { match type of Hcfg with
      | refreshConfig _ ?w0 = _ =>
          assert (K : keeps w_settings (refreshConfig root)) by kept;
          specialize (K w0); now rewrite Hcfg in K
      end. }
    rewrite Hcfg in M1. simpl in M1, M3.
    rewrite M3, M1. simpl. now rewrite N.
Qed.

Lemma run_saves_all_or_nothing_witness :
  w_mapping (snd (runInitialTwoWaySync "merge" Scenario.faultyWorld))
  = w_mapping Scenario.faultyWorld
  /\ w_settings (snd (runInitialTwoWaySync "merge" Scenario.faultyWorld))
     = w_settings Scenario.faultyWorld
  /\ w_log (snd (runInitialTwoWaySync "merge" Scenario.faultyWorld))
     = [LdCreate Scenario.urlA "A" None ["sync"]].
Proof.
  destruct (proj1 (proj2 (proj2 (run_saves_all_or_nothing Scenario.faultyWorld
                                   "merge")))
                  "Create failed"
                  (snd (runInitialTwoWaySync "merge" Scenario.faultyWorld))
                  ltac:(vm_compute; reflexivity)) as [A B].
  split; [exact A|]. split; [exact B | vm_compute; reflexivity].
Defined.

(* ================================================================== *)
(** ** What a completed reconciliation tracks and reports *)
(* ================================================================== *)

Lemma keys_set_iff {V : Type} (m : JsMap.t V) (k k' : string) (v : V) :
  In k' (JsMap.keys (JsMap.set m k v)) <-> k' = k \/ In k' (JsMap.keys m).
Proof.
  destruct (in_dec string_dec k (JsMap.keys m)) as [i|n].
  - rewrite JsMap.keys_set_in by assumption. split; [tauto|].
    intros [->|H]; assumption.
  - rewrite JsMap.keys_set_new by assumption. rewrite in_app_iff. simpl.
    split; intros H; intuition congruence.
Qed.

(** A URL is in an index exactly when an item of the list has it. *)
Lemma has_index_by {V : Type} (key : V -> string) (xs : list V) (k : string) :
  JsMap.has (JsMap.index_by key xs) k = true <-> exists x, In x xs /\ key x = k.
Proof.
  rewrite JsMap.has_In_keys. unfold JsMap.index_by.
  assert (G : forall (m : JsMap.t V),
            In k (JsMap.keys (fold_left (fun m x => JsMap.set m (key x) x) xs m))
            <-> In k (JsMap.keys m) \/ exists x, In x xs /\ key x = k).
  { induction xs as [|x xs IH]; intros m; simpl.
    - split; [tauto|]. intros [H|(x & [] & _)]. exact H.
    - rewrite IH, keys_set_iff. split.
      + intros [[->|H]|(y & Hy & E)]; eauto.
      + intros [H|(y & [<-|Hy] & E)]; eauto. }
  rewrite G. simpl. tauto.
Qed.

(** The number of items of a list that pass a test. *)
Definition count {A : Type} (p : A -> bool) (xs : list A) : Z :=
  Z.of_nat (List.length (filter p xs)).

Lemma count_cons {A : Type} (p : A -> bool) (x : A) (xs : list A) :
  count p (x :: xs) = (if p x then 1 else 0) + count p xs.
Proof. unfold count. simpl. destruct (p x); simpl List.length; lia. Qed.

(** The sum of [g] over a list. *)
Definition total {A : Type} (g : A -> Z) (xs : list A) : Z :=
  fold_right (fun x n => g x + n) 0 xs.

Section Loops.

Context {A S : Type}.
Variable body : S -> A -> M S.

(** A counter that every completed turn raises by [g x] is raised by the
    completed loop by the sum of [g]. *)
Lemma forM_total (measure : S -> Z) (g : A -> Z) :
  (forall s x w s' w', body s x w = (Ok s', w') -> measure s' = measure s + g x) ->
  forall xs s w s' w',
    forM xs body s w = (Ok s', w') -> measure s' = measure s + total g xs.
Proof.
  intros Hstep. induction xs as [|x xs IH]; intros s w s' w' H.
  - simpl in H. apply ret_Ok in H as [-> _]. simpl. lia.
  - apply forM_cons_Ok in H as (s1 & w1 & H1 & H2).
    rewrite (IH _ _ _ _ H2), (Hstep _ _ _ _ _ H1). simpl. lia.
Qed.

(** A set of keys to which every completed turn adds [key x] when [c x]
    holds is extended by the completed loop with the keys of the items that
    pass [c]. *)
Lemma forM_keys (K : S -> list string) (c : A -> bool) (key : A -> string) :
  (forall s x w s' w', body s x w = (Ok s', w') ->
     forall k, In k (K s') <-> In k (K s) \/ (c x = true /\ k = key x)) ->
  forall xs s w s' w',
    forM xs body s w = (Ok s', w') ->
    forall k, In k (K s')
              <-> In k (K s) \/ exists x, In x xs /\ c x = true /\ key x = k.
Proof.
  intros Hstep. induction xs as [|x xs IH]; intros s w s' w' H k.
  - simpl in H. apply ret_Ok in H as [-> _]. split; [tauto|].
    intros [H|(x & [] & _)]. exact H.
  - apply forM_cons_Ok in H as (s1 & w1 & H1 & H2).
    rewrite (IH _ _ _ _ H2 k), (Hstep _ _ _ _ _ H1 k). split.
    + intros [[H|[C ->]]|(y & Hy & C & E)].
      * now left.
      * right. exists x. simpl. auto.
      * right. exists y. simpl. auto.
    + intros [H|(y & [<-|Hy] & C & E)].
      * left. now left.
      * left. right. auto.
      * right. exists y. auto.
Qed.

End Loops.

Lemma total_count {A : Type} (p : A -> bool) (xs : list A) :
  total (fun x => if p x then 1 else 0) xs = count p xs.
Proof.
  induction xs as [|x xs IH]; [reflexivity|].
  rewrite count_cons. simpl. now rewrite IH.
Qed.

Section Passes.

Variable tag : string.
Variable root : Z.
Variable mapping : Mapping.
Variable ldByUrl : JsMap.t LdBookmark.
Variable chromeByUrl : JsMap.t ChromeBookmark.

(** Pass 1 handles the local items whose URL is not mapped; it counts as
    added those whose URL the remote index lacks. *)
Definition fresh_local (cbm : ChromeBookmark) : bool :=
  negb (JsMap.has mapping (c_url cbm)).

Definition uploaded (cbm : ChromeBookmark) : bool :=
  negb (JsMap.has mapping (c_url cbm)) && negb (JsMap.has ldByUrl (c_url cbm)).

(** Pass 2 handles the remote items whose URL is neither mapped nor held
    locally. *)
Definition downloaded (ld : LdBookmark) : bool :=
  negb (JsMap.has mapping (ld_url ld)) && negb (JsMap.has chromeByUrl (ld_url ld)).

(** Pass 3 keeps the entries whose URL both sides hold and drops the
    others. *)
Definition kept_entry (ue : string * MappingEntry) : bool :=
  JsMap.has chromeByUrl (fst ue) && JsMap.has ldByUrl (fst ue).

Definition dropped_entry (ue : string * MappingEntry) : bool :=
  negb (kept_entry ue).

(** The corrective blocks pass 3 runs for an entry: one for each side that
    needs an update. *)
Definition corrections (ue : string * MappingEntry) : Z :=
  match JsMap.get chromeByUrl (fst ue), JsMap.get ldByUrl (fst ue) with
  | Some cbm, Some ld =>
      let r := resolve tag (snd ue) cbm ld in
      (if needsLdUpdate r then 1 else 0) + (if needsChromeUpdate r then 1 else 0)
  | _, _ => 0
  end.

Lemma pass1_turn acc cbm w acc' w' :
  syncNewChrome tag mapping ldByUrl acc cbm w = (Ok acc', w') ->
  (forall k, In k (JsMap.keys (newMapping acc'))
             <-> In k (JsMap.keys (newMapping acc))
                 \/ (fresh_local cbm = true /\ k = c_url cbm))
  /\ added acc' = added acc + (if uploaded cbm then 1 else 0)
  /\ removed acc' = removed acc /\ updated acc' = updated acc.
Proof.
  intros H. unfold fresh_local, uploaded.
  apply syncNewChrome_Ok in H
    as [(Hm & -> & _)|(Hm & lid & Emap & Hadd1 & Hadd2 & Hr & Hu)];
    rewrite Hm; cbn [negb andb].
  - split; [|split; [lia | auto]].
    intros k. split; [tauto | intros [H|[H _]]; [exact H | discriminate]].
  - split; [|split; [|auto]].
    + intros k. rewrite Emap, keys_set_iff. tauto.
    + unfold JsMap.has. destruct (JsMap.get ldByUrl (c_url cbm)) as [ld|].
      * destruct (Hadd1 ld eq_refl) as [_ ->]. simpl. lia.
      * rewrite (Hadd2 eq_refl). simpl. lia.
Qed.

Lemma pass2_turn acc ld w acc' w' :
  syncNewLinkding tag root mapping chromeByUrl acc ld w = (Ok acc', w') ->
  (forall k, In k (JsMap.keys (newMapping acc'))
             <-> In k (JsMap.keys (newMapping acc))
                 \/ (downloaded ld = true /\ k = ld_url ld))
  /\ added acc' = added acc + (if downloaded ld then 1 else 0)
  /\ removed acc' = removed acc /\ updated acc' = updated acc.
Proof.
  unfold syncNewLinkding, downloaded. intros H.
  destruct (negb (JsMap.has mapping (ld_url ld))
            && negb (JsMap.has chromeByUrl (ld_url ld))).
  - cbv zeta in H. peel H. peel H. peel H. apply ret_Ok in H as [-> _]. simpl.
    split; [|split; [lia | auto]].
    intros k. rewrite keys_set_iff. tauto.
  - apply ret_Ok in H as [-> _].
    split; [|split; [lia | auto]].
    intros k. split; [tauto | intros [H|[H _]]; [exact H | discriminate]].
Qed.

Lemma pass3_turn acc ue w acc' w' :
  syncMapped tag root ldByUrl chromeByUrl acc ue w = (Ok acc', w') ->
  (forall k, In k (JsMap.keys (newMapping acc'))
             <-> In k (JsMap.keys (newMapping acc))
                 \/ (kept_entry ue = true /\ k = fst ue))
  /\ added acc' = added acc
  /\ removed acc' = removed acc + (if dropped_entry ue then 1 else 0)
  /\ updated acc' = updated acc + corrections ue.
Proof.
  destruct ue as [url entry]. intros H.
  unfold dropped_entry, kept_entry, corrections, JsMap.has. cbn [fst snd].
  apply syncMapped_Ok in H.
  destruct (JsMap.get chromeByUrl url) as [cbm|];
    destruct (JsMap.get ldByUrl url) as [ld|]; cbn [andb negb];
    try (destruct H as (-> & -> & -> & ->);
         split; [|split; [reflexivity | split; lia]];
         intros k; split; [tauto | intros [H|[H _]]; [exact H | discriminate]]).
  apply syncBoth_Ok in H. cbv zeta in H.
  destruct H as (w1 & _ & _ & Hget & Hother & -> & -> & ->).
  split; [|split; [reflexivity | split; lia]].
  intros k. split.
  - intros Hk. destruct (string_dec k url) as [->|Hne]; [now right|].
    left. apply JsMap.In_keys_get in Hk as [v Hv].
    rewrite (Hother k Hne) in Hv. eapply JsMap.get_In_keys. exact Hv.
  - intros [Hk|[_ ->]].
    + destruct (string_dec k url) as [->|Hne];
        [eapply JsMap.get_In_keys; exact Hget|].
      apply JsMap.In_keys_get in Hk as [v Hv].
      rewrite <- (Hother k Hne) in Hv. eapply JsMap.get_In_keys. exact Hv.
    + eapply JsMap.get_In_keys. exact Hget.
Qed.

End Passes.

(** What the three passes leave in the accumulator. *)
Lemma reconcile_report tag root mapping lds cbms w acc w' :
  reconcile tag root mapping lds cbms w = (Ok acc, w') ->
  let ldByUrl := JsMap.index_by ld_url lds in
  let chromeByUrl := JsMap.index_by c_url cbms in
  (forall k,
     In k (JsMap.keys (newMapping acc))
     <-> (exists cbm, In cbm cbms /\ fresh_local mapping cbm = true
                      /\ c_url cbm = k)
         \/ (exists ld, In ld lds /\ downloaded mapping chromeByUrl ld = true
                        /\ ld_url ld = k)
         \/ (exists ue, In ue (JsMap.entries mapping)
                        /\ kept_entry ldByUrl chromeByUrl ue = true
                        /\ fst ue = k))
  /\ NoDup (JsMap.keys (newMapping acc))
  /\ added acc = count (uploaded mapping ldByUrl) cbms
                 + count (downloaded mapping chromeByUrl) lds
  /\ removed acc = count (dropped_entry ldByUrl chromeByUrl) (JsMap.entries mapping)
  /\ updated acc = total (corrections tag ldByUrl chromeByUrl)
                         (JsMap.entries mapping).
Proof.
  intros H ldByUrl chromeByUrl. unfold reconcile in H. cbv zeta in H.
  fold ldByUrl chromeByUrl in H.
  apply bind_Ok in H as (a1 & w1 & H1 & H).
  apply bind_Ok in H as (a2 & w2 & H2 & H3).
  (* keys *)
  pose proof (forM_keys (syncNewChrome tag mapping ldByUrl)
                (fun s => JsMap.keys (newMapping s)) (fresh_local mapping) c_url
                (fun s x w s' w' Hs =>
                   proj1 (pass1_turn tag mapping ldByUrl s x w s' w' Hs))
                cbms acc0 w a1 w1 H1) as K1.
  pose proof (forM_keys (syncNewLinkding tag root mapping chromeByUrl)
                (fun s => JsMap.keys (newMapping s))
                (downloaded mapping chromeByUrl) ld_url
                (fun s x w s' w' Hs =>
                   proj1 (pass2_turn tag root mapping chromeByUrl s x w s' w' Hs))
                lds a1 w1 a2 w2 H2) as K2.
  pose proof (forM_keys (syncMapped tag root ldByUrl chromeByUrl)
                (fun s => JsMap.keys (newMapping s))
                (kept_entry ldByUrl chromeByUrl) fst
                (fun s x w s' w' Hs =>
                   proj1 (pass3_turn tag root ldByUrl chromeByUrl s x w s' w' Hs))
                (JsMap.entries mapping) a2 w2 acc w' H3) as K3.
  (* counters *)
  assert (T1 : added a1 = count (uploaded mapping ldByUrl) cbms
               /\ removed a1 = 0 /\ updated a1 = 0).
  { split; [|split].
    - rewrite <- total_count.
      apply (forM_total (syncNewChrome tag mapping ldByUrl) added
               (fun x => if uploaded mapping ldByUrl x then 1 else 0)
               (fun s x w s' w' Hs =>
                  proj1 (proj2 (pass1_turn tag mapping ldByUrl s x w s' w' Hs)))
               cbms acc0 w a1 w1 H1).
    - refine (@forM_inv _ _ (fun s _ => removed s = 0) cbms _ _ acc0 w a1 w1
                        eq_refl H1).
      intros s x wx s' wx' _ Hs Hstep.
      apply pass1_turn in Hstep as (_ & _ & -> & _). exact Hs.
    - refine (@forM_inv _ _ (fun s _ => updated s = 0) cbms _ _ acc0 w a1 w1
                        eq_refl H1).
      intros s x wx s' wx' _ Hs Hstep.
      apply pass1_turn in Hstep as (_ & _ & _ & ->). exact Hs. }
  destruct T1 as (A1 & R1 & U1).
  assert (T2 : added a2 = added a1 + count (downloaded mapping chromeByUrl) lds
               /\ removed a2 = 0 /\ updated a2 = 0).
  { split; [|split].
    - rewrite <- total_count.
      apply (forM_total (syncNewLinkding tag root mapping chromeByUrl) added
               (fun x => if downloaded mapping chromeByUrl x then 1 else 0)
               (fun s x w s' w' Hs =>
                  proj1 (proj2 (pass2_turn tag root mapping chromeByUrl
                                           s x w s' w' Hs)))
               lds a1 w1 a2 w2 H2).
    - refine (@forM_inv _ _ (fun s _ => removed s = 0) lds _ _ a1 w1 a2 w2
                        R1 H2).
      intros s x wx s' wx' _ Hs Hstep.
      apply pass2_turn in Hstep as (_ & _ & -> & _). exact Hs.
    - refine (@forM_inv _ _ (fun s _ => updated s = 0) lds _ _ a1 w1 a2 w2
                        U1 H2).
      intros s x wx s' wx' _ Hs Hstep.
      apply pass2_turn in Hstep as (_ & _ & _ & ->). exact Hs. }
  destruct T2 as (A2 & R2 & U2).
  assert (T3 : added acc = added a2
               /\ removed acc
                  = removed a2 + count (dropped_entry ldByUrl chromeByUrl)
                                       (JsMap.entries mapping)
               /\ updated acc
                  = updated a2 + total (corrections tag ldByUrl chromeByUrl)
                                       (JsMap.entries mapping)).
  { split; [|split].
    - refine (@forM_inv _ _ (fun s _ => added s = added a2)
                        (JsMap.entries mapping) _ _ a2 w2 acc w' eq_refl H3).
      intros s x wx s' wx' _ Hs Hstep.
      apply pass3_turn in Hstep as (_ & -> & _). exact Hs.
    - rewrite <- total_count.
      apply (forM_total (syncMapped tag root ldByUrl chromeByUrl) removed
               (fun x => if dropped_entry ldByUrl chromeByUrl x then 1 else 0)
               (fun s x w s' w' Hs =>
                  proj1 (proj2 (proj2 (pass3_turn tag root ldByUrl chromeByUrl
                                                  s x w s' w' Hs))))
               (JsMap.entries mapping) a2 w2 acc w' H3).
    - apply (forM_total (syncMapped tag root ldByUrl chromeByUrl) updated
               (corrections tag ldByUrl chromeByUrl)
               (fun s x w s' w' Hs =>
                  proj2 (proj2 (proj2 (pass3_turn tag root ldByUrl chromeByUrl
                                                  s x w s' w' Hs))))
               (JsMap.entries mapping) a2 w2 acc w' H3). }
  destruct T3 as (A3 & R3 & U3).
  split; [|split; [|split; [|split]]]; try lia.
  - intros k. rewrite K3, K2, K1. simpl. tauto.
  - assert (N1 : NoDup (JsMap.keys (newMapping a1))).
    { refine (@forM_inv _ _ (fun s _ => NoDup (JsMap.keys (newMapping s))) cbms
                        _ _ acc0 w a1 w1 (NoDup_nil _) H1).
      intros s x wx s' wx' _ Hs Hstep. eapply syncNewChrome_keys; eauto. }
    assert (N2 : NoDup (JsMap.keys (newMapping a2))).
    { refine (@forM_inv _ _ (fun s _ => NoDup (JsMap.keys (newMapping s))) lds
                        _ _ a1 w1 a2 w2 N1 H2).
      intros s x wx s' wx' _ Hs Hstep. eapply syncNewLinkding_keys; eauto. }
    refine (@forM_inv _ _ (fun s _ => NoDup (JsMap.keys (newMapping s)))
                      (JsMap.entries mapping) _ _ a2 w2 acc w' N2 H3).
    intros s x wx s' wx' _ Hs Hstep. eapply syncMapped_keys; eauto.
Qed.

(** Worlds in which a run meets every case at once. *)
Module Cases.

Definition urlC : string := "https://c.test".
Definition urlD : string := "https://d.test".

(** [urlA] is linked and unchanged; [urlB] is new in the browser, in the
    folder "Work"; [urlC] is new on the server, tagged for the folder
    "Read"; [urlD] is linked but gone from the server. *)
Definition mixedWorld : World :=
  Scenario.world
    [mkLd 100 Scenario.urlA "A" ["sync"] (Some 400);
     mkLd 101 urlC "C" ["sync"; "sync/Read"] (Some 400)]
    [Bookmark 10 "A" Scenario.urlA 300;
     Folder 2 "Work" [Bookmark 11 "B" Scenario.urlB 301];
     Bookmark 12 "D" urlD 302]
    [(Scenario.urlA, mkEntry 100 10 "A" Scenario.urlA "" 500);
     (urlD, mkEntry 103 12 "D" urlD "" 500)]
    2000.

End Cases.

(** X7.  The URLs a completed incremental run tracks: a URL that was tracked
    before the run stays tracked exactly when both snapshots still hold it;
    a URL that was not tracked becomes tracked exactly when at least one of
    the snapshots holds it.  The saved mapping has no key twice. *)
Theorem saved_mapping_tracks (w : World) (root : Z) (r : SyncResult) (w' : World)
    (Hroot : s_twoWaySyncFolderId (w_settings w) = Some root)
    (Hrun : runTwoWaySync w = (Ok r, w')) :
  NoDup (JsMap.keys (w_mapping w'))
  /\ forall url,
       JsMap.has (w_mapping w') url
       = if JsMap.has (w_mapping w) url
         then JsMap.has (chromeIndex root w) url && JsMap.has (ldIndex w) url
         else JsMap.has (chromeIndex root w) url || JsMap.has (ldIndex w) url.
Proof.
  apply runTwoWaySync_Ok in Hrun
    as (root' & acc & w1 & Hroot' & Hrec & Emap & _).
  rewrite Hroot in Hroot'. injection Hroot' as <-.
  apply reconcile_report in Hrec. cbv zeta in Hrec.
  destruct Hrec as (K & ND & _). rewrite Emap. split; [exact ND|].
  intros url. unfold ldIndex, chromeIndex.
  apply eq_true_iff_eq. rewrite JsMap.has_In_keys, K.
  unfold fresh_local, downloaded, kept_entry.
  destruct (JsMap.has (w_mapping w) url) eqn:Hm.
  - rewrite andb_true_iff, !has_index_by. split.
    + intros [(cbm & _ & C & <-)|[(ld & _ & C & <-)|((k, e) & _ & C & <-)]].
      * rewrite Hm in C. discriminate.
      * rewrite Hm in C. discriminate.
      * simpl in *. apply andb_true_iff in C as [C1 C2].
        split; apply has_index_by; assumption.
    + intros [C1 C2]. right. right.
      apply JsMap.has_In_keys in Hm. unfold JsMap.keys in Hm.
      apply in_map_iff in Hm as ((k, e) & <- & Hin).
      exists (k, e). simpl in *. split; [exact Hin|]. split; [|reflexivity].
      apply andb_true_iff. split; apply has_index_by; assumption.
  - rewrite orb_true_iff, !has_index_by. split.
    + intros [(cbm & Hin & _ & <-)|[(ld & Hin & _ & <-)|((k, e) & Hin & _ & <-)]].
      * left. eauto.
      * right. eauto.
      * exfalso. simpl in Hm.
        assert (Hk : JsMap.has (w_mapping w) k = true).
        { apply JsMap.has_In_keys. unfold JsMap.keys.
          apply in_map_iff. exists (k, e). auto. }
        congruence.
    + intros [(cbm & Hin & <-)|(ld & Hin & <-)].
      * left. exists cbm. rewrite Hm. auto.
      * destruct (JsMap.has (chromeIndex root w) (ld_url ld)) eqn:Hc;
          unfold chromeIndex in Hc.
        -- apply has_index_by in Hc as (cbm & Hin' & E).
           left. exists cbm. rewrite E, Hm. auto.
        -- right. left. exists ld. rewrite Hm. unfold chromeIndex in Hc.
           rewrite Hc. auto.
Qed.

Lemma saved_mapping_tracks_witness :
  JsMap.keys (w_mapping (snd (runTwoWaySync Cases.mixedWorld)))
  = [Scenario.urlB; Cases.urlC; Scenario.urlA]
  /\ forall url,
       JsMap.has (w_mapping (snd (runTwoWaySync Cases.mixedWorld))) url
       = if JsMap.has (w_mapping Cases.mixedWorld) url
         then JsMap.has (chromeIndex 1 Cases.mixedWorld) url
              && JsMap.has (ldIndex Cases.mixedWorld) url
         else JsMap.has (chromeIndex 1 Cases.mixedWorld) url
              || JsMap.has (ldIndex Cases.mixedWorld) url.
Proof.
  split; [vm_compute; reflexivity|].
  exact (proj2 (saved_mapping_tracks Cases.mixedWorld 1
                  (mkSyncResult 2 1 0 3)
                  (snd (runTwoWaySync Cases.mixedWorld))
                  eq_refl ltac:(vm_compute; reflexivity))).
Defined.

(** X8.  What a completed incremental run reports.  [added] counts the
    local items whose URL is neither tracked nor held by the server plus
    the remote items whose URL is neither tracked nor held by the browser
    (items, not URLs: two such items with one URL count twice); [removed]
    counts the tracked URLs that a side no longer holds; [updated] counts
    one for each side corrected for a tracked URL both sides hold. *)
Theorem run_report_counts (w : World) (root : Z) (r : SyncResult) (w' : World)
    (Hroot : s_twoWaySyncFolderId (w_settings w) = Some root)
    (Hrun : runTwoWaySync w = (Ok r, w')) :
  r_added r
  = count (uploaded (w_mapping w) (ldIndex w)) (chromeSnapshot root w)
    + count (downloaded (w_mapping w) (chromeIndex root w)) (ldSnapshot w)
  /\ r_removed r
     = count (dropped_entry (ldIndex w) (chromeIndex root w))
             (JsMap.entries (w_mapping w))
  /\ r_updated r
     = total (corrections (s_twoWaySyncTag (w_settings w)) (ldIndex w)
                          (chromeIndex root w))
             (JsMap.entries (w_mapping w))
  /\ 0 <= r_updated r <= 2 * (JsMap.size (w_mapping w) - r_removed r).
Proof.
  apply runTwoWaySync_Ok in Hrun
    as (root' & acc & w1 & Hroot' & Hrec & _ & _ & _ & _ & _ & ->).
  rewrite Hroot in Hroot'. injection Hroot' as <-.
  apply reconcile_report in Hrec. cbv zeta in Hrec.
  destruct Hrec as (_ & _ & A & R & U).
  cbn [r_added r_removed r_updated r_total].
  fold (ldIndex w) in *. fold (chromeIndex root w) in *.
  split; [exact A|]. split; [exact R|]. split; [exact U|].
  rewrite U, R. unfold JsMap.size, JsMap.entries.
  set (g := corrections (s_twoWaySyncTag (w_settings w)) (ldIndex w)
                        (chromeIndex root w)).
  set (d := dropped_entry (ldIndex w) (chromeIndex root w)).
  assert (B : forall ue, 0 <= g ue <= if d ue then 0 else 2).
  { intros ue. unfold g, d, corrections, dropped_entry, kept_entry, JsMap.has.
    destruct (JsMap.get (chromeIndex root w) (fst ue));
      destruct (JsMap.get (ldIndex w) (fst ue)); cbn [andb negb]; try lia.
    cbv zeta.
    destruct (needsLdUpdate _); destruct (needsChromeUpdate _); lia. }
  assert (G : forall m : list (string * MappingEntry),
            0 <= total g m
            /\ total g m + 2 * count d m <= 2 * Z.of_nat (List.length m)).
  { induction m as [|ue m IH].
    - unfold count. simpl. lia.
    - rewrite count_cons. change (total g (ue :: m)) with (g ue + total g m).
      change (List.length (ue :: m)) with (S (List.length m)).
      rewrite Nat2Z.inj_succ. specialize (B ue).
      destruct (d ue); lia. }
  specialize (G (w_mapping w)). lia.
Qed.

Lemma run_report_counts_witness :
  fst (runTwoWaySync Cases.mixedWorld) = Ok (mkSyncResult 2 1 0 3)
  /\ count (uploaded (w_mapping Cases.mixedWorld) (ldIndex Cases.mixedWorld))
           (chromeSnapshot 1 Cases.mixedWorld) = 1
  /\ r_removed (mkSyncResult 2 1 0 3)
     = count (dropped_entry (ldIndex Cases.mixedWorld)
                            (chromeIndex 1 Cases.mixedWorld))
             (JsMap.entries (w_mapping Cases.mixedWorld)).
Proof.
  split; [vm_compute; reflexivity|]. split; [vm_compute; reflexivity|].
  exact (proj1 (proj2 (run_report_counts Cases.mixedWorld 1
                         (mkSyncResult 2 1 0 3)
                         (snd (runTwoWaySync Cases.mixedWorld))
                         eq_refl ltac:(vm_compute; reflexivity)))).
Defined.

(* ================================================================== *)
(** ** New items cross to the other side *)
(* ================================================================== *)

Section NewItems.

Variable tag : string.
Variable root : Z.
Variable mapping : Mapping.
Variable lds : list LdBookmark.
Variable cbms : list ChromeBookmark.

Let ldByUrl := JsMap.index_by ld_url lds.
Let chromeByUrl := JsMap.index_by c_url cbms.




Lemma weaken_steady (P : Call -> Prop) w w' :
  steady P w w' -> steady any_call w w'.
Proof. apply steady_weaken. intros; exact I. Qed.



End NewItems.






Lemma ensureFolderPath_keeps_now root path :
  keeps w_now (ensureFolderPath root path).
Proof. kept. Qed.

Lemma chrome_create_keeps_now parentId title url :
  keeps w_now (Chrome.create parentId title url).
Proof. kept. Qed.



(* ================================================================== *)
(** ** Deletions, and what the initial modes leave alone *)
(* ================================================================== *)

(** X11.  A completed incremental run propagates deletions.  For a tracked
    URL that the browser snapshot lacks and the server snapshot holds, the
    run deletes the remote item that the server snapshot holds for the URL;
    for one that the server snapshot lacks and the browser snapshot holds,
    it asks the browser to remove the id remembered in the entry; in both
    cases, and when both snapshots lack the URL, the URL is no longer
    tracked afterwards. *)
Theorem deletions_propagate (w : World) (root : Z) (r : SyncResult) (w' : World)
    (url : string) (entry : MappingEntry)
    (Hroot : s_twoWaySyncFolderId (w_settings w) = Some root)
    (Hrun : runTwoWaySync w = (Ok r, w'))
    (Hkeys : NoDup (JsMap.keys (w_mapping w)))
    (Hentry : JsMap.get (w_mapping w) url = Some entry) :
  (forall ld,
     JsMap.get (chromeIndex root w) url = None ->
     JsMap.get (ldIndex w) url = Some ld ->
     issued w w' (LdDelete (ld_id ld)))
  /\ (JsMap.has (chromeIndex root w) url = true ->
      JsMap.get (ldIndex w) url = None ->
      issued w w' (ChRemove (e_chromeId entry)))
  /\ (JsMap.has (chromeIndex root w) url && JsMap.has (ldIndex w) url = false ->
      JsMap.has (w_mapping w') url = false).
Proof.
  apply runTwoWaySync_Ok in Hrun
    as (root' & acc & wr & Hroot' & Hrec & Emap & _ & _ & Elog & Enow & _).
  rewrite Hroot in Hroot'. injection Hroot' as <-.
  destruct (@reconcile_mapped_turn _ _ _ _ _ _ _ _ url entry Hrec Hkeys Hentry)
    as (s1 & w1 & s2 & w2 & S1 & Hturn & S2 & _).
  assert (S2' : steady any_call w2 w').
  { eapply weaken_steady. destruct S2 as [N [l [L F]]]. split; [congruence|].
    exists l. split; [congruence | exact F]. }
  apply deletion_turn in Hturn.
  fold (ldIndex w) in Hturn. fold (chromeIndex root w) in Hturn.
  split; [|split].
  - intros ld Hc Hl. rewrite Hc, Hl in Hturn. destruct Hturn as (_ & L & _).
    eapply issued_between; [exact S1 | exact L | exact S2'].
  - intros Hc Hl. apply JsMap.has_get in Hc as [cbm Hc].
    rewrite Hc, Hl in Hturn. destruct Hturn as (_ & L).
    eapply issued_between; [exact S1 | exact L | exact S2'].
  - intros Hgone. rewrite Emap.
    apply reconcile_report in Hrec. cbv zeta in Hrec.
    destruct Hrec as (K & _).
    fold (ldIndex w) in K. fold (chromeIndex root w) in K.
    destruct (JsMap.has (newMapping acc) url) eqn:Hh; [|reflexivity].
    exfalso. apply JsMap.has_In_keys in Hh. apply K in Hh.
    assert (Hm : JsMap.has (w_mapping w) url = true).
    { apply JsMap.has_get. eauto. }
    unfold fresh_local, downloaded, kept_entry in Hh.
    destruct Hh as [(cbm & _ & C & <-)|[(ld & _ & C & <-)|((k, e) & _ & C & <-)]].
    + rewrite Hm in C. discriminate.
    + rewrite Hm in C. discriminate.
    + simpl in *. congruence.
Qed.

Lemma deletions_propagate_witness :
  issued Cases.mixedWorld (snd (runTwoWaySync Cases.mixedWorld)) (ChRemove 12)
  /\ JsMap.has (w_mapping (snd (runTwoWaySync Cases.mixedWorld))) Cases.urlD
     = false.
Proof.
  destruct (deletions_propagate Cases.mixedWorld 1 (mkSyncResult 2 1 0 3)
              (snd (runTwoWaySync Cases.mixedWorld)) Cases.urlD
              (mkEntry 103 12 "D" Cases.urlD "" 500)
              eq_refl ltac:(vm_compute; reflexivity)
              ltac:(repeat constructor; simpl; intuition discriminate)
              eq_refl) as (_ & B & C).
  split; [apply B; reflexivity | apply C; reflexivity].
Defined.

(** The modes that [runInitialTwoWaySync] knows. *)
Definition known_mode (mode : string) : bool :=
  String.eqb mode "push" || String.eqb mode "pull" || String.eqb mode "merge".

(** X12.  An initial run that passes its guards with a mode that is none of
    "push", "pull" and "merge" transfers nothing, yet completes: it saves
    an empty mapping over the one that was saved, marks the initial sync as
    done, stamps the time, writes the config bookmark and reports zero
    everywhere. *)
Theorem unknown_mode_resets (w : World) (root : Z) (mode : string)
    (Hready : initReady w = Some root)
    (Hmode : known_mode mode = false) :
  exists configError w',
    runInitialTwoWaySync mode w = (Ok (mkInitResult 0 0 0 0 configError), w')
    /\ w_mapping w' = JsMap.empty
    /\ s_twoWayInitialSyncDone (w_settings w') = true
    /\ s_twoWayLastSyncTime (w_settings w') = Some (w_now w)
    /\ w_chrome w' = w_chrome w
    /\ refreshConfig root
         (snd (storeInitialSyncDone (set_mapping JsMap.empty w)))
       = (Ok configError, w').
Proof.
  unfold known_mode in Hmode.
  apply orb_false_iff in Hmode as [Hmode Hmerge].
  apply orb_false_iff in Hmode as [Hpush Hpull].
  destruct (refreshConfig_returns root
              (snd (storeInitialSyncDone (set_mapping JsMap.empty w))))
    as (configError & w' & Hcfg).
  exists configError, w'.
  pose proof (refreshConfig_keeps_persisted root
                (snd (storeInitialSyncDone (set_mapping JsMap.empty w)))) as Kp.
  pose proof (refreshConfig_keeps_chrome root
                (snd (storeInitialSyncDone (set_mapping JsMap.empty w)))) as Kc.
  rewrite Hcfg in Kp, Kc. simpl in Kp, Kc. injection Kp as Ks Km.
  split; [|split; [|split; [|split; [|split]]]].
  - pose proof (initial_run_unfolds w mode root Hready) as E. rewrite E.
    unfold runStrategy. rewrite Hpush, Hpull, Hmerge. cbv zeta.
    unfold bind at 1. unfold ret at 1. cbv iota beta.
    unfold setMapping, bind at 1, modify at 1. cbv iota beta.
    unfold bind at 1. unfold storeInitialSyncDone at 1, modify at 1.
    cbv iota beta.
    unfold storeInitialSyncDone, modify in Hcfg. simpl in Hcfg.
    unfold bind at 1. simpl. rewrite Hcfg. reflexivity.
  - exact Km.
  - rewrite Ks. reflexivity.
  - rewrite Ks. reflexivity.
  - exact Kc.
  - exact Hcfg.
Qed.

Lemma unknown_mode_resets_witness :
  w_mapping Scenario.settledWorld <> JsMap.empty
  /\ exists configError w',
       runInitialTwoWaySync "mirror" Scenario.settledWorld
       = (Ok (mkInitResult 0 0 0 0 configError), w')
       /\ w_mapping w' = JsMap.empty
       /\ s_twoWayInitialSyncDone (w_settings w') = true
       /\ s_twoWayLastSyncTime (w_settings w') = Some (w_now Scenario.settledWorld)
       /\ w_chrome w' = w_chrome Scenario.settledWorld
       /\ refreshConfig 1
            (snd (storeInitialSyncDone
                    (set_mapping JsMap.empty Scenario.settledWorld)))
          = (Ok configError, w').
Proof.
  split; [discriminate|].
  exact (unknown_mode_resets Scenario.settledWorld 1 "mirror" eq_refl eq_refl).
Defined.

(** The calls that go to the browser. *)
Definition browser_call (c : Call) : Prop :=
  match c with
  | ChCreate _ _ _ | ChUpdate _ _ | ChMove _ _ | ChRemove _ | ChRemoveTree _ =>
      True
  | LdFetch _ | LdCreate _ _ _ _ | LdUpdate _ _ | LdDelete _ => False
  end.

Lemma runStrategy_push_keeps_chrome tag root lds cbms :
  keeps w_chrome (runStrategy "push" tag root lds cbms).
Proof.
  change (runStrategy "push" tag root lds cbms)
    with (processBatch cbms (pushItem tag (JsMap.index_by ld_url lds)) initAcc0).
  kept. unfold pushItem. kept.
Qed.

Lemma runStrategy_pull_writes tag root lds cbms :
  preserves (steadyRel browser_call) (runStrategy "pull" tag root lds cbms).
Proof.
  unfold runStrategy.
  change (String.eqb "pull" "push") with false.
  change (String.eqb "pull" "pull") with true.
  cbv iota zeta. unfold fetchConfigOrder, removeChildrenOf.
  pres; try exact I;
    try (apply processBatch_writes; intros; unfold pullItem; pres;
         try exact I; intros; exact I).
Qed.

(** The write with which an initial sync saves the order: the creation of
    the config bookmark, or the update of the bookmark the search for the
    config bookmark returned, with a body that holds the order and nothing
    else. *)
Definition config_write (w : World) (c : Call) : Prop :=
  (exists order, c = configCreation order)
  \/ (exists cfg order,
        w_config w = SearchResults (Some cfg)
        /\ c = configUpdating (cfg_id cfg) order).

Lemma refreshConfig_log root w :
  exists l,
    w_log (snd (refreshConfig root w)) = (w_log w ++ l)%list
    /\ (List.length l <= 1)%nat /\ Forall (config_write w) l.
Proof.
  assert (Nil : forall w0 : World, w_log w0 = w_log w ->
            exists l, w_log w0 = (w_log w ++ l)%list
                      /\ (List.length l <= 1)%nat /\ Forall (config_write w) l).
  { intros w0 E. exists []. rewrite app_nil_r. repeat split; auto. }
  unfold refreshConfig, try_catch. unfold bind at 1.
  pose proof (snapshot_world root "" w) as Hs.
  destruct (getChromeBookmarksRecursive root "" w) as [[cbms|e] w1];
    simpl in Hs; subst w1; [|apply Nil; reflexivity].
  unfold bind at 1, gets.
  destruct (w_config w) as [| |existing] eqn:Hc.
  - apply Nil. reflexivity.
  - unfold bind at 1, modify.
    destruct (saveConfig_cases (map c_url cbms) None
                (add_console "Failed to search for config bookmark" w))
      as (w' & L & _ & _ & E).
    cbv zeta in E. unfold bind at 1. rewrite E.
    assert (G : exists l, w_log w' = (w_log w ++ l)%list
                          /\ (List.length l <= 1)%nat
                          /\ Forall (config_write w) l).
    { exists [configCreation (map c_url cbms)]. split; [exact L|].
      split; [simpl; lia|]. constructor; [|constructor]. left. eauto. }
    destruct (negb false && _); exact G.
  - destruct (saveConfig_cases (map c_url cbms) (option_map cfg_id existing) w)
      as (w' & L & _ & _ & E).
    cbv zeta in E. unfold bind at 1. rewrite E.
    assert (G : exists l, w_log w' = (w_log w ++ l)%list
                          /\ (List.length l <= 1)%nat
                          /\ Forall (config_write w) l).
    { eexists [_]. split; [exact L|]. split; [simpl; lia|].
      constructor; [|constructor].
      destruct existing as [cfg|]; simpl; [|left; eauto].
      destruct (Z.eqb (cfg_id cfg) 0); [left; eauto|].
      right. exists cfg, (map c_url cbms). auto. }
    destruct (negb _ && _); exact G.
Qed.

Lemma runStrategy_pull_keeps_config tag root lds cbms :
  keeps w_config (runStrategy "pull" tag root lds cbms).
Proof.
  unfold runStrategy.
  change (String.eqb "pull" "push") with false.
  change (String.eqb "pull" "pull") with true.
  cbv iota zeta. kept. unfold pullItem. kept.
Qed.

(** X13.  The two one-way modes of the initial sync are one-way.  An
    initial sync in mode "push" leaves the bookmark tree of the browser
    exactly as it was, whether it completes or aborts.  An initial sync in
    mode "pull" sends the server nothing but the write that saves the
    order at its end: its calls go to the browser, followed by at most one
    call to the server, which is the creation of the config bookmark or the
    update of the bookmark that the search for the config bookmark returned,
    with a body that holds the order and nothing else.  No other remote item
    is created, updated or deleted. *)
Theorem one_way_modes_are_one_way (w : World) :
  w_chrome (snd (runInitialTwoWaySync "push" w)) = w_chrome w
  /\ exists browser config,
       w_log (snd (runInitialTwoWaySync "pull" w))
       = (w_log w ++ browser ++ config)%list
       /\ Forall browser_call browser
       /\ (List.length config <= 1)%nat
       /\ Forall (config_write w) config.
Proof.
  split.
  - assert (K : keeps w_chrome (runInitialTwoWaySync "push")).
    { unfold runInitialTwoWaySync, getSettings, setMapping, storeInitialSyncDone.
      kept. apply runStrategy_push_keeps_chrome. }
    apply K.
  - destruct (initReady w) as [root|] eqn:R.
    2:{ destruct (initial_run_refused w "pull" R) as (msg & E & _).
        rewrite E. exists [], []. simpl. rewrite app_nil_r.
        repeat split; auto. }
    rewrite (initial_run_unfolds w "pull" root R). unfold bind at 1.
    pose proof (runStrategy_pull_writes (s_twoWaySyncTag (w_settings w)) root
                  (ldSnapshot w) (chromeSnapshot root w) w) as P.
    pose proof (runStrategy_pull_keeps_config (s_twoWaySyncTag (w_settings w))
                  root (ldSnapshot w) (chromeSnapshot root w) w) as C.
    destruct (runStrategy "pull" _ root _ _ w) as [[acc|e] w1].
    + simpl in P, C. destruct P as [_ [browser [L F]]].
      unfold setMapping, storeInitialSyncDone.
      unfold bind at 1, modify at 1. unfold bind at 1, modify at 1.
      unfold bind at 1.
      match goal with
      | |- context [refreshConfig root ?w0] =>
          destruct (refreshConfig_log root w0) as (config & Lc & Len & Fc);
          destruct (refreshConfig_returns root w0) as (ce & w' & E)
      end.
      rewrite E in *. simpl in Lc. simpl.
      exists browser, config. rewrite Lc, L, app_assoc.
      split; [reflexivity|]. split; [exact F|]. split; [exact Len|].
      eapply Forall_impl; [|exact Fc].
      intros c [Hc|(cfg & order & Hcfg & Hc)]; [now left|].
      right. exists cfg, order. split; [|exact Hc].
      simpl in Hcfg. congruence.
    + simpl in P. destruct P as [_ [browser [L F]]]. simpl.
      exists browser, []. rewrite app_nil_r.
      split; [exact L|]. split; [exact F|]. split; [simpl; lia | constructor].
Qed.

(** The calls of a "pull" on a concrete world: the old content removed,
    the folder and the bookmark created, then the config bookmark. *)
Example pull_run_calls :
  w_chrome (snd (runInitialTwoWaySync "push" Scenario.conflictWorld))
  = w_chrome Scenario.conflictWorld
  /\ w_log (snd (runInitialTwoWaySync "pull" Scenario.conflictWorld))
     = (w_log Scenario.conflictWorld
        ++ [ChRemoveTree 2; ChCreate 1 "Archive" None;
            ChCreate 50 "A remote" (Some Scenario.urlA)]
        ++ [configCreation [Scenario.urlA]])%list.
Proof. split; vm_compute; reflexivity. Qed.

(* ================================================================== *)
(** ** One run at a time *)
(* ================================================================== *)

Module SyncManagerInvariants.
Import SyncManager.

(** The manager of a freshly started service worker. *)
Definition idle : State := mkState false false false.

(** A history the runtime can produce: the [finally] block of [run] is
    entered only while a run is in progress. *)
Fixpoint live (s : State) (es : list Event) : bool :=
  match es with
  | [] => true
  | e :: rest =>
      match e with Settled => isSyncing s | _ => true end
      && live (fst (step s e)) rest
  end.

(** The number of runs that completed. *)
Definition settles (es : list Event) : nat :=
  List.length (filter (fun e => match e with Settled => true | _ => false end) es).

Definition in_flight (s : State) : nat := if isSyncing s then 1 else 0.

(** The flag is set only while a run is in progress. *)
Definition flag_guarded (s : State) : Prop :=
  queuedTwoWay s = true -> isSyncing s = true.

Lemma step_balance (s : State) (e : Event) :
  flag_guarded s -> live s [e] = true ->
  (starts (snd (step s e)) + in_flight s
   = settles [e] + in_flight (fst (step s e)))%nat
  /\ flag_guarded (fst (step s e)).
Proof.
  unfold flag_guarded, in_flight, settles.
  destruct s as [i q a]. destruct e as [t| |ok|]; simpl.
  - intros G _. destruct i; [destruct t|]; simpl; auto.
  - auto.
  - intros G _. destruct ok, i; simpl; auto.
  - rewrite andb_true_r. intros G ->. destruct q; simpl; auto.
Qed.

Lemma exec_balance (es : list Event) :
  forall s, flag_guarded s -> live s es = true ->
  (starts (snd (exec s es)) + in_flight s
   = settles es + in_flight (fst (exec s es)))%nat
  /\ flag_guarded (fst (exec s es)).
Proof.
  induction es as [|e es IH]; intros s G L.
  - simpl. auto.
  - simpl in L. apply andb_true_iff in L as [L1 L2].
    assert (L1' : live s [e] = true) by (simpl; now rewrite L1).
    destruct (step_balance s e G L1') as [B1 G1].
    destruct (IH (fst (step s e)) G1 L2) as [B2 G2].
    simpl. destruct (step s e) as [s1 o1]. simpl in *.
    destruct (exec s1 es) as [s2 o2]. simpl in *.
    split; [|exact G2].
    unfold starts, settles in *. rewrite filter_app, length_app.
    simpl in B1. destruct e; simpl in *; lia.
Qed.

(** X14.  The manager runs one sync at a time.  After any history of
    requests, bookmark changes, timer expiries and completions that starts
    from an idle manager, the runs started exceed the runs completed by one
    when [isSyncing] is set and by none otherwise; and the flag
    [queuedTwoWay] is set only while a run is in progress, so a queued
    request is always picked up by the completion of that run. *)
Theorem one_run_at_a_time (es : list Event) (Hlive : live idle es = true) :
  starts (snd (exec idle es))
  = (settles es + in_flight (fst (exec idle es)))%nat
  /\ (in_flight (fst (exec idle es)) <= 1)%nat
  /\ (queuedTwoWay (fst (exec idle es)) = true ->
      isSyncing (fst (exec idle es)) = true).
Proof.
  destruct (exec_balance es idle (fun H => H) Hlive) as [B G].
  split; [|split; [|exact G]].
  - change (in_flight idle) with 0%nat in B. lia.
  - unfold in_flight. destruct (isSyncing _); lia.
Qed.

Lemma one_run_at_a_time_witness :
  starts (snd (exec idle [Request PopupSync; Request AlarmTwoWay;
                          Request PopupSync; Settled; BookmarkChanged;
                          DebounceElapsed true; Settled]))
  = (2 + 1)%nat.
Proof.
  exact (proj1 (one_run_at_a_time
                  [Request PopupSync; Request AlarmTwoWay; Request PopupSync;
                   Settled; BookmarkChanged; DebounceElapsed true; Settled]
                  eq_refl)).
Defined.

End SyncManagerInvariants.

(* ================================================================== *)
(** ** The bookmark tree: where a download lands *)
(* ================================================================== *)

Section TreeInduction.

Variable P : BNode -> Prop.
Hypothesis P_bookmark : forall i t u d, P (Bookmark i t u d).
Hypothesis P_folder : forall i t ch, Forall P ch -> P (Folder i t ch).

Fixpoint BNode_nested_ind (n : BNode) : P n :=
  match n with
  | Bookmark i t u d => P_bookmark i t u d
  | Folder i t ch =>
      P_folder i t ch
        ((fix all (l : list BNode) : Forall P l :=
            match l with
            | [] => Forall_nil P
            | c :: r => Forall_cons c (BNode_nested_ind c) (all r)
            end) ch)
  end.

End TreeInduction.

(** The ids of a node and of everything below it, the node first. *)
Fixpoint ids (n : BNode) : list Z :=
  match n with
  | Bookmark i _ _ _ => [i]
  | Folder i _ ch => i :: flat_map ids ch
  end.

(** The search of [find_node] among the children of a folder. *)
Fixpoint find_first (id : Z) (l : list BNode) : option BNode :=
  match l with
  | [] => None
  | c :: r => match Chrome.find_node id c with
              | Some x => Some x
              | None => find_first id r
              end
  end.

Lemma find_node_folder id i t ch :
  Chrome.find_node id (Folder i t ch)
  = if Z.eqb i id then Some (Folder i t ch) else find_first id ch.
Proof.
  simpl. destruct (Z.eqb i id); [reflexivity|].
  induction ch as [|c r IH]; [reflexivity|].
  simpl. destruct (Chrome.find_node id c); [reflexivity | exact IH].
Qed.

Lemma find_node_bookmark id i t u d :
  Chrome.find_node id (Bookmark i t u d)
  = if Z.eqb i id then Some (Bookmark i t u d) else None.
Proof. reflexivity. Qed.

(** [m] is [n] or hangs somewhere below it. *)
Inductive subnode (m : BNode) : BNode -> Prop :=
| sub_here : subnode m m
| sub_child i t ch c : In c ch -> subnode m c -> subnode m (Folder i t ch).

Lemma subnode_trans a b c : subnode a b -> subnode b c -> subnode a c.
Proof.
  intros Hab Hbc. induction Hbc; [exact Hab|].
  eapply sub_child; eauto.
Qed.

Lemma subnode_ids m n : subnode m n -> incl (ids m) (ids n).
Proof.
  induction 1 as [|i t ch c Hin Hsub IH]; [apply incl_refl|].
  intros j Hj. simpl. right. apply in_flat_map. exists c. auto.
Qed.

Lemma node_id_in_ids n : In (Chrome.node_id n) (ids n).
Proof. destruct n; simpl; auto. Qed.

Lemma find_first_some id l m :
  find_first id l = Some m -> exists c, In c l /\ Chrome.find_node id c = Some m.
Proof.
  induction l as [|c r IH]; simpl; [discriminate|].
  destruct (Chrome.find_node id c) as [x|] eqn:E.
  - intros [= <-]. eauto.
  - intros H. destruct (IH H) as (c' & Hin & Hc). eauto.
Qed.

Lemma find_node_sub id n :
  forall m, Chrome.find_node id n = Some m -> subnode m n /\ Chrome.node_id m = id.
Proof.
  induction n as [i t u d|i t ch IH] using BNode_nested_ind; intros m.
  - rewrite find_node_bookmark. destruct (Z.eqb i id) eqn:E; [|discriminate].
    intros [= <-]. apply Z.eqb_eq in E. split; [constructor | exact E].
  - rewrite find_node_folder. destruct (Z.eqb i id) eqn:E.
    + intros [= <-]. apply Z.eqb_eq in E. split; [constructor | exact E].
    + intros H. apply find_first_some in H as (c & Hin & Hc).
      rewrite Forall_forall in IH. destruct (IH c Hin m Hc) as [S I].
      split; [eapply sub_child; eauto | exact I].
Qed.

Lemma find_node_present id n :
  In id (ids n) -> exists m, Chrome.find_node id n = Some m.
Proof.
  induction n as [i t u d|i t ch IH] using BNode_nested_ind.
  - simpl. intros [->|[]]. rewrite Z.eqb_refl. eauto.
  - rewrite find_node_folder. simpl. destruct (Z.eqb i id) eqn:E; [eauto|].
    intros [->|H]; [rewrite Z.eqb_refl in E; discriminate|].
    apply in_flat_map in H as (c & Hin & Hc).
    rewrite Forall_forall in IH.
    clear E. induction ch as [|c0 r IHr]; [contradiction|].
    simpl. destruct (Chrome.find_node id c0) as [x|] eqn:F; [eauto|].
    destruct Hin as [->|Hin].
    + destruct (IH c (or_introl eq_refl) Hc) as [m Hm]. congruence.
    + apply IHr; [|exact Hin]. intros y Hy. apply IH. now right.
Qed.

(** In a tree whose ids are distinct, two children that share an id are
    one child. *)
Lemma children_share ch :
  NoDup (flat_map ids ch) ->
  forall c1 c2 j, In c1 ch -> In c2 ch -> In j (ids c1) -> In j (ids c2) ->
                  c1 = c2.
Proof.
  induction ch as [|c r IH]; intros ND c1 c2 j H1 H2 J1 J2; [contradiction|].
  simpl in ND. apply NoDup_app_remove_l in ND as NDr.
  assert (X : forall y, In y r -> In j (ids c) -> In j (ids y) -> False).
  { intros y Hy Jc Jy.
    assert (Hj : In j (flat_map ids r)) by (apply in_flat_map; eauto).
    clear - ND Jc Hj. induction (ids c) as [|a l IHl]; [contradiction|].
    simpl in ND. inversion ND as [|? ? Hn ND']; subst.
    destruct Jc as [->|Jc]; [apply Hn, in_or_app; now right | now apply IHl]. }
  destruct H1 as [<-|H1], H2 as [<-|H2].
  - reflexivity.
  - exfalso. eapply X; eauto.
  - exfalso. eapply X; eauto.
  - eapply IH; eauto.
Qed.

Lemma NoDup_child ch c :
  NoDup (flat_map ids ch) -> In c ch -> NoDup (ids c).
Proof.
  induction ch as [|c0 r IH]; intros ND Hin; [contradiction|].
  simpl in ND. destruct Hin as [->|Hin].
  - eapply NoDup_app_remove_r. exact ND.
  - apply IH; [|exact Hin]. eapply NoDup_app_remove_l. exact ND.
Qed.

(** In a tree whose ids are distinct, an id names one node. *)
Lemma subnode_unique n :
  NoDup (ids n) ->
  forall m1 m2, subnode m1 n -> subnode m2 n ->
                Chrome.node_id m1 = Chrome.node_id m2 -> m1 = m2.
Proof.
  induction n as [i t u d|i t ch IH] using BNode_nested_ind;
    intros ND m1 m2 S1 S2 E.
  - inversion S1; subst. inversion S2; subst. reflexivity.
  - simpl in ND. inversion ND as [|? ? Hn ND']; subst.
    assert (Below : forall m c, In c ch -> subnode m c ->
                                Chrome.node_id m = i -> False).
    { intros m c Hin Hs Hi. apply Hn. apply in_flat_map. exists c.
      split; [exact Hin|]. apply (subnode_ids _ _ Hs). rewrite <- Hi.
      apply node_id_in_ids. }
    inversion S1 as [|? ? ? c1 Hin1 Hs1]; inversion S2 as [|? ? ? c2 Hin2 Hs2];
      subst.
    + reflexivity.
    + exfalso. eapply Below; eauto.
    + exfalso. eapply Below; eauto.
    + assert (c1 = c2).
      { eapply children_share with (j := Chrome.node_id m1); eauto.
        - apply (subnode_ids _ _ Hs1), node_id_in_ids.
        - rewrite E. apply (subnode_ids _ _ Hs2), node_id_in_ids. }
      subst c2. rewrite Forall_forall in IH.
      eapply IH; eauto. eapply NoDup_child; eauto.
Qed.

(** [subPath] of [getChromeBookmarksRecursive]:
    [prefix ? `${prefix}/${child.title}` : child.title]. *)
Definition subPath (prefix title : string) : string :=
  if truthy prefix then prefix ++ "/" ++ title else title.

(** The folder [pid], with children [chp], hangs below one of the nodes
    [ch], and [getChromeBookmarksRecursive], started on [ch] with [prefix],
    reads its bookmarks at [path]. *)
Inductive located (pid : Z)
  : string -> list BNode -> string -> list BNode -> Prop :=
| located_here prefix ch t chp :
    In (Folder pid t chp) ch -> located pid prefix ch (subPath prefix t) chp
| located_below prefix ch i t ch' path chp :
    In (Folder i t ch') ch -> located pid (subPath prefix t) ch' path chp ->
    located pid prefix ch path chp.

Lemma located_collect prefix ch pid path chp b t u d :
  located pid prefix ch path chp -> In (Bookmark b t u d) chp ->
  In (mkCbm b u t d path) (flat_map (collectBookmarks prefix) ch).
Proof.
  intros L Hb. induction L as [prefix ch t0 chp Hin|prefix ch i t0 ch' path chp Hin L IH].
  - apply in_flat_map. eexists. split; [exact Hin|]. simpl.
    apply in_flat_map. eexists. split; [exact Hb|]. simpl. now left.
  - apply in_flat_map. eexists. split; [exact Hin|]. simpl. exact (IH Hb).
Qed.

Lemma located_incl prefix ch ch2 pid path chp :
  incl ch ch2 -> located pid prefix ch path chp -> located pid prefix ch2 path chp.
Proof.
  intros I L. destruct L as [prefix ch t chp Hin|prefix ch i t ch' path chp Hin L].
  - apply located_here. now apply I.
  - eapply located_below; [apply I; exact Hin | exact L].
Qed.

(** One step down from a located folder. *)
Lemma located_step prefix ch pid path chp c t chc :
  located pid prefix ch path chp -> In (Folder c t chc) chp ->
  located c prefix ch (subPath path t) chc.
Proof.
  intros L Hin. induction L as [prefix ch t0 chp Hin0|prefix ch i t0 ch' path chp Hin0 L IH].
  - eapply located_below; [exact Hin0|]. now apply located_here.
  - eapply located_below; [exact Hin0|]. now apply IH.
Qed.

Lemma located_subnode prefix ch pid path chp i0 t0 :
  located pid prefix ch path chp ->
  exists t, subnode (Folder pid t chp) (Folder i0 t0 ch).
Proof.
  intros L. revert i0 t0.
  induction L as [prefix ch t chp Hin|prefix ch i t ch' path chp Hin L IH];
    intros i0 t0.
  - exists t. eapply sub_child; [exact Hin | constructor].
  - destruct (IH i t) as [t1 S]. exists t1. eapply sub_child; [exact Hin | exact S].
Qed.

(** What [chrome.bookmarks.create] does to the tree: [x] goes last among
    the children of the folder [p]. *)
Section Append.

Variable p : Z.
Variable x : BNode.

Definition hang (n : BNode) : BNode :=
  Chrome.modify_folder p (fun ch => ch ++ [x])%list n.

Lemma hang_folder i t ch :
  hang (Folder i t ch)
  = Folder i t (if Z.eqb i p then (map hang ch ++ [x])%list else map hang ch).
Proof. reflexivity. Qed.

Lemma hang_bookmark i t u d : hang (Bookmark i t u d) = Bookmark i t u d.
Proof. reflexivity. Qed.

Lemma hang_absent n : ~ In p (ids n) -> hang n = n.
Proof.
  induction n as [i t u d|i t ch IH] using BNode_nested_ind; intros Hp.
  - reflexivity.
  - rewrite hang_folder. simpl in Hp.
    destruct (Z.eqb i p) eqn:E; [apply Z.eqb_eq in E; tauto|].
    f_equal. rewrite Forall_forall in IH.
    assert (Hch : forall c, In c ch -> ~ In p (ids c)).
    { intros c Hc Hin. apply Hp. right. apply in_flat_map. eauto. }
    clear Hp E. induction ch as [|c r IHr]; [reflexivity|].
    simpl. rewrite IH; [|now left | apply Hch; now left].
    f_equal. apply IHr;
      [intros y Hy; apply IH; now right | intros y Hy; apply Hch; now right].
Qed.

Lemma find_first_app id l :
  Chrome.find_node id x = None ->
  find_first id (l ++ [x]) = find_first id l.
Proof.
  intros Hx. induction l as [|c r IH]; simpl; [now rewrite Hx|].
  destruct (Chrome.find_node id c); [reflexivity | exact IH].
Qed.

(** The search finds after the creation what it found before it. *)
Lemma find_hang id n :
  Chrome.find_node id x = None ->
  Chrome.find_node id (hang n) = option_map hang (Chrome.find_node id n).
Proof.
  intros Hx. induction n as [i t u d|i t ch IH] using BNode_nested_ind.
  - rewrite hang_bookmark, find_node_bookmark. now destruct (Z.eqb i id).
  - rewrite hang_folder, !find_node_folder.
    destruct (Z.eqb i id); [reflexivity|].
    assert (G : find_first id (map hang ch) = option_map hang (find_first id ch)).
    { induction ch as [|c r IHr]; [reflexivity|].
      inversion IH as [|? ? Hc Hr]; subst. simpl. rewrite Hc.
      destruct (Chrome.find_node id c); [reflexivity | now apply IHr]. }
    destruct (Z.eqb i p); [rewrite find_first_app by exact Hx|]; exact G.
Qed.

Lemma located_hang prefix ch pid path chp :
  located pid prefix ch path chp ->
  located pid prefix (map hang ch) path
          (if Z.eqb pid p then (map hang chp ++ [x])%list else map hang chp).
Proof.
  intros L. induction L as [prefix ch t chp Hin|prefix ch i t ch' path chp Hin L IH].
  - apply located_here with (t := t).
    apply (in_map hang) in Hin. rewrite hang_folder in Hin. exact Hin.
  - apply (in_map hang) in Hin. rewrite hang_folder in Hin.
    eapply located_below; [exact Hin|].
    destruct (Z.eqb i p); [|exact IH].
    eapply located_incl; [|exact IH]. apply incl_appl, incl_refl.
Qed.

(** The ids after the creation: those of [x] are inserted once. *)
Lemma ids_hang n :
  NoDup (ids n) ->
  exists l1 l2 e,
    ids n = (l1 ++ l2)%list /\ ids (hang n) = (l1 ++ e ++ l2)%list
    /\ (e = [] \/ e = ids x).
Proof.
  induction n as [i t u d|i t ch IH] using BNode_nested_ind; intros ND.
  - exists [i], [], []. rewrite hang_bookmark. simpl. auto.
  - rewrite hang_folder. simpl in ND. inversion ND as [|? ? Hn ND']; subst.
    destruct (Z.eqb i p) eqn:E.
    + apply Z.eqb_eq in E. subst i.
      assert (Same : map hang ch = ch).
      { clear - Hn. induction ch as [|c r IHr]; [reflexivity|].
        simpl in *. rewrite hang_absent.
        - f_equal. apply IHr. intros H. apply Hn, in_or_app. now right.
        - intros H. apply Hn, in_or_app. now left. }
      rewrite Same. exists (p :: flat_map ids ch), [], (ids x).
      simpl. rewrite flat_map_app. simpl. rewrite !app_nil_r. auto.
    + assert (G : exists l1 l2 e,
                flat_map ids ch = (l1 ++ l2)%list
                /\ flat_map ids (map hang ch) = (l1 ++ e ++ l2)%list
                /\ (e = [] \/ e = ids x)).
      { clear E Hn ND. induction ch as [|c r IHr].
        - exists [], [], []. simpl. auto.
        - inversion IH as [|? ? Hc Hr]; subst. simpl in ND'.
          destruct (in_dec Z.eq_dec p (ids c)) as [Hp|Hp].
          + assert (Same : map hang r = r).
            { assert (Hr' : forall y, In y r -> ~ In p (ids y)).
              { intros y Hy Hin.
                assert (Hf : In p (flat_map ids r)) by (apply in_flat_map; eauto).
                clear - ND' Hp Hf. induction (ids c) as [|a l IHl]; [contradiction|].
                simpl in ND'. inversion ND' as [|? ? Hn ND'']; subst.
                destruct Hp as [->|Hp]; [apply Hn, in_or_app; now right|].
                now apply IHl. }
              clear - Hr'. induction r as [|y r IHr]; [reflexivity|].
              simpl. rewrite hang_absent by (apply Hr'; now left).
              f_equal. apply IHr. intros; apply Hr'; now right. }
            destruct (Hc (NoDup_app_remove_r _ _ ND')) as (l1 & l2 & e & E1 & E2 & He).
            exists l1, (l2 ++ flat_map ids r)%list, e. simpl.
            rewrite Same, E1, E2, <- !app_assoc. auto.
          + destruct (IHr Hr (NoDup_app_remove_l _ _ ND')) as (l1 & l2 & e & E1 & E2 & He).
            exists (ids c ++ l1)%list, l2, e. simpl.
            rewrite hang_absent by exact Hp.
            rewrite E1, E2, <- !app_assoc. auto. }
      destruct G as (l1 & l2 & e & E1 & E2 & He).
      exists (i :: l1), l2, e. simpl. rewrite E1, E2. auto.
Qed.

End Append.

Lemma collect_hang p x prefix n :
  incl (collectBookmarks prefix n) (collectBookmarks prefix (hang p x n)).
Proof.
  revert prefix.
  induction n as [i t u d|i t ch IH] using BNode_nested_ind; intros prefix.
  - apply incl_refl.
  - rewrite hang_folder. cbn [collectBookmarks]. fold (subPath prefix t).
    intros b Hb. apply in_flat_map in Hb as (c & Hc & Hb).
    rewrite Forall_forall in IH.
    assert (G : In b (flat_map (collectBookmarks (subPath prefix t))
                               (map (hang p x) ch))).
    { apply in_flat_map. exists (hang p x c).
      split; [now apply in_map | now apply IH]. }
    destruct (Z.eqb i p); [|exact G].
    rewrite flat_map_app. apply in_or_app. now left.
Qed.

(** [s.split("/")] and [parts.join("/")] *)
Lemma split_slash_cons s : exists h t, split_slash s = h :: t.
Proof.
  destruct s as [|c s]; simpl; [eauto|].
  destruct (Ascii.eqb c "/"); [eauto|].
  destruct (split_slash s); eauto.
Qed.

Lemma join_split_slash s : join "/" (split_slash s) = s.
Proof.
  induction s as [|c s IH]; [reflexivity|].
  simpl. destruct (Ascii.eqb c "/") eqn:E.
  - apply Ascii.eqb_eq in E. subst c.
    destruct (split_slash_cons s) as (h & t & Hs). rewrite Hs in *.
    change (join "/" ("" :: h :: t)) with ("" ++ "/" ++ join "/" (h :: t)).
    rewrite IH. reflexivity.
  - destruct (split_slash s) as [|h t] eqn:Hs.
    + destruct (split_slash_cons s) as (h & t & Hs'). congruence.
    + destruct t as [|h2 t]; simpl in *; now rewrite <- IH.
Qed.

(** The path [getChromeBookmarksRecursive] reads at the end of a walk
    through folders titled [parts]. *)
Lemma walk_join parts :
  forall pre, truthy pre = true ->
              fold_left subPath parts pre = join "/" (pre :: parts).
Proof.
  induction parts as [|t rest IH]; intros pre Hpre; [reflexivity|].
  cbn [fold_left]. unfold subPath at 2. rewrite Hpre.
  rewrite IH by (destruct pre; [discriminate | reflexivity]).
  destruct rest as [|t2 rest]; simpl; [reflexivity|].
  now rewrite <- !append_assoc.
Qed.

Lemma walk_split_slash path :
  truthy path = true -> startsWith path "/" = false ->
  fold_left subPath (split_slash path) "" = path.
Proof.
  intros Ht Hs. destruct path as [|c s]; [discriminate|].
  assert (Hc : Ascii.eqb c "/" = false).
  { unfold startsWith in Hs. simpl in Hs.
    destruct (ascii_dec "/" c) as [<-|ne]; [destruct s; discriminate|].
    apply Ascii.eqb_neq. congruence. }
  pose proof (join_split_slash (String c s)) as J.
  simpl in *. rewrite Hc in *.
  destruct (split_slash s) as [|h t].
  - simpl. exact J.
  - cbn [fold_left]. unfold subPath at 2. cbn [truthy].
    rewrite walk_join by reflexivity. exact J.
Qed.

(** The tree of a browser: no id twice, and the ids the browser will
    give are new. *)
Definition tree_ok (w : World) : Prop :=
  NoDup (ids (w_chrome w))
  /\ Forall (fun i => i < w_next_chrome w) (ids (w_chrome w)).

(** From the folder [root] of the tree, [getChromeBookmarksRecursive]
    reads the bookmarks of the folder [pid], whose children are [chp], at
    [path]. *)
Definition reaches (tree : BNode) (root pid : Z) (path : string)
    (chp : list BNode) : Prop :=
  exists tR chR,
    Chrome.find_node root tree = Some (Folder root tR chR)
    /\ ((pid = root /\ path = "" /\ chp = chR) \/ located pid "" chR path chp).

Lemma reaches_find tree root pid path chp :
  NoDup (ids tree) -> reaches tree root pid path chp ->
  exists t, Chrome.find_node pid tree = Some (Folder pid t chp).
Proof.
  intros ND (tR & chR & Hroot & [(-> & _ & ->)|L]); [eauto|].
  destruct (find_node_sub _ _ _ Hroot) as [SR _].
  destruct (located_subnode _ _ _ _ _ root tR L) as [t S].
  pose proof (subnode_trans _ _ _ S SR) as S'.
  destruct (find_node_present pid tree) as [m Hm].
  { apply (subnode_ids _ _ S'). simpl. now left. }
  destruct (find_node_sub _ _ _ Hm) as [Sm Im].
  exists t. rewrite Hm. f_equal.
  apply (subnode_unique tree ND); auto.
Qed.

Lemma reaches_step tree root pid path chp c t chc :
  reaches tree root pid path chp -> In (Folder c t chc) chp ->
  reaches tree root c (subPath path t) chc.
Proof.
  intros (tR & chR & Hroot & [(-> & -> & ->)|L]) Hin;
    exists tR, chR; (split; [exact Hroot|]); right.
  - now apply located_here.
  - eapply located_step; eauto.
Qed.

Lemma reaches_collect tree root pid path chp b t u d tR chR :
  reaches tree root pid path chp ->
  Chrome.find_node root tree = Some (Folder root tR chR) ->
  In (Bookmark b t u d) chp ->
  In (mkCbm b u t d path) (flat_map (collectBookmarks "") chR).
Proof.
  intros (tR' & chR' & Hroot & H) Hroot' Hb.
  rewrite Hroot in Hroot'. injection Hroot' as <- <-.
  destruct H as [(-> & -> & ->)|L].
  - apply in_flat_map. eexists. split; [exact Hb|]. simpl. now left.
  - eapply located_collect; eauto.
Qed.

(** A node the browser creates: a bookmark or an empty folder. *)
Definition leaf (x : BNode) : Prop :=
  match x with Folder _ _ (_ :: _) => False | _ => True end.

Lemma leaf_find id x :
  leaf x -> Chrome.node_id x <> id -> Chrome.find_node id x = None.
Proof.
  destruct x as [i t u d|i t [|c r]]; simpl; intros L Hne; try contradiction;
    (destruct (Z.eqb i id) eqn:E; [apply Z.eqb_eq in E; contradiction | reflexivity]).
Qed.

Lemma reaches_hang tree root pid path chp p x :
  leaf x -> Chrome.node_id x <> root ->
  reaches tree root pid path chp ->
  reaches (hang p x tree) root pid path
          (if Z.eqb pid p then (map (hang p x) chp ++ [x])%list
           else map (hang p x) chp).
Proof.
  intros Lx Hx (tR & chR & Hroot & H).
  exists tR, (if Z.eqb root p then (map (hang p x) chR ++ [x])%list
              else map (hang p x) chR).
  split.
  - rewrite find_hang by (now apply leaf_find). rewrite Hroot. reflexivity.
  - destruct H as [(-> & -> & ->)|L]; [left; auto|]. right.
    apply (located_hang p x) in L.
    destruct (Z.eqb root p); [|exact L].
    eapply located_incl; [|exact L]. apply incl_appl, incl_refl.
Qed.

(** A completed [chrome.bookmarks.create]: the parent is a folder, the new
    node takes the next id and goes last among the children of the parent. *)
Lemma chrome_create_tree parentId title url w node w' :
  Chrome.create parentId title url w = (Ok node, w') ->
  (exists t ch, Chrome.find_node parentId (w_chrome w) = Some (Folder parentId t ch))
  /\ node = match url with
            | Some u => Bookmark (w_next_chrome w) title u (w_now w)
            | None => Folder (w_next_chrome w) title []
            end
  /\ w_chrome w' = hang parentId node (w_chrome w)
  /\ w_next_chrome w' = w_next_chrome w + 1.
Proof.
  unfold Chrome.create. intros H. peel H. apply issue_Ok in H0 as ->.
  peel H. apply chrome_get_Ok in H0 as [-> F].
  cbn [w_chrome add_log] in F.
  destruct a0 as [|i t ch]; [discriminate|].
  destruct (find_node_sub _ _ _ F) as [_ I]. simpl in I. subst i.
  peel H. peel H. peel H. apply ret_Ok in H as [-> ->]. simpl.
  split; [eauto|]. auto.
Qed.

Lemma create_tree_ok parentId title url w node w' :
  tree_ok w -> Chrome.create parentId title url w = (Ok node, w') ->
  tree_ok w'.
Proof.
  intros [ND B] H. apply chrome_create_tree in H as (_ & Hn & Ht & Hnext).
  unfold tree_ok. rewrite Ht, Hnext.
  destruct (ids_hang parentId node (w_chrome w) ND) as (l1 & l2 & e & E1 & E2 & He).
  rewrite E2. rewrite E1 in ND, B.
  assert (Hnew : ids node = [w_next_chrome w]) by (subst node; now destruct url).
  assert (Hfresh : ~ In (w_next_chrome w) (l1 ++ l2)).
  { intros Hin. rewrite Forall_forall in B. specialize (B _ Hin). lia. }
  split.
  - destruct He as [->| ->]; [exact ND|]. rewrite Hnew. simpl.
    apply NoDup_Add with (a := w_next_chrome w) (l := (l1 ++ l2)%list).
    + apply Add_app.
    + split; assumption.
  - apply Forall_app in B as [B1 B2].
    assert (W : forall l, Forall (fun i => i < w_next_chrome w) l ->
                          Forall (fun i => i < w_next_chrome w + 1) l).
    { intros l. apply Forall_impl. intros; lia. }
    apply Forall_app. split; [now apply W|]. apply Forall_app. split; [|now apply W].
    destruct He as [->| ->]; [constructor|]. rewrite Hnew. constructor; [lia | constructor].
Qed.

Lemma reaches_root tree root pid path chp :
  reaches tree root pid path chp -> In root (ids tree).
Proof.
  intros (tR & chR & Hroot & _).
  destruct (find_node_sub _ _ _ Hroot) as [S _].
  apply (subnode_ids _ _ S). simpl. now left.
Qed.

Lemma created_is_new w root (x : BNode) :
  tree_ok w -> In root (ids (w_chrome w)) ->
  Chrome.node_id x = w_next_chrome w -> Chrome.node_id x <> root.
Proof.
  intros [_ B] Hin Hx E. rewrite Forall_forall in B. specialize (B _ Hin). lia.
Qed.

Lemma create_reaches root pid path chp p title url w node w' :
  tree_ok w -> reaches (w_chrome w) root pid path chp ->
  Chrome.create p title url w = (Ok node, w') ->
  reaches (w_chrome w') root pid path
          (if Z.eqb pid p then (map (hang p node) chp ++ [node])%list
           else map (hang p node) chp).
Proof.
  intros Hok R H. apply chrome_create_tree in H as (_ & Hn & -> & _).
  apply reaches_hang; [subst node; now destruct url | | exact R].
  eapply created_is_new; [exact Hok | eapply reaches_root; exact R|].
  subst node. now destruct url.
Qed.

(** A creation loses no bookmark of the snapshot and moves none. *)
Lemma create_snapshot root p title url w node w' :
  tree_ok w -> Chrome.create p title url w = (Ok node, w') ->
  incl (chromeSnapshot root w) (chromeSnapshot root w').
Proof.
  intros Hok H. apply chrome_create_tree in H as (_ & Hn & Ht & _).
  unfold chromeSnapshot. rewrite Ht.
  destruct (Chrome.find_node root (w_chrome w)) as [[|i t ch]|] eqn:F;
    try (intros b []).
  rewrite find_hang.
  - rewrite F. cbn [option_map]. rewrite hang_folder.
    intros b Hb. apply in_flat_map in Hb as (c & Hc & Hb).
    assert (G : In b (flat_map (collectBookmarks "") (map (hang p node) ch))).
    { apply in_flat_map. exists (hang p node c).
      split; [now apply in_map | now apply collect_hang]. }
    destruct (Z.eqb i p); [|exact G].
    rewrite flat_map_app. apply in_or_app. now left.
  - apply leaf_find; [subst node; now destruct url|].
    eapply created_is_new; [exact Hok | |subst node; now destruct url].
    destruct (find_node_sub _ _ _ F) as [S I]. rewrite <- I.
    apply (subnode_ids _ _ S). simpl. now left.
Qed.

(** One turn of the loop of [ensureFolderPath]: from a folder that is read
    at [path], [getOrCreateFolder] returns a folder that is read at
    [subPath path name]. *)
Lemma getOrCreateFolder_reaches root name pid path chp w c w' :
  tree_ok w -> reaches (w_chrome w) root pid path chp ->
  getOrCreateFolder name pid w = (Ok c, w') ->
  tree_ok w' /\ w_now w' = w_now w
  /\ incl (chromeSnapshot root w) (chromeSnapshot root w')
  /\ exists chc, reaches (w_chrome w') root c (subPath path name) chc.
Proof.
  intros Hok R H. unfold getOrCreateFolder in H. peel H.
  apply getChildren_Ok in H0 as [-> (n & Hn & ->)].
  destruct (reaches_find _ _ _ _ _ (proj1 Hok) R) as [t Hf].
  rewrite Hf in Hn. injection Hn as <-.
  destruct (find _ chp) as [existing|] eqn:Ff.
  - apply ret_Ok in H as [-> ->].
    apply find_some in Ff as [Hin Ht].
    destruct existing as [|e te che]; [discriminate|].
    apply String.eqb_eq in Ht. subst te.
    split; [exact Hok|]. split; [reflexivity|]. split; [apply incl_refl|].
    exists che. eapply reaches_step; eauto.
  - peel H. apply ret_Ok in H as [-> ->].
    pose proof (create_tree_ok _ _ _ _ _ _ Hok H0) as Hok'.
    pose proof (create_snapshot root _ _ _ _ _ _ Hok H0) as Hsnap.
    pose proof (create_reaches _ _ _ _ _ _ _ _ _ _ Hok R H0) as R'.
    pose proof (chrome_create_keeps_now pid name None w) as N.
    rewrite H0 in N. simpl in N.
    apply chrome_create_tree in H0 as (_ & Hnode & _).
    rewrite Z.eqb_refl in R'.
    split; [exact Hok'|]. split; [exact N|]. split; [exact Hsnap|].
    exists []. rewrite Hnode. simpl.
    eapply reaches_step; [exact R'|].
    apply in_or_app. right. rewrite Hnode. now left.
Qed.

(** The loop of [ensureFolderPath]. *)
Lemma walk_reaches root parts :
  forall pid path chp w c w',
    tree_ok w -> reaches (w_chrome w) root pid path chp ->
    forM parts (fun currentId part => getOrCreateFolder part currentId) pid w
    = (Ok c, w') ->
    tree_ok w' /\ w_now w' = w_now w
    /\ incl (chromeSnapshot root w) (chromeSnapshot root w')
    /\ exists chc, reaches (w_chrome w') root c (fold_left subPath parts path) chc.
Proof.
  induction parts as [|part rest IH]; intros pid path chp w c w' Hok R H.
  - simpl in H. apply ret_Ok in H as [-> ->].
    split; [exact Hok|]. split; [reflexivity|]. split; [apply incl_refl|]. eauto.
  - apply forM_cons_Ok in H as (c1 & w1 & H1 & H2).
    destruct (getOrCreateFolder_reaches _ _ _ _ _ _ _ _ Hok R H1)
      as (Hok1 & N1 & S1 & chc & R1).
    destruct (IH _ _ _ _ _ _ Hok1 R1 H2) as (Hok2 & N2 & S2 & R2).
    split; [exact Hok2|]. split; [congruence|].
    split; [eapply incl_tran; eassumption | exact R2].
Qed.

(** X15.  A download lands where the next run will look for it.  In a
    browser tree whose ids are distinct, under a synced folder that is a
    folder, and for a path that does not begin with the delimiter: when
    [ensureFolderPath] returns a folder for the path and a bookmark is
    created in it, the next snapshot of the synced folder holds that
    bookmark with exactly this path as its folder path, every bookmark of
    the earlier snapshot is still there with its path, and the ids of the
    tree are still distinct. *)
Theorem download_lands_at_path (w : World) (root : Z) (path title url : string)
    (pid : Z) (w1 : World) (node : BNode) (w2 : World)
    (Hok : tree_ok w)
    (Hroot : exists t ch,
        Chrome.find_node root (w_chrome w) = Some (Folder root t ch))
    (Hpath : startsWith path "/" = false)
    (Hfolder : ensureFolderPath root path w = (Ok pid, w1))
    (Hcreate : Chrome.create pid title (Some url) w1 = (Ok node, w2)) :
  In (mkCbm (Chrome.node_id node) url title (w_now w) path)
     (chromeSnapshot root w2)
  /\ incl (chromeSnapshot root w) (chromeSnapshot root w2)
  /\ tree_ok w2.
Proof.
  destruct Hroot as (tR & chR & Hroot).
  assert (R0 : reaches (w_chrome w) root root "" chR).
  { exists tR, chR. split; [exact Hroot|]. left. auto. }
  assert (W : tree_ok w1 /\ w_now w1 = w_now w
              /\ incl (chromeSnapshot root w) (chromeSnapshot root w1)
              /\ exists chp, reaches (w_chrome w1) root pid path chp).
  { unfold ensureFolderPath in Hfolder.
    destruct (truthy path) eqn:Tp; cbn [negb] in Hfolder.
    - destruct (walk_reaches root _ _ _ _ _ _ _ Hok R0 Hfolder)
        as (Hok1 & N1 & S1 & chp & R1).
      rewrite walk_split_slash in R1 by assumption. eauto 6.
    - apply ret_Ok in Hfolder as [-> ->]. apply truthy_false in Tp. subst path.
      split; [exact Hok|]. split; [reflexivity|]. split; [apply incl_refl|]. eauto. }
  destruct W as (Hok1 & N1 & S1 & chp & R1).
  pose proof (create_tree_ok _ _ _ _ _ _ Hok1 Hcreate) as Hok2.
  pose proof (create_snapshot root _ _ _ _ _ _ Hok1 Hcreate) as S2.
  pose proof (create_reaches _ _ _ _ _ _ _ _ _ _ Hok1 R1 Hcreate) as R2.
  rewrite Z.eqb_refl in R2.
  apply chrome_create_tree in Hcreate as (_ & Hnode & _).
  split; [|split; [eapply incl_tran; eassumption | exact Hok2]].
  destruct R2 as (tR2 & chR2 & Hroot2 & H2).
  unfold chromeSnapshot. rewrite Hroot2.
  eapply reaches_collect with (pid := pid);
    [exists tR2, chR2; split; [exact Hroot2 | exact H2] | exact Hroot2 |].
  apply in_or_app. right. rewrite Hnode, N1. simpl. now left.
Qed.

Lemma download_lands_at_path_witness :
  In (mkCbm 52 Scenario.urlA "A" 2000 "Work/Projects")
     (chromeSnapshot 1
        (snd (Chrome.create 51 "A" (Some Scenario.urlA)
                (snd (ensureFolderPath 1 "Work/Projects"
                        (Scenario.world [] [] [] 2000)))))).
Proof.
  refine (proj1 (download_lands_at_path (Scenario.world [] [] [] 2000) 1
                   "Work/Projects" "A" Scenario.urlA 51
                   (snd (ensureFolderPath 1 "Work/Projects"
                           (Scenario.world [] [] [] 2000)))
                   (Bookmark 52 "A" Scenario.urlA 2000)
                   (snd (Chrome.create 51 "A" (Some Scenario.urlA)
                           (snd (ensureFolderPath 1 "Work/Projects"
                                   (Scenario.world [] [] [] 2000)))))
                   _ _ eq_refl _ _)).
  - split; simpl.
    + repeat constructor; simpl; intuition discriminate.
    + repeat constructor.
  - exists "Synced", []. reflexivity.
  - vm_compute. reflexivity.
  - vm_compute. reflexivity.
Defined.

(** The condition on the path is needed: a path that begins with the
    delimiter is read back without it. *)
Example leading_delimiter_is_lost :
  map c_folderPath
      (chromeSnapshot 1
         (snd (Chrome.create 51 "A" (Some Scenario.urlA)
                 (snd (ensureFolderPath 1 "/Work"
                         (Scenario.world [] [] [] 2000))))))
  = ["Work"].
Proof. vm_compute. reflexivity. Qed.

(* ================================================================== *)
(** ** The batches of "push" and "pull" *)
(* ================================================================== *)

Section Batches.

Context {A S : Type}.
Variable fn : S -> A -> M S.

(** What holds of the accumulator before a batch and survives every
    completed callback holds after the batch: a failed callback leaves the
    accumulator as it was. *)
Lemma processBatch_inv (I : S -> Prop) (items : list A) :
  (forall s x w s' w', In x items -> I s -> fn s x w = (Ok s', w') -> I s') ->
  forall s w s' w', I s -> processBatch items fn s w = (Ok s', w') -> I s'.
Proof.
  intros Hstep s w s' w' HI H. unfold processBatch in H.
  refine (@forM_inv _ _ (fun s _ => I s) items _ _ s w s' w' HI H).
  intros s0 x w0 s1 w1 Hin H0 Hbody. unfold try_catch in Hbody.
  destruct (fn s0 x w0) as [[s2|msg] w2] eqn:E.
  - injection Hbody as <- _. eapply Hstep; eauto.
  - unfold bind, modify, ret in Hbody. injection Hbody as <- _. exact H0.
Qed.

(** A counter that a completed callback raises by at most one is raised
    by the batch by at most the number of items. *)
Lemma processBatch_bound (measure : S -> Z) (items : list A) :
  (forall s x w s' w', fn s x w = (Ok s', w') ->
     measure s <= measure s' <= measure s + 1) ->
  forall s w s' w', processBatch items fn s w = (Ok s', w') ->
    measure s <= measure s' <= measure s + Z.of_nat (List.length items).
Proof.
  intros Hstep. unfold processBatch.
  induction items as [|x xs IH]; intros s w s' w' H.
  - simpl in H. apply ret_Ok in H as [-> _]. simpl. lia.
  - apply forM_cons_Ok in H as (s1 & w1 & H1 & H2).
    specialize (IH _ _ _ _ H2).
    assert (B : measure s <= measure s1 <= measure s + 1).
    { unfold try_catch in H1. destruct (fn s x w) as [[s2|msg] w2] eqn:E.
      - injection H1 as <- _. eapply Hstep; eauto.
      - unfold bind, modify, ret in H1. injection H1 as <- _. lia. }
    change (List.length (x :: xs)) with (Datatypes.S (List.length xs)).
    rewrite Nat2Z.inj_succ. lia.
Qed.

End Batches.

Lemma pushItem_Ok tag ldByUrl acc cbm w acc' w' :
  pushItem tag ldByUrl acc cbm w = (Ok acc', w') ->
  (exists e, i_mapping acc' = JsMap.set (i_mapping acc) (c_url cbm) e)
  /\ i_added acc' + i_updated acc' = i_added acc + i_updated acc + 1
  /\ i_added acc <= i_added acc' /\ i_updated acc <= i_updated acc'
  /\ i_downloaded acc' = i_downloaded acc.
Proof.
  unfold pushItem. cbv zeta. intros H.
  destruct (JsMap.get ldByUrl (c_url cbm)) as [ld|].
  - peel H. peel H. apply ret_Ok in H as [-> _]. simpl.
    split; [eauto|]. lia.
  - peel H. peel H. apply ret_Ok in H as [-> _]. simpl.
    split; [eauto|]. lia.
Qed.

Lemma pullItem_Ok tag root acc ld w acc' w' :
  pullItem tag root acc ld w = (Ok acc', w') ->
  (exists e, i_mapping acc' = JsMap.set (i_mapping acc) (ld_url ld) e)
  /\ i_added acc' = i_added acc /\ i_updated acc' = i_updated acc
  /\ i_downloaded acc' = i_downloaded acc + 1.
Proof.
  unfold pullItem. cbv zeta. intros H.
  peel H. peel H. peel H. apply ret_Ok in H as [-> _]. simpl.
  split; [eauto|]. auto.
Qed.

(** The accumulator of a batch: the counters, and the URLs it tracks. *)
Definition batch_ok (urls : list string) (acc : InitAcc) : Prop :=
  (forall url, In url (JsMap.keys (i_mapping acc)) -> In url urls)
  /\ 0 <= i_added acc /\ 0 <= i_updated acc /\ 0 <= i_downloaded acc.

Lemma batch_ok_start urls : batch_ok urls initAcc0.
Proof. unfold batch_ok, initAcc0. simpl. repeat split; try lia. Qed.

Lemma runStrategy_push tag root lds cbms :
  runStrategy "push" tag root lds cbms
  = processBatch cbms (pushItem tag (JsMap.index_by ld_url lds)) initAcc0.
Proof. reflexivity. Qed.

Lemma runStrategy_pull tag root lds cbms :
  runStrategy "pull" tag root lds cbms
  = (config <- fetchConfigOrder ;;
     removeChildrenOf root ;;;
     processBatch
       match config with
       | Some order => sort_by (fun bm => order_rank order (ld_url bm)) lds
       | None => lds
       end
       (pullItem tag root) initAcc0).
Proof. reflexivity. Qed.

Lemma fetchConfigOrder_returns w :
  exists config w0,
    fetchConfigOrder w = (Ok config, w0) /\ w_chrome w0 = w_chrome w.
Proof.
  unfold fetchConfigOrder, bind, gets, modify, ret.
  destruct (w_config w) as [| |[c|]]; simpl; eauto.
Qed.

(** What follows the strategy of an initial run never throws. *)
Lemma initial_run_ends mode w root acc w1 :
  initReady w = Some root ->
  runStrategy mode (s_twoWaySyncTag (w_settings w)) root
              (ldSnapshot w) (chromeSnapshot root w) w = (Ok acc, w1) ->
  exists configError w',
    runInitialTwoWaySync mode w
    = (Ok (mkInitResult (i_added acc) (i_updated acc) (i_downloaded acc)
                        (JsMap.size (i_mapping acc)) configError), w')
    /\ w_mapping w' = i_mapping acc.
Proof.
  intros Hready Hstrat. rewrite (initial_run_unfolds w mode root Hready).
  unfold bind at 1. rewrite Hstrat.
  unfold setMapping, storeInitialSyncDone.
  unfold bind at 1, modify at 1. unfold bind at 1, modify at 1.
  unfold bind at 1.
  match goal with
  | |- context [refreshConfig root ?w0] =>
      destruct (refreshConfig_returns root w0) as (ce & w' & E);
      pose proof (refreshConfig_mapping root w0) as Hm
  end.
  rewrite E in *. simpl in Hm. exists ce, w'. split; [reflexivity | exact Hm].
Qed.

(** Bounds on the batches of "push" and "pull".  Past its guards, an
    initial sync in mode "push" always completes: it tracks only URLs of
    local bookmarks and reports, as added plus updated, at most one per
    local bookmark, and nothing as downloaded.  In mode "pull" the run can
    only fail while it empties the synced folder; when it completes it
    tracks only URLs of remote bookmarks and reports at most one download
    per remote bookmark, and nothing else. *)
Lemma batch_modes_bounds (w : World) (root : Z)
    (Hready : initReady w = Some root) :
  (exists r w',
     runInitialTwoWaySync "push" w = (Ok r, w')
     /\ ir_downloaded r = 0 /\ 0 <= ir_added r /\ 0 <= ir_updated r
     /\ ir_added r + ir_updated r
        <= Z.of_nat (List.length (chromeSnapshot root w))
     /\ forall url, JsMap.has (w_mapping w') url = true ->
                    JsMap.has (chromeIndex root w) url = true)
  /\ (forall r w',
        runInitialTwoWaySync "pull" w = (Ok r, w') ->
        ir_added r = 0 /\ ir_updated r = 0
        /\ 0 <= ir_downloaded r <= Z.of_nat (List.length (ldSnapshot w))
        /\ forall url, JsMap.has (w_mapping w') url = true ->
                       JsMap.has (ldIndex w) url = true)
  /\ (forall e w',
        runInitialTwoWaySync "pull" w = (Throw e, w') ->
        exists w0, w_chrome w0 = w_chrome w
                   /\ removeChildrenOf root w0 = (Throw e, w')).
Proof.
  set (tag := s_twoWaySyncTag (w_settings w)).
  split; [|split].
  - destruct (processBatch_completes (chromeSnapshot root w)
                (pushItem tag (ldIndex w)) initAcc0 w) as (acc & w1 & Hb).
    destruct (initial_run_ends "push" w root acc w1 Hready Hb)
      as (ce & w' & Hrun & Hm).
    eexists. exists w'. split; [exact Hrun|].
    cbn [ir_added ir_updated ir_downloaded].
    assert (I : batch_ok (map c_url (chromeSnapshot root w)) acc
                /\ i_downloaded acc = 0).
    { refine (processBatch_inv _
                (fun a => batch_ok (map c_url (chromeSnapshot root w)) a
                          /\ i_downloaded a = 0)
                (chromeSnapshot root w) _ initAcc0 w acc w1
                (conj (batch_ok_start _) eq_refl) Hb).
      intros s x w0 s' w0' Hin [(K & A & U & D) Z0] Hs.
      apply pushItem_Ok in Hs as ((e & Em) & _ & A' & U' & D').
      split; [|congruence]. unfold batch_ok. rewrite Em.
      split; [|lia]. intros url Hu. apply keys_set_iff in Hu as [->|Hu];
        [now apply in_map | now apply K]. }
    destruct I as [(K & A & U & D) Z0].
    pose proof (processBatch_bound (pushItem tag (ldIndex w))
                  (fun a => i_added a + i_updated a) (chromeSnapshot root w)
                  (fun s x w0 s' w0' Hs =>
                     ltac:(apply pushItem_Ok in Hs as (_ & E & _); lia))
                  initAcc0 w acc w1 Hb) as B.
    simpl in B.
    split; [exact Z0|]. split; [exact A|]. split; [exact U|]. split; [lia|].
    intros url Hu. rewrite Hm in Hu. apply JsMap.has_In_keys, K in Hu.
    apply in_map_iff in Hu as (cbm & <- & Hin).
    unfold chromeIndex. apply has_index_by. eauto.
  - intros r w' Hrun.
    apply runInitialTwoWaySync_saved in Hrun
      as (root' & acc & w1 & ce & Hroot & Hstrat & Hcfg & ->).
    assert (root' = root) as ->.
    { unfold initReady in Hready. rewrite Hroot in Hready.
      destruct (_ && _); [|discriminate].
      destruct (Chrome.find_node root' (w_chrome w)); [|discriminate].
      now injection Hready. }
    pose proof (refreshConfig_mapping root
                  (snd (storeInitialSyncDone (set_mapping (i_mapping acc) w1))))
      as Hm.
    rewrite Hcfg in Hm. simpl in Hm.
    rewrite runStrategy_pull in Hstrat. fold tag in Hstrat.
    peel Hstrat. peel Hstrat. rename a into config.
    set (items := match config with
                  | Some order =>
                      sort_by (fun bm => order_rank order (ld_url bm)) (ldSnapshot w)
                  | None => ldSnapshot w
                  end) in *.
    assert (Hitems : forall ld, In ld items -> In ld (ldSnapshot w)).
    { intros ld. unfold items. destruct config; [apply sort_by_In | auto]. }
    assert (Hlen : List.length items = List.length (ldSnapshot w)).
    { unfold items. destruct config as [order|]; [|reflexivity].
      symmetry. apply Permutation_length.
      apply (sort_from LdBookmark (fun bm => order_rank order (ld_url bm))
                       (ldSnapshot w) [] (SSorted_nil _)). }
    assert (I : batch_ok (map ld_url (ldSnapshot w)) acc
                /\ i_added acc = 0 /\ i_updated acc = 0).
    { refine (processBatch_inv _
                (fun a => batch_ok (map ld_url (ldSnapshot w)) a
                          /\ i_added a = 0 /\ i_updated a = 0)
                items _ initAcc0 _ acc w1
                (conj (batch_ok_start _) (conj eq_refl eq_refl)) Hstrat).
      intros s x wx s' wx' Hin [(K & A & U & D) [A0 U0]] Hs.
      apply pullItem_Ok in Hs as ((e & Em) & A' & U' & D').
      split; [|split; congruence]. unfold batch_ok. rewrite Em.
      split; [|lia]. intros url Hu. apply keys_set_iff in Hu as [->|Hu];
        [apply in_map, Hitems, Hin | now apply K]. }
    destruct I as [(K & A & U & D) [A0 U0]].
    pose proof (processBatch_bound (pullItem tag root) i_downloaded items
                  (fun s x w0 s' w0' Hs =>
                     ltac:(apply pullItem_Ok in Hs as (_ & _ & _ & E); lia))
                  initAcc0 _ acc w1 Hstrat) as B.
    simpl in B. rewrite Hlen in B. cbn [ir_added ir_updated ir_downloaded].
    split; [exact A0|]. split; [exact U0|]. split; [lia|].
    intros url Hu. rewrite Hm in Hu. apply JsMap.has_In_keys, K in Hu.
    apply in_map_iff in Hu as (ld & <- & Hin).
    unfold ldIndex. apply has_index_by. eauto.
  - intros e w' Hrun.
    rewrite (initial_run_unfolds w "pull" root Hready) in Hrun.
    apply bind_Throw in Hrun as [Hstrat|(acc & w1 & Hstrat & Hrest)].
    + rewrite runStrategy_pull in Hstrat.
      destruct (fetchConfigOrder_returns w) as (config & w0 & Hc & Hch).
      apply bind_Throw in Hstrat as [Hf|(c & w0' & Hf & Hstrat)];
        [congruence|].
      rewrite Hc in Hf. injection Hf as <- <-.
      apply bind_Throw in Hstrat as [Hr|(u & w2 & Hr & Hb)]; [eauto|].
      match type of Hb with
      | processBatch ?items ?fn ?s ?w = _ =>
          destruct (processBatch_completes items fn s w) as (s' & w3 & Hok)
      end.
      congruence.
    + destruct (initial_run_ends "pull" w root acc w1 Hready Hstrat)
        as (ce & w2 & Hok & _).
      rewrite (initial_run_unfolds w "pull" root Hready) in Hok.
      unfold bind at 1 in Hok. rewrite Hstrat in Hok. congruence.
Qed.

(* ================================================================== *)
(** ** The bookmark tree: removals *)
(* ================================================================== *)

Section Removal.

Variable i : Z.

Lemma delete_folder j t ch :
  Chrome.delete_node i (Folder j t ch)
  = Folder j t (filter (fun c => negb (Z.eqb (Chrome.node_id c) i))
                       (map (Chrome.delete_node i) ch)).
Proof. reflexivity. Qed.

Lemma delete_id n : Chrome.node_id (Chrome.delete_node i n) = Chrome.node_id n.
Proof. destruct n; reflexivity. Qed.

(** Children that do not hold the id are left as they are. *)
Lemma delete_children_absent ch :
  Forall (fun n => ~ In i (ids n) -> Chrome.delete_node i n = n) ch ->
  ~ In i (flat_map ids ch) ->
  filter (fun c => negb (Z.eqb (Chrome.node_id c) i))
         (map (Chrome.delete_node i) ch) = ch.
Proof.
  induction ch as [|c r IH]; intros F Hno; [reflexivity|].
  inversion F as [|? ? Hc Hr]; subst. simpl in Hno.
  assert (Hc' : ~ In i (ids c)) by (intros H; apply Hno, in_or_app; now left).
  assert (Hr' : ~ In i (flat_map ids r)) by (intros H; apply Hno, in_or_app; now right).
  simpl. rewrite (Hc Hc').
  assert (E : Z.eqb (Chrome.node_id c) i = false).
  { apply Z.eqb_neq. intros <-. apply Hc', node_id_in_ids. }
  rewrite E. simpl. f_equal. now apply IH.
Qed.

Lemma delete_absent n : ~ In i (ids n) -> Chrome.delete_node i n = n.
Proof.
  induction n as [j t u d|j t ch IH] using BNode_nested_ind; intros Hno.
  - reflexivity.
  - rewrite delete_folder. f_equal. apply delete_children_absent; [exact IH|].
    intros H. apply Hno. simpl. now right.
Qed.

(** The ids after a removal: one block is gone. *)
Lemma ids_delete n :
  NoDup (ids n) ->
  exists l1 e l2,
    ids n = (l1 ++ e ++ l2)%list /\ ids (Chrome.delete_node i n) = (l1 ++ l2)%list.
Proof.
  induction n as [j t u d|j t ch IH] using BNode_nested_ind; intros ND.
  - exists [j], [], []. split; reflexivity.
  - rewrite delete_folder. simpl in ND. inversion ND as [|? ? Hn ND']; subst.
    assert (G : exists l1 e l2,
              flat_map ids ch = (l1 ++ e ++ l2)%list
              /\ flat_map ids (filter (fun c => negb (Z.eqb (Chrome.node_id c) i))
                                      (map (Chrome.delete_node i) ch))
                 = (l1 ++ l2)%list).
    { clear Hn ND. induction ch as [|c r IHr].
      - exists [], [], []. split; reflexivity.
      - inversion IH as [|? ? Hc Hr]; subst. simpl in ND'.
        pose proof (NoDup_app_remove_l _ _ ND') as NDr.
        pose proof (NoDup_app_remove_r _ _ ND') as NDc.
        destruct (in_dec Z.eq_dec i (ids c)) as [Hi|Hi].
        + assert (Hrest : ~ In i (flat_map ids r)).
          { intros Hf. clear - ND' Hi Hf.
            induction (ids c) as [|a l IHl]; [contradiction|].
            simpl in ND'. inversion ND' as [|? ? Hn ND'']; subst.
            destruct Hi as [->|Hi]; [apply Hn, in_or_app; now right|].
            now apply IHl. }
          assert (Same : filter (fun c => negb (Z.eqb (Chrome.node_id c) i))
                                (map (Chrome.delete_node i) r) = r).
          { apply delete_children_absent; [|exact Hrest].
            apply Forall_forall. intros y _. apply delete_absent. }
          simpl. rewrite delete_id, Same.
          destruct (Z.eqb (Chrome.node_id c) i) eqn:E; simpl.
          * exists [], (ids c), (flat_map ids r). auto.
          * destruct (Hc NDc) as (l1 & e & l2 & E1 & E2).
            exists l1, e, (l2 ++ flat_map ids r)%list.
            rewrite E1, E2, <- !app_assoc. auto.
        + destruct (IHr Hr NDr) as (l1 & e & l2 & E1 & E2).
          assert (E : Z.eqb (Chrome.node_id c) i = false).
          { apply Z.eqb_neq. intros <-. apply Hi, node_id_in_ids. }
          simpl. rewrite delete_id, E, (delete_absent c Hi). simpl.
          exists (ids c ++ l1)%list, e, l2.
          rewrite E1, E2, <- !app_assoc. auto. }
    destruct G as (l1 & e & l2 & E1 & E2).
    exists (j :: l1), e, l2. simpl. rewrite E1, E2. auto.
Qed.

End Removal.

Lemma NoDup_drop {X : Type} (l1 e l2 : list X) :
  NoDup (l1 ++ e ++ l2) -> NoDup (l1 ++ l2).
Proof.
  induction l1 as [|a l1 IH]; simpl; intros ND.
  - eapply NoDup_app_remove_l. exact ND.
  - inversion ND as [|? ? Hn ND']; subst. constructor; [|now apply IH].
    intros H. apply Hn. apply in_app_or in H as [H|H]; apply in_or_app;
      [now left | right; apply in_or_app; now right].
Qed.

Lemma delete_tree_ok i w next :
  tree_ok w ->
  next = w_next_chrome w ->
  tree_ok (set_chrome (Chrome.delete_node i (w_chrome w)) next w).
Proof.
  intros [ND B] ->. unfold tree_ok. simpl.
  destruct (ids_delete i (w_chrome w) ND) as (l1 & e & l2 & E1 & E2).
  rewrite E2. rewrite E1 in ND, B. split; [eapply NoDup_drop; exact ND|].
  apply Forall_app in B as [B1 B2]. apply Forall_app in B2 as [_ B2].
  apply Forall_app. auto.
Qed.

(** The ids of the proper descendants of a node. *)
Definition below (n : BNode) : list Z :=
  match n with
  | Bookmark _ _ _ _ => []
  | Folder _ _ ch => flat_map ids ch
  end.

Lemma ids_below n : ids n = Chrome.node_id n :: below n.
Proof. destruct n; reflexivity. Qed.

Lemma child_below f t ch c y :
  subnode (Folder f t ch) y -> In c ch -> In (Chrome.node_id c) (below y).
Proof.
  intros S Hc. remember (Folder f t ch) as m eqn:Em.
  induction S as [|j t0 ch0 y0 Hin S IH]; subst.
  - simpl. apply in_flat_map. exists c. split; [exact Hc | apply node_id_in_ids].
  - simpl. apply in_flat_map. exists y0. split; [exact Hin|].
    rewrite ids_below. right. now apply IH.
Qed.

(** The folder [f] after the removal of its child [c]. *)
Lemma subnode_delete n :
  NoDup (ids n) ->
  forall f t ch c,
    subnode (Folder f t ch) n -> In c ch ->
    subnode (Folder f t (filter (fun y => negb (Z.eqb (Chrome.node_id y)
                                                      (Chrome.node_id c)))
                                (map (Chrome.delete_node (Chrome.node_id c)) ch)))
            (Chrome.delete_node (Chrome.node_id c) n).
Proof.
  induction n as [j t0 u d|j t0 ch0 IH] using BNode_nested_ind;
    intros ND f t ch c S Hc.
  - inversion S.
  - inversion S as [|? ? ? y Hin Sy]; subst.
    + rewrite delete_folder. constructor.
    + rewrite delete_folder.
      simpl in ND. inversion ND as [|? ? Hn ND']; subst.
      pose proof (NoDup_child _ _ ND' Hin) as NDy.
      rewrite Forall_forall in IH.
      apply sub_child with (c := Chrome.delete_node (Chrome.node_id c) y);
        [|now apply IH].
      apply filter_In. split; [now apply in_map|].
      rewrite delete_id. apply negb_true_iff, Z.eqb_neq. intros E.
      pose proof (child_below _ _ _ _ _ Sy Hc) as Hb.
      rewrite ids_below in NDy. inversion NDy as [|? ? Hny _]; subst.
      apply Hny. now rewrite E.
Qed.

(** In a tree whose ids are distinct, the removal of the first child of a
    folder leaves the folder with its other children. *)
Lemma find_after_delete tree f t c rest :
  NoDup (ids tree) ->
  Chrome.find_node f tree = Some (Folder f t (c :: rest)) ->
  Chrome.find_node f (Chrome.delete_node (Chrome.node_id c) tree)
  = Some (Folder f t rest).
Proof.
  intros ND F.
  destruct (find_node_sub _ _ _ F) as [S _].
  pose proof (subnode_delete tree ND f t (c :: rest) c S (or_introl eq_refl)) as S'.
  assert (NDf : NoDup (ids (Folder f t (c :: rest)))).
  { clear - ND S. induction S as [|j t0 ch0 y Hin S IH]; [exact ND|].
    apply IH. simpl in ND. inversion ND; subst. eapply NoDup_child; eauto. }
  assert (Erest : filter (fun y => negb (Z.eqb (Chrome.node_id y) (Chrome.node_id c)))
                         (map (Chrome.delete_node (Chrome.node_id c)) (c :: rest))
                  = rest).
  { simpl in NDf. inversion NDf as [|? ? _ NDch]; subst. simpl in NDch.
    simpl. rewrite delete_id, Z.eqb_refl. simpl.
    apply delete_children_absent.
    - apply Forall_forall. intros y _. apply delete_absent.
    - intros Hin. clear - NDch Hin.
      pose proof (node_id_in_ids c) as Hc.
      induction (ids c) as [|a l IHl]; [contradiction|].
      simpl in NDch. inversion NDch as [|? ? Hn ND']; subst.
      destruct Hc as [->|Hc]; [apply Hn, in_or_app; now right | now apply IHl]. }
  rewrite Erest in S'.
  destruct (ids_delete (Chrome.node_id c) tree ND) as (l1 & e & l2 & E1 & E2).
  assert (ND' : NoDup (ids (Chrome.delete_node (Chrome.node_id c) tree))).
  { rewrite E2. rewrite E1 in ND. eapply NoDup_drop; exact ND. }
  destruct (find_node_present f (Chrome.delete_node (Chrome.node_id c) tree))
    as [m Hm].
  { apply (subnode_ids _ _ S'). simpl. now left. }
  destruct (find_node_sub _ _ _ Hm) as [Sm Im].
  rewrite Hm. f_equal. apply (subnode_unique _ ND'); auto.
Qed.

(** The call [removeChildrenOf] issues for a child. *)
Definition removal (c : BNode) : Call :=
  match c with
  | Bookmark i _ _ _ => ChRemove i
  | Folder i _ _ => ChRemoveTree i
  end.

(** The body of the loop of [removeChildrenOf]. *)
Definition removeChild (c : BNode) : M unit :=
  match c with
  | Bookmark i _ _ _ => Chrome.remove i
  | Folder i _ _ => Chrome.removeTree i
  end.

Lemma find_child tree f t ch c :
  NoDup (ids tree) ->
  Chrome.find_node f tree = Some (Folder f t ch) -> In c ch ->
  Chrome.find_node (Chrome.node_id c) tree = Some c.
Proof.
  intros ND F Hc. destruct (find_node_sub _ _ _ F) as [S _].
  assert (Sc : subnode c tree).
  { eapply subnode_trans; [|exact S]. eapply sub_child; [exact Hc | constructor]. }
  destruct (find_node_present (Chrome.node_id c) tree) as [m Hm].
  { apply (subnode_ids _ _ Sc), node_id_in_ids. }
  destruct (find_node_sub _ _ _ Hm) as [Sm Im].
  rewrite Hm. f_equal. apply (subnode_unique _ ND); auto.
Qed.

(** One removal: rejected, it changes nothing but the log; accepted, it
    takes the child out of the tree. *)
Lemma removeChild_step w f t c rest :
  tree_ok w ->
  Chrome.find_node f (w_chrome w) = Some (Folder f t (c :: rest)) ->
  removeChild c w
  = if w_fails w (removal c)
    then (Throw "Browser API call failed.", add_log (removal c) w)
    else (Ok tt,
          set_chrome (Chrome.delete_node (Chrome.node_id c) (w_chrome w))
                     (w_next_chrome w) (add_log (removal c) w)).
Proof.
  intros [ND _] F.
  pose proof (find_child _ _ _ _ c ND F (or_introl eq_refl)) as Fc.
  destruct c as [i tc u d|i tc chc]; simpl in Fc |- *.
  - unfold Chrome.remove, Chrome.issue, Chrome.get, bind, modify, gets, ret, throw.
    cbn [w_fails add_log w_chrome]. destruct (w_fails w (ChRemove i)); [reflexivity|].
    unfold add_log. simpl. rewrite Fc. reflexivity.
  - unfold Chrome.removeTree, Chrome.issue, Chrome.get, bind, modify, gets, ret, throw.
    cbn [w_fails add_log w_chrome]. destruct (w_fails w (ChRemoveTree i)); [reflexivity|].
    unfold add_log. simpl. rewrite Fc. reflexivity.
Qed.

Lemma remove_loop f t ch :
  forall w,
    tree_ok w ->
    Chrome.find_node f (w_chrome w) = Some (Folder f t ch) ->
    match forM ch (fun _ child => removeChild child) tt w with
    | (Ok _, w') =>
        Chrome.find_node f (w_chrome w') = Some (Folder f t [])
        /\ tree_ok w'
        /\ w_log w' = (w_log w ++ map removal ch)%list
        /\ Forall (fun c => w_fails w (removal c) = false) ch
        /\ w_next_chrome w' = w_next_chrome w
    | (Throw e, w') =>
        exists gone c rest,
          ch = (gone ++ c :: rest)%list
          /\ Forall (fun c => w_fails w (removal c) = false) gone
          /\ w_fails w (removal c) = true
          /\ Chrome.find_node f (w_chrome w') = Some (Folder f t (c :: rest))
          /\ tree_ok w'
          /\ w_log w' = (w_log w ++ map removal (gone ++ [c]))%list
    end.
Proof.
  induction ch as [|c rest IH]; intros w Hok F.
  - simpl. rewrite app_nil_r. auto.
  - cbn [forM]. unfold bind. rewrite (removeChild_step w f t c rest Hok F).
    destruct (w_fails w (removal c)) eqn:R.
    + exists [], c, rest. simpl. repeat split; auto.
      destruct Hok as [ND B]. exact ND. destruct Hok as [ND B]. exact B.
    + set (w1 := set_chrome (Chrome.delete_node (Chrome.node_id c) (w_chrome w))
                            (w_next_chrome w) (add_log (removal c) w)).
      assert (Hok1 : tree_ok w1).
      { apply (delete_tree_ok (Chrome.node_id c) (add_log (removal c) w));
          [exact Hok | reflexivity]. }
      assert (F1 : Chrome.find_node f (w_chrome w1) = Some (Folder f t rest)).
      { unfold w1. simpl. apply find_after_delete; [exact (proj1 Hok) | exact F]. }
      specialize (IH w1 Hok1 F1).
      destruct (forM rest (fun _ child => removeChild child) tt w1) as [[u|e] w'].
      * destruct IH as (F' & Hok' & L & Fl & N).
        split; [exact F'|]. split; [exact Hok'|]. split.
        -- rewrite L. unfold w1. simpl. now rewrite <- app_assoc.
        -- split; [constructor; [exact R | exact Fl] | exact N].
      * destruct IH as (gone & c' & rest' & E & Fl & R' & F' & Hok' & L).
        exists (c :: gone), c', rest'. split; [simpl; now rewrite E|].
        split; [constructor; [exact R | exact Fl]|]. split; [exact R'|].
        split; [exact F'|]. split; [exact Hok'|].
        rewrite L. unfold w1. simpl. now rewrite <- app_assoc.
Qed.

Lemma removeChildrenOf_loop f t ch w :
  Chrome.find_node f (w_chrome w) = Some (Folder f t ch) ->
  removeChildrenOf f w = forM ch (fun _ child => removeChild child) tt w.
Proof.
  intros F. unfold removeChildrenOf, Chrome.getChildren, Chrome.get.
  unfold bind at 1. unfold bind at 1. unfold bind at 1. unfold gets.
  rewrite F. reflexivity.
Qed.

(** X17.  [removeChildrenOf] empties a folder, one removal call per child
    in order.  In a tree whose ids are distinct: when it returns, the
    folder is still there and has no child (its snapshot is empty); when
    the browser rejects no removal it does return; and when it throws, a
    removal was rejected: the children before the rejected one are gone,
    the rejected one and those after it are still in the folder. *)
Theorem removeChildrenOf_empties (w : World) (f : Z) (t : string)
    (ch : list BNode)
    (Hok : tree_ok w)
    (Hfolder : Chrome.find_node f (w_chrome w) = Some (Folder f t ch)) :
  (forall u w',
     removeChildrenOf f w = (Ok u, w') ->
     Chrome.find_node f (w_chrome w') = Some (Folder f t [])
     /\ chromeSnapshot f w' = []
     /\ w_log w' = (w_log w ++ map removal ch)%list
     /\ tree_ok w')
  /\ ((forall c, In c ch -> w_fails w (removal c) = false) ->
      exists w', removeChildrenOf f w = (Ok tt, w'))
  /\ (forall e w',
        removeChildrenOf f w = (Throw e, w') ->
        exists gone c rest,
          ch = (gone ++ c :: rest)%list
          /\ w_fails w (removal c) = true
          /\ Chrome.find_node f (w_chrome w') = Some (Folder f t (c :: rest))
          /\ w_log w' = (w_log w ++ map removal (gone ++ [c]))%list).
Proof.
  rewrite (removeChildrenOf_loop f t ch w Hfolder).
  pose proof (remove_loop f t ch w Hok Hfolder) as L.
  destruct (forM ch (fun _ child => removeChild child) tt w) as [[u|e] w1].
  - destruct L as (F' & Hok' & Lg & Fl & _).
    split; [|split].
    + intros u' w' [= _ <-]. split; [exact F'|].
      split; [unfold chromeSnapshot; now rewrite F'|]. auto.
    + intros _. destruct u. eauto.
    + intros e w' H. discriminate.
  - destruct L as (gone & c & rest & E & Fl & R & F' & Hok' & Lg).
    split; [|split].
    + intros u w' H. discriminate.
    + intros Hno. rewrite Hno in R; [discriminate|].
      rewrite E. apply in_or_app. right. now left.
    + intros e' w' [= _ <-]. exists gone, c, rest. auto.
Qed.

Lemma removeChildrenOf_empties_witness :
  chromeSnapshot 1 (snd (removeChildrenOf 1 Cases.mixedWorld)) = []
  /\ w_log (snd (removeChildrenOf 1 Cases.mixedWorld))
     = [ChRemove 10; ChRemoveTree 2; ChRemove 12].
Proof.
  destruct (proj1 (removeChildrenOf_empties Cases.mixedWorld 1 "Synced"
                     [Bookmark 10 "A" Scenario.urlA 300;
                      Folder 2 "Work" [Bookmark 11 "B" Scenario.urlB 301];
                      Bookmark 12 "D" Cases.urlD 302]
                     ltac:(split; simpl;
                           [repeat constructor; simpl; intuition discriminate
                           |repeat constructor])
                     eq_refl)
                  tt (snd (removeChildrenOf 1 Cases.mixedWorld))
                  ltac:(vm_compute; reflexivity)) as (_ & S & L & _).
  split; [exact S | exact L].
Defined.

(* ================================================================== *)
(** ** What "pull" leaves in the synced folder *)
(* ================================================================== *)

(** Computations that move the world along a preorder, whether they
    return or throw. *)
Definition respects (R : World -> World -> Prop) {A : Type} (m : M A) : Prop :=
  forall w, R w (snd (m w)).

Section Respects.

Variable R : World -> World -> Prop.
Hypothesis R_refl : forall w, R w w.
Hypothesis R_trans : forall a b c, R a b -> R b c -> R a c.

Lemma respects_ret {A : Type} (a : A) : respects R (ret a).
Proof. intros w. apply R_refl. Qed.

Lemma respects_gets {A : Type} (g : World -> A) : respects R (gets g).
Proof. intros w. apply R_refl. Qed.

Lemma respects_bind {A B : Type} (m : M A) (k : A -> M B) :
  respects R m -> (forall a, respects R (k a)) -> respects R (bind m k).
Proof.
  intros Hm Hk w. unfold bind. specialize (Hm w).
  destruct (m w) as [[a|msg] w1]; simpl in *; [|exact Hm].
  eapply R_trans; [exact Hm | apply Hk].
Qed.

Lemma respects_try_catch {A : Type} (m : M A) (h : string -> M A) :
  respects R m -> (forall e, respects R (h e)) -> respects R (try_catch m h).
Proof.
  intros Hm Hh w. unfold try_catch. specialize (Hm w).
  destruct (m w) as [[a|msg] w1]; simpl in *; [exact Hm|].
  eapply R_trans; [exact Hm | apply Hh].
Qed.

Lemma respects_forM {A S : Type} (xs : list A) (body : S -> A -> M S) :
  (forall s x, In x xs -> respects R (body s x)) ->
  forall s, respects R (forM xs body s).
Proof.
  induction xs as [|x xs IH]; intros H s; simpl.
  - apply respects_ret.
  - apply respects_bind; [apply H; now left|].
    intros s'. apply IH. intros s0 y Hy. apply H. now right.
Qed.

End Respects.

Lemma collect_hang_upper p x prefix n b :
  In b (collectBookmarks prefix (hang p x n)) ->
  In b (collectBookmarks prefix n) \/ exists pre, In b (collectBookmarks pre x).
Proof.
  revert prefix.
  induction n as [i t u d|i t ch IH] using BNode_nested_ind; intros prefix.
  - rewrite hang_bookmark. auto.
  - rewrite hang_folder. cbn [collectBookmarks]. fold (subPath prefix t).
    rewrite Forall_forall in IH. intros Hb.
    assert (G : In b (flat_map (collectBookmarks (subPath prefix t))
                               (map (hang p x) ch)) ->
                In b (flat_map (collectBookmarks (subPath prefix t)) ch)
                \/ exists pre, In b (collectBookmarks pre x)).
    { intros H. apply in_flat_map in H as (c' & Hc' & Hb').
      apply in_map_iff in Hc' as (c & <- & Hc).
      destruct (IH c Hc _ Hb') as [H|H]; [left | now right].
      apply in_flat_map. eauto. }
    destruct (Z.eqb i p); [|now apply G].
    rewrite flat_map_app in Hb. apply in_app_or in Hb as [Hb|Hb]; [now apply G|].
    right. simpl in Hb. rewrite app_nil_r in Hb. eauto.
Qed.

(** The bookmarks a snapshot can hold after a creation: those it held, and
    the created one. *)
Lemma create_snapshot_upper root p title url w node w' b :
  tree_ok w -> In root (ids (w_chrome w)) ->
  Chrome.create p title url w = (Ok node, w') ->
  In b (chromeSnapshot root w') ->
  In b (chromeSnapshot root w)
  \/ (url = Some (c_url b) /\ c_id b = w_next_chrome w).
Proof.
  intros Hok Hroot H. apply chrome_create_tree in H as (_ & Hn & Ht & _).
  assert (Hleaf : leaf node) by (subst node; now destruct url).
  assert (Hid : Chrome.node_id node = w_next_chrome w)
    by (subst node; now destruct url).
  unfold chromeSnapshot. rewrite Ht.
  rewrite find_hang
    by (apply leaf_find; [exact Hleaf | eapply created_is_new; eauto]).
  destruct (Chrome.find_node root (w_chrome w)) as [[|i t ch]|]; simpl;
    try contradiction.
  fold (hang p node). intros Hb.
  assert (G : In b (flat_map (collectBookmarks "") (map (hang p node) ch)) ->
              In b (flat_map (collectBookmarks "") ch)
              \/ exists pre, In b (collectBookmarks pre node)).
  { intros H. apply in_flat_map in H as (c' & Hc' & Hb').
    apply in_map_iff in Hc' as (c & <- & Hc).
    destruct (collect_hang_upper _ _ _ _ _ Hb') as [H|H]; [left | now right].
    apply in_flat_map. eauto. }
  assert (G' : In b (flat_map (collectBookmarks "") ch)
               \/ exists pre, In b (collectBookmarks pre node)).
  { destruct (Z.eqb i p); [|now apply G].
    rewrite flat_map_app in Hb. apply in_app_or in Hb as [Hb|Hb]; [now apply G|].
    right. simpl in Hb. rewrite app_nil_r in Hb. eauto. }
  destruct G' as [H|(pre & H)]; [now left|]. right.
  subst node. destruct url as [u|]; simpl in H; [|contradiction].
  destruct H as [<-|[]]. split; reflexivity.
Qed.

Lemma hang_keeps_ids p x n j :
  NoDup (ids n) -> In j (ids n) -> In j (ids (hang p x n)).
Proof.
  intros ND Hj. destruct (ids_hang p x n ND) as (l1 & l2 & e & E1 & E2 & _).
  rewrite E2. rewrite E1 in Hj. apply in_app_or in Hj as [Hj|Hj];
    apply in_or_app; [now left | right; apply in_or_app; now right].
Qed.

(** Between two worlds the synced folder gained, at most, bookmarks whose
    URLs are among [urls]; the ids of the tree stayed distinct. *)
Definition fills (root : Z) (urls : list string) (w w' : World) : Prop :=
  tree_ok w -> In root (ids (w_chrome w)) ->
  tree_ok w' /\ In root (ids (w_chrome w'))
  /\ w_next_chrome w <= w_next_chrome w'
  /\ forall b, In b (chromeSnapshot root w') ->
               In b (chromeSnapshot root w)
               \/ (In (c_url b) urls /\ w_next_chrome w <= c_id b).

Lemma fills_refl root urls w : fills root urls w w.
Proof.
  intros Hok Hroot. split; [exact Hok|]. split; [exact Hroot|].
  split; [lia | auto].
Qed.

Lemma fills_trans root urls a b c :
  fills root urls a b -> fills root urls b c -> fills root urls a c.
Proof.
  intros Hab Hbc Hok Hroot.
  destruct (Hab Hok Hroot) as (Hok1 & Hroot1 & N1 & S1).
  destruct (Hbc Hok1 Hroot1) as (Hok2 & Hroot2 & N2 & S2).
  split; [exact Hok2|]. split; [exact Hroot2|]. split; [lia|].
  intros x Hx. destruct (S2 x Hx) as [H|[H1 H2]]; [now apply S1|].
  right. split; [exact H1 | lia].
Qed.

Lemma fills_same root urls w w' :
  w_chrome w' = w_chrome w -> w_next_chrome w' = w_next_chrome w ->
  fills root urls w w'.
Proof.
  intros Ec En Hok Hroot. unfold tree_ok, chromeSnapshot. rewrite Ec, En.
  split; [exact Hok|]. split; [exact Hroot|]. split; [lia | auto].
Qed.

Lemma create_Throw p title url w e w' :
  Chrome.create p title url w = (Throw e, w') ->
  w' = add_log (ChCreate p title url) w.
Proof.
  unfold Chrome.create, Chrome.issue, Chrome.get, bind, modify, gets, ret, throw.
  cbn [w_fails add_log]. destruct (w_fails w _); [now intros [= _ <-]|].
  unfold add_log at 1. cbn [w_chrome].
  destruct (Chrome.find_node p (w_chrome w)) as [[|]|]; intros H;
    try discriminate; now injection H as _ <-.
Qed.

Lemma create_fills root urls p title url :
  (forall u, url = Some u -> In u urls) ->
  respects (fills root urls) (Chrome.create p title url).
Proof.
  intros Hu w. destruct (Chrome.create p title url w) as [[node|e] w'] eqn:E.
  - intros Hok Hroot. simpl.
    split; [eapply create_tree_ok; eauto|]. split.
    + pose proof E as E'. apply chrome_create_tree in E' as (_ & _ & -> & _).
      apply hang_keeps_ids; [exact (proj1 Hok) | exact Hroot].
    + split; [apply chrome_create_tree in E as (_ & _ & _ & ->); lia|].
      intros b Hb.
      destruct (create_snapshot_upper _ _ _ _ _ _ _ _ Hok Hroot E Hb)
        as [H|[H1 H2]]; [now left | right].
      split; [now apply Hu | lia].
  - apply create_Throw in E as ->. simpl. now apply fills_same.
Qed.

Lemma respects_read (R : World -> World -> Prop) {A : Type} (m : M A) :
  (forall w, R w w) -> (forall w, snd (m w) = w) -> respects R m.
Proof. intros Hr Hm w. rewrite Hm. apply Hr. Qed.

Lemma getChildren_world id w : snd (Chrome.getChildren id w) = w.
Proof.
  unfold Chrome.getChildren, Chrome.get, bind, gets, ret, throw.
  destruct (Chrome.find_node id (w_chrome w)) as [[|]|]; reflexivity.
Qed.

Lemma getOrCreateFolder_fills root urls name parentId :
  respects (fills root urls) (getOrCreateFolder name parentId).
Proof.
  unfold getOrCreateFolder.
  apply respects_bind; [apply fills_trans | |].
  - apply respects_read; [apply fills_refl | apply getChildren_world].
  - intros children. destruct (find _ children).
    + apply respects_ret, fills_refl.
    + apply respects_bind; [apply fills_trans | |].
      * apply create_fills. discriminate.
      * intros created. apply respects_ret, fills_refl.
Qed.

Lemma ensureFolderPath_fills root urls r path :
  respects (fills root urls) (ensureFolderPath r path).
Proof.
  unfold ensureFolderPath. destruct (negb (truthy path)).
  - apply respects_ret, fills_refl.
  - apply respects_forM; [apply fills_refl | apply fills_trans|].
    intros s x _. apply getOrCreateFolder_fills.
Qed.

Lemma pullItem_fills root urls tag r acc ld :
  In (ld_url ld) urls ->
  respects (fills root urls) (pullItem tag r acc ld).
Proof.
  intros Hu. unfold pullItem. cbv zeta.
  apply respects_bind; [apply fills_trans | apply ensureFolderPath_fills|].
  intros parentId.
  apply respects_bind; [apply fills_trans | |].
  - apply create_fills. now intros u [= <-].
  - intros created.
    apply respects_bind; [apply fills_trans | apply respects_gets, fills_refl|].
    intros now. apply respects_ret, fills_refl.
Qed.

Lemma pull_batch_fills root tag r items acc :
  respects (fills root (map ld_url items))
           (processBatch items (pullItem tag r) acc).
Proof.
  unfold processBatch.
  apply respects_forM; [apply fills_refl | apply fills_trans|].
  intros s x Hx.
  apply respects_try_catch; [apply fills_trans | |].
  - apply pullItem_fills. now apply in_map.
  - intros e. apply respects_bind; [apply fills_trans | |].
    + intros w. apply fills_same; reflexivity.
    + intros u. apply respects_ret, fills_refl.
Qed.

(** The ids of the bookmarks of a snapshot are ids of the tree. *)
Lemma collected_id prefix n b :
  In b (collectBookmarks prefix n) -> In (c_id b) (ids n).
Proof.
  revert prefix.
  induction n as [i t u d|i t ch IH] using BNode_nested_ind; intros prefix.
  - simpl. intros [<-|[]]. now left.
  - cbn [collectBookmarks]. intros Hb.
    apply in_flat_map in Hb as (c & Hc & Hb). rewrite Forall_forall in IH.
    simpl. right. apply in_flat_map. exists c. split; [exact Hc|].
    eapply IH; eauto.
Qed.

Lemma refreshConfig_keeps_next root : keeps w_next_chrome (refreshConfig root).
Proof. kept. Qed.

(** X18.  An initial sync in mode "pull" replaces the content of the synced
    folder.  In a tree whose ids are distinct, every bookmark that the
    synced folder holds after a completed "pull" was created by the run (its
    id is one the browser had not given before) for the URL of a tagged
    remote bookmark: nothing of what the folder held before remains, and a
    local bookmark whose URL the server lacks is lost. *)
Theorem pull_replaces_folder (w : World) (root : Z) (r : InitResult)
    (w' : World)
    (Hok : tree_ok w)
    (Hready : initReady w = Some root)
    (Hrun : runInitialTwoWaySync "pull" w = (Ok r, w')) :
  (forall b, In b (chromeSnapshot root w') ->
             JsMap.has (ldIndex w) (c_url b) = true
             /\ w_next_chrome w <= c_id b
             /\ ~ In (c_id b) (map c_id (chromeSnapshot root w)))
  /\ tree_ok w'.
Proof.
  pose proof Hready as Hfound. unfold initReady in Hfound.
  destruct (_ && _) in Hfound; [|discriminate].
  destruct (s_twoWaySyncFolderId (w_settings w)) as [root0|] eqn:Hroot;
    [|discriminate].
  destruct (Chrome.find_node root0 (w_chrome w)) as [node|] eqn:F;
    [|discriminate].
  injection Hfound as ->.
  destruct (find_node_sub _ _ _ F) as [Snode Inode].
  assert (Hin : In root (ids (w_chrome w))).
  { rewrite <- Inode. apply (subnode_ids _ _ Snode), node_id_in_ids. }
  apply runInitialTwoWaySync_saved in Hrun
    as (root' & acc & w1 & ce & Hroot' & Hstrat & Hcfg & _).
  rewrite Hroot in Hroot'. injection Hroot' as <-.
  (* after the strategy *)
  assert (Ech : w_chrome w' = w_chrome w1 /\ w_next_chrome w' = w_next_chrome w1).
  { match type of Hcfg with
    | refreshConfig _ ?w0 = _ =>
        pose proof (refreshConfig_keeps_chrome root w0) as K1;
        pose proof (refreshConfig_keeps_next root w0) as K2
    end.
    rewrite Hcfg in K1, K2. simpl in K1, K2. auto. }
  destruct Ech as [Ech Enext].
  rewrite runStrategy_pull in Hstrat.
  apply bind_Ok in Hstrat as (config & w0 & Hc & Hstrat).
  assert (E0 : w_chrome w0 = w_chrome w /\ w_next_chrome w0 = w_next_chrome w).
  { unfold fetchConfigOrder, bind, gets, modify, ret in Hc.
    destruct (w_config w) as [| |[c|]]; injection Hc as _ <-; auto. }
  destruct E0 as [E0 N0].
  apply bind_Ok in Hstrat as (u & w2 & Hrm & Hbatch).
  assert (Hok0 : tree_ok w0) by (unfold tree_ok; now rewrite E0, N0).
  assert (Hempty : tree_ok w2 /\ In root (ids (w_chrome w2))
                   /\ chromeSnapshot root w2 = []
                   /\ w_next_chrome w2 = w_next_chrome w).
  { destruct node as [i t0 u0 d|i t0 ch].
    - simpl in Inode. subst i.
      unfold removeChildrenOf, Chrome.getChildren, Chrome.get, bind, gets, ret
        in Hrm.
      rewrite E0, F in Hrm. simpl in Hrm. injection Hrm as _ <-.
      split; [exact Hok0|]. rewrite E0. split; [exact Hin|].
      split; [unfold chromeSnapshot; now rewrite E0, F | exact N0].
    - simpl in Inode. subst i.
      assert (F0 : Chrome.find_node root (w_chrome w0) = Some (Folder root t0 ch))
        by now rewrite E0.
      rewrite (removeChildrenOf_loop root t0 ch w0 F0) in Hrm.
      pose proof (remove_loop root t0 ch w0 Hok0 F0) as L.
      rewrite Hrm in L. destruct L as (F2 & Hok2 & _ & _ & N2).
      split; [exact Hok2|]. split.
      + destruct (find_node_sub _ _ _ F2) as [S2 _].
        apply (subnode_ids _ _ S2). simpl. now left.
      + split; [unfold chromeSnapshot; now rewrite F2 | congruence]. }
  destruct Hempty as (Hok2 & Hin2 & Hsnap2 & N2).
  match type of Hbatch with
  | processBatch ?items ?fn ?s0 ?wb = _ =>
      pose proof (pull_batch_fills root (s_twoWaySyncTag (w_settings w0))
                    root items s0 wb) as B;
      assert (Hitems : forall u, In u (map ld_url items) ->
                                 In u (map ld_url (ldSnapshot w)))
  end.
  { intros x Hx. apply in_map_iff in Hx as (ld & <- & Hld). apply in_map.
    destruct config; [exact (proj1 (sort_by_In _ _ _) Hld) | exact Hld]. }
  match type of B with
  | fills _ _ _ (snd ?run) =>
      assert (Erun : snd run = w1);
        [|rewrite Erun in B; clear Erun]
  end.
  { assert (Et : s_twoWaySyncTag (w_settings w0) = s_twoWaySyncTag (w_settings w)).
    { unfold fetchConfigOrder, bind, gets, modify, ret in Hc.
      destruct (w_config w) as [| |[c|]]; injection Hc as _ <-; reflexivity. }
    rewrite Et, Hbatch. reflexivity. }
  destruct (B Hok2 Hin2) as (Hok1 & _ & N1 & S1).
  split.
  - intros b Hb. unfold chromeSnapshot in Hb. rewrite Ech in Hb.
    fold (chromeSnapshot root w1) in Hb.
    destruct (S1 b Hb) as [H|[Hu Hid]]; [rewrite Hsnap2 in H; contradiction|].
    rewrite N2 in Hid.
    split; [|split; [exact Hid|]].
    + apply Hitems in Hu. apply in_map_iff in Hu as (ld & E & Hld).
      unfold ldIndex. apply has_index_by. eauto.
    + intros Hold. apply in_map_iff in Hold as (b0 & E & Hb0).
      unfold chromeSnapshot in Hb0. rewrite F in Hb0.
      destruct node as [|i t0 ch]; [contradiction|].
      assert (Hlt : c_id b0 < w_next_chrome w).
      { destruct Hok as [_ Bd]. rewrite Forall_forall in Bd. apply Bd.
        apply (subnode_ids _ _ Snode). simpl. right.
        clear - Hb0. apply in_flat_map in Hb0 as (c & Hc & Hb0).
        apply in_flat_map. exists c. split; [exact Hc|].
        now apply (collected_id "" c b0). }
      lia.
  - unfold tree_ok. rewrite Ech, Enext. exact Hok1.
Qed.

Lemma pull_replaces_folder_witness :
  map c_url (chromeSnapshot 1 Cases.mixedWorld)
  = [Scenario.urlA; Scenario.urlB; Cases.urlD]
  /\ map c_url
         (chromeSnapshot 1 (snd (runInitialTwoWaySync "pull" Cases.mixedWorld)))
     = [Scenario.urlA; Cases.urlC]
  /\ forall b,
       In b (chromeSnapshot 1 (snd (runInitialTwoWaySync "pull" Cases.mixedWorld))) ->
       JsMap.has (ldIndex Cases.mixedWorld) (c_url b) = true
       /\ w_next_chrome Cases.mixedWorld <= c_id b
       /\ ~ In (c_id b) (map c_id (chromeSnapshot 1 Cases.mixedWorld)).
Proof.
  split; [reflexivity|]. split; [vm_compute; reflexivity|].
  refine (proj1 (pull_replaces_folder Cases.mixedWorld 1
                   (mkInitResult 0 0 2 2 None)
                   (snd (runInitialTwoWaySync "pull" Cases.mixedWorld))
                   _ eq_refl _)).
  - split; simpl; [repeat constructor; simpl; intuition discriminate
                  |repeat constructor].
  - vm_compute. reflexivity.
Defined.

(* ================================================================== *)
(** ** The one-way sync  ([runSync]) *)
(* ================================================================== *)

(** [s.split(",")] *)
Fixpoint split_comma (s : string) : list string :=
  match s with
  | EmptyString => [""]
  | String c s' =>
      if Ascii.eqb c ","%char then "" :: split_comma s'
      else match split_comma s' with
           | [] => [String c ""]
           | h :: t => String c h :: t
           end
  end.

(** The white space and line terminators [trim] removes, among the code
    units a [string] holds: tab, line feed, vertical tab, form feed,
    carriage return, space and no-break space. *)
Definition is_space (c : ascii) : bool :=
  let n := nat_of_ascii c in
  ((9 <=? n) && (n <=? 13) || (n =? 32) || (n =? 160))%nat.

Fixpoint trimStart (s : string) : string :=
  match s with
  | EmptyString => EmptyString
  | String c s' => if is_space c then trimStart s' else s
  end.

(** [s.trimEnd()]: [None] stands for a string of white space only. *)
Fixpoint trimEnd_opt (s : string) : option string :=
  match s with
  | EmptyString => None
  | String c s' =>
      match trimEnd_opt s' with
      | Some r => Some (String c r)
      | None => if is_space c then None else Some (String c "")
      end
  end.

Definition trimEnd (s : string) : string :=
  match trimEnd_opt s with Some r => r | None => "" end.

(** [s.trim()] *)
Definition trim (s : string) : string := trimEnd (trimStart s).

(** [tagNames.add(t)] on a [Set], kept in insertion order. *)
Definition set_add (seen : list string) (t : string) : list string :=
  if includes seen t then seen else (seen ++ [t])%list.

(** [excludedTags.split(",").map((t) => t.trim()).filter((t) => t.length > 0)],
    then the two-way sync tag when two-way sync is enabled and the tag is
    not listed. *)
Definition excludedTagsList (excludedTags : string) (twoWayEnabled : bool)
    (twoWaySyncTag : string) : list string :=
  let listed := filter truthy (map trim (split_comma excludedTags)) in
  if twoWayEnabled && truthy twoWaySyncTag && negb (includes listed twoWaySyncTag)
  then (listed ++ [twoWaySyncTag])%list
  else listed.

(** [hasUntagged]: some bookmark has no tag. *)
Definition hasUntagged (bookmarks : list LdBookmark) : bool :=
  existsb (fun bm => match ld_tag_names bm with [] => true | _ :: _ => false end)
          bookmarks.

(** The set [tagNames] after the loop "Collect tags": the tags that are
    not excluded, in the order the bookmarks bring them, then "Untagged"
    when a bookmark has no tag and "Untagged" is not excluded. *)
Definition collectTagNames (excluded : list string) (bookmarks : list LdBookmark)
  : list string :=
  let seen :=
    fold_left
      (fun seen bm =>
         fold_left (fun seen t => if includes excluded t then seen
                                  else set_add seen t)
                   (ld_tag_names bm) seen)
      bookmarks [] in
  if hasUntagged bookmarks && negb (includes excluded "Untagged")
  then set_add seen "Untagged" else seen.

(** [validTags]: the tags of the bookmark, or ["Untagged"], without the
    excluded ones. *)
Definition validTags (excluded : list string) (bm : LdBookmark) : list string :=
  let tags := match ld_tag_names bm with
              | [] => ["Untagged"]
              | _ :: _ => ld_tag_names bm
              end in
  filter (fun t => negb (includes excluded t)) tags.

Module OneWay.

(** The settings of [chrome.storage.sync] that only the one-way sync
    reads or writes. *)
Record Storage := mkStorage {
  folderName : string;
  parentFolderId : option Z;
  excludedTags : string;
  lastSyncTime : option Z;
  lastSyncCount : option Z;
  lastSyncTags : option Z
}.

(** The object [runSync] returns. *)
Record Summary := mkSummary {
  bookmarks : Z;
  tags : Z;
  entries : Z
}.

End OneWay.

(** [fetchAllBookmarks(baseUrl, token)]: all pages of the listing;
    [rejected] says whether the server answers one of them with an error.
    The text of the error is the server's
    ([`API ${resp.status}: ${resp.statusText} ${body}`]); "API error"
    stands for it. *)
Definition fetchAllBookmarks (rejected : bool) : M (list LdBookmark) :=
  if rejected then throw "API error" else gets w_remote.

(** The loop "Creating tag folders":
    [tagFolderIds[tag] = await getOrCreateFolder(tag, rootFolderId)]. *)
Definition createTagFolders (rootFolderId : Z) (tagNames : list string)
  : M (JsMap.t Z) :=
  forM tagNames
       (fun tagFolderIds tag =>
          id <- getOrCreateFolder tag rootFolderId ;;
          ret (JsMap.set tagFolderIds tag id))
       JsMap.empty.

(** The body of [for (const tag of validTags)]; a folder id is a string
    that is not empty, so [if (tagFolderIds[tag])] asks whether the tag has
    an entry.  A tag is never the name of a property every object has. *)
Definition saveEntry (tagFolderIds : JsMap.t Z) (bm : LdBookmark)
    (created : Z) (tag : string) : M Z :=
  match JsMap.get tagFolderIds tag with
  | Some parentId =>
      _ <- Chrome.create parentId (or_else (ld_title bm) (ld_url bm))
                         (Some (ld_url bm)) ;;
      ret (created + 1)
  | None => ret created
  end.

(** The loop "Saving bookmarks". *)
Definition saveBookmarks (excluded : list string) (tagFolderIds : JsMap.t Z)
    (bookmarks : list LdBookmark) : M Z :=
  forM bookmarks
       (fun created bm => forM (validTags excluded bm) (saveEntry tagFolderIds bm) created)
       0.

(** [async function runSync(onProgress)], without the progress callbacks.
    The storage of the one-way sync is passed in and, when the run
    completes, returned with the three fields the run sets. *)
Definition runSync (st : OneWay.Storage) (listingRejected : bool)
  : M (OneWay.Summary * OneWay.Storage) :=
  settings <- getSettings ;;
  if negb (truthy (s_url settings)) || negb (truthy (s_token settings))
  then throw "Missing URL or API token."
  else match OneWay.parentFolderId st with
       | None => throw "No bookmark folder selected."
       | Some parent =>
           try_catch (_ <- Chrome.get parent ;; ret tt)
                     (fun _ => throw "Selected parent folder no longer exists. Reconfigure in Options.") ;;;
           rootFolderId <- getOrCreateFolder (OneWay.folderName st) parent ;;
           removeChildrenOf rootFolderId ;;;
           fetched <- fetchAllBookmarks listingRejected ;;
           config <- fetchConfigOrder ;;
           let bookmarks :=
             match config with
             | Some order => sort_by (fun bm => order_rank order (ld_url bm)) fetched
             | None => fetched
             end in
           let excluded := excludedTagsList (OneWay.excludedTags st)
                                            (s_twoWayEnabled settings)
                                            (s_twoWaySyncTag settings) in
           let tagNames := collectTagNames excluded bookmarks in
           tagFolderIds <- createTagFolders rootFolderId tagNames ;;
           created <- saveBookmarks excluded tagFolderIds bookmarks ;;
           now <- gets w_now ;;
           ret (OneWay.mkSummary (Z.of_nat (List.length bookmarks))
                                 (Z.of_nat (List.length tagNames)) created,
                OneWay.mkStorage (OneWay.folderName st) (OneWay.parentFolderId st)
                                 (OneWay.excludedTags st) (Some now)
                                 (Some (Z.of_nat (List.length bookmarks)))
                                 (Some (Z.of_nat (List.length tagNames))))
       end.

Lemma set_add_In seen t x : In x (set_add seen t) <-> In x seen \/ x = t.
Proof.
  unfold set_add. destruct (includes seen t) eqn:E.
  - apply includes_In in E. split; [auto | intros [H| ->]; assumption].
  - rewrite in_app_iff. simpl. split.
    + intros [H|[<-|[]]]; auto.
    + intros [H| ->]; auto.
Qed.

Lemma set_add_NoDup seen t : NoDup seen -> NoDup (set_add seen t).
Proof.
  intros ND. unfold set_add. destruct (includes seen t) eqn:E; [exact ND|].
  apply NoDup_app; [exact ND | repeat constructor; intros [] |].
  intros a Ha [E'|[]]. subst a.
  assert (H : includes seen t = true) by now apply includes_In.
  congruence.
Qed.

Section CollectTags.

Variable excluded : list string.

Let addTag (seen : list string) (t : string) : list string :=
  if includes excluded t then seen else set_add seen t.

Lemma addTags_spec tags :
  forall seen,
    NoDup seen ->
    NoDup (fold_left addTag tags seen)
    /\ forall x, In x (fold_left addTag tags seen)
                 <-> In x seen \/ (~ In x excluded /\ In x tags).
Proof.
  induction tags as [|t tags IH]; intros seen ND; simpl.
  - split; [exact ND|]. intros x. tauto.
  - assert (ND1 : NoDup (addTag seen t)).
    { unfold addTag. destruct (includes excluded t); [exact ND|].
      now apply set_add_NoDup. }
    destruct (IH _ ND1) as [N I]. split; [exact N|].
    intros x. rewrite I. unfold addTag.
    destruct (includes excluded t) eqn:E.
    + apply includes_In in E. split.
      * intros [H|[H1 H2]]; auto.
      * intros [H|[H1 [<-|H2]]]; auto. contradiction.
    + assert (Ne : ~ In t excluded).
      { intros H. apply includes_In in H. congruence. }
      rewrite set_add_In. split.
      * intros [[H| ->]|[H1 H2]]; auto.
      * intros [H|[H1 [<-|H2]]]; auto.
Qed.

Lemma collect_spec bookmarks :
  forall seen,
    NoDup seen ->
    let r := fold_left (fun seen bm => fold_left addTag (ld_tag_names bm) seen)
                       bookmarks seen in
    NoDup r
    /\ forall x, In x r
                 <-> In x seen
                     \/ (~ In x excluded
                         /\ exists bm, In bm bookmarks /\ In x (ld_tag_names bm)).
Proof.
  induction bookmarks as [|bm rest IH]; intros seen ND; simpl.
  - split; [exact ND|]. intros x. split; [auto|].
    intros [H|[_ (bm & [] & _)]]. exact H.
  - destruct (addTags_spec (ld_tag_names bm) seen ND) as [N1 I1].
    destruct (IH _ N1) as [N I]. split; [exact N|].
    intros x. rewrite I, I1. split.
    + intros [[H|[H1 H2]]|[H1 (b & Hb & Hx)]]; eauto 7.
    + intros [H|[H1 (b & [<-|Hb] & Hx)]]; eauto 7.
Qed.

End CollectTags.

Lemma hasUntagged_spec bookmarks :
  hasUntagged bookmarks = true
  <-> exists bm, In bm bookmarks /\ ld_tag_names bm = [].
Proof.
  unfold hasUntagged. rewrite existsb_exists. split.
  - intros (bm & Hin & H). exists bm. split; [exact Hin|].
    destruct (ld_tag_names bm); [reflexivity | discriminate].
  - intros (bm & Hin & H). exists bm. rewrite H. auto.
Qed.

(** A tag gets a folder exactly when it is not excluded and a bookmark
    carries it, or it is "Untagged", not excluded, and a bookmark has no
    tag. *)
Lemma collectTagNames_spec excluded bookmarks :
  NoDup (collectTagNames excluded bookmarks)
  /\ forall t,
       In t (collectTagNames excluded bookmarks)
       <-> ~ In t excluded
           /\ ((exists bm, In bm bookmarks /\ In t (ld_tag_names bm))
               \/ (t = "Untagged"
                   /\ exists bm, In bm bookmarks /\ ld_tag_names bm = [])).
Proof.
  pose proof (collect_spec excluded bookmarks [] (NoDup_nil _)) as [N I].
  cbv zeta in N, I.
  unfold collectTagNames. cbv zeta.
  destruct (hasUntagged bookmarks) eqn:U; cbn [andb].
  - apply hasUntagged_spec in U.
    destruct (includes excluded "Untagged") eqn:E; cbn [negb].
    + apply includes_In in E. split; [exact N|]. intros t. rewrite I. simpl.
      split; [tauto|]. intros [H1 [H2|[-> _]]]; [tauto | contradiction].
    + assert (Ne : ~ In "Untagged" excluded).
      { intros H. apply includes_In in H. congruence. }
      split; [now apply set_add_NoDup|]. intros t.
      rewrite set_add_In, I. simpl. split.
      * intros [[[]|[H1 H2]]| ->];
          [split; [exact H1 | now left]
          |split; [exact Ne | right; split; [reflexivity | exact U]]].
      * intros [H1 [H2|[-> _]]]; [left; right; split; assumption | now right].
  - split; [exact N|]. intros t. rewrite I. simpl. split; [tauto|].
    intros [H1 [H2|[_ H2]]]; [tauto|].
    apply hasUntagged_spec in H2. congruence.
Qed.

(** Every tag under which a bookmark is saved has a folder. *)
Lemma tag_folders_valid excludedTags twoWayEnabled twoWaySyncTag bookmarks bm t :
  In bm bookmarks ->
  In t (validTags (excludedTagsList excludedTags twoWayEnabled twoWaySyncTag) bm) ->
  In t (collectTagNames (excludedTagsList excludedTags twoWayEnabled twoWaySyncTag)
                        bookmarks).
Proof.
  set (excluded := excludedTagsList excludedTags twoWayEnabled twoWaySyncTag).
  intros Hbm Hv. unfold validTags in Hv. cbv zeta in Hv.
  apply filter_In in Hv as [Hin Hno]. apply negb_true_iff in Hno.
  assert (Ne : ~ In t excluded).
  { intros H. apply includes_In in H. congruence. }
  apply collectTagNames_spec. split; [exact Ne|].
  destruct (ld_tag_names bm) as [|t0 ts] eqn:Etags.
  - destruct Hin as [<-|[]]. right. eauto.
  - left. exists bm. rewrite Etags. auto.
Qed.

(** X19.  Which tags get a folder in the one-way sync.  The excluded tags
    are the pieces of the comma-separated setting, trimmed, without the
    empty ones, and the two-way sync tag when two-way sync is enabled.  A
    tag gets a folder exactly when it is not excluded and a bookmark
    carries it; "Untagged" also gets one when it is not excluded and a
    bookmark has no tag.  No tag gets two folders, and every tag under
    which a bookmark is saved has a folder. *)
Theorem tag_folders (excludedTags : string) (twoWayEnabled : bool)
    (twoWaySyncTag : string) (bookmarks : list LdBookmark) :
  let excluded := excludedTagsList excludedTags twoWayEnabled twoWaySyncTag in
  let tagNames := collectTagNames excluded bookmarks in
  (forall t,
     In t excluded
     <-> t <> "" /\ (In t (map trim (split_comma excludedTags))
                    \/ (twoWayEnabled = true /\ t = twoWaySyncTag)))
  /\ NoDup tagNames
  /\ (forall t,
        In t tagNames
        <-> ~ In t excluded
            /\ ((exists bm, In bm bookmarks /\ In t (ld_tag_names bm))
                \/ (t = "Untagged"
                    /\ exists bm, In bm bookmarks /\ ld_tag_names bm = [])))
  /\ (forall bm t, In bm bookmarks -> In t (validTags excluded bm) ->
                   In t tagNames).
Proof.
  intros excluded tagNames.
  assert (Hex : forall t,
            In t excluded
            <-> t <> "" /\ (In t (map trim (split_comma excludedTags))
                           \/ (twoWayEnabled = true /\ t = twoWaySyncTag))).
  { intros t. unfold excluded, excludedTagsList. cbv zeta.
    set (listed := filter truthy (map trim (split_comma excludedTags))).
    assert (Hl : In t listed
                 <-> t <> "" /\ In t (map trim (split_comma excludedTags))).
    { unfold listed. rewrite filter_In. split.
      - intros [H1 H2]. split; [|exact H1]. intros ->. discriminate.
      - intros [H1 H2]. split; [exact H2|]. destruct t; [contradiction | reflexivity]. }
    destruct twoWayEnabled; cbn [andb].
    - destruct (truthy twoWaySyncTag) eqn:Tt; cbn [andb].
      + assert (Hne : twoWaySyncTag <> "") by (intros E; rewrite E in Tt; discriminate).
        destruct (includes listed twoWaySyncTag) eqn:Inc; cbn [negb].
        * apply includes_In in Inc. rewrite Hl. split; [tauto|].
          intros [H1 [H2|[_ ->]]]; [tauto|]. now apply Hl.
        * rewrite in_app_iff, Hl. simpl. split.
          -- intros [H|[<-|[]]]; [tauto|]. auto.
          -- intros [H1 [H2|[_ ->]]]; auto.
      + apply truthy_false in Tt. rewrite Hl. split; [tauto|].
        intros [H1 [H2|[_ ->]]]; [tauto | congruence].
    - rewrite Hl. split; [tauto|]. intros [H1 [H2|[H _]]]; [tauto | discriminate]. }
  destruct (collectTagNames_spec excluded bookmarks) as [Hn Ht].
  split; [exact Hex|]. split; [exact Hn|]. split; [exact Ht|].
  intros bm t Hbm Hv. now apply tag_folders_valid with (bm := bm).
Qed.

Lemma tag_folders_witness :
  excludedTagsList "bookmark-sync, private ,," true "sync"
  = ["bookmark-sync"; "private"; "sync"]
  /\ In "news"
        (collectTagNames ["bookmark-sync"; "private"; "sync"]
           [mkLd 1 "https://a.test" "A" ["private"; "news"] None;
            mkLd 2 "https://b.test" "B" [] None]).
Proof.
  split; [reflexivity|].
  apply (proj2 (proj2 (proj2 (tag_folders "bookmark-sync, private ,," true "sync"
                   [mkLd 1 "https://a.test" "A" ["private"; "news"] None;
                    mkLd 2 "https://b.test" "B" [] None])))
               (mkLd 1 "https://a.test" "A" ["private"; "news"] None) "news").
  - simpl. auto.
  - simpl. auto.
Defined.

(** [config && Array.isArray(config.order)] on the answer to the search for
    the config bookmark: the order [fetchConfigOrder] returns. *)
Definition configOrder (answer : SearchAnswer) : option (list string) :=
  match answer with
  | SearchResults (Some configBm) => cfg_order configBm
  | _ => None
  end.

Lemma fetchConfigOrder_Ok w config w0 :
  fetchConfigOrder w = (Ok config, w0) ->
  config = configOrder (w_config w)
  /\ w_remote w0 = w_remote w /\ w_chrome w0 = w_chrome w
  /\ w_next_chrome w0 = w_next_chrome w /\ w_now w0 = w_now w
  /\ w_settings w0 = w_settings w /\ w_log w0 = w_log w
  /\ w_fails w0 = w_fails w.
Proof.
  unfold fetchConfigOrder, bind, gets, modify, ret.
  destruct (w_config w) as [| |[c|]]; intros [= <- <-]; simpl; repeat split.
Qed.

(** The bookmarks of a one-way sync, in the order it saves them. *)
Definition sortedBookmarks (w : World) : list LdBookmark :=
  match configOrder (w_config w) with
  | Some order => sort_by (fun bm => order_rank order (ld_url bm)) (w_remote w)
  | None => w_remote w
  end.

Lemma sortedBookmarks_length w :
  List.length (sortedBookmarks w) = List.length (w_remote w).
Proof.
  unfold sortedBookmarks. destruct (configOrder (w_config w)) as [order|];
    [|reflexivity].
  symmetry. apply Permutation_length.
  apply (sort_from LdBookmark (fun bm => order_rank order (ld_url bm))
                   (w_remote w) [] (SSorted_nil _)).
Qed.

(** The tags excluded in a one-way sync with the storage [st]. *)
Definition excludedFor (st : OneWay.Storage) (w : World) : list string :=
  excludedTagsList (OneWay.excludedTags st) (s_twoWayEnabled (w_settings w))
                   (s_twoWaySyncTag (w_settings w)).

Ltac kept_sync :=
  unfold createTagFolders, saveBookmarks, saveEntry, fetchAllBookmarks; kept.

(** What a completed one-way sync went through. *)
Lemma runSync_Ok st rejected w sum st' w' :
  runSync st rejected w = (Ok (sum, st'), w') ->
  exists parent rootFolderId w1 w2 w3 tagFolderIds w4 created,
    OneWay.parentFolderId st = Some parent
    /\ getOrCreateFolder (OneWay.folderName st) parent w = (Ok rootFolderId, w1)
    /\ removeChildrenOf rootFolderId w1 = (Ok tt, w2)
    /\ rejected = false
    /\ fetchConfigOrder w2 = (Ok (configOrder (w_config w)), w3)
    /\ createTagFolders rootFolderId
         (collectTagNames (excludedFor st w) (sortedBookmarks w)) w3
       = (Ok tagFolderIds, w4)
    /\ saveBookmarks (excludedFor st w) tagFolderIds (sortedBookmarks w) w4
       = (Ok created, w')
    /\ sum = OneWay.mkSummary
               (Z.of_nat (List.length (sortedBookmarks w)))
               (Z.of_nat (List.length (collectTagNames (excludedFor st w)
                                                       (sortedBookmarks w))))
               created
    /\ st' = OneWay.mkStorage
               (OneWay.folderName st) (OneWay.parentFolderId st)
               (OneWay.excludedTags st) (Some (w_now w))
               (Some (Z.of_nat (List.length (sortedBookmarks w))))
               (Some (Z.of_nat (List.length (collectTagNames (excludedFor st w)
                                                             (sortedBookmarks w))))).
Proof.
  unfold runSync, getSettings. intros H. peel H.
  destruct (negb (truthy _) || negb (truthy _)); [discriminate|].
  destruct (OneWay.parentFolderId st) as [parent|] eqn:Hp; [|discriminate].
  peel H. rename H0 into Hget.
  assert (a = tt /\ w0 = w) as [-> ->].
  { unfold try_catch in Hget.
    destruct (bind (Chrome.get parent) _ w) as [[[]|msg] wx] eqn:E;
      [|discriminate].
    injection Hget as <- <-. peel E. apply chrome_get_Ok in H0 as [-> _].
    apply ret_Ok in E as [_ ->]. auto. }
  peel H. rename H0 into Hroot, a into rootFolderId, w0 into w1.
  peel H. rename H0 into Hrm, w0 into w2. destruct a.
  peel H. rename H0 into Hfetch.
  unfold fetchAllBookmarks in Hfetch.
  destruct rejected; [discriminate|]. apply gets_Ok in Hfetch as [-> ->].
  peel H. rename H0 into Hcfg, w0 into w3.
  pose proof (fetchConfigOrder_Ok _ _ _ Hcfg) as (-> & R3 & _ & _ & N3 & S3 & _).
  assert (K1 : keeps (fun w => (w_remote w, w_config w, w_now w, w_settings w))
                     (getOrCreateFolder (OneWay.folderName st) parent)) by kept.
  specialize (K1 w). rewrite Hroot in K1. simpl in K1.
  assert (K2 : keeps (fun w => (w_remote w, w_config w, w_now w, w_settings w))
                     (removeChildrenOf rootFolderId)) by kept.
  specialize (K2 w1). rewrite Hrm in K2. simpl in K2. rewrite K1 in K2.
  injection K2 as E1 E2 E3 E4.
  peel H. rename H0 into Hfolders, a into tagFolderIds, w0 into w4.
  peel H. rename H0 into Hsave, a into created, w0 into w5.
  peel H. apply ret_Ok in H as [[= -> ->] ->].
  assert (K5 : keeps w_now (saveBookmarks
                 (excludedTagsList (OneWay.excludedTags st)
                    (s_twoWayEnabled (w_settings w))
                    (s_twoWaySyncTag (w_settings w)))
                 tagFolderIds
                 match configOrder (w_config w2) with
                 | Some order =>
                     sort_by (fun bm => order_rank order (ld_url bm)) (w_remote w2)
                 | None => w_remote w2
                 end)) by kept_sync.
  specialize (K5 w4). rewrite Hsave in K5. simpl in K5.
  assert (K4 : keeps w_now (createTagFolders rootFolderId
                 (collectTagNames
                    (excludedTagsList (OneWay.excludedTags st)
                       (s_twoWayEnabled (w_settings w))
                       (s_twoWaySyncTag (w_settings w)))
                    match configOrder (w_config w2) with
                    | Some order =>
                        sort_by (fun bm => order_rank order (ld_url bm)) (w_remote w2)
                    | None => w_remote w2
                    end))) by kept_sync.
  specialize (K4 w3). rewrite Hfolders in K4. simpl in K4.
  unfold sortedBookmarks, excludedFor. rewrite <- E1, <- E2.
  exists parent, rootFolderId, w1, w2, w3, tagFolderIds, w4, created.
  repeat (split; [first [reflexivity | eassumption]|]).
  rewrite K5, K4, N3, E3. reflexivity.
Qed.

(** Every tag has its entry in [tagFolderIds] when the loop is done. *)
Lemma createTagFolders_keys rootFolderId tagNames w tagFolderIds w' :
  createTagFolders rootFolderId tagNames w = (Ok tagFolderIds, w') ->
  forall t, In t tagNames -> JsMap.has tagFolderIds t = true.
Proof.
  unfold createTagFolders. intros H t Ht.
  apply JsMap.has_In_keys.
  apply (forM_keys (fun m tag => id <- getOrCreateFolder tag rootFolderId ;;
                                 ret (JsMap.set m tag id))
                   (fun m => JsMap.keys m) (fun _ => true) (fun tag => tag)
                   (fun s x w0 s' w0' Hs k =>
                      ltac:(peel Hs; apply ret_Ok in Hs as [-> _];
                            rewrite keys_set_iff; tauto))
                   tagNames JsMap.empty w tagFolderIds w' H t).
  right. exists t. auto.
Qed.

(** The counter of the loop "Saving bookmarks": one for every bookmark and
    every tag under which it is saved. *)
Lemma saveBookmarks_count excluded tagFolderIds bookmarks w created w' :
  (forall bm t, In bm bookmarks -> In t (validTags excluded bm) ->
                JsMap.has tagFolderIds t = true) ->
  saveBookmarks excluded tagFolderIds bookmarks w = (Ok created, w') ->
  created = total (fun bm => Z.of_nat (List.length (validTags excluded bm)))
                  bookmarks.
Proof.
  unfold saveBookmarks. intros Hall H.
  assert (Inner : forall bm tags c w0 c' w0',
            (forall t, In t tags -> JsMap.has tagFolderIds t = true) ->
            forM tags (saveEntry tagFolderIds bm) c w0 = (Ok c', w0') ->
            c' = c + Z.of_nat (List.length tags)).
  { intros bm tags. induction tags as [|t tags IH]; intros c w0 c' w0' Ht Hf.
    - simpl in Hf. apply ret_Ok in Hf as [-> _]. simpl. lia.
    - apply forM_cons_Ok in Hf as (c1 & w1 & H1 & H2).
      apply IH in H2; [|intros; apply Ht; now right].
      unfold saveEntry in H1.
      pose proof (Ht t (or_introl eq_refl)) as Hh. unfold JsMap.has in Hh.
      destruct (JsMap.get tagFolderIds t); [|discriminate].
      peel H1. apply ret_Ok in H1 as [-> _].
      change (List.length (t :: tags)) with (Datatypes.S (List.length tags)).
      rewrite Nat2Z.inj_succ. lia. }
  assert (G : forall c, forM bookmarks
                (fun created bm =>
                   forM (validTags excluded bm) (saveEntry tagFolderIds bm) created)
                c w = (Ok created, w') ->
              created = c + total (fun bm => Z.of_nat (List.length (validTags excluded bm)))
                                  bookmarks).
  { clear H. revert w. induction bookmarks as [|bm rest IH]; intros w c Hf.
    - simpl in Hf. apply ret_Ok in Hf as [-> _]. simpl. lia.
    - apply forM_cons_Ok in Hf as (c1 & w1 & H1 & H2).
      apply Inner in H1; [|intros t Ht; apply (Hall bm); [now left | exact Ht]].
      apply IH in H2; [|intros b t Hb; apply Hall; now right].
      simpl. lia. }
  rewrite (G 0 H). lia.
Qed.

(** X20.  What a completed one-way sync reports and stores.  The server
    answered the listing; [bookmarks] is the number of bookmarks the server
    holds, [tags] the number of tag folders, and [entries] counts one for
    every bookmark and every tag under which it is saved (its tags that are
    not excluded, or "Untagged"), so a bookmark whose tags are all excluded
    adds nothing.  The storage gets the time of the run and the two counts.
    The server, the two-way mapping and the two-way settings are left as
    they were. *)
Theorem one_way_summary (st : OneWay.Storage) (rejected : bool) (w : World)
    (sum : OneWay.Summary) (st' : OneWay.Storage) (w' : World)
    (Hrun : runSync st rejected w = (Ok (sum, st'), w')) :
  let excluded := excludedFor st w in
  let tagNames := collectTagNames excluded (sortedBookmarks w) in
  rejected = false
  /\ OneWay.bookmarks sum = Z.of_nat (List.length (w_remote w))
  /\ OneWay.tags sum = Z.of_nat (List.length tagNames)
  /\ OneWay.entries sum
     = total (fun bm => Z.of_nat (List.length (validTags excluded bm)))
             (sortedBookmarks w)
  /\ st' = OneWay.mkStorage (OneWay.folderName st) (OneWay.parentFolderId st)
                            (OneWay.excludedTags st) (Some (w_now w))
                            (Some (OneWay.bookmarks sum))
                            (Some (OneWay.tags sum))
  /\ w_remote w' = w_remote w /\ w_mapping w' = w_mapping w
  /\ w_settings w' = w_settings w.
Proof.
  intros excluded tagNames.
  assert (K : keeps (fun w => (w_remote w, w_mapping w, w_settings w))
                    (runSync st rejected)).
  { unfold runSync, getSettings. kept_sync. }
  specialize (K w). rewrite Hrun in K. simpl in K. injection K as K1 K2 K3.
  apply runSync_Ok in Hrun
    as (parent & root & w1 & w2 & w3 & ids & w4 & created
        & _ & _ & _ & Hrej & _ & Hfolders & Hsave & -> & ->).
  fold excluded in Hfolders, Hsave |- *. fold tagNames in Hfolders |- *.
  cbn [OneWay.bookmarks OneWay.tags OneWay.entries].
  split; [exact Hrej|]. split; [now rewrite sortedBookmarks_length|].
  split; [reflexivity|]. split.
  - eapply saveBookmarks_count; [|exact Hsave].
    intros bm t Hbm Ht.
    eapply createTagFolders_keys; [exact Hfolders|].
    unfold tagNames, excluded, excludedFor.
    eapply (tag_folders_valid (OneWay.excludedTags st)); eauto.
  - auto.
Qed.

Module OneWayCases.

Definition storage : OneWay.Storage :=
  OneWay.mkStorage "Linkding" (Some 0) "bookmark-sync, private" None None None.

(** The browser holds the download folder of an earlier run, with one tag
    folder; the server holds three bookmarks, one of them only under an
    excluded tag, one without a tag. *)
Definition world_with (listing : list LdBookmark) : World :=
  mkWorld Scenario.settings listing 200
          (Folder 0 ""
             [Folder 1 "Synced" [];
              Folder 2 "Linkding"
                [Folder 3 "old" [Bookmark 4 "Old" "https://old.test" 100]]])
          50 [] (SearchResults None) 2000 Scenario.no_faults [] [].

Definition listing : list LdBookmark :=
  [mkLd 100 Scenario.urlA "A" ["news"; "sync"; "tech"] (Some 400);
   mkLd 101 Scenario.urlB "" [] (Some 400);
   mkLd 102 Cases.urlC "C" ["private"] (Some 400)].

End OneWayCases.

Lemma one_way_summary_witness :
  fst (runSync OneWayCases.storage false (OneWayCases.world_with OneWayCases.listing))
  = Ok (OneWay.mkSummary 3 3 3,
        OneWay.mkStorage "Linkding" (Some 0) "bookmark-sync, private"
                         (Some 2000) (Some 3) (Some 3))
  /\ excludedFor OneWayCases.storage (OneWayCases.world_with OneWayCases.listing)
     = ["bookmark-sync"; "private"; "sync"]
  /\ w_remote (snd (runSync OneWayCases.storage false
                            (OneWayCases.world_with OneWayCases.listing)))
     = OneWayCases.listing.
Proof.
  split; [vm_compute; reflexivity|]. split; [reflexivity|].
  exact (proj1 (proj2 (proj2 (proj2 (proj2 (proj2
           (one_way_summary OneWayCases.storage false
              (OneWayCases.world_with OneWayCases.listing)
              (OneWay.mkSummary 3 3 3)
              (OneWay.mkStorage "Linkding" (Some 0) "bookmark-sync, private"
                                (Some 2000) (Some 3) (Some 3))
              (snd (runSync OneWayCases.storage false
                            (OneWayCases.world_with OneWayCases.listing)))
              ltac:(vm_compute; reflexivity)))))))).
Defined.

(** The test of [getOrCreateFolder]: a folder with the given title. *)
Definition folder_titled (name : string) (n : BNode) : bool :=
  match n with
  | Folder _ t _ => String.eqb t name
  | Bookmark _ _ _ _ => false
  end.

Lemma getOrCreateFolder_found name parentId w tp chp existing :
  Chrome.find_node parentId (w_chrome w) = Some (Folder parentId tp chp) ->
  find (folder_titled name) chp = Some existing ->
  getOrCreateFolder name parentId w = (Ok (Chrome.node_id existing), w).
Proof.
  intros Hp Hf. unfold getOrCreateFolder, Chrome.getChildren, Chrome.get.
  unfold bind at 1. unfold bind at 1. unfold bind at 1. unfold gets.
  rewrite Hp. cbn [ret]. fold (folder_titled name). rewrite Hf. reflexivity.
Qed.

(** X21.  The one-way sync empties its folder before it asks the server.
    When the guards pass, the download folder exists, the browser rejects
    none of the removals and the server then rejects the listing, the run
    throws the error of the rejected listing and leaves the download folder
    empty: what an earlier run had saved is gone (one removal per child is
    in the log), and no summary is returned. *)
Theorem failed_listing_leaves_folder_empty (st : OneWay.Storage) (w : World)
    (parent : Z) (tp : string) (chp : list BNode) (f : Z) (chf : list BNode)
    (Hok : tree_ok w)
    (Hurl : truthy (s_url (w_settings w)) = true)
    (Htoken : truthy (s_token (w_settings w)) = true)
    (Hparent : OneWay.parentFolderId st = Some parent)
    (Hfound : Chrome.find_node parent (w_chrome w) = Some (Folder parent tp chp))
    (Hfolder : find (folder_titled (OneWay.folderName st)) chp
               = Some (Folder f (OneWay.folderName st) chf))
    (Hremovals : forall c, In c chf -> w_fails w (removal c) = false) :
  exists msg w',
    runSync st true w = (Throw msg, w')
    /\ fetchAllBookmarks true w' = (Throw msg, w')
    /\ Chrome.find_node f (w_chrome w')
       = Some (Folder f (OneWay.folderName st) [])
    /\ chromeSnapshot f w' = []
    /\ w_log w' = (w_log w ++ map removal chf)%list.
Proof.
  assert (Hf : Chrome.find_node f (w_chrome w)
               = Some (Folder f (OneWay.folderName st) chf)).
  { apply find_some in Hfolder as [Hin _].
    exact (find_child _ _ _ _ _ (proj1 Hok) Hfound Hin). }
  pose proof (remove_loop f (OneWay.folderName st) chf w Hok Hf) as L.
  rewrite <- (removeChildrenOf_loop f _ chf w Hf) in L.
  destruct (removeChildrenOf f w) as [[u|e] w2] eqn:Hrm.
  - destruct L as (F2 & _ & Lg & _ & _).
    destruct (fetchAllBookmarks true w2) as [[lds|msg] w3] eqn:Hfetch;
      [discriminate|].
    assert (w3 = w2) by (unfold fetchAllBookmarks, throw in Hfetch; congruence).
    subst w3. exists msg, w2.
    split; [|split; [exact Hfetch | split; [exact F2 | split;
               [unfold chromeSnapshot; now rewrite F2 | exact Lg]]]].
    unfold runSync, getSettings.
    erewrite bind_eq by (unfold gets; reflexivity).
    rewrite Hurl, Htoken, Hparent. cbn [negb orb].
    erewrite bind_eq.
    2:{ unfold try_catch, Chrome.get, bind, gets, ret. rewrite Hfound. reflexivity. }
    erewrite bind_eq
      by (eapply getOrCreateFolder_found with (existing := Folder f _ chf); eauto).
    cbn [Chrome.node_id].
    erewrite bind_eq by exact Hrm.
    unfold bind at 1. rewrite Hfetch. reflexivity.
  - destruct L as (gone & c & rest & E & _ & R & _).
    rewrite Hremovals in R; [discriminate|].
    rewrite E. apply in_or_app. right. now left.
Qed.

Lemma failed_listing_leaves_folder_empty_witness :
  exists msg w',
    runSync OneWayCases.storage true (OneWayCases.world_with OneWayCases.listing)
    = (Throw msg, w')
    /\ fetchAllBookmarks true w' = (Throw msg, w')
    /\ Chrome.find_node 2 (w_chrome w') = Some (Folder 2 "Linkding" [])
    /\ chromeSnapshot 2 w' = []
    /\ w_log w' = (w_log (OneWayCases.world_with OneWayCases.listing)
                   ++ map removal
                        [Folder 3 "old" [Bookmark 4 "Old" "https://old.test" 100]])%list.
Proof.
  refine (failed_listing_leaves_folder_empty OneWayCases.storage
            (OneWayCases.world_with OneWayCases.listing) 0 ""
            [Folder 1 "Synced" [];
             Folder 2 "Linkding"
               [Folder 3 "old" [Bookmark 4 "Old" "https://old.test" 100]]]
            2 [Folder 3 "old" [Bookmark 4 "Old" "https://old.test" 100]]
            _ eq_refl eq_refl eq_refl eq_refl eq_refl _).
  - split; simpl; [repeat constructor; simpl; intuition discriminate
                  |repeat constructor].
  - intros c _. reflexivity.
Defined.

(* ================================================================== *)
(** ** What the one-way sync leaves in its folder *)
(* ================================================================== *)

Lemma subnode_NoDup m n : NoDup (ids n) -> subnode m n -> NoDup (ids m).
Proof.
  intros ND S. induction S as [|j t ch y Hin S IH]; [exact ND|].
  apply IH. simpl in ND. inversion ND; subst. eapply NoDup_child; eauto.
Qed.

(** The bookmarks of a snapshot have distinct ids. *)
Lemma collect_ids_NoDup prefix n :
  NoDup (ids n) -> NoDup (map c_id (collectBookmarks prefix n)).
Proof.
  revert prefix.
  induction n as [i t u d|i t ch IH] using BNode_nested_ind; intros prefix ND.
  - simpl. repeat constructor. intros [].
  - cbn [collectBookmarks]. simpl in ND. inversion ND as [|? ? _ ND']; subst.
    generalize (if truthy prefix then prefix ++ "/" ++ t else t). intros pre.
    clear ND. induction ch as [|c r IHr]; [constructor|].
    inversion IH as [|? ? Hc Hr]; subst. simpl in ND' |- *.
    rewrite map_app. apply NoDup_app.
    + apply Hc. eapply NoDup_app_remove_r. exact ND'.
    + apply IHr; [exact Hr|]. eapply NoDup_app_remove_l. exact ND'.
    + intros a Ha Hb.
      apply in_map_iff in Ha as (b1 & <- & H1).
      apply in_map_iff in Hb as (b2 & E & H2).
      apply collected_id in H1.
      apply in_flat_map in H2 as (c2 & Hc2 & H2). apply collected_id in H2.
      rewrite E in H2.
      assert (Hf : In (c_id b1) (flat_map ids r)) by (apply in_flat_map; eauto).
      clear - ND' H1 Hf. induction (ids c) as [|a l IHl]; [contradiction|].
      simpl in ND'. inversion ND' as [|? ? Hn ND'']; subst.
      destruct H1 as [->|H1]; [apply Hn, in_or_app; now right | now apply IHl].
Qed.

Lemma snapshot_ids root w :
  tree_ok w ->
  NoDup (map c_id (chromeSnapshot root w))
  /\ forall b, In b (chromeSnapshot root w) -> c_id b < w_next_chrome w.
Proof.
  intros [ND B]. unfold chromeSnapshot.
  destruct (Chrome.find_node root (w_chrome w)) as [[|i t ch]|] eqn:F;
    try (split; [constructor | intros b []]).
  destruct (find_node_sub _ _ _ F) as [S _].
  pose proof (subnode_NoDup _ _ ND S) as NDf.
  split.
  - exact (collect_ids_NoDup "" (Folder i "" ch)
             ltac:(simpl in *; exact NDf)).
  - intros b Hb. rewrite Forall_forall in B. apply B.
    apply (subnode_ids _ _ S).
    apply (collected_id "" (Folder i "" ch) b). exact Hb.
Qed.

(** A bookmark created in a folder that the snapshot reads at [path]: the
    snapshot gains this bookmark, at this path, and nothing else. *)
Lemma create_bookmark_exact root pid path chp title url w node w' :
  tree_ok w -> reaches (w_chrome w) root pid path chp ->
  Chrome.create pid title (Some url) w = (Ok node, w') ->
  let new := mkCbm (w_next_chrome w) url title (w_now w) path in
  (forall b, In b (chromeSnapshot root w')
             <-> In b (chromeSnapshot root w) \/ b = new)
  /\ ~ In new (chromeSnapshot root w)
  /\ List.length (chromeSnapshot root w')
     = Datatypes.S (List.length (chromeSnapshot root w)).
Proof.
  intros Hok R Hcreate new.
  pose proof (create_tree_ok _ _ _ _ _ _ Hok Hcreate) as Hok'.
  pose proof (create_snapshot root _ _ _ _ _ _ Hok Hcreate) as Lower.
  pose proof (create_reaches _ _ _ _ _ _ _ _ _ _ Hok R Hcreate) as R'.
  rewrite Z.eqb_refl in R'.
  pose proof (reaches_root _ _ _ _ _ R) as Hroot.
  assert (Hnew : In new (chromeSnapshot root w')).
  { pose proof Hcreate as Hc. apply chrome_create_tree in Hc as (_ & Hnode & _).
    destruct R' as (tR & chR & HR & H2).
    unfold chromeSnapshot. rewrite HR.
    eapply reaches_collect with (pid := pid);
      [exists tR, chR; split; [exact HR | exact H2] | exact HR |].
    apply in_or_app. right. rewrite Hnode. now left. }
  destruct (snapshot_ids root w Hok) as [ND Bd].
  destruct (snapshot_ids root w' Hok') as [ND' _].
  assert (Hfresh : ~ In new (chromeSnapshot root w)).
  { intros H. apply Bd in H. simpl in H. lia. }
  assert (Exact : forall b, In b (chromeSnapshot root w')
                            <-> In b (chromeSnapshot root w) \/ b = new).
  { intros b. split.
    - intros Hb.
      destruct (create_snapshot_upper _ _ _ _ _ _ _ _ Hok Hroot Hcreate Hb)
        as [H|[_ Hid]]; [now left | right].
      assert (Hm : forall x y, In x (chromeSnapshot root w') ->
                               In y (chromeSnapshot root w') ->
                               c_id x = c_id y -> x = y).
      { clear - ND'. induction (chromeSnapshot root w') as [|a l IHl];
          intros x y Hx Hy E; [contradiction|].
        simpl in ND'. inversion ND' as [|? ? Hn ND'']; subst.
        destruct Hx as [->|Hx], Hy as [->|Hy]; auto.
        - exfalso. apply Hn. rewrite E. now apply in_map.
        - exfalso. apply Hn. rewrite <- E. now apply in_map. }
      apply Hm; auto.
    - intros [H| ->]; [now apply Lower | exact Hnew]. }
  split; [exact Exact|]. split; [exact Hfresh|].
  change (Datatypes.S (List.length (chromeSnapshot root w)))
    with (List.length (new :: chromeSnapshot root w)).
  apply Permutation_length.
  apply NoDup_Permutation.
  - eapply NoDup_map_inv. exact ND'.
  - constructor; [exact Hfresh | eapply NoDup_map_inv; exact ND].
  - intros b. rewrite Exact. simpl. split; intros [H|H]; auto.
Qed.

Lemma getOrCreateFolder_keeps_reaches root pid path chp name q w c w' :
  tree_ok w -> reaches (w_chrome w) root pid path chp ->
  getOrCreateFolder name q w = (Ok c, w') ->
  exists chp', reaches (w_chrome w') root pid path chp'.
Proof.
  intros Hok R H. unfold getOrCreateFolder in H. peel H.
  apply getChildren_Ok in H0 as [-> _].
  destruct (find _ a).
  - apply ret_Ok in H as [_ ->]. eauto.
  - peel H. apply ret_Ok in H as [_ ->].
    eexists. eapply create_reaches; eauto.
Qed.

Lemma no_bookmarks_left root w w' :
  fills root [] w w' -> tree_ok w -> In root (ids (w_chrome w)) ->
  chromeSnapshot root w = [] -> chromeSnapshot root w' = [].
Proof.
  intros F Hok Hroot E. destruct (F Hok Hroot) as (_ & _ & _ & S).
  destruct (chromeSnapshot root w') as [|b l]; [reflexivity|].
  destruct (S b (or_introl eq_refl)) as [H|[[] _]]. rewrite E in H. contradiction.
Qed.

Section TagFolders.

Variable root : Z.

(** The state of the loop "Creating tag folders": the download folder
    holds no bookmark, and every entry of [tagFolderIds] is a folder that
    the snapshot of the download folder reads at the tag. *)
Definition folders_ok (tagFolderIds : JsMap.t Z) (w : World) : Prop :=
  tree_ok w
  /\ (exists chR, reaches (w_chrome w) root root "" chR)
  /\ forall tag id, JsMap.get tagFolderIds tag = Some id ->
                    exists chp, reaches (w_chrome w) root id tag chp.

Lemma createTagFolders_ok tagNames w tagFolderIds w' :
  folders_ok JsMap.empty w -> chromeSnapshot root w = [] ->
  createTagFolders root tagNames w = (Ok tagFolderIds, w') ->
  folders_ok tagFolderIds w' /\ chromeSnapshot root w' = []
  /\ w_now w' = w_now w.
Proof.
  intros J0 E0 H. unfold createTagFolders in H.
  refine (@forM_inv _ _
            (fun m w1 => folders_ok m w1 /\ chromeSnapshot root w1 = []
                         /\ w_now w1 = w_now w)
            tagNames _ _ JsMap.empty w tagFolderIds w' (conj J0 (conj E0 eq_refl)) H).
  intros m tag w1 m' w1' _ [(Hok & (chR & RR) & Hm) [E N]] Hstep.
  peel Hstep. apply ret_Ok in Hstep as [-> ->]. rename H0 into Hg.
  destruct (getOrCreateFolder_reaches _ _ _ _ _ _ _ _ Hok RR Hg)
    as (Hok' & N' & _ & chc & Rc).
  split; [|split; [|congruence]].
  - split; [exact Hok'|]. split.
    + exact (getOrCreateFolder_keeps_reaches root root "" chR tag root w1 a w0
               Hok RR Hg).
    + intros t id Ht. destruct (string_dec t tag) as [->|Hne].
      * rewrite JsMap.get_set_same in Ht. injection Ht as <-.
        exists chc. exact Rc.
      * rewrite JsMap.get_set_other in Ht by exact Hne.
        destruct (Hm t id Ht) as [chp Rp].
        exact (getOrCreateFolder_keeps_reaches root id t chp tag root w1 a w0
                 Hok Rp Hg).
  - pose proof (getOrCreateFolder_fills root [] tag root w1) as F.
    rewrite Hg in F. simpl in F.
    eapply no_bookmarks_left; eauto. eapply reaches_root; eauto.
Qed.

End TagFolders.

(** Two nested loops over a state are one loop over the pairs. *)
Lemma forM_pairs {A B S : Type} (g : A -> list B) (h : A -> S -> B -> M S)
    (xs : list A) :
  forall s w s' w',
    forM xs (fun s x => forM (g x) (h x) s) s w = (Ok s', w') ->
    forM (flat_map (fun x => map (pair x) (g x)) xs)
         (fun s p => h (fst p) s (snd p)) s w = (Ok s', w').
Proof.
  assert (Inner : forall x ys rest s w s1 w1 s' w',
            forM ys (h x) s w = (Ok s1, w1) ->
            forM rest (fun s p => h (fst p) s (snd p)) s1 w1 = (Ok s', w') ->
            forM (map (pair x) ys ++ rest)%list
                 (fun s p => h (fst p) s (snd p)) s w = (Ok s', w')).
  { intros x ys. induction ys as [|y ys IH]; intros rest s w s1 w1 s' w' H1 H2.
    - simpl in H1. apply ret_Ok in H1 as [-> ->]. exact H2.
    - apply forM_cons_Ok in H1 as (s2 & w2 & Hy & Hys).
      simpl. unfold bind. simpl in Hy. rewrite Hy. eapply IH; eauto. }
  induction xs as [|x xs IH]; intros s w s' w' H.
  - exact H.
  - apply forM_cons_Ok in H as (s1 & w1 & H1 & H2).
    simpl. eapply Inner; [exact H1 | now apply IH].
Qed.

Section Saving.

Variable root : Z.
Variable now0 : Z.
Variable tagFolderIds : JsMap.t Z.

(** The bookmark the one-way sync saves for a server bookmark under a
    tag. *)
Definition saved (p : LdBookmark * string) (b : ChromeBookmark) : Prop :=
  c_url b = ld_url (fst p)
  /\ c_title b = or_else (ld_title (fst p)) (ld_url (fst p))
  /\ c_folderPath b = snd p
  /\ c_dateAdded b = now0.

(** The state of the loop "Saving bookmarks" after the pairs [done]. *)
Definition saving_ok (done : list (LdBookmark * string)) (w : World) : Prop :=
  folders_ok root tagFolderIds w
  /\ w_now w = now0
  /\ (forall b, In b (chromeSnapshot root w) -> exists p, In p done /\ saved p b)
  /\ (forall p, In p done -> exists b, In b (chromeSnapshot root w) /\ saved p b)
  /\ List.length (chromeSnapshot root w) = List.length done.

Lemma saveEntry_ok done bm tag created w created' w' :
  saving_ok done w ->
  JsMap.has tagFolderIds tag = true ->
  saveEntry tagFolderIds bm created tag w = (Ok created', w') ->
  saving_ok (done ++ [(bm, tag)]) w' /\ created' = created + 1.
Proof.
  intros ((Hok & (chR & RR) & Hm) & N & S1 & S2 & L) Hhas H.
  unfold saveEntry in H. unfold JsMap.has in Hhas.
  destruct (JsMap.get tagFolderIds tag) as [pid|] eqn:G; [|discriminate].
  peel H. apply ret_Ok in H as [-> ->]. rename H0 into Hc.
  split; [|reflexivity].
  destruct (Hm tag pid G) as [chp Rp].
  destruct (create_bookmark_exact root pid tag chp _ _ _ _ _ Hok Rp Hc)
    as (Exact & _ & Len).
  pose proof (chrome_create_keeps_now pid (or_else (ld_title bm) (ld_url bm))
                (Some (ld_url bm)) w) as Kn.
  rewrite Hc in Kn. simpl in Kn.
  assert (Hnew : saved (bm, tag)
                   (mkCbm (w_next_chrome w) (ld_url bm)
                          (or_else (ld_title bm) (ld_url bm)) (w_now w) tag)).
  { unfold saved. simpl. auto. }
  split; [|split; [congruence|split; [|split]]].
  - split; [eapply create_tree_ok; eauto|]. split.
    + eexists. eapply create_reaches; eauto.
    + intros t id Ht. destruct (Hm t id Ht) as [chq Rq].
      eexists. eapply create_reaches; eauto.
  - intros b Hb. apply Exact in Hb as [Hb| ->].
    + destruct (S1 b Hb) as (p & Hp & Hs). exists p.
      split; [apply in_or_app; now left | exact Hs].
    + exists (bm, tag). split; [apply in_or_app; right; now left | exact Hnew].
  - intros p Hp. apply in_app_or in Hp as [Hp|[<-|[]]].
    + destruct (S2 p Hp) as (b & Hb & Hs). exists b.
      split; [apply Exact; now left | exact Hs].
    + eexists. split; [apply Exact; right; reflexivity | exact Hnew].
  - rewrite Len, L, length_app. simpl. lia.
Qed.

Lemma save_loop pairs :
  forall done created w created' w',
    saving_ok done w ->
    (forall p, In p pairs -> JsMap.has tagFolderIds (snd p) = true) ->
    forM pairs (fun c p => saveEntry tagFolderIds (fst p) c (snd p)) created w
    = (Ok created', w') ->
    saving_ok (done ++ pairs) w'.
Proof.
  induction pairs as [|[bm tag] rest IH]; intros done c w c' w' J Hall H.
  - simpl in H. apply ret_Ok in H as [_ ->]. now rewrite app_nil_r.
  - apply forM_cons_Ok in H as (c1 & w1 & H1 & H2). simpl in H1.
    destruct (saveEntry_ok done bm tag c w c1 w1 J
                (Hall (bm, tag) (or_introl eq_refl)) H1) as [J1 _].
    specialize (IH (done ++ [(bm, tag)])%list c1 w1 c' w' J1
                   (fun p Hp => Hall p (or_intror Hp)) H2).
    now rewrite <- app_assoc in IH.
Qed.

End Saving.

Lemma getOrCreateFolder_parent name parentId w c w' :
  getOrCreateFolder name parentId w = (Ok c, w') ->
  exists t ch,
    Chrome.find_node parentId (w_chrome w) = Some (Folder parentId t ch).
Proof.
  intros H. unfold getOrCreateFolder in H. peel H.
  apply getChildren_Ok in H0 as [-> (n & Hn & ->)].
  destruct (find_node_sub _ _ _ Hn) as [_ I].
  destruct n as [i t u d|i t ch]; simpl in I; subst i; [|eauto].
  simpl in H. peel H. apply chrome_create_tree in H0 as ((t' & ch' & F) & _).
  congruence.
Qed.

Lemma pairs_length {A B : Type} (g : A -> list B) (xs : list A) :
  Z.of_nat (List.length (flat_map (fun x => map (pair x) (g x)) xs))
  = total (fun x => Z.of_nat (List.length (g x))) xs.
Proof.
  induction xs as [|x xs IH]; [reflexivity|].
  simpl. rewrite length_app, length_map, Nat2Z.inj_add, IH. reflexivity.
Qed.

(** X22.  What a completed one-way sync leaves in its folder.  In a tree
    whose ids are distinct, the download folder (the one
    [getOrCreateFolder] returned for the folder name) holds, after the run,
    only bookmarks saved for a server bookmark under one of its valid tags
    (its tags that are not excluded, or "Untagged" when it has none): such
    a bookmark has the URL of the server bookmark, its title (the URL when
    the title is empty) and the tag as folder path.  Every server bookmark
    has such a bookmark for each of its valid tags, nothing of the earlier
    content is left, and the number of bookmarks in the folder is the
    [entries] the run reports. *)
Theorem one_way_mirror (st : OneWay.Storage) (rejected : bool) (w : World)
    (sum : OneWay.Summary) (st' : OneWay.Storage) (w' : World)
    (Hok : tree_ok w)
    (Hrun : runSync st rejected w = (Ok (sum, st'), w')) :
  let excluded := excludedFor st w in
  exists parent rootFolderId w1,
    OneWay.parentFolderId st = Some parent
    /\ getOrCreateFolder (OneWay.folderName st) parent w = (Ok rootFolderId, w1)
    /\ (forall b, In b (chromeSnapshot rootFolderId w') ->
          exists bm tag, In bm (w_remote w) /\ In tag (validTags excluded bm)
                         /\ saved (w_now w) (bm, tag) b)
    /\ (forall bm tag, In bm (w_remote w) -> In tag (validTags excluded bm) ->
          exists b, In b (chromeSnapshot rootFolderId w')
                    /\ saved (w_now w) (bm, tag) b)
    /\ Z.of_nat (List.length (chromeSnapshot rootFolderId w'))
       = OneWay.entries sum
    /\ tree_ok w'.
Proof.
  intros excluded.
  apply runSync_Ok in Hrun
    as (parent & root & w1 & w2 & w3 & m & w4 & created
        & Hparent & Hroot & Hrm & _ & Hcfg & Hfolders & Hsave & -> & _).
  fold excluded in Hfolders, Hsave.
  exists parent, root, w1. split; [exact Hparent|]. split; [exact Hroot|].
  (* the download folder *)
  destruct (getOrCreateFolder_parent _ _ _ _ _ Hroot) as (tp & chp & Fp).
  assert (Rp : reaches (w_chrome w) parent parent "" chp).
  { exists tp, chp. split; [exact Fp | left; auto]. }
  destruct (getOrCreateFolder_reaches parent _ _ _ _ _ _ _ Hok Rp Hroot)
    as (Hok1 & N1 & _ & chc & Rc).
  destruct (reaches_find _ _ _ _ _ (proj1 Hok1) Rc) as [t F1].
  (* emptied *)
  pose proof (remove_loop root t chc w1 Hok1 F1) as L.
  rewrite <- (removeChildrenOf_loop root t chc w1 F1), Hrm in L.
  destruct L as (F2 & Hok2 & _ & _ & _).
  assert (N2 : w_now w2 = w_now w1).
  { assert (K : keeps w_now (removeChildrenOf root)) by kept.
    specialize (K w1). now rewrite Hrm in K. }
  apply fetchConfigOrder_Ok in Hcfg as (_ & _ & C3 & X3 & N3 & _).
  assert (Hok3 : tree_ok w3) by (unfold tree_ok; now rewrite C3, X3).
  assert (F3 : Chrome.find_node root (w_chrome w3) = Some (Folder root t []))
    by now rewrite C3.
  assert (E3 : chromeSnapshot root w3 = [])
    by (unfold chromeSnapshot; now rewrite F3).
  (* the tag folders *)
  assert (J3 : folders_ok root JsMap.empty w3).
  { split; [exact Hok3|]. split.
    - exists []. exists t, []. split; [exact F3 | left; auto].
    - intros tag id Hg. discriminate. }
  destruct (createTagFolders_ok root _ _ _ _ J3 E3 Hfolders) as (J4 & E4 & N4).
  (* the bookmarks *)
  pose proof Hsave as Hcount.
  apply forM_pairs in Hsave.
  set (pairs := flat_map (fun bm => map (pair bm) (validTags excluded bm))
                         (sortedBookmarks w)) in *.
  assert (Hall : forall p, In p pairs -> JsMap.has m (snd p) = true).
  { intros [bm tag] Hp. unfold pairs in Hp.
    apply in_flat_map in Hp as (bm' & Hbm & Hp).
    apply in_map_iff in Hp as (tag' & [= <- <-] & Htag). simpl.
    eapply createTagFolders_keys; [exact Hfolders|].
    unfold excluded, excludedFor in *.
    eapply tag_folders_valid; eauto. }
  assert (J0 : saving_ok root (w_now w) m [] w4).
  { split; [exact J4|]. split; [congruence|]. rewrite E4.
    split; [intros b []|]. split; [intros p []|reflexivity]. }
  pose proof (save_loop root (w_now w) m pairs [] 0 w4 created w' J0 Hall Hsave)
    as ((Hok' & _) & _ & S1 & S2 & Len).
  simpl in S1, S2, Len.
  assert (Hpairs : forall bm tag,
            In (bm, tag) pairs
            <-> In bm (w_remote w) /\ In tag (validTags excluded bm)).
  { intros bm tag. unfold pairs. rewrite in_flat_map. split.
    - intros (bm' & Hbm & Hp). apply in_map_iff in Hp as (tag' & [= <- <-] & Ht).
      split; [|exact Ht]. unfold sortedBookmarks in Hbm.
      destruct (configOrder (w_config w)); [now apply sort_by_In in Hbm | exact Hbm].
    - intros [Hbm Ht]. exists bm. split; [|now apply in_map].
      unfold sortedBookmarks.
      destruct (configOrder (w_config w)); [now apply sort_by_In | exact Hbm]. }
  split; [|split; [|split; [|exact Hok']]].
  - intros b Hb. destruct (S1 b Hb) as ([bm tag] & Hp & Hs).
    apply Hpairs in Hp as [Hbm Ht]. eauto.
  - intros bm tag Hbm Ht. apply S2. apply Hpairs. auto.
  - rewrite Len. unfold pairs. rewrite pairs_length.
    cbn [OneWay.entries]. symmetry.
    eapply saveBookmarks_count; [|exact Hcount].
    intros bm tag Hbm Ht. apply (Hall (bm, tag)). unfold pairs.
    apply in_flat_map. exists bm. split; [exact Hbm | now apply in_map].
Qed.

Lemma one_way_mirror_witness :
  let w := OneWayCases.world_with OneWayCases.listing in
  let w' := snd (runSync OneWayCases.storage false w) in
  let excluded := excludedFor OneWayCases.storage w in
  exists parent rootFolderId w1,
    OneWay.parentFolderId OneWayCases.storage = Some parent
    /\ getOrCreateFolder (OneWay.folderName OneWayCases.storage) parent w
       = (Ok rootFolderId, w1)
    /\ (forall b, In b (chromeSnapshot rootFolderId w') ->
          exists bm tag, In bm (w_remote w) /\ In tag (validTags excluded bm)
                         /\ saved (w_now w) (bm, tag) b)
    /\ (forall bm tag, In bm (w_remote w) -> In tag (validTags excluded bm) ->
          exists b, In b (chromeSnapshot rootFolderId w')
                    /\ saved (w_now w) (bm, tag) b)
    /\ Z.of_nat (List.length (chromeSnapshot rootFolderId w')) = 3
    /\ tree_ok w'.
Proof.
  refine (one_way_mirror OneWayCases.storage false
            (OneWayCases.world_with OneWayCases.listing)
            (OneWay.mkSummary 3 3 3)
            (OneWay.mkStorage "Linkding" (Some 0) "bookmark-sync, private"
                              (Some 2000) (Some 3) (Some 3))
            (snd (runSync OneWayCases.storage false
                          (OneWayCases.world_with OneWayCases.listing)))
            _ _).
  - split; simpl; [repeat constructor; simpl; intuition discriminate
                  |repeat constructor].
  - vm_compute. reflexivity.
Defined.

(* ================================================================== *)
(** ** Bookmark events: is the change inside the two-way folder? *)
(* ================================================================== *)

(** [node.parentId] of the node [id] of the tree: the id of the folder that
    holds it.  The root of the tree has none. *)
Fixpoint parentId (id : Z) (n : BNode) {struct n} : option Z :=
  match n with
  | Bookmark _ _ _ _ => None
  | Folder i _ ch =>
      (fix first (l : list BNode) : option Z :=
         match l with
         | [] => None
         | c :: r => if Z.eqb (Chrome.node_id c) id then Some i
                     else match parentId id c with
                          | Some p => Some p
                          | None => first r
                          end
         end) ch
  end.

(** One turn of the loop of [isInsideTwoWayFolder], after the test
    [currentId === twoWaySyncFolderId]: the parent to go on with, or the
    answer of the [catch]. *)
Definition parentOf (currentId : Z) : M (option Z + bool) :=
  try_catch (node <- Chrome.get currentId ;;
             tree <- gets w_chrome ;;
             ret (inl (parentId (Chrome.node_id node) tree)))
            (fun _ => ret (inr false)).

(** [isInsideTwoWayFolder(nodeId, twoWaySyncFolderId)]: the loop
    [while (currentId)], of at most [fuel] turns; [None] when the turns do
    not suffice. *)
Fixpoint isInsideTwoWayFolder (fuel : nat) (currentId : option Z)
    (twoWaySyncFolderId : Z) : M (option bool) :=
  match currentId with
  | None => ret (Some false)
  | Some cur =>
      match fuel with
      | O => ret None
      | S fuel' =>
          if Z.eqb cur twoWaySyncFolderId then ret (Some true)
          else
            next <- parentOf cur ;;
            match next with
            | inl parent => isInsideTwoWayFolder fuel' parent twoWaySyncFolderId
            | inr answer => ret (Some answer)
            end
      end
  end.

(** [isInsideTwoWaySyncFolder(folderId)] of the background script. *)
Definition isInsideTwoWaySyncFolder (fuel : nat) (folderId : option Z)
  : M (option bool) :=
  try_catch
    (settings <- getSettings ;;
     if negb (s_twoWayEnabled settings) then ret (Some false)
     else match s_twoWaySyncFolderId settings with
          | None => ret (Some false)
          | Some twoWaySyncFolderId =>
              isInsideTwoWayFolder fuel folderId twoWaySyncFolderId
          end)
    (fun _ => ret (Some false)).

(** The search of [parentId] among the children of the folder [i]. *)
Fixpoint parent_first (id i : Z) (l : list BNode) : option Z :=
  match l with
  | [] => None
  | c :: r => if Z.eqb (Chrome.node_id c) id then Some i
              else match parentId id c with
                   | Some p => Some p
                   | None => parent_first id i r
                   end
  end.

Lemma parentId_folder id i t ch :
  parentId id (Folder i t ch) = parent_first id i ch.
Proof.
  simpl. induction ch as [|c r IH]; [reflexivity|].
  simpl. destruct (Z.eqb (Chrome.node_id c) id); [reflexivity|].
  destruct (parentId id c); [reflexivity | exact IH].
Qed.

Lemma parentId_below id n p : parentId id n = Some p -> In id (below n).
Proof.
  revert p. induction n as [i t u d|i t ch IH] using BNode_nested_ind; intros p.
  - discriminate.
  - rewrite parentId_folder. simpl. rewrite Forall_forall in IH.
    induction ch as [|c r IHr]; simpl; [discriminate|].
    destruct (Z.eqb (Chrome.node_id c) id) eqn:E.
    + intros _. apply Z.eqb_eq in E. apply in_or_app. left.
      rewrite <- E. apply node_id_in_ids.
    + destruct (parentId id c) as [q|] eqn:Pc.
      * intros _. apply in_or_app. left. rewrite ids_below. right.
        apply (IH c (or_introl eq_refl) q Pc).
      * intros H. apply in_or_app. right. apply IHr; [|exact H].
        intros y Hy. apply IH. now right.
Qed.

Lemma parentId_absent id n : ~ In id (ids n) -> parentId id n = None.
Proof.
  intros H. destruct (parentId id n) as [p|] eqn:E; [|reflexivity].
  exfalso. apply H. rewrite ids_below. right. eapply parentId_below; eauto.
Qed.

Lemma NoDup_app_disjoint {A : Type} (l1 l2 : list A) x :
  NoDup (l1 ++ l2) -> In x l1 -> In x l2 -> False.
Proof.
  induction l1 as [|a l IH]; intros ND H1 H2; [contradiction|].
  simpl in ND. inversion ND as [|? ? Hn ND']; subst.
  destruct H1 as [->|H1]; [apply Hn, in_or_app; now right | eauto].
Qed.

(** In a tree whose ids are distinct, [parentId] of a child of a folder is
    the id of that folder. *)
Lemma parentId_child n :
  NoDup (ids n) ->
  forall i t ch c, subnode (Folder i t ch) n -> In c ch ->
                   parentId (Chrome.node_id c) n = Some i.
Proof.
  induction n as [j t0 u d|j t0 ch0 IH] using BNode_nested_ind;
    intros ND i t ch c S Hc.
  - inversion S.
  - rewrite parentId_folder. rewrite Forall_forall in IH.
    simpl in ND. inversion ND as [|? ? _ ND0]; subst. clear ND.
    inversion S as [|? ? ? c1 Hin1 S1]; subst.
    + (* the folder itself *)
      clear IH S. induction ch0 as [|c0 r IHr]; [contradiction|].
      simpl. destruct (Z.eqb (Chrome.node_id c0) (Chrome.node_id c)) eqn:E;
        [reflexivity|].
      destruct Hc as [->|Hc]; [rewrite Z.eqb_refl in E; discriminate|].
      simpl in ND0. rewrite parentId_absent.
      * apply IHr; [exact Hc | eapply NoDup_app_remove_l; eauto].
      * intros Hin. eapply NoDup_app_disjoint; [exact ND0 | exact Hin|].
        apply in_flat_map. exists c. split; [exact Hc | apply node_id_in_ids].
    + (* below the child [c1] *)
      pose proof (child_below _ _ _ _ _ S1 Hc) as Hb.
      clear S. induction ch0 as [|c0 r IHr]; [contradiction|].
      simpl in ND0. simpl.
      destruct Hin1 as [->|Hin1].
      * assert (NDc : NoDup (ids c1)) by (eapply NoDup_app_remove_r; eauto).
        rewrite ids_below in NDc. inversion NDc as [|? ? Hn _]; subst.
        destruct (Z.eqb (Chrome.node_id c1) (Chrome.node_id c)) eqn:E.
        { apply Z.eqb_eq in E. rewrite E in Hn. contradiction. }
        rewrite (IH c1 (or_introl eq_refl)
                    ltac:(eapply NoDup_app_remove_r; eauto) i t ch c S1 Hc).
        reflexivity.
      * assert (Hno : ~ In (Chrome.node_id c) (ids c0)).
        { intros Hin. eapply NoDup_app_disjoint; [exact ND0 | exact Hin|].
          apply in_flat_map. exists c1. split; [exact Hin1|].
          rewrite ids_below. now right. }
        destruct (Z.eqb (Chrome.node_id c0) (Chrome.node_id c)) eqn:E.
        { exfalso. apply Hno. apply Z.eqb_eq in E. rewrite <- E.
          apply node_id_in_ids. }
        rewrite (parentId_absent _ _ Hno).
        apply IHr; [intros y Hy; apply IH; now right
                   | eapply NoDup_app_remove_l; eauto | exact Hin1].
Qed.

(** A node of the tree is the root or hangs in a folder of the tree. *)
Lemma subnode_parent x n :
  subnode x n ->
  x = n \/ exists i t ch, subnode (Folder i t ch) n /\ In x ch.
Proof.
  induction 1 as [|i t ch c Hin S IH]; [now left|]. right.
  destruct IH as [->|(i' & t' & ch' & S' & Hx)].
  - exists i, t, ch. split; [constructor | exact Hin].
  - exists i', t', ch'. split; [eapply sub_child; eauto | exact Hx].
Qed.

Lemma subnode_size m n :
  subnode m n -> (List.length (ids m) <= List.length (ids n))%nat.
Proof.
  induction 1 as [|i t ch c Hin S IH]; [lia|].
  simpl. apply Nat.le_trans with (1 := IH). clear - Hin.
  induction ch as [|c0 r IHr]; [contradiction|].
  simpl. rewrite length_app. destruct Hin as [->|Hin]; [lia|].
  specialize (IHr Hin). lia.
Qed.

Lemma child_size i t ch c :
  In c ch -> (List.length (ids c) < List.length (ids (Folder i t ch)))%nat.
Proof.
  intros Hin.
  pose proof (subnode_size c (Folder i t ch)
                (sub_child c i t ch c Hin (sub_here c))) as H.
  simpl in *. clear H. induction ch as [|c0 r IHr]; [contradiction|].
  simpl. rewrite length_app. destruct Hin as [->|Hin]; [lia|].
  specialize (IHr Hin). lia.
Qed.

(** [x] hangs in the folder [twoWaySyncFolderId] of the tree, or is it. *)
Definition within (tree : BNode) (root : Z) (x : BNode) : Prop :=
  exists r, subnode r tree /\ Chrome.node_id r = root /\ subnode x r.

Lemma get_subnode tree x w :
  NoDup (ids tree) -> w_chrome w = tree -> subnode x tree ->
  Chrome.get (Chrome.node_id x) w = (Ok x, w).
Proof.
  intros ND Hw S. unfold Chrome.get, bind, gets. rewrite Hw.
  destruct (find_node_present (Chrome.node_id x) tree) as [m Hm].
  { apply (subnode_ids _ _ S), node_id_in_ids. }
  rewrite Hm. destruct (find_node_sub _ _ _ Hm) as [Sm Im].
  rewrite (subnode_unique tree ND m x Sm S Im). reflexivity.
Qed.

Lemma parentId_root n : NoDup (ids n) -> parentId (Chrome.node_id n) n = None.
Proof.
  intros ND. destruct (parentId (Chrome.node_id n) n) as [p|] eqn:P;
    [|reflexivity].
  exfalso. rewrite ids_below in ND. inversion ND as [|? ? Hn _]; subst.
  apply Hn. eapply parentId_below; eauto.
Qed.

(** Nothing of the tree holds the root of the tree but the root. *)
Lemma subnode_antisym r n : subnode r n -> subnode n r -> r = n.
Proof.
  intros S1 S2. destruct (subnode_parent _ _ S1) as [E|(i & t & ch & Sp & Hr)];
    [exact E|].
  exfalso. pose proof (child_size i t ch r Hr) as L1.
  pose proof (subnode_size _ _ Sp) as L2.
  pose proof (subnode_size _ _ S2) as L3. lia.
Qed.

(** The loop, started at a node of the tree: it ends within as many turns
    as the tree has nodes, and says whether the node is within the
    folder. *)
Lemma inside_loop tree root w :
  NoDup (ids tree) -> w_chrome w = tree ->
  forall fuel x,
    subnode x tree ->
    (List.length (ids tree) < fuel + List.length (ids x))%nat ->
    exists b,
      isInsideTwoWayFolder fuel (Some (Chrome.node_id x)) root w
      = (Ok (Some b), w)
      /\ (b = true <-> within tree root x).
Proof.
  intros ND Hw. subst tree. induction fuel as [|fuel IH]; intros x S Hf.
  - apply subnode_size in S. lia.
  - simpl. destruct (Z.eqb (Chrome.node_id x) root) eqn:E.
    + exists true. split; [reflexivity|]. split; [|reflexivity]. intros _.
      apply Z.eqb_eq in E. exists x. split; [exact S|]. split; [exact E|constructor].
    + apply Z.eqb_neq in E.
      unfold bind, parentOf, try_catch.
      unfold bind at 1. rewrite (get_subnode _ x w ND eq_refl S).
      unfold bind, gets, ret.
      destruct (subnode_parent _ _ S) as [->|(i & t & ch & Sp & Hx)].
      * (* the root of the tree *)
        rewrite (parentId_root _ ND). simpl.
        exists false. split; [destruct fuel; reflexivity|]. split; [discriminate|].
        intros (r & Sr & Ir & Sx). exfalso. apply E.
        now rewrite <- (subnode_antisym _ _ Sr Sx).
      * (* a child of the folder [i] *)
        rewrite (parentId_child _ ND i t ch x Sp Hx).
        pose proof (child_size i t ch x Hx) as L.
        destruct (IH (Folder i t ch) Sp ltac:(lia)) as (b & Hb & Hiff).
        simpl in Hb. rewrite Hb.
        exists b. split; [reflexivity|]. rewrite Hiff.
        assert (Sxp : subnode x (Folder i t ch))
          by (eapply sub_child; [exact Hx | constructor]).
        split; intros (r & Sr & Ir & Sin); exists r;
          (split; [exact Sr|]); (split; [exact Ir|]).
        -- eapply subnode_trans; eauto.
        -- destruct (subnode_parent _ _ Sin) as [->|(i' & t' & ch' & Sp' & Hx')];
             [contradiction|].
           assert (Sp'' : subnode (Folder i' t' ch') (w_chrome w))
             by (eapply subnode_trans; eauto).
           pose proof (parentId_child _ ND i' t' ch' x Sp'' Hx') as P'.
           rewrite (parentId_child _ ND i t ch x Sp Hx) in P'.
           injection P' as ->.
           rewrite (subnode_unique _ ND (Folder i' t ch) (Folder i' t' ch')
                      Sp Sp'' eq_refl). exact Sp'.
Qed.

Lemma find_node_absent id n : ~ In id (ids n) -> Chrome.find_node id n = None.
Proof.
  intros H. destruct (Chrome.find_node id n) as [m|] eqn:E; [|reflexivity].
  exfalso. apply H. destruct (find_node_sub _ _ _ E) as [S I].
  rewrite <- I. apply (subnode_ids _ _ S), node_id_in_ids.
Qed.

(** X23.  Which bookmark events count as changes of the two-way folder.
    In a tree whose ids are distinct the walk up the parents ends within as
    many turns as the tree has nodes, without changing anything.  The answer
    is yes exactly when two-way sync is enabled, a two-way folder is
    configured, and the folder of the event is the two-way folder or lies
    in the tree somewhere below it.  An id that is not in the tree, a
    missing id and a two-way folder that no longer exists give no (unless
    the id is the one configured). *)
Theorem inside_two_way_folder (fuel : nat) (folderId : option Z) (w : World)
    (Hids : NoDup (ids (w_chrome w)))
    (Hfuel : (List.length (ids (w_chrome w)) <= fuel)%nat) :
  exists b,
    isInsideTwoWaySyncFolder fuel folderId w = (Ok (Some b), w)
    /\ (b = true
        <-> s_twoWayEnabled (w_settings w) = true
            /\ exists root nodeId,
                 s_twoWaySyncFolderId (w_settings w) = Some root
                 /\ folderId = Some nodeId
                 /\ (nodeId = root
                     \/ exists r, Chrome.find_node root (w_chrome w) = Some r
                                  /\ In nodeId (ids r))).
Proof.
  unfold isInsideTwoWaySyncFolder, try_catch, getSettings, bind, gets.
  destruct (s_twoWayEnabled (w_settings w)) eqn:Ee; cbn [negb].
  2:{ exists false. split; [reflexivity|]. split; [discriminate|].
      intros (H & _). discriminate. }
  destruct (s_twoWaySyncFolderId (w_settings w)) as [root|] eqn:Er.
  2:{ exists false. split; [reflexivity|]. split; [discriminate|].
      intros (_ & root & nodeId & H & _). discriminate. }
  destruct folderId as [nodeId|].
  2:{ exists false. split; [destruct fuel; reflexivity|]. split; [discriminate|].
      intros (_ & r0 & n0 & _ & H & _). discriminate. }
  assert (Shape : forall b,
            (b = true <-> (nodeId = root
                           \/ exists r, Chrome.find_node root (w_chrome w) = Some r
                                        /\ In nodeId (ids r))) ->
            (b = true
             <-> true = true
                 /\ exists root0 nodeId0,
                      Some root = Some root0 /\ Some nodeId = Some nodeId0
                      /\ (nodeId0 = root0
                          \/ exists r, Chrome.find_node root0 (w_chrome w) = Some r
                                       /\ In nodeId0 (ids r)))).
  { intros b Hb. rewrite Hb. split.
    - intros H. split; [reflexivity|]. exists root, nodeId. auto.
    - intros (_ & r0 & n0 & [= <-] & [= <-] & H). exact H. }
  destruct (in_dec Z.eq_dec nodeId (ids (w_chrome w))) as [Hin|Hout].
  - destruct (find_node_present _ _ Hin) as [x Hx].
    destruct (find_node_sub _ _ _ Hx) as [Sx Ix].
    pose proof (subnode_size _ _ Sx) as Lx.
    assert (L1 : (1 <= List.length (ids x))%nat)
      by (rewrite ids_below; simpl; lia).
    destruct (inside_loop (w_chrome w) root w Hids eq_refl fuel x Sx ltac:(lia))
      as (b & Hb & Hiff).
    rewrite Ix in Hb. rewrite Hb. exists b. split; [reflexivity|].
    apply Shape. rewrite Hiff. split.
    + intros (r & Sr & Ir & Sin).
      right. exists r. split.
      * destruct (find_node_present root (w_chrome w)) as [m Hm].
        { rewrite <- Ir. apply (subnode_ids _ _ Sr), node_id_in_ids. }
        destruct (find_node_sub _ _ _ Hm) as [Sm Im].
        rewrite Hm. f_equal.
        apply (subnode_unique _ Hids m r Sm Sr). congruence.
      * rewrite <- Ix. apply (subnode_ids _ _ Sin), node_id_in_ids.
    + intros [->|(r & Hr & Hn)].
      * exists x. split; [exact Sx|]. split; [exact Ix | constructor].
      * destruct (find_node_sub _ _ _ Hr) as [Sr Ir].
        exists r. split; [exact Sr|]. split; [exact Ir|].
        destruct (find_node_present _ _ Hn) as [x' Hx'].
        destruct (find_node_sub _ _ _ Hx') as [Sx' Ix'].
        assert (x' = x).
        { apply (subnode_unique _ Hids); [eapply subnode_trans; eauto | exact Sx|].
          congruence. }
        now subst x'.
  - assert (L1 : (1 <= List.length (ids (w_chrome w)))%nat)
      by (rewrite ids_below; simpl; lia).
    destruct fuel as [|fuel]; [lia|]. simpl.
    destruct (Z.eqb nodeId root) eqn:E.
    + exists true. split; [reflexivity|]. apply Shape.
      apply Z.eqb_eq in E. split; auto.
    + apply Z.eqb_neq in E.
      unfold bind, parentOf, try_catch, Chrome.get, bind, gets, throw, ret.
      rewrite (find_node_absent _ _ Hout).
      exists false. split; [reflexivity|]. apply Shape.
      split; [discriminate|]. intros [->|(r & Hr & Hn)]; [contradiction|].
      exfalso. apply Hout. destruct (find_node_sub _ _ _ Hr) as [Sr _].
      apply (subnode_ids _ _ Sr), Hn.
Qed.

Lemma inside_two_way_folder_witness :
  exists b,
    isInsideTwoWaySyncFolder 4 (Some 2) Scenario.conflictWorld
    = (Ok (Some b), Scenario.conflictWorld)
    /\ (b = true
        <-> s_twoWayEnabled (w_settings Scenario.conflictWorld) = true
            /\ exists root nodeId,
                 s_twoWaySyncFolderId (w_settings Scenario.conflictWorld)
                 = Some root
                 /\ Some 2 = Some nodeId
                 /\ (nodeId = root
                     \/ exists r,
                          Chrome.find_node root (w_chrome Scenario.conflictWorld)
                          = Some r
                          /\ In nodeId (ids r))).
Proof.
  apply (inside_two_way_folder 4 (Some 2) Scenario.conflictWorld).
  - simpl. repeat constructor; simpl; intuition discriminate.
  - simpl. lia.
Defined.

(* ================================================================== *)
(** ** Asking twice for the same folder path *)
(* ================================================================== *)

(** The folder [cur] of the tree has a folder titled [name], and the first
    such child has the id [c]: what [getOrCreateFolder name cur] looks
    for. *)
Definition linked (tree : BNode) (cur : Z) (name : string) (c : Z) : Prop :=
  exists t ch e,
    Chrome.find_node cur tree = Some (Folder cur t ch)
    /\ find (folder_titled name) ch = Some e
    /\ Chrome.node_id e = c.

(** The folders named by [parts], each in the one before, lead from [cur]
    to [final]. *)
Inductive chain (tree : BNode) : Z -> list string -> Z -> Prop :=
| chain_nil cur : chain tree cur [] cur
| chain_cons cur part rest c final :
    linked tree cur part c -> chain tree c rest final ->
    chain tree cur (part :: rest) final.

Lemma folder_titled_hang name p x n :
  folder_titled name (hang p x n) = folder_titled name n.
Proof. destruct n as [i t u d|i t ch]; [reflexivity|]. now rewrite hang_folder. Qed.

Lemma node_id_hang p x n : Chrome.node_id (hang p x n) = Chrome.node_id n.
Proof. destruct n as [i t u d|i t ch]; [reflexivity|]. now rewrite hang_folder. Qed.

Lemma find_titled_hang name p x ch :
  find (folder_titled name) (map (hang p x) ch)
  = option_map (hang p x) (find (folder_titled name) ch).
Proof.
  induction ch as [|c r IH]; [reflexivity|].
  simpl. rewrite folder_titled_hang.
  destruct (folder_titled name c); [reflexivity | exact IH].
Qed.

Lemma find_app_some {A : Type} (f : A -> bool) l1 l2 e :
  find f l1 = Some e -> find f (l1 ++ l2) = Some e.
Proof.
  induction l1 as [|a l IH]; simpl; [discriminate|].
  destruct (f a); [auto | exact IH].
Qed.

Lemma find_app_none {A : Type} (f : A -> bool) l1 l2 :
  find f l1 = None -> find f (l1 ++ l2) = find f l2.
Proof.
  induction l1 as [|a l IH]; simpl; [reflexivity|].
  destruct (f a); [discriminate | exact IH].
Qed.

(** A folder created later, anywhere, leaves the link as it is. *)
Lemma linked_hang tree cur name c p x :
  Chrome.find_node cur x = None ->
  linked tree cur name c -> linked (hang p x tree) cur name c.
Proof.
  intros Hx (t & ch & e & Hf & He & Hc).
  rewrite <- node_id_hang with (p := p) (x := x) in Hc.
  exists t. rewrite (find_hang p x cur tree Hx), Hf. simpl.
  rewrite hang_folder.
  assert (F : find (folder_titled name) (map (hang p x) ch) = Some (hang p x e))
    by (rewrite find_titled_hang, He; reflexivity).
  destruct (Z.eqb cur p).
  - exists (map (hang p x) ch ++ [x])%list, (hang p x e).
    split; [reflexivity|]. split; [now apply find_app_some | exact Hc].
  - exists (map (hang p x) ch), (hang p x e). auto.
Qed.

Lemma linked_present tree cur name c : linked tree cur name c -> In cur (ids tree).
Proof.
  intros (t & ch & e & Hf & _). destruct (find_node_sub _ _ _ Hf) as [S _].
  apply (subnode_ids _ _ S). simpl. now left.
Qed.

Lemma linked_create cur name c p title url w node w' :
  tree_ok w -> linked (w_chrome w) cur name c ->
  Chrome.create p title url w = (Ok node, w') ->
  linked (w_chrome w') cur name c.
Proof.
  intros Hok L H. pose proof (linked_present _ _ _ _ L) as Hin.
  apply chrome_create_tree in H as (_ & Hn & Ht & _). rewrite Ht.
  apply linked_hang; [|exact L].
  apply leaf_find; [subst node; destruct url; exact I|].
  apply (created_is_new w cur node Hok Hin). subst node. now destruct url.
Qed.

Lemma getOrCreateFolder_tree_ok name q w c w' :
  tree_ok w -> getOrCreateFolder name q w = (Ok c, w') -> tree_ok w'.
Proof.
  intros Hok H. unfold getOrCreateFolder in H. peel H.
  apply getChildren_Ok in H0 as [-> _].
  destruct (find _ a).
  - apply ret_Ok in H as [_ ->]. exact Hok.
  - peel H. apply ret_Ok in H as [_ ->]. eapply create_tree_ok; eauto.
Qed.

Lemma linked_step cur name c part q w c' w' :
  tree_ok w -> linked (w_chrome w) cur name c ->
  getOrCreateFolder part q w = (Ok c', w') ->
  linked (w_chrome w') cur name c.
Proof.
  intros Hok L H. unfold getOrCreateFolder in H. peel H.
  apply getChildren_Ok in H0 as [-> _].
  destruct (find _ a).
  - apply ret_Ok in H as [_ ->]. exact L.
  - peel H. apply ret_Ok in H as [_ ->]. eapply linked_create; eauto.
Qed.

Lemma linked_walk cur name c parts :
  forall q w final w',
    tree_ok w -> linked (w_chrome w) cur name c ->
    forM parts (fun currentId part => getOrCreateFolder part currentId) q w
    = (Ok final, w') ->
    linked (w_chrome w') cur name c.
Proof.
  induction parts as [|part rest IH]; intros q w final w' Hok L H.
  - simpl in H. apply ret_Ok in H as [_ ->]. exact L.
  - apply forM_cons_Ok in H as (c1 & w1 & H1 & H2).
    eapply IH; [| |exact H2].
    + eapply getOrCreateFolder_tree_ok; eauto.
    + eapply linked_step; eauto.
Qed.

(** After [getOrCreateFolder], the folder it returned is the one a second
    call finds. *)
Lemma getOrCreateFolder_linked name cur w c w' :
  tree_ok w -> getOrCreateFolder name cur w = (Ok c, w') ->
  linked (w_chrome w') cur name c.
Proof.
  intros Hok H.
  destruct (getOrCreateFolder_parent _ _ _ _ _ H) as (t & ch & Hf).
  unfold getOrCreateFolder in H. peel H.
  apply getChildren_Ok in H0 as [-> (n & Hn & ->)].
  rewrite Hf in Hn. injection Hn as <-.
  fold (folder_titled name) in H.
  destruct (find (folder_titled name) ch) as [existing|] eqn:Ff.
  - apply ret_Ok in H as [-> ->]. exists t, ch, existing. auto.
  - peel H. apply ret_Ok in H as [-> ->].
    pose proof H0 as Hc.
    apply chrome_create_tree in H0 as (_ & Hn & Ht & _). cbv iota in Hn.
    assert (Hx : Chrome.find_node cur a = None).
    { apply leaf_find; [subst a; exact I|].
      apply (created_is_new w cur a Hok).
      - destruct (find_node_sub _ _ _ Hf) as [S _].
        apply (subnode_ids _ _ S). simpl. now left.
      - now subst a. }
    exists t, (map (hang cur a) ch ++ [a])%list, a.
    split; [|split; [|reflexivity]].
    + rewrite Ht, (find_hang cur a cur _ Hx), Hf. simpl.
      rewrite hang_folder, Z.eqb_refl. reflexivity.
    + rewrite find_app_none by (rewrite find_titled_hang, Ff; reflexivity).
      subst a. simpl. now rewrite String.eqb_refl.
Qed.

Lemma walk_chain parts :
  forall cur w final w',
    tree_ok w ->
    forM parts (fun currentId part => getOrCreateFolder part currentId) cur w
    = (Ok final, w') ->
    chain (w_chrome w') cur parts final.
Proof.
  induction parts as [|part rest IH]; intros cur w final w' Hok H.
  - simpl in H. apply ret_Ok in H as [<- _]. constructor.
  - apply forM_cons_Ok in H as (c1 & w1 & H1 & H2).
    pose proof (getOrCreateFolder_tree_ok _ _ _ _ _ Hok H1) as Hok1.
    apply chain_cons with (c := c1).
    + eapply linked_walk; [exact Hok1 | | exact H2].
      exact (getOrCreateFolder_linked part cur w c1 w1 Hok H1).
    + eapply IH; eauto.
Qed.

Lemma chain_walk tree parts cur final w :
  w_chrome w = tree -> chain tree cur parts final ->
  forM parts (fun currentId part => getOrCreateFolder part currentId) cur w
  = (Ok final, w).
Proof.
  intros Hw C. induction C as [cur|cur part rest c final L C IH];
    [reflexivity|].
  destruct L as (t & ch & e & Hf & He & Hc). rewrite <- Hw in Hf.
  simpl. unfold bind at 1.
  rewrite (getOrCreateFolder_found part cur w t ch e Hf He), Hc.
  exact IH.
Qed.

(** X24.  Asking twice for a folder path.  In a tree whose ids are
    distinct, once [ensureFolderPath] has returned the folder of a path, a
    second call for the same path returns the same folder and changes
    nothing: no folder is created twice.  *)
Theorem ensureFolderPath_again (w : World) (root : Z) (path : string)
    (pid : Z) (w1 : World)
    (Hok : tree_ok w)
    (Hfirst : ensureFolderPath root path w = (Ok pid, w1)) :
  ensureFolderPath root path w1 = (Ok pid, w1).
Proof.
  unfold ensureFolderPath in *.
  destruct (negb (truthy path)).
  - apply ret_Ok in Hfirst as [<- <-]. reflexivity.
  - apply chain_walk with (tree := w_chrome w1); [reflexivity|].
    eapply walk_chain; eauto.
Qed.

Lemma ensureFolderPath_again_witness :
  ensureFolderPath 1 "Work/New"
    (snd (ensureFolderPath 1 "Work/New" Scenario.conflictWorld))
  = (Ok 51, snd (ensureFolderPath 1 "Work/New" Scenario.conflictWorld)).
Proof.
  apply (ensureFolderPath_again Scenario.conflictWorld 1 "Work/New" 51
           (snd (ensureFolderPath 1 "Work/New" Scenario.conflictWorld))).
  - split; simpl; [repeat constructor; simpl; intuition discriminate
                  |repeat constructor].
  - vm_compute. reflexivity.
Defined.

(* ================================================================== *)
(** ** The batches of "push" and "pull": which items are skipped *)
(* ================================================================== *)

(** The call "push" sends for a local bookmark: the update that adds its
    path tags to the remote item of the same URL (none when the remote item
    has them all), or the creation of the remote item. *)
Definition push_call (tag : string) (ldByUrl : JsMap.t LdBookmark)
    (cbm : ChromeBookmark) : option Call :=
  let tags := buildTagsForPath tag (c_folderPath cbm) in
  match JsMap.get ldByUrl (c_url cbm) with
  | Some ld =>
      let mergedTags := mergeTags (ld_tag_names ld) tags in
      if tags_changed mergedTags (ld_tag_names ld)
      then Some (LdUpdate (ld_id ld)
                   (updateBody (ld_url ld) (ld_title ld) None (Some mergedTags)))
      else None
  | None =>
      Some (LdCreate (c_url cbm) (or_else (c_title cbm) (c_url cbm)) None tags)
  end.

(** The server rejects the call of the item. *)
Definition push_rejected (w : World) (tag : string)
    (ldByUrl : JsMap.t LdBookmark) (cbm : ChromeBookmark) : bool :=
  match push_call tag ldByUrl cbm with
  | Some c => w_fails w c
  | None => false
  end.

(** The remote store still holds every id it held in [w], and the
    environment rejects the same calls. *)
Definition remote_grown (w w0 : World) : Prop :=
  w_fails w0 = w_fails w
  /\ forall id, existsb (fun bm => Z.eqb (ld_id bm) id) (w_remote w) = true ->
                existsb (fun bm => Z.eqb (ld_id bm) id) (w_remote w0) = true.

Lemma existsb_id_map (f : LdBookmark -> LdBookmark) id l :
  (forall bm, ld_id (f bm) = ld_id bm) ->
  existsb (fun bm => Z.eqb (ld_id bm) id) (map f l)
  = existsb (fun bm => Z.eqb (ld_id bm) id) l.
Proof.
  intros H. induction l as [|a l IH]; [reflexivity|].
  simpl. now rewrite H, IH.
Qed.

Section PushTurn.

Variables (w : World) (tag : string) (ldByUrl : JsMap.t LdBookmark).
Hypothesis Hheld : forall url ld,
  JsMap.get ldByUrl url = Some ld ->
  existsb (fun bm => Z.eqb (ld_id bm) (ld_id ld)) (w_remote w) = true.

(** One turn of the batch of "push". *)
Lemma push_turn acc cbm w0 :
  remote_grown w w0 ->
  exists acc' w1,
    try_catch (pushItem tag ldByUrl acc cbm)
              (fun e => modify (add_console ("Batch item failed: " ++ e)) ;;;
                        ret acc) w0
    = (Ok acc', w1)
    /\ remote_grown w w1
    /\ w_log w1 = (w_log w0 ++ match push_call tag ldByUrl cbm with
                               | Some c => [c]
                               | None => []
                               end)%list
    /\ if push_rejected w tag ldByUrl cbm then acc' = acc
       else (exists e, i_mapping acc' = JsMap.set (i_mapping acc) (c_url cbm) e)
            /\ i_added acc' + i_updated acc'
               = i_added acc + i_updated acc + 1
            /\ i_downloaded acc' = i_downloaded acc.
Proof.
  intros [Hf Hg]. unfold push_rejected, push_call, pushItem. cbv zeta.
  destruct (JsMap.get ldByUrl (c_url cbm)) as [ld|] eqn:Hl.
  - destruct (tags_changed _ _) eqn:Ht.
    + unfold when, updateLinkdingBookmark, try_catch, bind, modify, gets, ret,
        throw.
      cbn [w_fails add_log w_remote]. rewrite Hf.
      destruct (w_fails w _) eqn:R.
      * eexists _, _. split; [reflexivity|].
        unfold remote_grown, set_remote, add_log;
        cbn [w_remote w_log w_fails w_now w_next_ld
             i_mapping i_added i_updated i_downloaded].
        split; [split; [exact Hf | exact Hg]|]. split; reflexivity.
      * change (w_remote (add_log ?c w0)) with (w_remote w0).
        rewrite (Hg _ (Hheld _ _ Hl)).
        eexists _, _. split; [reflexivity|].
        unfold remote_grown, set_remote, add_log;
        cbn [w_remote w_log w_fails w_now w_next_ld
             i_mapping i_added i_updated i_downloaded].
        split; [split; [exact Hf|]|].
        { intros id Hid. rewrite existsb_id_map; [now apply Hg|].
          intros bm. destruct (Z.eqb (ld_id bm) (ld_id ld)); reflexivity. }
        split; [reflexivity|]. split; [eauto|]. split; [lia | reflexivity].
    + unfold when, try_catch, bind, gets, ret.
      eexists _, _. split; [reflexivity|].
        unfold remote_grown, set_remote, add_log;
        cbn [w_remote w_log w_fails w_now w_next_ld
             i_mapping i_added i_updated i_downloaded].
      split; [split; [exact Hf | exact Hg]|].
      split; [now rewrite app_nil_r|]. split; [eauto|]. split; [lia | reflexivity].
  - unfold createLinkdingBookmark, try_catch, bind, modify, gets, ret, throw.
    cbn [w_fails add_log w_remote]. rewrite Hf.
    destruct (w_fails w _) eqn:R.
    + eexists _, _. split; [reflexivity|].
        unfold remote_grown, set_remote, add_log;
        cbn [w_remote w_log w_fails w_now w_next_ld
             i_mapping i_added i_updated i_downloaded].
      split; [split; [exact Hf | exact Hg]|]. split; reflexivity.
    + eexists _, _. split; [reflexivity|].
        unfold remote_grown, set_remote, add_log;
        cbn [w_remote w_log w_fails w_now w_next_ld
             i_mapping i_added i_updated i_downloaded].
      split; [split; [exact Hf|]|].
      { intros id Hid. rewrite existsb_app. rewrite (Hg id Hid). reflexivity. }
      split; [reflexivity|]. split; [eauto|]. split; [lia | reflexivity].
Qed.

End PushTurn.

Section PushBatch.

Variables (w : World) (tag : string) (ldByUrl : JsMap.t LdBookmark).
Hypothesis Hheld : forall url ld,
  JsMap.get ldByUrl url = Some ld ->
  existsb (fun bm => Z.eqb (ld_id bm) (ld_id ld)) (w_remote w) = true.

Let calls (items : list ChromeBookmark) : list Call :=
  flat_map (fun cbm => match push_call tag ldByUrl cbm with
                       | Some c => [c]
                       | None => []
                       end) items.

Let accepted (items : list ChromeBookmark) : list ChromeBookmark :=
  filter (fun cbm => negb (push_rejected w tag ldByUrl cbm)) items.

(** The batch of "push": every item is tried, the rejected ones are
    skipped. *)
Lemma push_batch items :
  forall acc w0,
    remote_grown w w0 ->
    exists acc' w1,
      processBatch items (pushItem tag ldByUrl) acc w0 = (Ok acc', w1)
      /\ remote_grown w w1
      /\ w_log w1 = (w_log w0 ++ calls items)%list
      /\ i_downloaded acc' = i_downloaded acc
      /\ i_added acc' + i_updated acc'
         = i_added acc + i_updated acc
           + Z.of_nat (List.length (accepted items))
      /\ forall url,
           In url (JsMap.keys (i_mapping acc'))
           <-> In url (JsMap.keys (i_mapping acc))
               \/ In url (map c_url (accepted items)).
Proof.
  unfold processBatch.
  induction items as [|cbm rest IH]; intros acc w0 G.
  - exists acc, w0. split; [reflexivity|]. split; [exact G|].
    split; [simpl; now rewrite app_nil_r|]. split; [reflexivity|].
    split; [simpl; lia|]. intros url. simpl. tauto.
  - destruct (push_turn w tag ldByUrl Hheld acc cbm w0 G)
      as (acc1 & w1 & E1 & G1 & L1 & C1).
    destruct (IH acc1 w1 G1) as (acc' & w2 & E2 & G2 & L2 & D2 & N2 & K2).
    exists acc', w2. split.
    { cbn [forM]. unfold bind at 1. rewrite E1. exact E2. }
    split; [exact G2|]. split.
    { rewrite L2, L1. unfold calls. simpl. now rewrite <- app_assoc. }
    unfold accepted in *. simpl filter.
    destruct (push_rejected w tag ldByUrl cbm).
    + subst acc1. simpl negb. cbv iota.
      split; [exact D2|]. split; [exact N2 | exact K2].
    + destruct C1 as ((e & Em) & N1 & D1). simpl negb. cbv iota.
      split; [congruence|]. split.
      { rewrite N2. simpl List.length. rewrite Nat2Z.inj_succ. lia. }
      intros url. rewrite K2, Em, keys_set_iff. simpl. intuition.
Qed.

End PushBatch.

(** The browser rejects no creation of a folder. *)
Definition folders_accepted (w : World) : Prop :=
  forall p t, w_fails w (ChCreate p t None) = false.

(** Whether the browser rejects the creation of a bookmark does not depend
    on the folder it is created in. *)
Definition rejects_by_content (w : World) : Prop :=
  forall p p' t u,
    w_fails w (ChCreate p t (Some u)) = w_fails w (ChCreate p' t (Some u)).

(** The browser rejects the creation of the bookmark for [ld]. *)
Definition pull_rejected (w : World) (ld : LdBookmark) : bool :=
  w_fails w (ChCreate 0 (or_else (ld_title ld) (ld_url ld)) (Some (ld_url ld))).

Lemma create_total p t ch title url w :
  Chrome.find_node p (w_chrome w) = Some (Folder p t ch) ->
  w_fails w (ChCreate p title url) = false ->
  exists node w', Chrome.create p title url w = (Ok node, w').
Proof.
  intros F A. unfold Chrome.create, Chrome.issue, Chrome.get, bind, modify,
    gets, ret, throw.
  cbn [w_fails add_log w_chrome]. rewrite A.
  change (w_chrome (add_log ?c w)) with (w_chrome w). rewrite F.
  eexists _, _. reflexivity.
Qed.

Lemma getOrCreateFolder_total root name pid path chp w :
  tree_ok w -> reaches (w_chrome w) root pid path chp -> folders_accepted w ->
  exists c w', getOrCreateFolder name pid w = (Ok c, w').
Proof.
  intros Hok R A.
  destruct (reaches_find _ _ _ _ _ (proj1 Hok) R) as [t F].
  unfold getOrCreateFolder, Chrome.getChildren, Chrome.get.
  unfold bind at 1. unfold bind at 1. unfold bind at 1. unfold gets.
  rewrite F. cbn [ret].
  destruct (find _ chp) as [existing|]; [eexists _, _; reflexivity|].
  destruct (create_total pid t chp name None w F (A pid name)) as (node & w' & E).
  unfold bind. rewrite E. eexists _, _. reflexivity.
Qed.

Lemma getOrCreateFolder_keeps_fails name q :
  keeps w_fails (getOrCreateFolder name q).
Proof. kept. Qed.

Lemma walk_total root parts :
  forall pid path chp w,
    tree_ok w -> reaches (w_chrome w) root pid path chp -> folders_accepted w ->
    exists c w',
      forM parts (fun currentId part => getOrCreateFolder part currentId) pid w
      = (Ok c, w').
Proof.
  induction parts as [|part rest IH]; intros pid path chp w Hok R A.
  - eexists _, _. reflexivity.
  - destruct (getOrCreateFolder_total root part pid path chp w Hok R A)
      as (c1 & w1 & E1).
    destruct (getOrCreateFolder_reaches root _ _ _ _ _ _ _ Hok R E1)
      as (Hok1 & _ & _ & chc & R1).
    assert (A1 : folders_accepted w1).
    { pose proof (getOrCreateFolder_keeps_fails part pid w) as K.
      rewrite E1 in K. simpl in K. unfold folders_accepted. now rewrite K. }
    destruct (IH c1 _ chc w1 Hok1 R1 A1) as (c & w' & E).
    exists c, w'. cbn [forM]. unfold bind. rewrite E1. exact E.
Qed.

Lemma walk_keeps_reaches root pid path chp parts :
  forall q w c w',
    tree_ok w -> reaches (w_chrome w) root pid path chp ->
    forM parts (fun currentId part => getOrCreateFolder part currentId) q w
    = (Ok c, w') ->
    exists chp', reaches (w_chrome w') root pid path chp'.
Proof.
  revert chp.
  induction parts as [|part rest IH]; intros chp q w c w' Hok R H.
  - simpl in H. apply ret_Ok in H as [_ ->]. eauto.
  - apply forM_cons_Ok in H as (c1 & w1 & H1 & H2).
    destruct (getOrCreateFolder_keeps_reaches root pid path chp part q w c1 w1
                Hok R H1) as (chp1 & R1).
    eapply IH; [| exact R1 | exact H2].
    eapply getOrCreateFolder_tree_ok; eauto.
Qed.

(** The state of the loop of "pull". *)
Definition pull_ok (w : World) (root : Z) (w0 : World) : Prop :=
  tree_ok w0
  /\ (exists chR, reaches (w_chrome w0) root root "" chR)
  /\ w_fails w0 = w_fails w.

Lemma create_rejected p title url w :
  w_fails w (ChCreate p title url) = true ->
  Chrome.create p title url w
  = (Throw "Browser API call failed.", add_log (ChCreate p title url) w).
Proof.
  intros R. unfold Chrome.create, Chrome.issue, bind, modify, gets, throw.
  cbn [w_fails add_log]. now rewrite R.
Qed.

Section PullBatch.

Variables (w : World) (tag : string) (root : Z).
Hypothesis Hfolders : folders_accepted w.
Hypothesis Hcontent : rejects_by_content w.

(** One turn of the batch of "pull". *)
Lemma pull_turn acc ld w0 :
  pull_ok w root w0 ->
  exists acc' w1,
    try_catch (pullItem tag root acc ld)
              (fun e => modify (add_console ("Batch item failed: " ++ e)) ;;;
                        ret acc) w0
    = (Ok acc', w1)
    /\ pull_ok w root w1
    /\ if pull_rejected w ld then acc' = acc
       else (exists e, i_mapping acc' = JsMap.set (i_mapping acc) (ld_url ld) e)
            /\ i_downloaded acc' = i_downloaded acc + 1
            /\ i_added acc' = i_added acc /\ i_updated acc' = i_updated acc.
Proof.
  intros (Hok & (chR & RR) & Hf).
  assert (A0 : folders_accepted w0) by (unfold folders_accepted; now rewrite Hf).
  set (path := extractFolderPath tag (ld_tag_names ld)).
  assert (E : exists pid w1, ensureFolderPath root path w0 = (Ok pid, w1)).
  { unfold ensureFolderPath. destruct (negb (truthy path));
      [eexists _, _; reflexivity|].
    eapply walk_total; eauto. }
  destruct E as (pid & w1 & E).
  assert (P : tree_ok w1
              /\ (exists chp, reaches (w_chrome w1) root pid
                                (if truthy path
                                 then fold_left subPath (split_slash path) ""
                                 else "") chp)
              /\ (exists chR', reaches (w_chrome w1) root root "" chR')
              /\ w_fails w1 = w_fails w0).
  { assert (K : keeps w_fails (ensureFolderPath root path)) by kept.
    specialize (K w0). rewrite E in K. simpl in K.
    unfold ensureFolderPath in E. destruct (truthy path); cbn [negb] in E.
    - destruct (walk_reaches root _ _ _ _ _ _ _ Hok RR E)
        as (Hok1 & _ & _ & chc & Rc).
      split; [exact Hok1|]. split; [eauto|]. split; [|exact K].
      exact (walk_keeps_reaches root root "" chR _ root w0 pid w1 Hok RR E).
    - apply ret_Ok in E as [<- <-]. split; [exact Hok|]. eauto. }
  destruct P as (Hok1 & (chp & Rp) & (chR1 & RR1) & Hf1).
  destruct (reaches_find _ _ _ _ _ (proj1 Hok1) Rp) as [tp Fp].
  set (title := or_else (ld_title ld) (ld_url ld)) in *.
  assert (R : w_fails w1 (ChCreate pid title (Some (ld_url ld)))
              = pull_rejected w ld).
  { rewrite Hf1, Hf. apply Hcontent. }
  unfold try_catch, pullItem. cbv zeta. fold path title.
  unfold bind at 1. rewrite E. unfold bind at 1.
  destruct (pull_rejected w ld).
  - rewrite (create_rejected _ _ _ _ R). unfold bind, modify, ret.
    eexists _, _. split; [reflexivity|]. split; [|reflexivity].
    split; [exact Hok1|]. split; [eauto|]. simpl. congruence.
  - destruct (create_total pid tp chp title (Some (ld_url ld)) w1 Fp R)
      as (node & w2 & C).
    rewrite C. unfold bind, gets, ret.
    eexists _, _. split; [reflexivity|]. split.
    { split; [eapply create_tree_ok; eauto|]. split.
      - eexists. eapply create_reaches; eauto.
      - assert (K : keeps w_fails (Chrome.create pid title (Some (ld_url ld))))
          by kept.
        specialize (K w1). rewrite C in K. simpl in K. congruence. }
    simpl. split; [eauto|]. auto.
Qed.

Let accepted (items : list LdBookmark) : list LdBookmark :=
  filter (fun ld => negb (pull_rejected w ld)) items.

(** The batch of "pull": every item is tried, the rejected ones are
    skipped. *)
Lemma pull_batch items :
  forall acc w0,
    pull_ok w root w0 ->
    exists acc' w1,
      processBatch items (pullItem tag root) acc w0 = (Ok acc', w1)
      /\ i_downloaded acc'
         = i_downloaded acc + Z.of_nat (List.length (accepted items))
      /\ i_added acc' = i_added acc /\ i_updated acc' = i_updated acc
      /\ forall url,
           In url (JsMap.keys (i_mapping acc'))
           <-> In url (JsMap.keys (i_mapping acc))
               \/ In url (map ld_url (accepted items)).
Proof.
  unfold processBatch.
  induction items as [|ld rest IH]; intros acc w0 J.
  - exists acc, w0. split; [reflexivity|]. split; [simpl; lia|].
    split; [reflexivity|]. split; [reflexivity|]. intros url. simpl. tauto.
  - destruct (pull_turn acc ld w0 J) as (acc1 & w1 & E1 & J1 & C1).
    destruct (IH acc1 w1 J1) as (acc' & w2 & E2 & D2 & A2 & U2 & K2).
    exists acc', w2. split.
    { cbn [forM]. unfold bind at 1. rewrite E1. exact E2. }
    unfold accepted in *. simpl filter.
    destruct (pull_rejected w ld).
    + subst acc1. simpl negb. cbv iota. auto.
    + destruct C1 as ((e & Em) & D1 & A1 & U1). simpl negb. cbv iota.
      split.
      { rewrite D2, D1. simpl List.length. rewrite Nat2Z.inj_succ. lia. }
      split; [congruence|]. split; [congruence|].
      intros url. rewrite K2, Em, keys_set_iff. simpl. intuition.
Qed.

End PullBatch.

Lemma filter_Permutation {A : Type} (f : A -> bool) (l l' : list A) :
  Permutation l l' -> Permutation (filter f l) (filter f l').
Proof.
  induction 1 as [|x l l' P IH|x y l|l l' l'' P1 IH1 P2 IH2]; simpl.
  - constructor.
  - destruct (f x); [now constructor | exact IH].
  - destruct (f x), (f y); try reflexivity. apply perm_swap.
  - eapply perm_trans; eauto.
Qed.

Lemma initReady_root w root :
  initReady w = Some root -> s_twoWaySyncFolderId (w_settings w) = Some root.
Proof.
  unfold initReady. destruct (_ && _); [|discriminate].
  destruct (s_twoWaySyncFolderId (w_settings w)) as [r|]; [|discriminate].
  destruct (Chrome.find_node r (w_chrome w)); [|discriminate].
  now intros [= ->].
Qed.

(** What follows the strategy of an initial run: the mapping of the
    strategy is saved, and the log grows by the write of the order at
    most. *)
Lemma initial_run_tail mode w root acc w1 :
  initReady w = Some root ->
  runStrategy mode (s_twoWaySyncTag (w_settings w)) root
              (ldSnapshot w) (chromeSnapshot root w) w = (Ok acc, w1) ->
  exists configError w' l,
    runInitialTwoWaySync mode w
    = (Ok (mkInitResult (i_added acc) (i_updated acc) (i_downloaded acc)
                        (JsMap.size (i_mapping acc)) configError), w')
    /\ w_mapping w' = i_mapping acc
    /\ w_log w' = (w_log w1 ++ l)%list.
Proof.
  intros Hready Hstrat. rewrite (initial_run_unfolds w mode root Hready).
  unfold bind at 1. rewrite Hstrat.
  unfold setMapping, storeInitialSyncDone.
  unfold bind at 1, modify at 1. unfold bind at 1, modify at 1.
  unfold bind at 1.
  match goal with
  | |- context [refreshConfig root ?w0] =>
      destruct (refreshConfig_returns root w0) as (ce & w' & E);
      pose proof (refreshConfig_mapping root w0) as Hm;
      destruct (refreshConfig_log root w0) as (l & L & _)
  end.
  rewrite E in *. simpl in Hm, L. exists ce, w', l.
  split; [reflexivity|]. split; [exact Hm | exact L].
Qed.

(** X16.  The batches of "push" and "pull" skip the items that fail and go
    on with the next.  Past its guards, an initial sync in mode "push"
    always completes.  It sends the call of every local bookmark (the
    creation of the remote item, or the update that adds the path tags to
    the remote item of the same URL), whatever happened to the bookmarks
    before it; a URL is tracked afterwards exactly when the server accepted
    the call of a local bookmark with that URL, and added plus updated is
    the number of local bookmarks whose call was accepted.  In mode "pull",
    in a tree whose ids are distinct and with a browser that lets the synced
    folder be emptied, rejects no creation of a folder and rejects the
    creation of a bookmark by its title and URL alone, the run completes,
    tracks exactly the URLs of the remote bookmarks whose creation was
    accepted and reports their number as downloaded. *)
Theorem batch_modes_skip_failures (w : World) (root : Z)
    (Hready : initReady w = Some root) :
  let tag := s_twoWaySyncTag (w_settings w) in
  let cbms := chromeSnapshot root w in
  let lds := ldSnapshot w in
  (exists r w',
     runInitialTwoWaySync "push" w = (Ok r, w')
     /\ ir_downloaded r = 0
     /\ ir_added r + ir_updated r
        = Z.of_nat (List.length
                      (filter (fun cbm =>
                                 negb (push_rejected w tag (ldIndex w) cbm))
                              cbms))
     /\ (forall url,
           JsMap.has (w_mapping w') url = true
           <-> exists cbm, In cbm cbms /\ c_url cbm = url
                           /\ push_rejected w tag (ldIndex w) cbm = false)
     /\ (forall cbm c,
           In cbm cbms -> push_call tag (ldIndex w) cbm = Some c ->
           issued w w' c))
  /\ (tree_ok w ->
      forall t ch,
        Chrome.find_node root (w_chrome w) = Some (Folder root t ch) ->
        (forall c, In c ch -> w_fails w (removal c) = false) ->
        folders_accepted w -> rejects_by_content w ->
        exists r w',
          runInitialTwoWaySync "pull" w = (Ok r, w')
          /\ ir_added r = 0 /\ ir_updated r = 0
          /\ ir_downloaded r
             = Z.of_nat (List.length
                           (filter (fun ld => negb (pull_rejected w ld)) lds))
          /\ (forall url,
                JsMap.has (w_mapping w') url = true
                <-> exists ld, In ld lds /\ ld_url ld = url
                               /\ pull_rejected w ld = false)).
Proof.
  intros tag cbms lds. split.
  - assert (Hheld : forall url ld,
              JsMap.get (ldIndex w) url = Some ld ->
              existsb (fun bm => Z.eqb (ld_id bm) (ld_id ld)) (w_remote w)
              = true).
    { intros url ld Hg. apply JsMap.index_by_key in Hg as [_ Hin].
      unfold ldSnapshot in Hin. apply filter_In in Hin as [Hin _].
      apply existsb_exists. exists ld. split; [exact Hin | apply Z.eqb_refl]. }
    destruct (push_batch w tag (ldIndex w) Hheld cbms initAcc0 w
                (conj eq_refl (fun id H => H)))
      as (acc & w1 & Hb & _ & L & D & N & K).
    destruct (initial_run_tail "push" w root acc w1 Hready Hb)
      as (ce & w' & l & Hrun & Hm & Ll).
    eexists. exists w'. split; [exact Hrun|].
    cbn [ir_added ir_updated ir_downloaded].
    split; [exact D|]. split; [rewrite N; simpl; lia|]. split.
    + intros url. rewrite Hm, JsMap.has_In_keys, K. simpl.
      rewrite in_map_iff. split.
      * intros [[]|(cbm & Hu & Hin)]. apply filter_In in Hin as [Hin Hr].
        exists cbm. split; [exact Hin|]. split; [exact Hu|].
        now destruct (push_rejected w tag (ldIndex w) cbm).
      * intros (cbm & Hin & Hu & Hr). right. exists cbm. split; [exact Hu|].
        apply filter_In. split; [exact Hin|]. now rewrite Hr.
    + intros cbm c Hin Hc. apply in_split in Hin as (l1 & l2 & E).
      unfold issued. rewrite Ll, L. fold cbms. rewrite E.
      rewrite flat_map_app. simpl. rewrite Hc. simpl.
      match goal with
      | |- exists l0 l3, ((_ ++ ?a ++ c :: ?b) ++ ?d)%list = _ =>
          exists a, (b ++ d)%list
      end.
      rewrite <- !app_assoc. simpl. reflexivity.
  - intros Hok t ch Froot Hrm Hfold Hcont.
    destruct (fetchConfigOrder w) as [[config|e] w0] eqn:Ec.
    2:{ destruct (fetchConfigOrder_returns w) as (c & w0' & E & _). congruence. }
    apply fetchConfigOrder_Ok in Ec as Hc.
    destruct Hc as (_ & _ & Cc & Cn & _ & _ & _ & Cf).
    assert (Hok0 : tree_ok w0) by (unfold tree_ok; now rewrite Cc, Cn).
    assert (F0 : Chrome.find_node root (w_chrome w0) = Some (Folder root t ch))
      by now rewrite Cc.
    pose proof (remove_loop root t ch w0 Hok0 F0) as Lr.
    rewrite <- (removeChildrenOf_loop root t ch w0 F0) in Lr.
    assert (Kr : keeps w_fails (removeChildrenOf root)) by kept.
    specialize (Kr w0).
    destruct (removeChildrenOf root w0) as [[u|e] w2] eqn:Er.
    2:{ destruct Lr as (gone & c & rest & E & _ & R & _).
        rewrite Cf, Hrm in R; [discriminate|].
        rewrite E. apply in_or_app. right. now left. }
    destruct Lr as (F2 & Hok2 & _ & _ & _). simpl in Kr.
    assert (J : pull_ok w root w2).
    { split; [exact Hok2|]. split; [|congruence].
      exists []. exists t, []. split; [exact F2 | left; auto]. }
    set (items := match config with
                  | Some order =>
                      sort_by (fun bm => order_rank order (ld_url bm)) lds
                  | None => lds
                  end).
    assert (Hperm : Permutation lds items).
    { unfold items. destruct config as [order|]; [|reflexivity].
      apply (sort_from LdBookmark (fun bm => order_rank order (ld_url bm))
                       lds [] (SSorted_nil _)). }
    destruct (pull_batch w tag root Hfold Hcont items initAcc0 w2 J)
      as (acc & w3 & Hb & D & A & U & K).
    assert (Hstrat : runStrategy "pull" tag root lds cbms w = (Ok acc, w3)).
    { rewrite runStrategy_pull. unfold bind at 1. rewrite Ec.
      unfold bind at 1. rewrite Er. exact Hb. }
    destruct (initial_run_tail "pull" w root acc w3 Hready Hstrat)
      as (ce & w' & l & Hrun & Hm & _).
    eexists. exists w'. split; [exact Hrun|].
    cbn [ir_added ir_updated ir_downloaded].
    split; [exact A|]. split; [exact U|]. split.
    + rewrite D. simpl.
      rewrite (Permutation_length
                 (filter_Permutation (fun ld => negb (pull_rejected w ld))
                    lds items Hperm)).
      reflexivity.
    + intros url. rewrite Hm, JsMap.has_In_keys, K. simpl.
      rewrite in_map_iff. split.
      * intros [[]|(ld & Hu & Hin)]. apply filter_In in Hin as [Hin Hr].
        exists ld. split; [|split; [exact Hu|]].
        -- eapply Permutation_in; [symmetry; exact Hperm | exact Hin].
        -- now destruct (pull_rejected w ld).
      * intros (ld & Hin & Hu & Hr). right. exists ld. split; [exact Hu|].
        apply filter_In. split; [|now rewrite Hr].
        eapply Permutation_in; [exact Hperm | exact Hin].
Qed.

Lemma batch_modes_skip_failures_witness :
  (exists r w',
     runInitialTwoWaySync "push" Scenario.faultyWorld = (Ok r, w')
     /\ ir_added r + ir_updated r = 1
     /\ JsMap.has (w_mapping w') Scenario.urlA = false
     /\ JsMap.has (w_mapping w') Scenario.urlB = true)
  /\ (exists r w',
        runInitialTwoWaySync "pull" Scenario.faultyPullWorld = (Ok r, w')
        /\ ir_downloaded r = 1
        /\ JsMap.has (w_mapping w') Scenario.urlA = false
        /\ JsMap.has (w_mapping w') Scenario.urlB = true).
Proof.
  split.
  - destruct (proj1 (batch_modes_skip_failures Scenario.faultyWorld 1 eq_refl))
      as (r & w' & Hrun & _ & N & K & _).
    exists r, w'. split; [exact Hrun|]. split; [exact N|]. split.
    + destruct (JsMap.has (w_mapping w') Scenario.urlA) eqn:H; [|reflexivity].
      apply K in H as (cbm & Hin & Hu & Hr).
      simpl in Hin. destruct Hin as [<-|[<-|[]]]; discriminate.
    + apply K. exists (mkCbm 11 Scenario.urlB "B" 301 "").
      split; [simpl; auto|]. split; reflexivity.
  - destruct (proj2 (batch_modes_skip_failures Scenario.faultyPullWorld 1 eq_refl))
      with (t := "Synced") (ch := @nil BNode)
      as (r & w' & Hrun & _ & _ & D & K).
    + split; simpl; [repeat constructor; simpl; intuition discriminate
                    |repeat constructor].
    + reflexivity.
    + intros c [].
    + intros p t. reflexivity.
    + intros p p' t u. reflexivity.
    + exists r, w'. split; [exact Hrun|]. split; [exact D|]. split.
      * destruct (JsMap.has (w_mapping w') Scenario.urlA) eqn:H; [|reflexivity].
        apply K in H as (ld & Hin & Hu & Hr).
        simpl in Hin. destruct Hin as [<-|[<-|[]]]; discriminate.
      * apply K. exists (mkLd 101 Scenario.urlB "B" ["sync"] (Some 400)).
        split; [simpl; auto|]. split; reflexivity.
Defined.

(* ================================================================== *)
(** ** Linking without a duplicate: the tags *)
(* ================================================================== *)









